(** * diagrams-flow: the tree editor of [src/v14.tsx]

    A shallow embedding of the tree state and layout engine of the editor
    (layout, connector derivation, the add / delete / relink handlers and
    the relink selection protocol), and of the measured-width variant of
    the subtree width of the second editor.

    Conventions of the embedding.
    - A JavaScript number is an exact rational ([Q]); all quantities the
      layout computes are sums and halves of the inputs, numeric equality is
      [Qeq].  The host computes in binary64, which is exact on whole
      numbers of moderate size and their halves: that is every number the
      editor of [v14.tsx] lays out (its root is created at (300, 50), its
      widths and gaps are whole).  On other inputs (a root at a fractional
      place, fractional measured widths) the host rounds; [Whole] marks
      the statements that need whole numbers.
    - The node array is a [list Node]; a node object is identified by its
      index in the array, so an in-place update of an object is a list
      update at its index.
    - An object literal used as a dictionary ([childrenMap],
      [nodeParentsRef.current]) is a finite map from strings, which stands
      for the object on the keys it does not inherit from
      [Object.prototype] ([inheritedKeys]); a [Set] of strings is a list of
      strings.
    - A recursive function of the source takes a [fuel] argument and
      returns [None] when it runs out: the source recursion need not
      terminate on an arbitrary node array. *)

From Stdlib Require Import QArith Qminmax Lqa Lia.
From Stdlib Require Import DecimalString DecimalNat.
From stdpp Require Import base option list gmap strings.

Local Open Scope string_scope.
Local Open Scope list_scope.

(** ** Values *)

(** [String(n)] / [n.toString()] / template interpolation of a counter. *)
Definition toString (n : nat) : string :=
  NilEmpty.string_of_uint (Nat.to_uint n).

(** Truthiness of a string: every string but the empty one. *)
Definition truthy (s : string) : bool := negb (String.eqb s "").

(** Truthiness of a [string | null]. *)
Definition truthyId (p : option string) : bool :=
  match p with
  | Some s => truthy s
  | None => false
  end.

(** Constants for layout and dimensions. *)
Definition NODE_WIDTH : Q := 180.
Definition VERTICAL_GAP : Q := 120.
Definition HORIZONTAL_GAP : Q := 30.

(** Node type options and the depth palette. *)
Definition NODE_TYPES : list string :=
  ["System"; "Subsystem"; "Component"; "Part"].
Definition backgrounds : list string := ["#172A2E"; "#22383C"; "#051114"].

(** A number of the host language from a count. *)
Definition num (n : nat) : Q := inject_Z (Z.of_nat n).

(** ** Nodes *)

(** A React Flow node as the editors use it.  [parentId], [label], [kind]
    ([data.type]), [background], [visible], [dataIsRelinkMode] and
    [dataSelectedNodeForRelink] are the fields of [node.data]; [display] is
    [node.style.display]; [measuredWidth] is [node.measured?.width], which
    only the measuring editor reads.  [background] is [None] and [visible]
    is [false] (for the source's [undefined]) until the layout visits the
    node. *)
Record Node := mkNode {
  id : string;
  parentId : option string;
  label : string;
  kind : string;
  position : Q * Q;
  measuredWidth : option Q;
  background : option string;
  visible : bool;
  display : option string;
  draggable : bool;
  dataIsRelinkMode : bool;
  dataSelectedNodeForRelink : option string
}.

Definition setDraggable (d : bool) (n : Node) : Node :=
  mkNode (id n) (parentId n) (label n) (kind n) (position n)
         (measuredWidth n) (background n) (visible n) (display n) d
         (dataIsRelinkMode n) (dataSelectedNodeForRelink n).

Definition setParentId (p : option string) (n : Node) : Node :=
  mkNode (id n) p (label n) (kind n) (position n)
         (measuredWidth n) (background n) (visible n) (display n)
         (draggable n) (dataIsRelinkMode n) (dataSelectedNodeForRelink n).

Definition setRelinkData (m : bool) (sel : option string) (n : Node) : Node :=
  mkNode (id n) (parentId n) (label n) (kind n) (position n)
         (measuredWidth n) (background n) (visible n) (display n)
         (draggable n) m sel.

(** The four assignments at the head of [layoutNode]. *)
Definition place (xCenter y : Q) (depth : nat) (vis : bool) (n : Node) : Node :=
  mkNode (id n) (parentId n) (label n) (kind n)
         (xCenter - NODE_WIDTH / 2, y)%Q
         (measuredWidth n)
         (backgrounds !! (Nat.min depth (length backgrounds - 1)))
         vis
         (Some (if vis then "block" else "none"))
         (draggable n) (dataIsRelinkMode n) (dataSelectedNodeForRelink n).

(** The structural part of a node, which no layout pass changes. *)
Definition skel (n : Node) : string * option string := (id n, parentId n).

(** ** The children index *)

(** [childrenMap] is a plain object, [{}]: on the property names it
    inherits from [Object.prototype] a lookup finds the inherited value,
    which is truthy and is no array, so that the [push] of the loop below
    throws.  The finite map stands for the object on every other key;
    the identifiers the editors allocate are decimal numerals, none of
    which is inherited. *)
Definition inheritedKeys : list string :=
  [ "constructor"; "__proto__"; "hasOwnProperty"; "isPrototypeOf";
    "propertyIsEnumerable"; "toLocaleString"; "toString"; "valueOf";
    "__defineGetter__"; "__defineSetter__"; "__lookupGetter__";
    "__lookupSetter__" ].

(** One step of the loop that fills [childrenMap]: the node at index [i]
    is pushed on the list of its parent when [parentId] is truthy. *)
Definition pushChild (cm : gmap string (list nat)) (entry : nat * Node)
  : gmap string (list nat) :=
  match parentId entry.2 with
  | Some p =>
      if truthy p then <[p := default [] (cm !! p) ++ [entry.1]]> cm else cm
  | None => cm
  end.

(** The loop itself; [i] is the index of the head of [nodes]. *)
Fixpoint fillChildrenMap (i : nat) (nodes : list Node)
    (cm : gmap string (list nat)) : gmap string (list nat) :=
  match nodes with
  | [] => cm
  | node :: rest => fillChildrenMap (S i) rest (pushChild cm (i, node))
  end.

Definition buildChildrenMap (nodes : list Node) : gmap string (list nat) :=
  fillChildrenMap 0 nodes ∅.

(** [childrenMap[k] || []] *)
Definition childrenOf (cm : gmap string (list nat)) (k : string) : list nat :=
  default [] (cm !! k).

(** ** Subtree width *)

(** The [forEach] that adds up the widths of the children. *)
Fixpoint sumWidths (width : nat -> option Q) (children : list nat) (total : Q)
  : option Q :=
  match children with
  | [] => Some total
  | child :: rest =>
      match width child with
      | Some w => sumWidths width rest (total + w)%Q
      | None => None
      end
  end.

Fixpoint getSubtreeWidth (fuel : nat) (nodes : list Node)
    (cm : gmap string (list nat)) (i : nat) : option Q :=
  match fuel with
  | O => None
  | S fuel' =>
      match nodes !! i with
      | None => None
      | Some node =>
          let children := childrenOf cm (id node) in
          if Nat.eqb (length children) 0 then Some NODE_WIDTH
          else
            match sumWidths (getSubtreeWidth fuel' nodes cm) children 0 with
            | None => None
            | Some total =>
                Some (Qmax NODE_WIDTH
                        (total + (num (length children) - 1) * HORIZONTAL_GAP))
            end
      end
  end.

(** ** Layout *)

(** [children.map(child => getSubtreeWidth(child, childrenMap))] *)
Fixpoint mapWidths (width : nat -> option Q) (children : list nat)
  : option (list Q) :=
  match children with
  | [] => Some []
  | child :: rest =>
      match width child, mapWidths width rest with
      | Some w, Some ws => Some (w :: ws)
      | _, _ => None
      end
  end.

(** [childrenWidths.reduce((sum, w) => sum + w, 0)] *)
Definition sumQ (ws : list Q) : Q := fold_left Qplus ws 0%Q.

(** The [forEach] over the children of [layoutNode]: [childWidth] is
    [childrenWidths[index]], [currentX] is advanced after each child. *)
Fixpoint layoutChildren
    (rec : list Node -> nat -> Q -> Q -> option (list Node))
    (nodes : list Node) (children : list nat) (childrenWidths : list Q)
    (currentX childY : Q) : option (list Node) :=
  match children, childrenWidths with
  | child :: rest, childWidth :: restWidths =>
      let childCenter := (currentX + childWidth / 2)%Q in
      match rec nodes child childCenter childY with
      | None => None
      | Some nodes' =>
          layoutChildren rec nodes' rest restWidths
            (currentX + childWidth + HORIZONTAL_GAP)%Q childY
      end
  | _, _ => Some nodes
  end.

Fixpoint layoutNode (fuel : nat) (cm : gmap string (list nat))
    (depth : nat) (vis : bool)
    (nodes : list Node) (i : nat) (xCenter y : Q) : option (list Node) :=
  match fuel with
  | O => None
  | S fuel' =>
      match nodes !! i with
      | None => None
      | Some node =>
          let nodes1 := <[i := place xCenter y depth vis node]> nodes in
          let children := childrenOf cm (id node) in
          if Nat.eqb (length children) 0 then Some nodes1
          else
            match mapWidths (getSubtreeWidth fuel' nodes1 cm) children with
            | None => None
            | Some childrenWidths =>
                let totalChildrenWidth :=
                  (sumQ childrenWidths
                   + (num (length children) - 1) * HORIZONTAL_GAP)%Q in
                let currentX := (xCenter - totalChildrenWidth / 2)%Q in
                let childY := (y + VERTICAL_GAP)%Q in
                layoutChildren (layoutNode fuel' cm (S depth) vis)
                  nodes1 children childrenWidths currentX childY
            end
      end
  end.

(** The last loop of [layoutTree]: every node without a truthy [parentId]
    is laid out as a root, centred where it already is.  The numbers of
    the host are binary64; the embedding computes with exact rationals,
    which is what the host computes on whole numbers and their halves
    (the editor creates its root at (300, 50), and its widths and gaps
    are whole). *)
Fixpoint layoutRoots (fuel : nat) (cm : gmap string (list nat))
    (nodes : list Node) (idxs : list nat) : option (list Node) :=
  match idxs with
  | [] => Some nodes
  | i :: rest =>
      match nodes !! i with
      | None => None
      | Some node =>
          if truthyId (parentId node) then layoutRoots fuel cm nodes rest
          else
            let xCenter := (fst (position node) + NODE_WIDTH / 2)%Q in
            match layoutNode fuel cm 0 true nodes i xCenter
                    (snd (position node)) with
            | None => None
            | Some nodes' => layoutRoots fuel cm nodes' rest
            end
      end
  end.

Definition layoutTree (fuel : nat) (nodes : list Node) : option (list Node) :=
  let cm := buildChildrenMap nodes in
  let nodes0 := map (setDraggable false) nodes in
  layoutRoots fuel cm nodes0 (seq 0 (length nodes0)).

(** ** Connectors *)

Record Edge := mkEdge {
  edgeId : string;
  source : string;
  target : string;
  animated : bool;
  stroke : string;
  strokeWidth : nat;
  edgeDisplay : string
}.

(** The anchor of the highlight rule. *)
Definition anchorId : string := "10".

(** The [forEach] of [findDescendants]; [found] is [isDescendantOf10]. *)
Fixpoint scanDescendants (rec : string -> gset string -> option (gset string))
    (scan : list Node) (nodeId : string) (found : gset string)
  : option (gset string) :=
  match scan with
  | [] => Some found
  | node :: rest =>
      if decide (parentId node = Some nodeId) then
        match rec (id node) ({[id node]} ∪ found) with
        | None => None
        | Some found' => scanDescendants rec rest nodeId found'
        end
      else scanDescendants rec rest nodeId found
  end.

Fixpoint findDescendants (fuel : nat) (nodes : list Node) (nodeId : string)
    (found : gset string) : option (gset string) :=
  match fuel with
  | O => None
  | S fuel' => scanDescendants (findDescendants fuel' nodes) nodes nodeId found
  end.

(** The connector pushed for one node, if any. *)
Definition edgeOf (isDescendantOf10 : gset string) (node : Node) : list Edge :=
  match parentId node with
  | Some p =>
      if truthy p then
        let isAnimated :=
          orb (String.eqb (id node) anchorId)
              (bool_decide (id node ∈ isDescendantOf10)) in
        [mkEdge ("e-" ++ p ++ "-" ++ id node) p (id node) isAnimated
                (if isAnimated then "#CBEC80" else "#B0C1C6")
                (if isAnimated then 3 else 1)
                (if visible node then "block" else "none")]
      else []
  | None => []
  end.

Definition computeEdges (fuel : nat) (nodes : list Node) : option (list Edge) :=
  match findDescendants fuel nodes anchorId ∅ with
  | None => None
  | Some isDescendantOf10 => Some (flat_map (edgeOf isDescendantOf10) nodes)
  end.

(** ** The editor *)

Record State := mkState {
  nodes : list Node;
  edges : list Edge;
  nextId : nat;
  isRelinkMode : bool;
  selectedNodeForRelink : option string
}.

(** [nodeParentsRef.current], as the effect on [nodes] fills it. *)
Definition recordParent (parents : gmap string string) (node : Node)
  : gmap string string :=
  match parentId node with
  | Some p => if truthy p then <[id node := p]> parents else parents
  | None => parents
  end.

Definition nodeParents (nds : list Node) : gmap string string :=
  fold_left recordParent nds ∅.

Definition toggleRelinkMode (s : State) : State :=
  mkState (nodes s) (edges s) (nextId s) (negb (isRelinkMode s)) None.

Definition cancelRelink (s : State) : State :=
  mkState (nodes s) (edges s) (nextId s) (isRelinkMode s) None.

Definition handleSelectForRelink (s : State) (nodeId : string) : State :=
  mkState (nodes s) (edges s) (nextId s) (isRelinkMode s) (Some nodeId).

(** The function [handleRelink] maps over the nodes. *)
Definition reparent (nodeId newParentId : string) (node : Node) : Node :=
  if String.eqb (id node) nodeId
  then setParentId (Some newParentId) node else node.

Definition handleRelink (fuel : nat) (s : State) (nodeId newParentId : string)
  : option State :=
  let updatedNodes := map (reparent nodeId newParentId) (nodes s) in
  match layoutTree fuel updatedNodes with
  | None => None
  | Some laidOutNodes =>
      match computeEdges fuel laidOutNodes with
      | None => None
      | Some es => Some (mkState laidOutNodes es (nextId s) false None)
      end
  end.

(** Every node carries the [handleAddChild] of the first render, whose
    closure holds [isRelinkMode = false] and [selectedNodeForRelink = null];
    these are the relink fields a new node starts with. *)
Definition newNode (next : nat) (parent : string) : Node :=
  mkNode (toString next) (Some parent) ("Component #" ++ toString next)
         (default "" (NODE_TYPES !! 2)) (0, 0)%Q None None false None false
         false None.

(** One run of the updater [handleAddChild] hands to [setNodes], with
    the [setEdges] inside it.  The run advances the id counter before it
    lays out; [None], at every fuel, is a run that does not complete (in
    the host, a walk without end overflows the stack and throws): the
    embedding does not follow the editor beyond such a run, where the
    counter has moved on and the rendering library decides what is run
    next. *)
Definition handleAddChild (fuel : nat) (s : State) (parent : string)
  : option State :=
  let updatedNodes := nodes s ++ [newNode (nextId s) parent] in
  match layoutTree fuel updatedNodes with
  | None => None
  | Some laidOutNodes =>
      match computeEdges fuel laidOutNodes with
      | None => None
      | Some es =>
          Some (mkState laidOutNodes es (S (nextId s)) (isRelinkMode s)
                        (selectedNodeForRelink s))
      end
  end.

(** The [forEach] of [getDescendants]. *)
Fixpoint collectDescendants (rec : string -> option (list string))
    (scan : list Node) (nodeId : string) (descendants : list string)
  : option (list string) :=
  match scan with
  | [] => Some descendants
  | node :: rest =>
      if decide (parentId node = Some nodeId) then
        match rec (id node) with
        | None => None
        | Some below =>
            collectDescendants rec rest nodeId
              ((descendants ++ [id node]) ++ below)
        end
      else collectDescendants rec rest nodeId descendants
  end.

Fixpoint getDescendants (fuel : nat) (nds : list Node) (nodeId : string)
  : option (list string) :=
  match fuel with
  | O => None
  | S fuel' => collectDescendants (getDescendants fuel' nds) nds nodeId []
  end.

Definition keeps (nodeId : string) (descendants : list string) (node : Node)
  : bool :=
  negb (String.eqb (id node) nodeId)
  && negb (bool_decide (id node ∈ descendants)).

Definition handleDelete (fuel : nat) (s : State) (nodeId : string)
  : option State :=
  match getDescendants fuel (nodes s) nodeId with
  | None => None
  | Some descendants =>
      let remainingNodes :=
        List.filter (keeps nodeId descendants) (nodes s) in
      match layoutTree fuel remainingNodes with
      | None => None
      | Some laidOutNodes =>
          match computeEdges fuel laidOutNodes with
          | None => None
          | Some es =>
              Some (mkState laidOutNodes es (nextId s) (isRelinkMode s)
                            (selectedNodeForRelink s))
          end
      end
  end.

(** ** The node component *)

Fixpoint isNodeDescendant (fuel : nat) (parents : gmap string string)
    (nodeId potentialAncestorId : string) : option bool :=
  match fuel with
  | O => None
  | S fuel' =>
      if String.eqb nodeId potentialAncestorId then Some true
      else
        match parents !! nodeId with
        | Some p =>
            if truthy p
            then isNodeDescendant fuel' parents p potentialAncestorId
            else Some false
        | None => Some false
        end
  end.

(** [canBeRelinkTarget] of the node [node], evaluated with the short
    circuits of [&&] against the parent table of the current node array. *)
Definition canBeRelinkTarget (fuel : nat) (parents : gmap string string)
    (node : Node) : option bool :=
  match dataSelectedNodeForRelink node with
  | Some selected =>
      if dataIsRelinkMode node && truthy selected
         && negb (String.eqb selected (id node))
      then
        match isNodeDescendant fuel parents (id node) selected with
        | None => None
        | Some isDescendant =>
            Some (negb isDescendant
                  && negb (bool_decide (parents !! selected = Some (id node))))
        end
      else Some false
  | None => Some false
  end.

Definition handleNodeClick (fuel : nat) (s : State) (node : Node)
  : option State :=
  if negb (dataIsRelinkMode node) then Some s
  else if truthyId (dataSelectedNodeForRelink node) then
    match canBeRelinkTarget fuel (nodeParents (nodes s)) node with
    | None => None
    | Some true =>
        handleRelink fuel s (default "" (dataSelectedNodeForRelink node))
                     (id node)
    | Some false => Some s
    end
  else
    match parentId node with
    | Some _ => Some (handleSelectForRelink s (id node))
    | None => Some s
    end.

(** The effect that mirrors the relink state into [node.data]; it runs
    when [isRelinkMode] or [selectedNodeForRelink] has changed. *)
Definition syncRelinkData (s : State) : State :=
  if Nat.ltb 0 (length (nodes s)) then
    mkState (map (setRelinkData (isRelinkMode s) (selectedNodeForRelink s))
                 (nodes s))
            (edges s) (nextId s) (isRelinkMode s) (selectedNodeForRelink s)
  else s.

Definition afterRender (before after : State) : State :=
  if bool_decide (isRelinkMode after = isRelinkMode before
                  /\ selectedNodeForRelink after
                     = selectedNodeForRelink before)
  then after else syncRelinkData after.

(** The clicks the interface offers.  [AddClick i], [TrashClick i] and
    [NodeClick i] are clicks on the controls of the node rendered for
    [nodes[i]]; the Trash control is rendered only when
    [data.parentId !== null], the Cancel button only when a node is
    selected. *)
Inductive Event :=
| AddClick (i : nat)
| TrashClick (i : nat)
| NodeClick (i : nat)
| RelinkModeClick
| CancelClick.

(** The handler a click runs; [None] when the control is not rendered. *)
Definition trashRendered (node : Node) : bool :=
  match parentId node with
  | Some _ => true
  | None => false
  end.

Definition cancelRendered (s : State) : bool :=
  truthyId (selectedNodeForRelink s).

Definition handleEvent (fuel : nat) (s : State) (e : Event) : option State :=
  match e with
  | AddClick i =>
      match nodes s !! i with
      | Some node => handleAddChild fuel s (id node)
      | None => Some s
      end
  | TrashClick i =>
      match nodes s !! i with
      | Some node =>
          if trashRendered node then handleDelete fuel s (id node) else Some s
      | None => Some s
      end
  | NodeClick i =>
      match nodes s !! i with
      | Some node => handleNodeClick fuel s node
      | None => Some s
      end
  | RelinkModeClick => Some (toggleRelinkMode s)
  | CancelClick => if cancelRendered s then Some (cancelRelink s) else Some s
  end.

(** A click, then the effects of the render that follows it. *)
Definition step (fuel : nat) (s : State) (e : Event) : option State :=
  match handleEvent fuel s e with
  | None => None
  | Some s' => Some (afterRender s s')
  end.

Fixpoint run (fuel : nat) (s : State) (es : list Event) : option State :=
  match es with
  | [] => Some s
  | e :: rest =>
      match step fuel s e with
      | None => None
      | Some s' => run fuel s' rest
      end
  end.

(** The root node and the state the mount effect installs. *)
Definition initialNode : Node :=
  mkNode "1" None "Main System" (default "" (NODE_TYPES !! 0)) (300, 50)%Q
         None None false None false false None.

Definition initialState (fuel : nat) : option State :=
  match layoutTree fuel [initialNode] with
  | None => None
  | Some laidOutNodes =>
      match computeEdges fuel laidOutNodes with
      | None => None
      | Some es => Some (mkState laidOutNodes es 2 false None)
      end
  end.

Definition session (fuel : nat) (es : list Event) : option State :=
  match initialState fuel with
  | None => None
  | Some s => run fuel s es
  end.

(** ** The measuring editor *)

(** The subtree width of the second editor, which prefers the width the
    rendering surface has measured. *)
Module Measured.

Definition NODE_WIDTH : Q := 120.
Definition HORIZONTAL_GAP : Q := 30.

(** [node.measured?.width || NODE_WIDTH]: a missing width and the
    number [0] both fall back to the default. *)
Definition currentWidth (node : Node) : Q :=
  match measuredWidth node with
  | Some w => if Qeq_bool w 0 then NODE_WIDTH else w
  | None => NODE_WIDTH
  end.

Fixpoint getSubtreeWidth (fuel : nat) (nodes : list Node)
    (cm : gmap string (list nat)) (i : nat) : option Q :=
  match fuel with
  | O => None
  | S fuel' =>
      match nodes !! i with
      | None => None
      | Some node =>
          let children := childrenOf cm (id node) in
          if Nat.eqb (length children) 0 then Some (currentWidth node)
          else
            match sumWidths (getSubtreeWidth fuel' nodes cm) children 0 with
            | None => None
            | Some total =>
                Some (Qmax (currentWidth node)
                        (total
                         + (num (length children) - 1) * HORIZONTAL_GAP))
            end
      end
  end.

End Measured.

(** ** The tree invariants *)

(** The node an identifier names. *)
Definition findNode (nds : list Node) (s : string) : option Node :=
  List.find (fun n => String.eqb (id n) s) nds.

(** Following [parentId] links from the node named [s] reaches a node
    without parent in at most [k] steps. *)
Fixpoint climbs (nds : list Node) (k : nat) (s : string) : bool :=
  match findNode nds s with
  | None => false
  | Some n =>
      match parentId n with
      | None => true
      | Some p =>
          match k with
          | O => false
          | S k' => climbs nds k' p
          end
      end
  end.

Record TreeInv (nds : list Node) : Prop := mkTreeInv {
  one_root : exists r, List.filter (fun n => negb (bool_decide (is_Some (parentId n)))) nds = [r];
  parents_exist :
    forall n p, n ∈ nds -> parentId n = Some p -> exists m, m ∈ nds /\ id m = p;
  reaches_root : forall n, n ∈ nds -> exists k, climbs nds k (id n) = true;
  ids_unique : NoDup (map id nds)
}.

(** [a] is a transitive ancestor of the node named [b]. *)
Inductive ancestorOf (nds : list Node) (a : string) : string -> Prop :=
| ancestor_parent n :
    n ∈ nds -> parentId n = Some a -> ancestorOf nds a (id n)
| ancestor_step n p :
    n ∈ nds -> parentId n = Some p -> ancestorOf nds a p ->
    ancestorOf nds a (id n).

(** The children of the node named [k], as indices in array order. *)
Fixpoint childIndices (i : nat) (nds : list Node) (k : string) : list nat :=
  match nds with
  | [] => []
  | n :: rest =>
      (if decide (parentId n = Some k) then [i] else [])
      ++ childIndices (S i) rest k
  end.

(** A fuelled computation returns [a] once it has enough fuel. *)
Definition Returns {A : Type} (f : nat -> option A) (a : A) : Prop :=
  exists fuel0, forall fuel, fuel0 <= fuel -> f fuel = Some a.

(** An executable check of the invariants, for concrete node arrays. *)
Definition treeOk (nds : list Node) : bool :=
  Nat.eqb (length (List.filter (fun n => negb (bool_decide (is_Some (parentId n)))) nds)) 1
  && forallb (fun n => match parentId n with
                       | Some p => bool_decide (is_Some (findNode nds p))
                       | None => true
                       end) nds
  && forallb (fun n => climbs nds (length nds) (id n)) nds
  && bool_decide (NoDup (map id nds)).

(** ** Notions used in the proofs *)

(** A ranking of identifiers that decreases from a parent in [S] to its
    children: the recursions that walk down the tree from an identifier
    in [S] stop within [rk] steps. *)
Definition Ranked (S : string -> Prop) (rk : string -> nat) (nds : list Node)
  : Prop :=
  forall n p, n ∈ nds -> parentId n = Some p -> S p ->
              S (id n) /\ rk (id n) < rk p.

(** Every index a children index holds is the index of a node with that
    parent. *)
Definition ChildrenOK (cm : gmap string (list nat)) (nds : list Node) : Prop :=
  forall k c, c ∈ childrenOf cm k ->
              exists n, nds !! c = Some n /\ parentId n = Some k.

(** The number of [parentId] links between the node named [s] and the
    node without parent its chain ends in ([k] bounds the walk). *)
Fixpoint depthOf (nds : list Node) (k : nat) (s : string) : nat :=
  match findNode nds s with
  | None => 0
  | Some n =>
      match parentId n with
      | None => 0
      | Some p =>
          match k with
          | O => 0
          | S k' => S (depthOf nds k' p)
          end
      end
  end.

(** The subtree width of the node at index [c], whatever the fuel. *)
Definition WidthIs (nds : list Node) (cm : gmap string (list nat)) (c : nat)
    (w : Q) : Prop :=
  exists fuel, getSubtreeWidth fuel nds cm c = Some w.

(** Among siblings of widths [ws]: the distance from the left edge of the
    first slot to the left edge of slot [k], and the width of the row. *)
Definition slotOffset (ws : list Q) (k : nat) : Q :=
  (sumQ (take k ws) + num k * HORIZONTAL_GAP)%Q.

Definition totalWidth (ws : list Q) : Q :=
  (sumQ ws + (num (length ws) - 1) * HORIZONTAL_GAP)%Q.

(** The centre and the row the layout intends for the node at an index:
    a root stays where the input has it, a child sits in the middle of its
    slot, one row below its parent. *)
Inductive Expect (nds : list Node) (cm : gmap string (list nat))
  : nat -> Q -> Q -> Prop :=
| expect_root i n xc y :
    nds !! i = Some n -> truthyId (parentId n) = false ->
    (xc == fst (position n) + NODE_WIDTH / 2)%Q ->
    (y == snd (position n))%Q ->
    Expect nds cm i xc y
| expect_child p pn pxc py ws k c w xc y :
    Expect nds cm p pxc py ->
    nds !! p = Some pn ->
    Forall2 (WidthIs nds cm) (childrenOf cm (id pn)) ws ->
    childrenOf cm (id pn) !! k = Some c ->
    ws !! k = Some w ->
    (xc == pxc - totalWidth ws / 2 + slotOffset ws k + w / 2)%Q ->
    (y == py + VERTICAL_GAP)%Q ->
    Expect nds cm c xc y.

(** The node at index [j] of [cur] sits where the layout of [nds]
    intends it. *)
Definition Placed (nds : list Node) (cm : gmap string (list nat))
    (cur : list Node) (j : nat) : Prop :=
  exists n xc y,
    cur !! j = Some n /\ Expect nds cm j xc y
    /\ (fst (position n) == xc - NODE_WIDTH / 2)%Q
    /\ (snd (position n) == y)%Q.

(** [j] is the index [i] or is reached from it through the children
    index. *)
Inductive Reach (nds : list Node) (cm : gmap string (list nat))
  : nat -> nat -> Prop :=
| reach_here i : Reach nds cm i i
| reach_child i n c j :
    nds !! i = Some n -> c ∈ childrenOf cm (id n) -> Reach nds cm c j ->
    Reach nds cm i j.

(** What a layout pass in progress has done to the array [nds]: the
    structure is intact and every node is untouched or placed. *)
Definition Progress (nds : list Node) (cm : gmap string (list nat))
    (cur : list Node) : Prop :=
  map skel cur = map skel nds
  /\ forall j n n0, cur !! j = Some n -> nds !! j = Some n0 ->
                   n = n0 \/ Placed nds cm cur j.

(** What a call that lays out the subtree of a node achieves. *)
Definition LaysOut (nds : list Node) (cm : gmap string (list nat))
    (f : list Node -> nat -> Q -> Q -> option (list Node)) : Prop :=
  forall cur c x y r,
    Progress nds cm cur -> Expect nds cm c x y -> f cur c x y = Some r ->
    Progress nds cm r
    /\ (forall j, Placed nds cm cur j -> Placed nds cm r j)
    /\ (forall j, Reach nds cm c j -> Placed nds cm r j).

(** Two node arrays of the same structure whose roots sit at the same
    places. *)
Definition SameRoots (nds nds' : list Node) : Prop :=
  map skel nds = map skel nds'
  /\ forall i n n', nds !! i = Some n -> nds' !! i = Some n' ->
       truthyId (parentId n) = false ->
       (fst (position n) == fst (position n'))%Q
       /\ (snd (position n) == snd (position n'))%Q.

(** Every identifier is a non-empty string, as every identifier the
    editor allocates is. *)
Definition IdsTruthy (nds : list Node) : Prop :=
  forall n, n ∈ nds -> truthy (id n) = true.

(** Two nodes with the same identifier at the same place. *)
Definition samePlace (a b : Node) : Prop :=
  id a = id b
  /\ (fst (position a) == fst (position b))%Q
  /\ (snd (position a) == snd (position b))%Q.

(** The left edge of the horizontal extent of the subtree of [n], of
    width [w]: the layout centres the box of the node, [NODE_WIDTH] wide,
    in the extent of its subtree. *)
Definition slotLeft (n : Node) (w : Q) : Q :=
  (fst (position n) + NODE_WIDTH / 2 - w / 2)%Q.

(** The rule of the subtree width, for a width function [width] (fuel,
    then index), the own width [own] of a node and a gap: a node without
    children is as wide as itself; a node with children is as wide as the
    row of its children (their subtree widths and one gap between
    neighbours), and never narrower than itself. *)
Definition WidthRule (width : nat -> nat -> option Q) (own : Node -> Q)
    (gap : Q) (nds : list Node) : Prop :=
  forall i n, nds !! i = Some n ->
    exists w,
      Returns (fun fuel => width fuel i) w
      /\ (childIndices 0 nds (id n) = [] -> w = own n)
      /\ (childIndices 0 nds (id n) <> [] ->
          exists ws,
            Forall2 (fun c wc => Returns (fun fuel => width fuel c) wc)
                    (childIndices 0 nds (id n)) ws
            /\ w = Qmax (own n)
                      (sumQ ws + (num (length ws) - 1) * gap))%Q.

(** The effective width as the specification words it: the measured
    width when one is present, the default otherwise. *)
Definition statedWidth (node : Node) : Q :=
  match measuredWidth node with
  | Some w => w
  | None => Measured.NODE_WIDTH
  end.

(** A childless node of the measuring editor whose measured width is
    zero. *)
Definition zeroWidthLeaf : Node :=
  mkNode "1" None "Main Node" "" (300, 50)%Q (Some 0%Q) None false None
         false false None.

(** A tree for the examples: 1 has the children 2 and 3, 2 has the
    children 4 and 5. *)
Definition plainNode (i : string) (p : option string) (x y : Q) : Node :=
  mkNode i p "" "Component" (x, y) None None false None false false None.

Definition sampleTree : list Node :=
  [ plainNode "1" None 300 50; plainNode "2" (Some "1") 0 0;
    plainNode "3" (Some "1") 0 0; plainNode "4" (Some "2") 0 0;
    plainNode "5" (Some "2") 0 0 ].

(** The nodes with a parent, in array order. *)
Definition nonRoots (nds : list Node) : list Node :=
  List.filter (fun n => bool_decide (is_Some (parentId n))) nds.

(** The connector [e] is the connector of the node [n] of [nds]: it runs
    from the parent of [n] to [n], and it is highlighted exactly when [n]
    is the anchor or has the anchor among its ancestors. *)
Definition connects (nds : list Node) (e : Edge) (n : Node) : Prop :=
  parentId n = Some (source e)
  /\ target e = id n
  /\ edgeId e = ("e-" ++ source e ++ "-" ++ target e)%string
  /\ (animated e = true
      <-> id n = anchorId \/ ancestorOf nds anchorId (id n)).

(** What a node is apart from the fields the layout owns ([position],
    [background], [visible], [display], [draggable]). *)
Definition content (n : Node)
  : string * option string * string * string * option Q * bool
    * option string :=
  (id n, parentId n, label n, kind n, measuredWidth n, dataIsRelinkMode n,
   dataSelectedNodeForRelink n).

(** Every identifier is the numeral of a counter value below [next]. *)
Definition Numbered (next : nat) (nds : list Node) : Prop :=
  forall n, n ∈ nds -> exists k, id n = toString k /\ k < next.

(** The invariant of the editor: the node array is a tree and the id
    counter is ahead of every identifier in it. *)
Definition Good (s : State) : Prop :=
  TreeInv (nodes s) /\ Numbered (nextId s) (nodes s).

(** The states of the relink selection protocol. *)
Definition Idle (s : State) : Prop :=
  isRelinkMode s = false /\ selectedNodeForRelink s = None.

Definition AwaitingSource (s : State) : Prop :=
  isRelinkMode s = true /\ selectedNodeForRelink s = None.

Definition AwaitingTarget (s : State) : Prop :=
  isRelinkMode s = true /\ exists a, selectedNodeForRelink s = Some a.

(** [n'] is [n] but for the relink data mirrored into it: every other
    field (identifier, parent, label, type, position, measured width,
    background, visibility, display, draggable flag) is the same. *)
Definition relinkDataOnly (n' n : Node) : Prop :=
  n' = setRelinkData (dataIsRelinkMode n') (dataSelectedNodeForRelink n') n.

(** A session that ends with a click on Cancel while a node is selected:
    a child is added to the root, relink mode is entered, the child is
    selected. *)
Definition cancelSession : list Event :=
  [AddClick 0; RelinkModeClick; NodeClick 1; CancelClick].

(** The sample tree in the editor, with node 2 selected for relinking
    and the selection mirrored into the nodes. *)
Definition sampleSelecting : State :=
  mkState (map (setRelinkData true (Some "2")) sampleTree) [] 6 true
          (Some "2").

(** Eight children added to the root: the id counter stands at ten. *)
Definition eightAdds : list Event := replicate 8 (AddClick 0).

(** The horizontal extent of the subtree of the node at index [i] in the
    laid-out array [r] is the interval from [L] to [R]: the box of every
    node of the subtree ([NODE_WIDTH] wide, from its [position]) lies in
    the interval, one box starts at [L] and one ends at [R]. *)
Definition SubtreeExtent (r : list Node) (cm : gmap string (list nat))
    (i : nat) (L R : Q) : Prop :=
  (forall j nj, Reach r cm i j -> r !! j = Some nj ->
     (L <= fst (position nj))%Q /\ (fst (position nj) + NODE_WIDTH <= R)%Q)
  /\ (exists j nj, Reach r cm i j /\ r !! j = Some nj
                   /\ (fst (position nj) == L)%Q)
  /\ (exists j nj, Reach r cm i j /\ r !! j = Some nj
                   /\ (fst (position nj) + NODE_WIDTH == R)%Q).

(** ** Notions of the further properties *)

(** Two node boxes are apart: in different rows, one [VERTICAL_GAP] or
    more below the other, or side by side, a [HORIZONTAL_GAP] or more
    between the right edge of one ([NODE_WIDTH] from its left edge) and
    the left edge of the other. *)
Definition Apart (a b : Node) : Prop :=
  (snd (position a) + VERTICAL_GAP <= snd (position b))%Q
  \/ (snd (position b) + VERTICAL_GAP <= snd (position a))%Q
  \/ (fst (position a) + NODE_WIDTH + HORIZONTAL_GAP <= fst (position b))%Q
  \/ (fst (position b) + NODE_WIDTH + HORIZONTAL_GAP <= fst (position a))%Q.

(** What [layoutNode] writes into a node at depth [d] besides its
    position, when called with [visible = true]. *)
Definition styledAt (d : nat) (n : Node) : Prop :=
  visible n = true /\ display n = Some "block"
  /\ background n = backgrounds !! Nat.min d (length backgrounds - 1).

(** The node at index [j] of [cur] carries the style of its depth in
    [nds]; [K] bounds the walk to the root. *)
Definition Styled (nds : list Node) (K : nat) (cur : list Node) (j : nat)
  : Prop :=
  exists n n0, cur !! j = Some n /\ nds !! j = Some n0
               /\ styledAt (depthOf nds K (id n0)) n.

(** The first node of the array is the root the editor starts with: node
    [1], without parent, at the place the mount effect gives it. *)
Definition RootAt (nds : list Node) : Prop :=
  exists r rest, nds = r :: rest /\ id r = "1" /\ parentId r = None
    /\ (fst (position r) == 300)%Q /\ (snd (position r) == 50)%Q.

(** Every node has one of the node types on offer. *)
Definition KindsValid (nds : list Node) : Prop :=
  forall n, n ∈ nds -> kind n ∈ NODE_TYPES.

(** No node can be dragged and every node carries the style of its
    depth. *)
Definition AllStyled (nds : list Node) : Prop :=
  forall n k, n ∈ nds -> climbs nds k (id n) = true ->
    draggable n = false /\ styledAt (depthOf nds k (id n)) n.

(** No two node boxes overlap. *)
Definition BoxesApart (nds : list Node) : Prop :=
  forall a b na nb,
    nds !! a = Some na -> nds !! b = Some nb -> a <> b -> Apart na nb.

(** Every child is one row below its parent. *)
Definition Rows (nds : list Node) : Prop :=
  forall p np c nc,
    nds !! p = Some np -> nds !! c = Some nc -> parentId nc = Some (id np) ->
    (snd (position nc) == snd (position np) + VERTICAL_GAP)%Q.

(** Every node sits where the layout of the array itself intends it: a
    layout pass would move nothing. *)
Definition SelfPlaced (nds : list Node) : Prop :=
  forall j n, nds !! j = Some n ->
    exists xc y, Expect nds (buildChildrenMap nds) j xc y
      /\ (fst (position n) == xc - NODE_WIDTH / 2)%Q
      /\ (snd (position n) == y)%Q.

(** The drawing is in order: the nodes are laid out and styled and the
    connectors are the ones derived from the nodes. *)
Definition Shown (nds : list Node) (es : list Edge) : Prop :=
  RootAt nds /\ KindsValid nds /\ AllStyled nds /\ BoxesApart nds
  /\ Rows nds /\ SelfPlaced nds
  /\ exists fuel, computeEdges fuel nds = Some es.

(** The relink state a node carries in its data. *)
Definition relinkData (n : Node) : bool * option string :=
  (dataIsRelinkMode n, dataSelectedNodeForRelink n).

(** Every node carries the relink state of the editor, or the relink
    state a new node starts with. *)
Definition Mirrored (s : State) : Prop :=
  forall n, n ∈ nodes s ->
    relinkData n = (isRelinkMode s, selectedNodeForRelink s)
    \/ relinkData n = (false, None).

(** A node is selected only in relink mode, and it is never the root. *)
Definition SelectionOk (s : State) : Prop :=
  forall a, selectedNodeForRelink s = Some a ->
    isRelinkMode s = true /\ truthy a = true /\ a <> "1".

(** Every node of [new] carries the relink state of a node of [old], or
    the one a new node starts with. *)
Definition Inherits (old new : list Node) : Prop :=
  forall n, n ∈ new ->
    (exists n0, n0 ∈ old /\ relinkData n = relinkData n0)
    \/ relinkData n = (false, None).

(** The invariant of the editor, in full. *)
Definition Inv (s : State) : Prop :=
  Good s /\ Mirrored s /\ SelectionOk s /\ Shown (nodes s) (edges s).











(** Two nodes that agree in every field (places compared as numbers). *)
Definition sameNode (a b : Node) : Prop :=
  content a = content b
  /\ (fst (position a) == fst (position b))%Q
  /\ (snd (position a) == snd (position b))%Q
  /\ draggable a = draggable b /\ visible a = visible b
  /\ display a = display b /\ background a = background b.

(** A node stripped to what the connectors are derived from. *)
Definition bare (n : Node) : Node :=
  mkNode (id n) (parentId n) "" "" (0, 0)%Q None None (visible n) None false
         false None.

(** ** The edit dialog *)

(** [s || d] on strings. *)
Definition orElse (s d : string) : string := if truthy s then s else d.

Definition setLabelType (l t : string) (n : Node) : Node :=
  mkNode (id n) (parentId n) l t (position n) (measuredWidth n)
         (background n) (visible n) (display n) (draggable n)
         (dataIsRelinkMode n) (dataSelectedNodeForRelink n).

(** The function [handleSaveNodeEdit] maps over the nodes. *)
Definition saveEdit (nodeId newName newType : string) (node : Node) : Node :=
  if String.eqb (id node) nodeId then setLabelType newName newType node
  else node.

(** The editor with its dialog: [modalOpen] and [selectedNodeForEdit] are
    state of [App], [name] and [type] are the state of [EditNodeModal]. *)
Record Editor := mkEditor {
  app : State;
  modalOpen : bool;
  selectedNodeForEdit : option Node;
  name : string;
  type : string
}.

Definition handleOpenEditModal (ed : Editor) (node : Node) : Editor :=
  mkEditor (app ed) true (Some node) (name ed) (type ed).

Definition handleCloseEditModal (ed : Editor) : Editor :=
  mkEditor (app ed) false None (name ed) (type ed).

Definition handleSaveNodeEdit (ed : Editor) (nodeId newName newType : string)
  : Editor :=
  mkEditor
    (mkState (map (saveEdit nodeId newName newType) (nodes (app ed)))
             (edges (app ed)) (nextId (app ed)) (isRelinkMode (app ed))
             (selectedNodeForRelink (app ed)))
    false None (name ed) (type ed).

(** The effect of [EditNodeModal] on [node]: it fills the form from a
    node that is not null. *)
Definition fillForm (ed : Editor) : Editor :=
  match selectedNodeForEdit ed with
  | Some node =>
      mkEditor (app ed) (modalOpen ed) (selectedNodeForEdit ed)
               (orElse (label node) "") (orElse (kind node) "")
  | None => ed
  end.

Definition setName (v : string) (ed : Editor) : Editor :=
  mkEditor (app ed) (modalOpen ed) (selectedNodeForEdit ed) v (type ed).

Definition setType (v : string) (ed : Editor) : Editor :=
  mkEditor (app ed) (modalOpen ed) (selectedNodeForEdit ed) (name ed) v.

(** [if (!open || !node) return null]: the dialog is rendered otherwise. *)
Definition modalRendered (ed : Editor) : bool :=
  modalOpen ed && bool_decide (is_Some (selectedNodeForEdit ed)).

(** [handleSubmit] of the dialog. *)
Definition handleSubmit (ed : Editor) : Editor :=
  match selectedNodeForEdit ed with
  | Some node => handleSaveNodeEdit ed (id node) (name ed) (type ed)
  | None => ed
  end.

(** The events of the whole interface: the clicks on the tree, the click
    on the pencil of the node rendered for [nodes[i]], and, while the
    dialog is rendered, its close and cancel buttons, typing into the
    name field, choosing the option [NODE_TYPES[k]] of the type select,
    and submitting the form. *)
Inductive UiEvent :=
| TreeClick (e : Event)
| EditIconClick (i : nat)
| CloseClick
| NameInput (v : string)
| TypeSelect (k : nat)
| SubmitClick.

Definition uiStep (fuel : nat) (ed : Editor) (ev : UiEvent) : option Editor :=
  match ev with
  | TreeClick e =>
      match step fuel (app ed) e with
      | Some s' =>
          Some (mkEditor s' (modalOpen ed) (selectedNodeForEdit ed)
                         (name ed) (type ed))
      | None => None
      end
  | EditIconClick i =>
      match nodes (app ed) !! i with
      | Some node => Some (fillForm (handleOpenEditModal ed node))
      | None => Some ed
      end
  | CloseClick =>
      if modalRendered ed then Some (handleCloseEditModal ed) else Some ed
  | NameInput v => if modalRendered ed then Some (setName v ed) else Some ed
  | TypeSelect k =>
      if modalRendered ed then
        match NODE_TYPES !! k with
        | Some t => Some (setType t ed)
        | None => Some ed
        end
      else Some ed
  | SubmitClick => if modalRendered ed then Some (handleSubmit ed) else Some ed
  end.

Fixpoint uiRun (fuel : nat) (ed : Editor) (evs : list UiEvent)
  : option Editor :=
  match evs with
  | [] => Some ed
  | ev :: rest =>
      match uiStep fuel ed ev with
      | None => None
      | Some ed' => uiRun fuel ed' rest
      end
  end.

Definition uiSession (fuel : nat) (evs : list UiEvent) : option Editor :=
  match initialState fuel with
  | None => None
  | Some s => uiRun fuel (mkEditor s false None "" "") evs
  end.

(** The invariant of the editor with its dialog: a rendered dialog holds
    one of the node types on offer. *)
Definition UiInv (ed : Editor) : Prop :=
  Inv (app ed) /\ (modalRendered ed = true -> type ed ∈ NODE_TYPES).

(** A chain for the examples: 2 is the only child of 1, 3 the only child
    of 2. *)
Definition chainTree : list Node :=
  [ plainNode "1" None 300 50; plainNode "2" (Some "1") 0 0;
    plainNode "3" (Some "2") 0 0 ].

(** The sample tree in the editor, outside relink mode. *)
Definition sampleState : State := mkState sampleTree [] 6 false None.



(** The sample tree and a node whose parent is not in the array. *)
Definition orphanTree : list Node :=
  sampleTree ++ [plainNode "8" (Some "99") 7 7].

(** ** The layout of the measuring editor *)

(** The layout pass of the second editor, which centres every node by
    its effective width.  The widths are measured by the rendering
    surface and need not be whole: the host then rounds the centres and
    the slots of the pass, the embedding does not. *)
Module Measuring.

Definition VERTICAL_GAP : Q := 120.
Definition backgrounds : list string := ["#172A2E"; "#22383C"; "#051114"].

(** The four assignments at the head of [layoutNode]. *)
Definition place (xCenter y : Q) (depth : nat) (vis : bool) (n : Node) : Node :=
  mkNode (id n) (parentId n) (label n) (kind n)
         (xCenter - Measured.currentWidth n / 2, y)%Q
         (measuredWidth n)
         (backgrounds !! (Nat.min depth (length backgrounds - 1)))
         vis
         (Some (if vis then "block" else "none"))
         (draggable n) (dataIsRelinkMode n) (dataSelectedNodeForRelink n).

Fixpoint layoutChildren
    (rec : list Node -> nat -> Q -> Q -> option (list Node))
    (nodes : list Node) (children : list nat) (childrenWidths : list Q)
    (currentX childY : Q) : option (list Node) :=
  match children, childrenWidths with
  | child :: rest, childWidth :: restWidths =>
      let childCenter := (currentX + childWidth / 2)%Q in
      match rec nodes child childCenter childY with
      | None => None
      | Some nodes' =>
          layoutChildren rec nodes' rest restWidths
            (currentX + childWidth + Measured.HORIZONTAL_GAP)%Q childY
      end
  | _, _ => Some nodes
  end.

Fixpoint layoutNode (fuel : nat) (cm : gmap string (list nat))
    (depth : nat) (vis : bool)
    (nodes : list Node) (i : nat) (xCenter y : Q) : option (list Node) :=
  match fuel with
  | O => None
  | S fuel' =>
      match nodes !! i with
      | None => None
      | Some node =>
          let nodes1 := <[i := place xCenter y depth vis node]> nodes in
          let children := childrenOf cm (id node) in
          if Nat.eqb (length children) 0 then Some nodes1
          else
            match mapWidths (Measured.getSubtreeWidth fuel' nodes1 cm)
                            children with
            | None => None
            | Some childrenWidths =>
                let totalChildrenWidth :=
                  (sumQ childrenWidths
                   + (num (length children) - 1) * Measured.HORIZONTAL_GAP)%Q
                in
                let currentX := (xCenter - totalChildrenWidth / 2)%Q in
                let childY := (y + VERTICAL_GAP)%Q in
                layoutChildren (layoutNode fuel' cm (S depth) vis)
                  nodes1 children childrenWidths currentX childY
            end
      end
  end.

Fixpoint layoutRoots (fuel : nat) (cm : gmap string (list nat))
    (nodes : list Node) (idxs : list nat) : option (list Node) :=
  match idxs with
  | [] => Some nodes
  | i :: rest =>
      match nodes !! i with
      | None => None
      | Some node =>
          if truthyId (parentId node) then layoutRoots fuel cm nodes rest
          else
            let xCenter :=
              (fst (position node) + Measured.currentWidth node / 2)%Q in
            match layoutNode fuel cm 0 true nodes i xCenter
                    (snd (position node)) with
            | None => None
            | Some nodes' => layoutRoots fuel cm nodes' rest
            end
      end
  end.

Definition layoutTree (fuel : nat) (nodes : list Node) : option (list Node) :=
  let cm := buildChildrenMap nodes in
  let nodes0 := map (setDraggable false) nodes in
  layoutRoots fuel cm nodes0 (seq 0 (length nodes0)).

End Measuring.

(** The part of a node the measuring layout reads and never writes. *)
Definition mskel (n : Node) : string * option string * option Q :=
  (id n, parentId n, measuredWidth n).

(** The measured subtree width of the node at index [c], whatever the
    fuel. *)
Definition MWidthIs (nds : list Node) (cm : gmap string (list nat)) (c : nat)
    (w : Q) : Prop :=
  exists fuel, Measured.getSubtreeWidth fuel nds cm c = Some w.

(** The centre and the row the measuring layout intends for the node at
    an index: a root stays where the input has it, a child sits in the
    middle of its slot, one row below its parent. *)
Inductive MExpect (nds : list Node) (cm : gmap string (list nat))
  : nat -> Q -> Q -> Prop :=
| mexpect_root i n xc y :
    nds !! i = Some n -> truthyId (parentId n) = false ->
    (xc == fst (position n) + Measured.currentWidth n / 2)%Q ->
    (y == snd (position n))%Q ->
    MExpect nds cm i xc y
| mexpect_child p pn pxc py ws k c w xc y :
    MExpect nds cm p pxc py ->
    nds !! p = Some pn ->
    Forall2 (MWidthIs nds cm) (childrenOf cm (id pn)) ws ->
    childrenOf cm (id pn) !! k = Some c ->
    ws !! k = Some w ->
    (xc == pxc - totalWidth ws / 2 + slotOffset ws k + w / 2)%Q ->
    (y == py + Measuring.VERTICAL_GAP)%Q ->
    MExpect nds cm c xc y.

Definition MPlaced (nds : list Node) (cm : gmap string (list nat))
    (cur : list Node) (j : nat) : Prop :=
  exists n xc y,
    cur !! j = Some n /\ MExpect nds cm j xc y
    /\ (fst (position n) == xc - Measured.currentWidth n / 2)%Q
    /\ (snd (position n) == y)%Q.

Definition MProgress (nds : list Node) (cm : gmap string (list nat))
    (cur : list Node) : Prop :=
  map mskel cur = map mskel nds
  /\ forall j n n0, cur !! j = Some n -> nds !! j = Some n0 ->
                   n = n0 \/ MPlaced nds cm cur j.

Definition MLaysOut (nds : list Node) (cm : gmap string (list nat))
    (f : list Node -> nat -> Q -> Q -> option (list Node)) : Prop :=
  forall cur c x y r,
    MProgress nds cm cur -> MExpect nds cm c x y -> f cur c x y = Some r ->
    MProgress nds cm r
    /\ (forall j, MPlaced nds cm cur j -> MPlaced nds cm r j)
    /\ (forall j, Reach nds cm c j -> MPlaced nds cm r j).

Definition MSameRoots (nds nds' : list Node) : Prop :=
  map mskel nds = map mskel nds'
  /\ forall i n n', nds !! i = Some n -> nds' !! i = Some n' ->
       truthyId (parentId n) = false ->
       (fst (position n) == fst (position n'))%Q
       /\ (snd (position n) == snd (position n'))%Q.

(** No measured width is negative. *)
Definition WidthsOk (nds : list Node) : Prop :=
  forall n w, n ∈ nds -> measuredWidth n = Some w -> (0 <= w)%Q.

(** Two boxes of the measuring editor are apart: in different rows, or
    side by side with a gap, each box as wide as the effective width of
    its node. *)
Definition MApart (a b : Node) : Prop :=
  (snd (position a) + Measuring.VERTICAL_GAP <= snd (position b))%Q
  \/ (snd (position b) + Measuring.VERTICAL_GAP <= snd (position a))%Q
  \/ (fst (position a) + Measured.currentWidth a + Measured.HORIZONTAL_GAP
      <= fst (position b))%Q
  \/ (fst (position b) + Measured.currentWidth b + Measured.HORIZONTAL_GAP
      <= fst (position a))%Q.



(** The left edge of the slot of [n], of width [w], in the measuring
    layout: the box of the node, as wide as its effective width, is
    centred in the slot. *)
Definition mslotLeft (n : Node) (w : Q) : Q :=
  (fst (position n) + Measured.currentWidth n / 2 - w / 2)%Q.

(** A tree of the measuring editor for the examples: the root is
    narrower than the default width, its first child is wider, and the
    second child has the measured width [0]. *)
Definition measuredNode (i : string) (p : option string) (x y w : Q) : Node :=
  mkNode i p "" "" (x, y) (Some w) None false None false false None.

Definition measuredTree : list Node :=
  [ measuredNode "1" None 300 50 80; measuredNode "2" (Some "1") 0 0 300;
    measuredNode "3" (Some "1") 0 0 0 ].

(** ** Whole numbers *)

(** The numbers of the host are binary64, those of the embedding exact
    rationals.  The two agree on the sums, differences and halves of
    whole numbers of moderate size, which is what a layout pass computes
    when the root sits at whole coordinates and the widths are whole. *)
Definition Whole (q : Q) : Prop :=
  exists z : Z, (q == inject_Z z)%Q /\ (Z.abs z <= 2 ^ 30)%Z.

Definition whole (q : Q) : bool :=
  (Qden q =? 1)%positive && (Z.abs (Qnum q) <=? 2 ^ 30)%Z.

(** The inputs of the measuring layout on which the arithmetic of the
    host is exact: at most a thousand nodes, the roots at whole
    coordinates, and measured widths that are whole and not negative. *)
Definition WholeInput (nds : list Node) : Prop :=
  (List.length nds <= 1000)%nat
  /\ (forall n, n ∈ nds -> parentId n = None ->
        Whole (fst (position n)) /\ Whole (snd (position n)))
  /\ (forall n w, n ∈ nds -> measuredWidth n = Some w ->
        (0 <= w)%Q /\ Whole w).

Definition wholeInput (nds : list Node) : bool :=
  (List.length nds <=? 1000)%nat
  && forallb (fun n =>
                match parentId n with
                | None => whole (fst (position n)) && whole (snd (position n))
                | Some _ => true
                end) nds
  && forallb (fun n =>
                match measuredWidth n with
                | Some w => Qle_bool 0 w && whole w
                | None => true
                end) nds.

(** * Properties *)

(** ** Identifiers *)

Lemma toString_inj n m : toString n = toString m -> n = m.
Proof.
  unfold toString. intros H.
  assert (Hu : Some (Nat.to_uint n) = Some (Nat.to_uint m)).
  { rewrite <- !NilEmpty.usu. by rewrite H. }
  injection Hu as Hu.
  rewrite <- (Unsigned.of_to n), <- (Unsigned.of_to m). by rewrite Hu.
Qed.

Lemma toString_truthy n : truthy (toString n) = true.
Proof.
  unfold truthy, toString.
  destruct (String.eqb_spec (NilEmpty.string_of_uint (Nat.to_uint n)) "") as [E|E];
    [|done].
  exfalso.
  assert (Hu : NilEmpty.uint_of_string "" = Some (Nat.to_uint n)).
  { rewrite <- E. apply NilEmpty.usu. }
  simpl in Hu. injection Hu as Hu.
  assert (n = 0).
  { rewrite <- (Unsigned.of_to n), <- Hu. reflexivity. }
  subst n. discriminate Hu.
Qed.

Lemma truthy_ne s : truthy s = true <-> s <> "".
Proof.
  unfold truthy. destruct (String.eqb_spec s ""); split; intros; try done.
Qed.

(** ** The children index *)

Lemma childrenOf_pushChild cm i n k :
  childrenOf (pushChild cm (i, n)) k
  = childrenOf cm k
    ++ (if truthy k then if decide (parentId n = Some k) then [i] else []
        else []).
Proof.
  unfold pushChild, childrenOf; simpl.
  destruct (parentId n) as [p|] eqn:Hp.
  - destruct (truthy p) eqn:Htp.
    + destruct (decide (p = k)) as [->|Hne].
      * rewrite lookup_insert_eq, Htp. simpl.
        rewrite decide_True by done. done.
      * rewrite lookup_insert_ne by done.
        rewrite decide_False by congruence.
        destruct (truthy k); by rewrite app_nil_r.
    + destruct (truthy k) eqn:Htk; [|by rewrite app_nil_r].
      rewrite decide_False; [by rewrite app_nil_r|].
      intros [= ->]. congruence.
  - rewrite decide_False by done. destruct (truthy k); by rewrite app_nil_r.
Qed.

Lemma childrenOf_fill nds : forall i cm k,
  childrenOf (fillChildrenMap i nds cm) k
  = childrenOf cm k ++ (if truthy k then childIndices i nds k else []).
Proof.
  induction nds as [|n nds IH]; intros i cm k; simpl.
  - destruct (truthy k); by rewrite app_nil_r.
  - rewrite IH, childrenOf_pushChild, <- app_assoc.
    destruct (truthy k); done.
Qed.

Lemma childrenOf_build nds k :
  childrenOf (buildChildrenMap nds) k
  = if truthy k then childIndices 0 nds k else [].
Proof.
  unfold buildChildrenMap. rewrite childrenOf_fill.
  unfold childrenOf at 1. by rewrite lookup_empty.
Qed.

Lemma elem_of_childIndices nds : forall i k c,
  c ∈ childIndices i nds k
  <-> exists n, i <= c /\ nds !! (c - i) = Some n /\ parentId n = Some k.
Proof.
  induction nds as [|n nds IH]; intros i k c; simpl.
  - split; [by intros ?%elem_of_nil | by intros (? & _ & ? & _)].
  - rewrite elem_of_app, IH. split.
    + intros [Hc | (m & Hle & Hm & Hp)].
      * destruct (decide (parentId n = Some k)); [|by apply elem_of_nil in Hc].
        apply list_elem_of_singleton in Hc as ->. exists n.
        rewrite Nat.sub_diag. done.
      * exists m. split; [lia|]. split; [|done].
        replace (c - i) with (S (c - S i)) by lia. done.
    + intros (m & Hle & Hm & Hp).
      destruct (decide (c = i)) as [->|Hne].
      * left. rewrite Nat.sub_diag in Hm. simpl in Hm. injection Hm as ->.
        rewrite decide_True by done. by apply list_elem_of_singleton.
      * right. exists m. split; [lia|]. split; [|done].
        replace (c - i) with (S (c - S i)) in Hm by lia. done.
Qed.

Lemma childIndices_lower nds i k c : c ∈ childIndices i nds k -> i <= c.
Proof. intros (n & ? & _)%elem_of_childIndices. done. Qed.

Lemma NoDup_childIndices nds : forall i k, NoDup (childIndices i nds k).
Proof.
  induction nds as [|n nds IH]; intros i k; simpl; [constructor|].
  destruct (decide (parentId n = Some k)); simpl; [|done].
  constructor; [|done]. intros H%childIndices_lower. lia.
Qed.

Lemma childIndices_skel nds nds' : 
  map skel nds = map skel nds' ->
  forall i k, childIndices i nds k = childIndices i nds' k.
Proof.
  revert nds'. induction nds as [|n nds IH]; intros [|n' nds'] H i k;
    try done.
  simpl in *. injection H as Hid Hp H. rewrite Hp, (IH _ H). done.
Qed.

(** The children the index holds for a node are the nodes whose
    [parentId] is its identifier. *)
Lemma elem_of_children nds k c :
  c ∈ childrenOf (buildChildrenMap nds) k
  <-> truthy k = true
      /\ exists n, nds !! c = Some n /\ parentId n = Some k.
Proof.
  rewrite childrenOf_build. destruct (truthy k).
  - rewrite elem_of_childIndices. split.
    + intros (n & _ & Hn & Hp). rewrite Nat.sub_0_r in Hn. eauto.
    + intros (_ & n & Hn & Hp). exists n. rewrite Nat.sub_0_r.
      split; [lia|done].
  - split; [by intros ?%elem_of_nil | by intros [? _]].
Qed.

(** ** Fuel

    More fuel never changes a result. *)

Lemma sumWidths_mono (f g : nat -> option Q) cs :
  (forall c w, c ∈ cs -> f c = Some w -> g c = Some w) ->
  forall t r, sumWidths f cs t = Some r -> sumWidths g cs t = Some r.
Proof.
  induction cs as [|c cs IH]; intros Hfg t r; simpl; [done|].
  destruct (f c) as [w|] eqn:Hf; [|done].
  rewrite (Hfg c w) by (done || apply list_elem_of_here).
  apply IH. intros c' w' Hc'. apply Hfg. by apply list_elem_of_further.
Qed.

Lemma mapWidths_mono (f g : nat -> option Q) cs :
  (forall c w, c ∈ cs -> f c = Some w -> g c = Some w) ->
  forall ws, mapWidths f cs = Some ws -> mapWidths g cs = Some ws.
Proof.
  induction cs as [|c cs IH]; intros Hfg ws; simpl; [done|].
  destruct (f c) as [w|] eqn:Hf; [|done].
  destruct (mapWidths f cs) as [ws'|] eqn:Hm; [|done].
  rewrite (Hfg c w) by (done || apply list_elem_of_here).
  rewrite (IH (fun c' w' Hc' => Hfg c' w' (list_elem_of_further _ _ _ Hc')) ws')
    by done.
  done.
Qed.

Lemma getSubtreeWidth_mono nds cm fuel : forall fuel' i w,
  fuel <= fuel' ->
  getSubtreeWidth fuel nds cm i = Some w ->
  getSubtreeWidth fuel' nds cm i = Some w.
Proof.
  induction fuel as [|fuel IH]; intros fuel' i w Hle; simpl; [done|].
  destruct fuel' as [|fuel']; [lia|]. simpl.
  destruct (nds !! i) as [node|]; [|done].
  destruct (length (childrenOf cm (id node)) =? 0)%nat; [done|].
  destruct (sumWidths _ _ _) as [total|] eqn:Hs; [|done].
  erewrite sumWidths_mono; [done| |exact Hs].
  intros c w' _. apply IH. lia.
Qed.

Lemma layoutChildren_mono (f g : list Node -> nat -> Q -> Q -> option (list Node)) :
  (forall nds c x y r, f nds c x y = Some r -> g nds c x y = Some r) ->
  forall cs ws nds x y r,
    layoutChildren f nds cs ws x y = Some r ->
    layoutChildren g nds cs ws x y = Some r.
Proof.
  intros Hfg. induction cs as [|c cs IH]; intros [|w ws] nds x y r; simpl;
    try done.
  destruct (f nds c _ _) as [nds'|] eqn:Hf; [|done].
  rewrite (Hfg _ _ _ _ _ Hf). apply IH.
Qed.

Lemma layoutNode_mono cm fuel : forall fuel' d v nds i x y r,
  fuel <= fuel' ->
  layoutNode fuel cm d v nds i x y = Some r ->
  layoutNode fuel' cm d v nds i x y = Some r.
Proof.
  induction fuel as [|fuel IH]; intros fuel' d v nds i x y r Hle; simpl;
    [done|].
  destruct fuel' as [|fuel']; [lia|]. simpl.
  destruct (nds !! i) as [node|]; [|done].
  destruct (length (childrenOf cm (id node)) =? 0)%nat; [done|].
  destruct (mapWidths _ _) as [ws|] eqn:Hm; [|done].
  erewrite mapWidths_mono; [| |exact Hm].
  - apply layoutChildren_mono. intros. eapply IH; [lia|done].
  - intros c w' _. apply getSubtreeWidth_mono. lia.
Qed.

Lemma layoutRoots_mono cm fuel fuel' idxs : forall nds r,
  fuel <= fuel' ->
  layoutRoots fuel cm nds idxs = Some r ->
  layoutRoots fuel' cm nds idxs = Some r.
Proof.
  induction idxs as [|i idxs IH]; intros nds r Hle; simpl; [done|].
  destruct (nds !! i) as [node|]; [|done].
  destruct (truthyId (parentId node)); [by apply IH|].
  destruct (layoutNode fuel _ _ _ _ _ _ _) as [nds'|] eqn:Hl; [|done].
  rewrite (layoutNode_mono _ _ _ _ _ _ _ _ _ _ Hle Hl). by apply IH.
Qed.

Lemma layoutTree_mono fuel fuel' nds r :
  fuel <= fuel' -> layoutTree fuel nds = Some r -> layoutTree fuel' nds = Some r.
Proof. unfold layoutTree. apply layoutRoots_mono. Qed.

Lemma scanDescendants_mono (f g : string -> gset string -> option (gset string)) :
  (forall s acc r, f s acc = Some r -> g s acc = Some r) ->
  forall scan k acc r,
    scanDescendants f scan k acc = Some r ->
    scanDescendants g scan k acc = Some r.
Proof.
  intros Hfg. induction scan as [|n scan IH]; intros k acc r; simpl; [done|].
  destruct (decide (parentId n = Some k)); [|apply IH].
  destruct (f _ _) as [acc'|] eqn:Hf; [|done].
  rewrite (Hfg _ _ _ Hf). apply IH.
Qed.

Lemma findDescendants_mono nds fuel : forall fuel' k acc r,
  fuel <= fuel' ->
  findDescendants fuel nds k acc = Some r ->
  findDescendants fuel' nds k acc = Some r.
Proof.
  induction fuel as [|fuel IH]; intros fuel' k acc r Hle; simpl; [done|].
  destruct fuel' as [|fuel']; [lia|]. simpl.
  apply scanDescendants_mono. intros. eapply IH; [lia|done].
Qed.

Lemma computeEdges_mono fuel fuel' nds r :
  fuel <= fuel' -> computeEdges fuel nds = Some r -> computeEdges fuel' nds = Some r.
Proof.
  unfold computeEdges. intros Hle.
  destruct (findDescendants fuel _ _ _) as [acc|] eqn:Hf; [|done].
  by rewrite (findDescendants_mono _ _ _ _ _ _ Hle Hf).
Qed.

Lemma collectDescendants_mono (f g : string -> option (list string)) :
  (forall s r, f s = Some r -> g s = Some r) ->
  forall scan k acc r,
    collectDescendants f scan k acc = Some r ->
    collectDescendants g scan k acc = Some r.
Proof.
  intros Hfg. induction scan as [|n scan IH]; intros k acc r; simpl; [done|].
  destruct (decide (parentId n = Some k)); [|apply IH].
  destruct (f _) as [below|] eqn:Hf; [|done].
  rewrite (Hfg _ _ Hf). apply IH.
Qed.

Lemma getDescendants_mono nds fuel : forall fuel' k r,
  fuel <= fuel' ->
  getDescendants fuel nds k = Some r ->
  getDescendants fuel' nds k = Some r.
Proof.
  induction fuel as [|fuel IH]; intros fuel' k r Hle; simpl; [done|].
  destruct fuel' as [|fuel']; [lia|]. simpl.
  apply collectDescendants_mono. intros. eapply IH; [lia|done].
Qed.

Lemma isNodeDescendant_mono parents fuel : forall fuel' s a r,
  fuel <= fuel' ->
  isNodeDescendant fuel parents s a = Some r ->
  isNodeDescendant fuel' parents s a = Some r.
Proof.
  induction fuel as [|fuel IH]; intros fuel' s a r Hle; simpl; [done|].
  destruct fuel' as [|fuel']; [lia|]. simpl.
  destruct (String.eqb s a); [done|].
  destruct (parents !! s) as [p|]; [|done].
  destruct (truthy p); [|done]. apply IH. lia.
Qed.

Lemma Returns_intro {A} (f : nat -> option A) fuel a :
  (forall fuel1 fuel2 r, fuel1 <= fuel2 -> f fuel1 = Some r -> f fuel2 = Some r) ->
  f fuel = Some a -> Returns f a.
Proof. intros Hm Hf. exists fuel. intros fuel' Hle. by eapply Hm. Qed.

Lemma Returns_unique {A} (f : nat -> option A) a b :
  Returns f a -> Returns f b -> a = b.
Proof.
  intros [f1 H1] [f2 H2].
  specialize (H1 (f1 `max` f2) ltac:(lia)).
  specialize (H2 (f1 `max` f2) ltac:(lia)). congruence.
Qed.

(** ** The structure of the node array *)

Lemma map_fmap {A B} (f : A -> B) (l : list A) : map f l = f <$> l.
Proof. reflexivity. Qed.

Lemma lookup_skel nds nds' i n :
  map skel nds = map skel nds' -> nds !! i = Some n ->
  exists n', nds' !! i = Some n' /\ skel n' = skel n.
Proof.
  intros H Hn. change (skel <$> nds = skel <$> nds') in H.
  assert (Hs : (skel <$> nds') !! i = Some (skel n)).
  { rewrite <- H, list_lookup_fmap, Hn. done. }
  rewrite list_lookup_fmap in Hs.
  destruct (nds' !! i) as [n'|]; [|done]. simpl in Hs. injection Hs as Hs.
  exists n'. split; [done|]. unfold skel. congruence.
Qed.

Lemma skel_id n n' : skel n = skel n' -> id n = id n'.
Proof. unfold skel. congruence. Qed.

Lemma skel_parentId n n' : skel n = skel n' -> parentId n = parentId n'.
Proof. unfold skel. congruence. Qed.

Lemma skel_length nds nds' : map skel nds = map skel nds' -> length nds = length nds'.
Proof. intros H. rewrite <- (length_map skel nds), H. apply length_map. Qed.

Lemma elem_of_skel nds nds' n :
  map skel nds = map skel nds' -> n ∈ nds ->
  exists n', n' ∈ nds' /\ skel n' = skel n.
Proof.
  intros H (i & Hi)%list_elem_of_lookup.
  destruct (lookup_skel _ _ _ _ H Hi) as (n' & Hn' & Hs).
  exists n'. split; [|done]. apply list_elem_of_lookup. eauto.
Qed.

Lemma map_id_skel nds nds' : map skel nds = map skel nds' -> map id nds = map id nds'.
Proof.
  intros H. assert (E : map fst (map skel nds) = map fst (map skel nds')) by (by rewrite H).
  rewrite !List.map_map in E. exact E.
Qed.

Lemma skel_insert nds i n n' :
  nds !! i = Some n -> skel n' = skel n ->
  map skel (<[i := n']> nds) = map skel nds.
Proof.
  intros Hn Hs. change (skel <$> <[i := n']> nds = skel <$> nds).
  rewrite list_fmap_insert, Hs.
  apply list_insert_id. by rewrite list_lookup_fmap, Hn.
Qed.

Lemma skel_place x y d v n : skel (place x y d v n) = skel n.
Proof. reflexivity. Qed.

Lemma Ranked_skel S rk nds nds' :
  map skel nds = map skel nds' -> Ranked S rk nds -> Ranked S rk nds'.
Proof.
  intros H HR n p Hn Hp HS.
  destruct (elem_of_skel _ _ _ (eq_sym H) Hn) as (n0 & Hn0 & Hs).
  rewrite <- (skel_id _ _ Hs). apply (HR n0 p); [done| |done].
  by rewrite (skel_parentId _ _ Hs).
Qed.

Lemma ChildrenOK_skel cm nds nds' :
  map skel nds = map skel nds' -> ChildrenOK cm nds -> ChildrenOK cm nds'.
Proof.
  intros H HC k c Hc. destruct (HC k c Hc) as (n & Hn & Hp).
  destruct (lookup_skel _ _ _ _ H Hn) as (n' & Hn' & Hs).
  exists n'. split; [done|]. by rewrite (skel_parentId _ _ Hs).
Qed.

Lemma ChildrenOK_build nds : ChildrenOK (buildChildrenMap nds) nds.
Proof. intros k c (_ & n & Hn & Hp)%elem_of_children. eauto. Qed.

Lemma layoutChildren_skel (f : list Node -> nat -> Q -> Q -> option (list Node)) :
  (forall nds c x y r, f nds c x y = Some r -> map skel r = map skel nds) ->
  forall cs ws nds x y r,
    layoutChildren f nds cs ws x y = Some r -> map skel r = map skel nds.
Proof.
  intros Hf. induction cs as [|c cs IH]; intros [|w ws] nds x y r; simpl;
    try (by intros [= ->]).
  destruct (f nds c _ _) as [nds'|] eqn:E; [|done].
  intros H. rewrite (IH _ _ _ _ _ H). eauto.
Qed.

Lemma layoutNode_skel cm fuel : forall d v nds i x y r,
  layoutNode fuel cm d v nds i x y = Some r -> map skel r = map skel nds.
Proof.
  induction fuel as [|fuel IH]; intros d v nds i x y r; simpl; [done|].
  destruct (nds !! i) as [node|] eqn:Hi; [|done].
  assert (Hs : map skel (<[i := place x y d v node]> nds) = map skel nds)
    by (by eapply skel_insert).
  destruct (length (childrenOf cm (id node)) =? 0)%nat; [by intros [= <-]|].
  destruct (mapWidths _ _) as [ws|]; [|done].
  intros H. rewrite <- Hs. revert H. apply layoutChildren_skel. apply IH.
Qed.

Lemma layoutRoots_skel cm fuel idxs : forall nds r,
  layoutRoots fuel cm nds idxs = Some r -> map skel r = map skel nds.
Proof.
  induction idxs as [|i idxs IH]; intros nds r; simpl; [by intros [= ->]|].
  destruct (nds !! i) as [node|]; [|done].
  destruct (truthyId (parentId node)); [apply IH|].
  destruct (layoutNode _ _ _ _ _ _ _ _) as [nds'|] eqn:E; [|done].
  intros H. rewrite (IH _ _ H). by eapply layoutNode_skel.
Qed.

Lemma skel_setDraggable nds b : map skel (map (setDraggable b) nds) = map skel nds.
Proof. rewrite List.map_map. done. Qed.

(** A layout pass changes no identifier and no parent link. *)
Lemma layoutTree_skel fuel nds r :
  layoutTree fuel nds = Some r -> map skel r = map skel nds.
Proof.
  unfold layoutTree. intros H%layoutRoots_skel.
  by rewrite H, skel_setDraggable.
Qed.

(** ** Termination of the walks down the tree *)

Lemma sumWidths_total (f : nat -> option Q) cs :
  (forall c, c ∈ cs -> is_Some (f c)) -> forall t, is_Some (sumWidths f cs t).
Proof.
  induction cs as [|c cs IH]; intros Hf t; simpl; [done|].
  destruct (Hf c (list_elem_of_here _ _)) as [w ->].
  apply IH. intros c' Hc'. apply Hf. by apply list_elem_of_further.
Qed.

Lemma mapWidths_total (f : nat -> option Q) cs :
  (forall c, c ∈ cs -> is_Some (f c)) -> is_Some (mapWidths f cs).
Proof.
  induction cs as [|c cs IH]; intros Hf; simpl; [done|].
  destruct (Hf c (list_elem_of_here _ _)) as [w ->].
  destruct IH as [ws ->]; [|done].
  intros c' Hc'. apply Hf. by apply list_elem_of_further.
Qed.

Lemma mapWidths_length (f : nat -> option Q) cs : forall ws,
  mapWidths f cs = Some ws -> length ws = length cs.
Proof.
  induction cs as [|c cs IH]; intros ws; simpl; [by intros [= <-]|].
  destruct (f c); [|done]. destruct (mapWidths f cs) as [ws'|]; [|done].
  intros [= <-]. simpl. by rewrite (IH ws').
Qed.

Lemma sumWidths_ext (f g : nat -> option Q) cs :
  (forall c, f c = g c) -> forall t, sumWidths f cs t = sumWidths g cs t.
Proof.
  intros Hfg. induction cs as [|c cs IH]; intros t; simpl; [done|].
  rewrite Hfg. destruct (g c); [apply IH|done].
Qed.

Lemma mapWidths_ext (f g : nat -> option Q) cs :
  (forall c, f c = g c) -> mapWidths f cs = mapWidths g cs.
Proof.
  intros Hfg. induction cs as [|c cs IH]; simpl; [done|].
  by rewrite Hfg, IH.
Qed.

(** The subtree width reads the identifiers of the nodes only. *)
Lemma getSubtreeWidth_skel fuel nds nds' cm : 
  map skel nds = map skel nds' ->
  forall i, getSubtreeWidth fuel nds cm i = getSubtreeWidth fuel nds' cm i.
Proof.
  intros Hs. induction fuel as [|fuel IH]; intros i; simpl; [done|].
  destruct (nds !! i) as [n|] eqn:Hi.
  - destruct (lookup_skel _ _ _ _ Hs Hi) as (n' & -> & Hsk).
    rewrite (skel_id _ _ Hsk).
    destruct (length _ =? 0)%nat; [done|].
    by rewrite (sumWidths_ext _ _ _ IH).
  - destruct (nds' !! i) as [n'|] eqn:Hi'; [|done].
    destruct (lookup_skel _ _ _ _ (eq_sym Hs) Hi') as (n & Hn & _). congruence.
Qed.

Section Termination.
Variable S : string -> Prop.
Variable rk : string -> nat.
Variable nds0 : list Node.
Variable cm : gmap string (list nat).
Hypothesis HR : Ranked S rk nds0.
Hypothesis HC : ChildrenOK cm nds0.

Lemma child_ranked n c :
  n ∈ nds0 -> S (id n) -> c ∈ childrenOf cm (id n) ->
  exists nc, nds0 !! c = Some nc /\ S (id nc) /\ rk (id nc) < rk (id n).
Proof.
  intros Hn HS Hc. destruct (HC _ _ Hc) as (nc & Hnc & Hp).
  exists nc. split; [done|]. apply (HR nc (id n)); [|done|done].
  apply list_elem_of_lookup. eauto.
Qed.

Lemma getSubtreeWidth_total fuel : forall i n,
  nds0 !! i = Some n -> S (id n) -> rk (id n) < fuel ->
  is_Some (getSubtreeWidth fuel nds0 cm i).
Proof.
  induction fuel as [|fuel IH]; intros i n Hi HS Hlt; [lia|]. simpl.
  rewrite Hi. destruct (length (childrenOf cm (id n)) =? 0)%nat; [done|].
  destruct (sumWidths_total (getSubtreeWidth fuel nds0 cm)
              (childrenOf cm (id n))) with (t := 0%Q) as [t ->]; [|done].
  intros c Hc.
  destruct (child_ranked n c) as (nc & Hnc & HSc & Hrk); [|done|done|].
  { apply list_elem_of_lookup. eauto. }
  apply (IH c nc); [done|done|lia].
Qed.

Lemma layoutChildren_total
    (f : list Node -> nat -> Q -> Q -> option (list Node)) cs :
  (forall nds c x y, c ∈ cs -> map skel nds = map skel nds0 ->
      exists r, f nds c x y = Some r /\ map skel r = map skel nds0) ->
  forall ws nds x y, map skel nds = map skel nds0 ->
    exists r, layoutChildren f nds cs ws x y = Some r
              /\ map skel r = map skel nds0.
Proof.
  induction cs as [|c cs IH]; intros Hf [|w ws] nds x y Hs; simpl;
    try (by exists nds).
  destruct (Hf nds c (x + w / 2)%Q y (list_elem_of_here _ _) Hs)
    as (nds' & -> & Hs').
  apply IH; [|done]. intros. apply Hf; [|done].
  by apply list_elem_of_further.
Qed.

Lemma layoutNode_total fuel : forall d v nds i n x y,
  map skel nds = map skel nds0 ->
  nds !! i = Some n -> S (id n) -> rk (id n) < fuel ->
  exists r, layoutNode fuel cm d v nds i x y = Some r
            /\ map skel r = map skel nds0.
Proof.
  induction fuel as [|fuel IH]; intros d v nds i n x y Hs Hi HS Hlt; [lia|].
  simpl. rewrite Hi.
  assert (Hs1 : map skel (<[i := place x y d v n]> nds) = map skel nds0).
  { rewrite <- Hs. by eapply skel_insert. }
  destruct (length (childrenOf cm (id n)) =? 0)%nat; [eauto|].
  destruct (lookup_skel _ _ _ _ Hs Hi) as (n0 & Hi0 & Hsk).
  assert (Hn0 : n0 ∈ nds0) by (apply list_elem_of_lookup; eauto).
  rewrite <- (skel_id _ _ Hsk) in *.
  destruct (mapWidths_total
              (getSubtreeWidth fuel (<[i := place x y d v n]> nds) cm)
              (childrenOf cm (id n0))) as [ws ->].
  { intros c Hc.
    destruct (child_ranked n0 c) as (nc & Hnc & HSc & Hrk); [done..|].
    rewrite (getSubtreeWidth_skel _ _ nds0) by done.
    apply (getSubtreeWidth_total fuel c nc); [done|done|lia]. }
  apply layoutChildren_total; [|done].
  intros nds' c x' y' Hc Hs'.
  destruct (child_ranked n0 c) as (nc & Hnc & HSc & Hrk); [done..|].
  destruct (lookup_skel _ _ _ _ (eq_sym Hs') Hnc) as (nc' & Hnc' & Hsk').
  apply (IH _ _ nds' c nc'); [done|done| |].
  - by rewrite (skel_id _ _ Hsk').
  - rewrite (skel_id _ _ Hsk'). lia.
Qed.

Lemma layoutRoots_total fuel idxs : forall nds,
  map skel nds = map skel nds0 ->
  (forall i n, i ∈ idxs -> nds0 !! i = Some n ->
               truthyId (parentId n) = false ->
               S (id n) /\ rk (id n) < fuel) ->
  (forall i, i ∈ idxs -> i < length nds0) ->
  exists r, layoutRoots fuel cm nds idxs = Some r
            /\ map skel r = map skel nds0.
Proof.
  induction idxs as [|i idxs IH]; intros nds Hs Hroot Hlen; simpl; [eauto|].
  destruct (lookup_lt_is_Some_2 nds i) as [n Hi].
  { rewrite (skel_length _ _ Hs). apply Hlen, list_elem_of_here. }
  rewrite Hi.
  assert (Hrest : forall nds', map skel nds' = map skel nds0 ->
            exists r, layoutRoots fuel cm nds' idxs = Some r
                      /\ map skel r = map skel nds0).
  { intros nds' Hs'. apply IH; [done| |].
    - intros j m Hj. apply Hroot. by apply list_elem_of_further.
    - intros j Hj. apply Hlen. by apply list_elem_of_further. }
  destruct (truthyId (parentId n)) eqn:Ht; [by apply Hrest|].
  destruct (lookup_skel _ _ _ _ Hs Hi) as (n0 & Hi0 & Hsk).
  destruct (Hroot i n0 (list_elem_of_here _ _) Hi0) as [HS Hlt].
  { by rewrite (skel_parentId _ _ Hsk). }
  destruct (layoutNode_total fuel 0 true nds i n
              (fst (position n) + NODE_WIDTH / 2)%Q (snd (position n)))
    as (nds' & -> & Hs'); [done|done| | |by apply Hrest].
  - by rewrite <- (skel_id _ _ Hsk).
  - by rewrite <- (skel_id _ _ Hsk).
Qed.
End Termination.

(** ** Trees *)

Lemma findNode_Some nds s n : findNode nds s = Some n -> n ∈ nds /\ id n = s.
Proof.
  unfold findNode. intros [Hin Heq]%find_some.
  split; [by apply list_elem_of_In|]. by apply String.eqb_eq.
Qed.

Lemma findNode_None nds s n : findNode nds s = None -> n ∈ nds -> id n <> s.
Proof.
  unfold findNode. intros H Hin%list_elem_of_In.
  pose proof (find_none _ _ H n Hin) as E. simpl in E.
  by apply String.eqb_neq.
Qed.

Lemma findNode_unique nds n :
  NoDup (map id nds) -> n ∈ nds -> findNode nds (id n) = Some n.
Proof.
  unfold findNode. induction nds as [|m nds IH]; intros Hnd Hin; simpl.
  - by apply elem_of_nil in Hin.
  - apply NoDup_cons in Hnd as [Hm Hnd].
    apply elem_of_cons in Hin as [->|Hin]; [by rewrite String.eqb_refl|].
    destruct (String.eqb_spec (id m) (id n)) as [E|E]; [|by apply IH].
    exfalso. apply Hm. rewrite E. change (id n ∈ id <$> nds).
    by apply list_elem_of_fmap_2.
Qed.

Lemma findNode_skel nds nds' s n :
  map skel nds = map skel nds' -> findNode nds s = Some n ->
  exists n', findNode nds' s = Some n' /\ skel n' = skel n.
Proof.
  unfold findNode. revert nds'.
  induction nds as [|m nds IH]; intros [|m' nds'] H; try done; simpl in *.
  injection H as Hid Hp H. rewrite <- Hid.
  destruct (String.eqb (id m) s).
  - intros [= <-]. exists m'. split; [done|]. unfold skel. congruence.
  - by apply IH.
Qed.

Lemma findNode_skel_None nds nds' s :
  map skel nds = map skel nds' -> findNode nds s = None -> findNode nds' s = None.
Proof.
  intros H Hn. destruct (findNode nds' s) as [n'|] eqn:E; [|done].
  destruct (findNode_skel _ _ _ _ (eq_sym H) E) as (n & Hn' & _). congruence.
Qed.

Lemma climbs_skel nds nds' :
  map skel nds = map skel nds' -> forall k s, climbs nds k s = climbs nds' k s.
Proof.
  intros H k. induction k as [|k IH]; intros s; simpl.
  - destruct (findNode nds s) as [n|] eqn:E.
    + destruct (findNode_skel _ _ _ _ H E) as (n' & -> & Hs).
      by rewrite (skel_parentId _ _ Hs).
    + by rewrite (findNode_skel_None _ _ _ H E).
  - destruct (findNode nds s) as [n|] eqn:E.
    + destruct (findNode_skel _ _ _ _ H E) as (n' & -> & Hs).
      rewrite (skel_parentId _ _ Hs). destruct (parentId n); [apply IH|done].
    + by rewrite (findNode_skel_None _ _ _ H E).
Qed.

Lemma filter_skel (f : Node -> bool) nds nds' :
  (forall n n', skel n = skel n' -> f n = f n') ->
  map skel nds = map skel nds' ->
  map skel (List.filter f nds) = map skel (List.filter f nds').
Proof.
  intros Hf. revert nds'.
  induction nds as [|m nds IH]; intros [|m' nds'] H; try done; simpl in *.
  assert (Hs : skel m = skel m') by (inversion H; unfold skel; congruence).
  assert (Ht : map skel nds = map skel nds') by (by inversion H).
  rewrite (Hf _ _ Hs). destruct (f m'); simpl; rewrite ?Hs; by rewrite (IH _ Ht).
Qed.

(** The invariants speak of identifiers and parent links only. *)
Lemma TreeInv_skel nds nds' :
  map skel nds = map skel nds' -> TreeInv nds -> TreeInv nds'.
Proof.
  intros H [[r Hr] Hp Hc Hu]. split.
  - pose proof (filter_skel (fun n => negb (bool_decide (is_Some (parentId n))))
                  nds nds') as Hf.
    rewrite Hr in Hf. 
    destruct (List.filter _ nds') as [|r' [|]] eqn:E.
    + exfalso. specialize (Hf ltac:(intros ?? ->%skel_parentId; done) H). done.
    + by exists r'.
    + exfalso. specialize (Hf ltac:(intros ?? ->%skel_parentId; done) H). done.
  - intros n' p Hn' Hpar.
    destruct (elem_of_skel _ _ _ (eq_sym H) Hn') as (n & Hn & Hs).
    destruct (Hp n p Hn) as (m & Hm & Hid).
    { by rewrite (skel_parentId _ _ Hs). }
    destruct (elem_of_skel _ _ _ H Hm) as (m' & Hm' & Hs').
    exists m'. split; [done|]. by rewrite (skel_id _ _ Hs').
  - intros n' Hn'.
    destruct (elem_of_skel _ _ _ (eq_sym H) Hn') as (n & Hn & Hs).
    destruct (Hc n Hn) as [k Hk]. exists k.
    by rewrite <- (climbs_skel _ _ H), <- (skel_id _ _ Hs).
  - by rewrite <- (map_id_skel _ _ H).
Qed.

Lemma climbs_mono nds k : forall k' s,
  k <= k' -> climbs nds k s = true -> climbs nds k' s = true.
Proof.
  induction k as [|k IH]; intros k' s Hle; simpl.
  - destruct k'; simpl; [done|].
    destruct (findNode nds s) as [n|]; [|done]. by destruct (parentId n).
  - destruct k' as [|k']; [lia|]. simpl.
    destruct (findNode nds s) as [n|]; [|done].
    destruct (parentId n); [|done]. apply IH. lia.
Qed.

(** One bound serves every node of the array. *)
Lemma climbs_bound nds (l : list Node) :
  (forall n, n ∈ l -> exists k, climbs nds k (id n) = true) ->
  exists K, forall n, n ∈ l -> climbs nds K (id n) = true.
Proof.
  induction l as [|m l IH]; intros H.
  - exists 0. by intros n ?%elem_of_nil.
  - destruct IH as [K HK].
    { intros n Hn. apply H. by apply list_elem_of_further. }
    destruct (H m (list_elem_of_here _ _)) as [k Hk].
    exists (k `max` K). intros n [->|Hn]%elem_of_cons.
    + eapply climbs_mono; [|done]. lia.
    + eapply climbs_mono; [|by apply HK]. lia.
Qed.

Lemma depthOf_le nds k : forall s, depthOf nds k s <= k.
Proof.
  induction k as [|k IH]; intros s; simpl.
  - destruct (findNode nds s) as [n|]; [|done]. by destruct (parentId n).
  - destruct (findNode nds s) as [n|]; [|lia].
    destruct (parentId n); [|lia]. specialize (IH s0). lia.
Qed.

Lemma depthOf_stable nds k : forall k' s,
  k <= k' -> climbs nds k s = true -> depthOf nds k' s = depthOf nds k s.
Proof.
  induction k as [|k IH]; intros k' s Hle; simpl.
  - destruct k'; simpl; [done|].
    destruct (findNode nds s) as [n|]; [|done]. by destruct (parentId n).
  - destruct k' as [|k']; [lia|]. simpl.
    destruct (findNode nds s) as [n|]; [|done].
    destruct (parentId n); [|done]. intros H. f_equal. apply IH; [lia|done].
Qed.

(** A tree has a ranking for the recursions that walk down from any
    identifier. *)
Lemma TreeInv_Ranked nds :
  TreeInv nds -> exists rk, Ranked (fun _ => True) rk nds.
Proof.
  intros [_ Hp Hc Hu].
  destruct (climbs_bound nds nds Hc) as [K HK].
  exists (fun s => K - depthOf nds K s). intros n p Hn Hpar _. split; [done|].
  pose proof (HK n Hn) as Hk.
  destruct K as [|K]; simpl in Hk;
    rewrite (findNode_unique _ _ Hu Hn), Hpar in Hk; [done|].
  assert (E1 : depthOf nds (S K) (id n) = S (depthOf nds K p)).
  { simpl. by rewrite (findNode_unique _ _ Hu Hn), Hpar. }
  assert (E3 : depthOf nds (S K) p = depthOf nds K p).
  { apply depthOf_stable; [lia|done]. }
  rewrite E1, E3. pose proof (depthOf_le nds K p). lia.
Qed.

Lemma rank_bound (rk : string -> nat) (l : list Node) :
  exists F, forall n, n ∈ l -> rk (id n) < F.
Proof.
  induction l as [|m l [F HF]].
  - exists 0. by intros n ?%elem_of_nil.
  - exists (S (rk (id m)) `max` F). intros n [->|Hn]%elem_of_cons; [lia|].
    specialize (HF n Hn). lia.
Qed.

Lemma elem_of_seq_0 i n : i ∈ seq 0 n <-> i < n.
Proof. rewrite list_elem_of_In, in_seq. lia. Qed.

(** On a ranked node array the layout pass returns. *)
Lemma layoutTree_total S rk nds :
  Ranked S rk nds ->
  (forall n, n ∈ nds -> truthyId (parentId n) = false -> S (id n)) ->
  exists r, Returns (fun fuel => layoutTree fuel nds) r
            /\ map skel r = map skel nds.
Proof.
  intros HR Hroots. destruct (rank_bound rk nds) as [F HF].
  pose proof (skel_setDraggable nds false) as Hs.
  destruct (layoutRoots_total S rk (map (setDraggable false) nds)
              (buildChildrenMap nds)
              (Ranked_skel _ _ _ _ (eq_sym Hs) HR)
              (ChildrenOK_skel _ _ _ (eq_sym Hs) (ChildrenOK_build nds))
              F (seq 0 (length (map (setDraggable false) nds)))
              (map (setDraggable false) nds) eq_refl)
    as (r & Hr & Hsk).
  - intros i n _ Hi Ht.
    destruct (lookup_skel _ _ _ _ Hs Hi) as (n' & Hi' & Hsk).
    assert (Hn' : n' ∈ nds) by (apply list_elem_of_lookup; eauto).
    rewrite <- (skel_id _ _ Hsk). split; [|by apply HF].
    apply Hroots; [done|]. by rewrite (skel_parentId _ _ Hsk).
  - intros i Hi. by apply elem_of_seq_0.
  - exists r. split; [|by rewrite Hsk, Hs].
    apply (Returns_intro _ F); [|done].
    intros. by eapply layoutTree_mono.
Qed.

Lemma layoutTree_total_tree nds :
  TreeInv nds ->
  exists r, Returns (fun fuel => layoutTree fuel nds) r
            /\ map skel r = map skel nds.
Proof.
  intros [rk HR]%TreeInv_Ranked.
  by apply (layoutTree_total (fun _ => True) rk).
Qed.

(** ** Walking down by identifier *)

Section Descend.
Variable S : string -> Prop.
Variable rk : string -> nat.
Variable nds : list Node.
Hypothesis HR : Ranked S rk nds.

Lemma scanDescendants_total
    (f : string -> gset string -> option (gset string)) k :
  forall scan acc,
    (forall n acc', n ∈ scan -> parentId n = Some k -> is_Some (f (id n) acc')) ->
    is_Some (scanDescendants f scan k acc).
Proof.
  induction scan as [|n scan IH]; intros acc Hf; simpl; [done|].
  assert (Hrest : forall acc', is_Some (scanDescendants f scan k acc')).
  { intros acc'. apply IH. intros m acc'' Hm. apply Hf.
    by apply list_elem_of_further. }
  destruct (decide (parentId n = Some k)) as [Hp|]; [|done].
  destruct (Hf n ({[id n]} ∪ acc) (list_elem_of_here _ _) Hp) as [acc' ->].
  done.
Qed.

Lemma findDescendants_total fuel : forall k acc,
  S k -> rk k < fuel -> is_Some (findDescendants fuel nds k acc).
Proof.
  induction fuel as [|fuel IH]; intros k acc HS Hlt; [lia|]. simpl.
  apply scanDescendants_total. intros n acc' Hn Hp.
  destruct (HR n k Hn Hp HS) as [HSn Hrk]. apply IH; [done|lia].
Qed.

Lemma collectDescendants_total (f : string -> option (list string)) k :
  forall scan acc,
    (forall n, n ∈ scan -> parentId n = Some k -> is_Some (f (id n))) ->
    is_Some (collectDescendants f scan k acc).
Proof.
  induction scan as [|n scan IH]; intros acc Hf; simpl; [done|].
  assert (Hrest : forall acc', is_Some (collectDescendants f scan k acc')).
  { intros acc'. apply IH. intros m Hm. apply Hf.
    by apply list_elem_of_further. }
  destruct (decide (parentId n = Some k)) as [Hp|]; [|done].
  destruct (Hf n (list_elem_of_here _ _) Hp) as [below ->]. done.
Qed.

Lemma getDescendants_total fuel : forall k,
  S k -> rk k < fuel -> is_Some (getDescendants fuel nds k).
Proof.
  induction fuel as [|fuel IH]; intros k HS Hlt; [lia|]. simpl.
  apply collectDescendants_total. intros n Hn Hp.
  destruct (HR n k Hn Hp HS) as [HSn Hrk]. apply IH; [done|lia].
Qed.
End Descend.

Lemma computeEdges_total S rk nds :
  Ranked S rk nds -> S anchorId ->
  exists es, Returns (fun fuel => computeEdges fuel nds) es.
Proof.
  intros HR HS.
  destruct (findDescendants_total S rk nds HR (1 + rk anchorId) anchorId ∅)
    as [acc Hacc]; [done|lia|].
  exists (flat_map (edgeOf acc) nds).
  apply (Returns_intro _ (1 + rk anchorId)).
  - intros. by eapply computeEdges_mono.
  - unfold computeEdges. by rewrite Hacc.
Qed.

(** ** Where the layout puts the nodes *)

(** Linear arithmetic over the layout constants and halves. *)
Ltac qlra :=
  unfold NODE_WIDTH, HORIZONTAL_GAP, VERTICAL_GAP in *;
  unfold Qdiv in *; change (/ 2)%Q with (1 # 2)%Q in *; lra.

Lemma sumQ_snoc ws w : sumQ (ws ++ [w]) = (sumQ ws + w)%Q.
Proof. unfold sumQ. by rewrite fold_left_app. Qed.

Lemma num_S k : (num (S k) == num k + 1)%Q.
Proof.
  unfold num. rewrite Nat2Z.inj_succ, <- Z.add_1_r, inject_Z_plus. reflexivity.
Qed.

Lemma slotOffset_0 ws : (slotOffset ws 0 == 0)%Q.
Proof.
  unfold slotOffset, sumQ. rewrite take_0. simpl.
  change (num 0) with 0%Q. lra.
Qed.

Lemma slotOffset_S ws k w :
  ws !! k = Some w ->
  (slotOffset ws (S k) == slotOffset ws k + w + HORIZONTAL_GAP)%Q.
Proof.
  intros Hw. unfold slotOffset.
  rewrite (take_S_r ws k w Hw), sumQ_snoc, num_S. lra.
Qed.

Lemma Expect_Qeq nds cm i xc y xc' y' :
  Expect nds cm i xc y -> (xc == xc')%Q -> (y == y')%Q ->
  Expect nds cm i xc' y'.
Proof.
  intros H Hx Hy. destruct H.
  - eapply expect_root; eauto; lra.
  - eapply expect_child; eauto; lra.
Qed.

Lemma WidthIs_unique nds cm c w w' :
  WidthIs nds cm c w -> WidthIs nds cm c w' -> w = w'.
Proof.
  intros [f1 H1] [f2 H2].
  pose proof (getSubtreeWidth_mono nds cm f1 (f1 `max` f2) c w ltac:(lia) H1).
  pose proof (getSubtreeWidth_mono nds cm f2 (f1 `max` f2) c w' ltac:(lia) H2).
  congruence.
Qed.

Lemma mapWidths_Forall2 (f : nat -> option Q) (P : nat -> Q -> Prop) cs :
  (forall c w, f c = Some w -> P c w) ->
  forall ws, mapWidths f cs = Some ws -> Forall2 P cs ws.
Proof.
  intros HP. induction cs as [|c cs IH]; intros ws; simpl.
  - intros [= <-]. constructor.
  - destruct (f c) as [w|] eqn:E; [|done].
    destruct (mapWidths f cs) as [ws'|]; [|done].
    intros [= <-]. constructor; [by apply HP|by apply IH].
Qed.

Section Placement.
Variable nds0 : list Node.
Variable cm : gmap string (list nat).

Lemma Placed_insert_other cur i j m :
  i <> j -> Placed nds0 cm cur j -> Placed nds0 cm (<[i := m]> cur) j.
Proof.
  intros Hne (n & xc & y & Hn & HE & Hx & Hy). exists n, xc, y.
  by rewrite list_lookup_insert_ne.
Qed.

Lemma Placed_insert_here cur i n xc y d v :
  cur !! i = Some n -> Expect nds0 cm i xc y ->
  Placed nds0 cm (<[i := place xc y d v n]> cur) i.
Proof.
  intros Hn HE. exists (place xc y d v n), xc, y.
  rewrite list_lookup_insert_eq by (by eapply lookup_lt_Some).
  simpl. repeat split; done || reflexivity.
Qed.

Lemma Placed_insert cur i n xc y d v j :
  cur !! i = Some n -> Expect nds0 cm i xc y ->
  Placed nds0 cm cur j -> Placed nds0 cm (<[i := place xc y d v n]> cur) j.
Proof.
  intros Hn HE HP. destruct (decide (i = j)) as [<-|Hne].
  - by apply Placed_insert_here.
  - by apply Placed_insert_other.
Qed.

Lemma Progress_insert cur i n xc y d v :
  Progress nds0 cm cur -> cur !! i = Some n -> Expect nds0 cm i xc y ->
  Progress nds0 cm (<[i := place xc y d v n]> cur).
Proof.
  intros [Hs Hpr] Hn HE. split.
  - rewrite <- Hs. by eapply skel_insert.
  - intros j m m0 Hm Hm0. destruct (decide (i = j)) as [<-|Hne].
    + right. by apply Placed_insert_here.
    + rewrite list_lookup_insert_ne in Hm by done.
      destruct (Hpr j m m0 Hm Hm0) as [->|HP]; [by left|right].
      by apply Placed_insert_other.
Qed.

Lemma layoutChildren_placed
    (f : list Node -> nat -> Q -> Q -> option (list Node))
    (cs : list nat) (ws : list Q) (start childY : Q) :
  LaysOut nds0 cm f ->
  length ws = length cs ->
  (forall k c w x, cs !! k = Some c -> ws !! k = Some w ->
      (x == start + slotOffset ws k + w / 2)%Q ->
      Expect nds0 cm c x childY) ->
  forall rest restW k cur currentX r,
    drop k cs = rest -> drop k ws = restW ->
    (currentX == start + slotOffset ws k)%Q ->
    Progress nds0 cm cur ->
    layoutChildren f cur rest restW currentX childY = Some r ->
    Progress nds0 cm r
    /\ (forall j, Placed nds0 cm cur j -> Placed nds0 cm r j)
    /\ (forall c j, c ∈ rest -> Reach nds0 cm c j -> Placed nds0 cm r j).
Proof.
  intros Hf Hlen HE. induction rest as [|c rest IH];
    intros restW k cur currentX r Hcs Hws Hx Hpr; simpl.
  - intros [= <-]. split; [done|]. split; [done|].
    by intros c j ?%elem_of_nil.
  - assert (Hk : cs !! k = Some c).
    { rewrite <- (Nat.add_0_r k), <- lookup_drop, Hcs. done. }
    destruct (lookup_lt_is_Some_2 ws k) as [w Hw].
    { rewrite Hlen. by eapply lookup_lt_Some. }
    rewrite (drop_S _ _ _ Hw) in Hws. subst restW.
    rewrite (drop_S _ _ _ Hk) in Hcs. injection Hcs as Hcs.
    destruct (f cur c _ _) as [cur'|] eqn:Ef; [|done]. intros Hr.
    destruct (Hf _ _ _ _ _ Hpr
                (HE k c w (currentX + w / 2)%Q Hk Hw ltac:(lra)) Ef)
      as (Hpr' & Hmono' & Hreach').
    destruct (IH (drop (S k) ws) (S k) cur'
                (currentX + w + HORIZONTAL_GAP)%Q r Hcs eq_refl)
      as (Hpr'' & Hmono'' & Hreach''); [|done|done|].
    { rewrite (slotOffset_S _ _ _ Hw). lra. }
    split; [done|]. split; [by auto|].
    intros c' j [->|Hc']%elem_of_cons Hj; [by auto|by eauto].
Qed.

Lemma Reach_children i n j :
  nds0 !! i = Some n -> Reach nds0 cm i j ->
  j = i \/ exists c, c ∈ childrenOf cm (id n) /\ Reach nds0 cm c j.
Proof.
  intros Hn HR. destruct HR as [|i n' c j Hn' Hc Hj]; [by left|right].
  exists c. split; [|done]. congruence.
Qed.

Lemma layoutNode_placed fuel : forall d v,
  LaysOut nds0 cm (layoutNode fuel cm d v).
Proof.
  induction fuel as [|fuel IH]; intros d v cur i x y r Hpr HE; simpl;
    [done|].
  destruct (cur !! i) as [n|] eqn:Hi; [|done].
  pose proof (Progress_insert cur i n x y d v Hpr Hi HE) as Hpr1.
  pose proof (fun j => Placed_insert cur i n x y d v j Hi HE) as Hmono1.
  pose proof (Placed_insert_here cur i n x y d v Hi HE) as Hhere.
  destruct Hpr as [Hs _].
  destruct (lookup_skel _ _ _ _ Hs Hi) as (n0 & Hi0 & Hsk).
  rewrite <- (skel_id _ _ Hsk).
  destruct (length (childrenOf cm (id n0)) =? 0)%nat eqn:El.
  - intros [= <-]. split; [done|]. split; [done|].
    intros j Hj.
    destruct (Reach_children _ _ _ Hi0 Hj) as [->|(c & Hc & _)]; [done|].
    apply Nat.eqb_eq in El.
    destruct (childrenOf cm (id n0)); [by apply elem_of_nil in Hc|done].
  - destruct (mapWidths _ _) as [ws|] eqn:Ew; [|done]. intros Hr.
    pose proof (mapWidths_length _ _ _ Ew) as Hlen.
    assert (HW : Forall2 (WidthIs nds0 cm) (childrenOf cm (id n0)) ws).
    { revert Ew. apply mapWidths_Forall2. intros c w Hc. exists fuel.
      rewrite <- Hc. symmetry. apply getSubtreeWidth_skel.
      by destruct Hpr1. }
    destruct (layoutChildren_placed (layoutNode fuel cm (S d) v)
                (childrenOf cm (id n0)) ws
                (x - totalWidth ws / 2)%Q (y + VERTICAL_GAP)%Q
                (IH (S d) v) Hlen) with
      (rest := childrenOf cm (id n0)) (restW := ws) (k := 0)
      (cur := <[i := place x y d v n]> cur)
      (currentX := (x - (sumQ ws + (num (length (childrenOf cm (id n0))) - 1)
                                   * HORIZONTAL_GAP) / 2)%Q) (r := r)
      as (Hpr' & Hmono' & Hreach'); try done.
    + intros k c w xc Hk Hw Hxc.
      eapply (expect_child nds0 cm i n0 x y ws k c w); eauto; lra.
    + rewrite slotOffset_0. unfold totalWidth. rewrite Hlen. lra.
    + split; [done|]. split; [by auto|].
      intros j Hj.
      destruct (Reach_children _ _ _ Hi0 Hj) as [->|(c & Hc & Hcj)];
        [by auto|]. by eapply Hreach'.
Qed.
End Placement.

Section PlacementRoots.
Variable nds0 : list Node.
Variable cm : gmap string (list nat).

Lemma Expect_at_root cur i n n0 :
  Progress nds0 cm cur -> cur !! i = Some n -> nds0 !! i = Some n0 ->
  truthyId (parentId n0) = false ->
  Expect nds0 cm i (fst (position n) + NODE_WIDTH / 2)%Q (snd (position n)).
Proof.
  intros [_ Hpr] Hi Hi0 Ht.
  destruct (Hpr i n n0 Hi Hi0) as [->|(n' & xc & y & Hn' & HE & Hx & Hy)].
  - eapply expect_root; eauto; reflexivity.
  - assert (n' = n) as -> by congruence.
    eapply Expect_Qeq; [exact HE| |]; lra.
Qed.

Lemma layoutRoots_placed fuel idxs : forall cur r,
  Progress nds0 cm cur ->
  layoutRoots fuel cm cur idxs = Some r ->
  Progress nds0 cm r
  /\ (forall j, Placed nds0 cm cur j -> Placed nds0 cm r j)
  /\ (forall i n0 j, i ∈ idxs -> nds0 !! i = Some n0 ->
        truthyId (parentId n0) = false ->
        Reach nds0 cm i j -> Placed nds0 cm r j).
Proof.
  induction idxs as [|i idxs IH]; intros cur r Hpr; simpl.
  - intros [= <-]. split; [done|]. split; [done|].
    by intros i n0 j ?%elem_of_nil.
  - destruct (cur !! i) as [n|] eqn:Hi; [|done].
    pose proof Hpr as [Hs _].
    destruct (lookup_skel _ _ _ _ Hs Hi) as (n0 & Hi0 & Hsk).
    rewrite <- (skel_parentId _ _ Hsk).
    destruct (truthyId (parentId n0)) eqn:Ht.
    + intros Hr. destruct (IH _ _ Hpr Hr) as (Hpr' & Hmono' & Hreach').
      split; [done|]. split; [done|].
      intros i' n0' j [->|Hi']%elem_of_cons Hn0' Ht' Hj; [|by eauto].
      congruence.
    + destruct (layoutNode _ _ _ _ _ _ _ _) as [cur'|] eqn:El; [|done].
      intros Hr.
      destruct (layoutNode_placed nds0 cm fuel 0 true cur i _ _ cur' Hpr
                  (Expect_at_root cur i n n0 Hpr Hi Hi0 Ht) El)
        as (Hpr1 & Hmono1 & Hreach1).
      destruct (IH _ _ Hpr1 Hr) as (Hpr' & Hmono' & Hreach').
      split; [done|]. split; [by auto|].
      intros i' n0' j [->|Hi']%elem_of_cons Hn0' Ht' Hj; [by auto|by eauto].
Qed.
End PlacementRoots.

Lemma Progress_start nds cm : Progress nds cm nds.
Proof. split; [done|]. intros j n n0 ??. left. congruence. Qed.

(** After a layout pass every node reached from a root sits where the
    layout intends it, and every other node is as it was. *)
Lemma layoutTree_placed fuel nds r :
  layoutTree fuel nds = Some r ->
  Progress (map (setDraggable false) nds) (buildChildrenMap nds) r
  /\ (forall i n0 j,
        map (setDraggable false) nds !! i = Some n0 ->
        truthyId (parentId n0) = false ->
        Reach (map (setDraggable false) nds) (buildChildrenMap nds) i j ->
        Placed (map (setDraggable false) nds) (buildChildrenMap nds) r j).
Proof.
  unfold layoutTree. intros H.
  set (nds0 := map (setDraggable false) nds) in *.
  set (cm := buildChildrenMap nds) in *.
  destruct (layoutRoots_placed nds0 cm fuel _ _ _ (Progress_start nds0 cm) H)
    as (Hpr & _ & Hreach).
  split; [done|]. intros i n0 j Hi. apply (Hreach i n0 j); [|done].
  apply elem_of_seq_0. by eapply lookup_lt_Some.
Qed.

Lemma WidthIs_skel nds nds' cm c w :
  map skel nds = map skel nds' -> WidthIs nds cm c w -> WidthIs nds' cm c w.
Proof.
  intros Hs [fuel H]. exists fuel. by rewrite <- (getSubtreeWidth_skel _ _ _ _ Hs).
Qed.

Lemma Expect_ext nds nds' cm i xc y :
  SameRoots nds nds' -> Expect nds cm i xc y -> Expect nds' cm i xc y.
Proof.
  intros [Hs Hpos] H. induction H as
    [i n xc y Hi Ht Hx Hy
    |p pn pxc py ws k c w xc y HE IH Hp HW Hk Hw Hx Hy].
  - destruct (lookup_skel _ _ _ _ Hs Hi) as (n' & Hi' & Hsk).
    destruct (Hpos i n n' Hi Hi' Ht) as [Hx' Hy'].
    eapply expect_root; [exact Hi'| | |].
    + by rewrite (skel_parentId _ _ Hsk).
    + lra.
    + lra.
  - destruct (lookup_skel _ _ _ _ Hs Hp) as (pn' & Hp' & Hsk).
    eapply (expect_child nds' cm p pn' pxc py ws k c w); try done.
    + rewrite (skel_id _ _ Hsk). eapply Forall2_impl; [exact HW|].
      intros c' w'. by apply WidthIs_skel.
    + by rewrite (skel_id _ _ Hsk).
Qed.

Lemma fillChildrenMap_skel nds : forall nds' i cm,
  map skel nds = map skel nds' ->
  fillChildrenMap i nds cm = fillChildrenMap i nds' cm.
Proof.
  induction nds as [|n nds IH]; intros [|n' nds'] i cm H; try done.
  simpl. assert (Hp : parentId n = parentId n') by (inversion H; congruence).
  assert (Ht : map skel nds = map skel nds') by (by inversion H).
  unfold pushChild. simpl. rewrite Hp. by apply IH.
Qed.

Lemma buildChildrenMap_skel nds nds' :
  map skel nds = map skel nds' -> buildChildrenMap nds = buildChildrenMap nds'.
Proof. apply fillChildrenMap_skel. Qed.

Lemma NoDup_children nds k : NoDup (childrenOf (buildChildrenMap nds) k).
Proof.
  rewrite childrenOf_build. destruct (truthy k); [|constructor].
  apply NoDup_childIndices.
Qed.

Lemma lookup_same_id nds i j n m :
  NoDup (map id nds) -> nds !! i = Some n -> nds !! j = Some m ->
  id n = id m -> i = j.
Proof.
  intros Hnd Hi Hj E. change (NoDup (id <$> nds)) in Hnd.
  eapply NoDup_lookup; [exact Hnd| |].
  - by rewrite list_lookup_fmap, Hi.
  - by rewrite list_lookup_fmap, Hj, E.
Qed.

Lemma Forall2_WidthIs_unique nds cm cs ws ws' :
  Forall2 (WidthIs nds cm) cs ws -> Forall2 (WidthIs nds cm) cs ws' -> ws = ws'.
Proof.
  intros H. revert ws'. induction H as [|c w cs ws Hw H IH]; intros ws' H'.
  - by inversion H'.
  - inversion H' as [|? w' ? ws'' Hw' H'']; subst.
    f_equal; [by eapply WidthIs_unique|by apply IH].
Qed.

(** With unique identifiers the layout intends one place for a node. *)
Lemma Expect_unique nds i xc y xc' y' :
  NoDup (map id nds) ->
  Expect nds (buildChildrenMap nds) i xc y ->
  Expect nds (buildChildrenMap nds) i xc' y' ->
  (xc == xc')%Q /\ (y == y')%Q.
Proof.
  intros Hnd H. revert xc' y'. induction H as
    [i n xc y Hi Ht Hx Hy
    |p pn pxc py ws k c w xc y HE IH Hp HW Hk Hw Hx Hy]; intros xc' y' H'.
  - destruct H' as
      [i n' xc' y' Hi' Ht' Hx' Hy'
      |p' pn' pxc' py' ws' k' c w' xc' y' HE' Hp' HW' Hk' Hw' Hx' Hy'].
    + assert (n' = n) as -> by congruence. split; lra.
    + exfalso. apply list_elem_of_lookup_2 in Hk'.
      apply elem_of_children in Hk' as (Htk & m & Hm & Hpar).
      assert (m = n) as -> by congruence.
      rewrite Hpar in Ht. simpl in Ht. congruence.
  - destruct H' as
      [i n' xc' y' Hi' Ht' Hx' Hy'
      |p' pn' pxc' py' ws' k' c w' xc' y' HE' Hp' HW' Hk' Hw' Hx' Hy'].
    + exfalso. apply list_elem_of_lookup_2 in Hk.
      apply elem_of_children in Hk as (Htk & m & Hm & Hpar).
      assert (m = n') as -> by congruence.
      rewrite Hpar in Ht'. simpl in Ht'. congruence.
    + assert (Eid : id pn = id pn').
      { pose proof (list_elem_of_lookup_2 _ _ _ Hk) as H1.
        pose proof (list_elem_of_lookup_2 _ _ _ Hk') as H2.
        apply elem_of_children in H1 as (_ & m & Hm & Hpar).
        apply elem_of_children in H2 as (_ & m' & Hm' & Hpar').
        congruence. }
      assert (p = p') as <- by (by eapply lookup_same_id).
      assert (pn' = pn) as -> by congruence.
      assert (ws' = ws) as -> by (by eapply Forall2_WidthIs_unique).
      assert (k = k') as <-.
      { eapply NoDup_lookup; [apply (NoDup_children nds (id pn))|done|done]. }
      assert (w' = w) as -> by congruence.
      destruct (IH _ _ HE') as [Ex Ey]. split; lra.
Qed.

Lemma Reach_snoc nds cm a b n c :
  Reach nds cm a b -> nds !! b = Some n -> c ∈ childrenOf cm (id n) ->
  Reach nds cm a c.
Proof.
  intros H Hb Hc. induction H as [i|i m c' j Hi Hc' Hj IH].
  - eapply reach_child; [exact Hb|exact Hc|apply reach_here].
  - eapply reach_child; [exact Hi|exact Hc'|by apply IH].
Qed.

Lemma Expect_Reach nds cm j xc y :
  Expect nds cm j xc y ->
  exists i n0, nds !! i = Some n0 /\ truthyId (parentId n0) = false
               /\ Reach nds cm i j.
Proof.
  induction 1 as
    [i n xc y Hi Ht Hx Hy
    |p pn pxc py ws k c w xc y HE IH Hp HW Hk Hw Hx Hy].
  - exists i, n. split; [done|]. split; [done|]. apply reach_here.
  - destruct IH as (i & n0 & Hi & Ht & HR). exists i, n0.
    split; [done|]. split; [done|].
    eapply Reach_snoc; [exact HR|exact Hp|]. by eapply list_elem_of_lookup_2.
Qed.

(** In a tree every node is reached from a root through the children
    index. *)
Lemma tree_reach nds :
  TreeInv nds -> IdsTruthy nds ->
  forall k j nj, nds !! j = Some nj -> climbs nds k (id nj) = true ->
  exists i n0, nds !! i = Some n0 /\ parentId n0 = None
               /\ Reach nds (buildChildrenMap nds) i j.
Proof.
  intros [_ Hp Hc Hu] Ht. induction k as [|k IH]; intros j nj Hj Hk;
    assert (Hin : nj ∈ nds) by (by eapply list_elem_of_lookup_2);
    simpl in Hk; rewrite (findNode_unique _ _ Hu Hin) in Hk;
    destruct (parentId nj) as [p|] eqn:Epar; try done;
    try (exists j, nj; split; [done|]; split; [done|]; apply reach_here).
  destruct (findNode nds p) as [m|] eqn:Em.
  2:{ destruct k; simpl in Hk; by rewrite Em in Hk. }
  apply findNode_Some in Em as [Hm <-].
  pose proof Hm as (im & Him)%list_elem_of_lookup.
  destruct (IH im m Him Hk) as (i & n0 & Hi & Hn0 & HR).
  exists i, n0. split; [done|]. split; [done|].
  eapply Reach_snoc; [exact HR|exact Him|].
  apply elem_of_children. split; [by apply Ht|]. by exists nj.
Qed.

Lemma SameRoots_setDraggable nds b : SameRoots (map (setDraggable b) nds) nds.
Proof.
  split; [apply skel_setDraggable|].
  intros i n n' Hi Hi' _. change ((setDraggable b <$> nds) !! i = Some n) in Hi.
  rewrite list_lookup_fmap, Hi' in Hi. injection Hi as <-. simpl.
  split; reflexivity.
Qed.

Lemma SameRoots_sym nds nds' : SameRoots nds nds' -> SameRoots nds' nds.
Proof.
  intros [Hs Hpos]. split; [done|]. intros i n n' Hi Hi' Ht.
  destruct (lookup_skel _ _ _ _ Hs Hi') as (m & Hm & Hsk).
  assert (m = n) as -> by congruence.
  destruct (Hpos i n' n Hi' Hi) as [Hx Hy].
  { by rewrite <- (skel_parentId _ _ Hsk). }
  split; lra.
Qed.

Lemma Reach_skel nds nds' cm i j :
  map skel nds = map skel nds' -> Reach nds cm i j -> Reach nds' cm i j.
Proof.
  intros Hs H. induction H as [i|i m c j Hi Hc Hj IH]; [apply reach_here|].
  destruct (lookup_skel _ _ _ _ Hs Hi) as (m' & Hm' & Hsk).
  eapply reach_child; [exact Hm'| |exact IH]. by rewrite (skel_id _ _ Hsk).
Qed.

(** The outcome of a layout pass, stated on its input: the node at an
    index either is the input node but for [draggable], or sits where the
    layout of the input intends it; the latter for every node reached
    from a root. *)
Lemma layoutTree_outcome fuel nds r :
  layoutTree fuel nds = Some r ->
  map skel r = map skel nds
  /\ (forall j n n0, r !! j = Some n -> nds !! j = Some n0 ->
        n = setDraggable false n0
        \/ exists xc y, Expect nds (buildChildrenMap nds) j xc y
             /\ (fst (position n) == xc - NODE_WIDTH / 2)%Q
             /\ (snd (position n) == y)%Q)
  /\ (forall i n0 j n, nds !! i = Some n0 -> truthyId (parentId n0) = false ->
        Reach nds (buildChildrenMap nds) i j -> r !! j = Some n ->
        exists xc y, Expect nds (buildChildrenMap nds) j xc y
             /\ (fst (position n) == xc - NODE_WIDTH / 2)%Q
             /\ (snd (position n) == y)%Q).
Proof.
  intros H. pose proof (layoutTree_skel _ _ _ H) as Hs.
  destruct (layoutTree_placed _ _ _ H) as [[_ Hpr] Hreach].
  pose proof (SameRoots_setDraggable nds false) as HSR.
  split; [done|]. split.
  - intros j n n0 Hj Hj0.
    destruct (Hpr j n (setDraggable false n0) Hj) as
      [->|(n' & xc & y & Hn' & HE & Hx & Hy)].
    + change ((setDraggable false <$> nds) !! j = Some (setDraggable false n0)).
      by rewrite list_lookup_fmap, Hj0.
    + by left.
    + right. assert (n' = n) as -> by congruence. exists xc, y.
      split; [|done]. by eapply Expect_ext.
  - intros i n0 j n Hi Ht HR Hj.
    destruct (Hreach i (setDraggable false n0) j) as
      (n' & xc & y & Hn' & HE & Hx & Hy).
    + change ((setDraggable false <$> nds) !! i = Some (setDraggable false n0)).
      by rewrite list_lookup_fmap, Hi.
    + done.
    + eapply Reach_skel; [|exact HR]. symmetry. apply skel_setDraggable.
    + assert (n' = n) as -> by congruence. exists xc, y.
      split; [|done]. by eapply Expect_ext.
Qed.

(** A layout pass leaves the roots where they are. *)
Lemma SameRoots_layoutTree fuel nds r :
  NoDup (map id nds) -> layoutTree fuel nds = Some r -> SameRoots nds r.
Proof.
  intros Hnd H. destruct (layoutTree_outcome _ _ _ H) as (Hs & _ & Hreach).
  split; [done|]. intros i n0 n Hi0 Hi Ht.
  destruct (Hreach i n0 i n Hi0 Ht (reach_here _ _ _) Hi)
    as (xc & y & HE & Hx & Hy).
  assert (HE0 : Expect nds (buildChildrenMap nds) i
                  (fst (position n0) + NODE_WIDTH / 2)%Q (snd (position n0))).
  { eapply expect_root; eauto; reflexivity. }
  destruct (Expect_unique _ _ _ _ _ _ Hnd HE HE0) as [Ex Ey]. split; lra.
Qed.

(** C9. The layout is idempotent: on every tree the layout pass returns,
    the pass run again on its own result returns, and the second pass
    leaves every node at the position the first pass gave it. *)
Theorem layout_idempotent nds :
  TreeInv nds ->
  exists r1 r2,
    Returns (fun fuel => layoutTree fuel nds) r1
    /\ Returns (fun fuel => layoutTree fuel r1) r2
    /\ Forall2 samePlace r1 r2.
Proof.
  intros HT.
  destruct (layoutTree_total_tree nds HT) as (r1 & HR1 & Hs1).
  pose proof (TreeInv_skel _ _ (eq_sym Hs1) HT) as HT1.
  destruct (layoutTree_total_tree r1 HT1) as (r2 & HR2 & Hs2).
  exists r1, r2. split; [done|]. split; [done|].
  destruct HR1 as [f1 H1]. specialize (H1 f1 (le_n _)).
  destruct HR2 as [f2 H2]. specialize (H2 f2 (le_n _)).
  pose proof (ids_unique _ HT) as Hnd.
  pose proof (SameRoots_layoutTree _ _ _ Hnd H1) as HSR.
  destruct (layoutTree_outcome _ _ _ H1) as (_ & _ & Hreach1).
  destruct (layoutTree_outcome _ _ _ H2) as (_ & Hpr2 & _).
  rewrite (buildChildrenMap_skel _ _ Hs1) in Hpr2.
  apply Forall2_same_length_lookup_2.
  { by rewrite (skel_length _ _ Hs2). }
  intros j n1 n2 Hj1 Hj2.
  destruct (lookup_skel _ _ _ _ Hs1 Hj1) as (n0 & Hj0 & Hsk0).
  destruct (lookup_skel _ _ _ _ (eq_sym Hs2) Hj1) as (n2' & Hj2' & Hsk2).
  assert (n2' = n2) as -> by congruence.
  split; [by rewrite (skel_id _ _ Hsk2)|].
  destruct (Hpr2 j n2 n1 Hj2 Hj1) as [->|(xc2 & y2 & HE2 & Hx2 & Hy2)].
  { simpl. split; reflexivity. }
  apply (Expect_ext _ nds) in HE2; [|by apply SameRoots_sym].
  destruct (Expect_Reach _ _ _ _ _ HE2) as (i & m0 & Hi & Ht & HRch).
  destruct (Hreach1 i m0 j n1 Hi Ht HRch Hj1) as (xc1 & y1 & HE1 & Hx1 & Hy1).
  destruct (Expect_unique _ _ _ _ _ _ Hnd HE1 HE2) as [Ex Ey]. split; lra.
Qed.

(** ** Sibling subtrees *)

Lemma getSubtreeWidth_ge fuel nds cm i w :
  getSubtreeWidth fuel nds cm i = Some w -> (NODE_WIDTH <= w)%Q.
Proof.
  destruct fuel as [|fuel]; simpl; [done|].
  destruct (nds !! i) as [n|]; [|done].
  destruct (length _ =? 0)%nat; [intros [= <-]; lra|].
  destruct (sumWidths _ _ _) as [t|]; [|done].
  intros [= <-]. apply Q.le_max_l.
Qed.

Lemma slotOffset_le ws :
  Forall (fun w => (0 <= w)%Q) ws ->
  forall j i wi, i < j -> j <= length ws -> ws !! i = Some wi ->
    (slotOffset ws i + wi + HORIZONTAL_GAP <= slotOffset ws j)%Q.
Proof.
  intros Hpos. induction j as [|j IH]; intros i wi Hij Hj Hi; [lia|].
  destruct (lookup_lt_is_Some_2 ws j) as [wj Hwj]; [lia|].
  rewrite (slotOffset_S _ _ _ Hwj).
  destruct (decide (i = j)) as [->|Hne].
  - assert (wi = wj) as -> by congruence. lra.
  - specialize (IH i wi ltac:(lia) ltac:(lia) Hi).
    assert (0 <= wj)%Q.
    { rewrite Forall_forall in Hpos. apply Hpos.
      by eapply list_elem_of_lookup_2. }
    unfold HORIZONTAL_GAP in *. lra.
Qed.

Lemma slotOffset_length ws :
  (slotOffset ws (length ws) == totalWidth ws + HORIZONTAL_GAP)%Q.
Proof. unfold slotOffset, totalWidth. rewrite firstn_all. lra. Qed.

Lemma slotOffset_nonneg ws k :
  Forall (fun w => (0 <= w)%Q) ws -> k < length ws -> (0 <= slotOffset ws k)%Q.
Proof.
  intros Hpos Hk. destruct k as [|k]; [rewrite slotOffset_0; lra|].
  destruct (lookup_lt_is_Some_2 ws 0) as [w0 H0]; [lia|].
  pose proof (slotOffset_le ws Hpos (S k) 0 w0 ltac:(lia) ltac:(lia) H0) as H.
  rewrite slotOffset_0 in H.
  assert (0 <= w0)%Q.
  { rewrite Forall_forall in Hpos. apply Hpos. by eapply list_elem_of_lookup_2. }
  unfold HORIZONTAL_GAP in H. lra.
Qed.

Lemma totalWidth_ge ws w0 :
  Forall (fun w => (0 <= w)%Q) ws -> ws !! 0 = Some w0 ->
  (w0 <= totalWidth ws)%Q.
Proof.
  intros Hpos H0.
  pose proof (slotOffset_le ws Hpos (length ws) 0 w0) as H.
  rewrite slotOffset_0, slotOffset_length in H.
  assert (0 < length ws) by (by eapply lookup_lt_Some).
  specialize (H ltac:(lia) ltac:(lia) H0). lra.
Qed.

Lemma sumWidths_mapWidths (f : nat -> option Q) cs : forall t,
  sumWidths f cs t
  = match mapWidths f cs with
    | Some ws => Some (fold_left Qplus ws t)
    | None => None
    end.
Proof.
  induction cs as [|c cs IH]; intros t; simpl; [done|].
  destruct (f c) as [w|]; [|done]. rewrite IH.
  by destruct (mapWidths f cs).
Qed.

Lemma mapWidths_lookup (f : nat -> option Q) cs : forall ws k c w,
  mapWidths f cs = Some ws -> cs !! k = Some c -> ws !! k = Some w ->
  f c = Some w.
Proof.
  induction cs as [|c0 cs IH]; intros ws k c w; simpl; [done|].
  destruct (f c0) as [w0|] eqn:E0; [|done].
  destruct (mapWidths f cs) as [ws'|] eqn:Em; [|done].
  intros [= <-]. destruct k as [|k]; simpl.
  - intros [= <-] [= <-]. done.
  - by apply IH.
Qed.

Lemma widths_exist S rk nds cm cs :
  Ranked S rk nds -> ChildrenOK cm nds ->
  (forall c, c ∈ cs -> exists n, nds !! c = Some n /\ S (id n)) ->
  exists ws, Forall2 (WidthIs nds cm) cs ws.
Proof.
  intros HR HC Hcs. destruct (rank_bound rk nds) as [F HF].
  destruct (mapWidths_total (getSubtreeWidth F nds cm) cs) as [ws Hws].
  - intros c Hc. destruct (Hcs c Hc) as (n & Hn & HS).
    apply (getSubtreeWidth_total S rk nds cm HR HC F c n); [done|done|].
    apply HF. by eapply list_elem_of_lookup_2.
  - exists ws. revert Hws. apply mapWidths_Forall2. intros c w Hw. by exists F.
Qed.

(** After a layout pass of a tree, the children of a node occupy
    consecutive slots under it: the row of the children is centred under
    the node, and the extent of the [k]-th child starts [slotOffset ws k]
    to the right of the start of the row. *)
Lemma child_slots fuel nds r p pn pr ws :
  TreeInv nds -> IdsTruthy nds ->
  layoutTree fuel nds = Some r ->
  nds !! p = Some pn -> r !! p = Some pr ->
  Forall2 (WidthIs nds (buildChildrenMap nds))
          (childrenOf (buildChildrenMap nds) (id pn)) ws ->
  forall k c w nc,
    childrenOf (buildChildrenMap nds) (id pn) !! k = Some c ->
    ws !! k = Some w -> r !! c = Some nc ->
    (slotLeft nc w == slotLeft pr (totalWidth ws) + slotOffset ws k)%Q.
Proof.
  intros HT Ht H Hp Hpr HW.
  pose proof (ids_unique _ HT) as Hnd.
  destruct (layoutTree_outcome _ _ _ H) as (Hs & _ & Hreach).
  assert (Hall : forall j n, r !! j = Some n ->
            exists xc y, Expect nds (buildChildrenMap nds) j xc y
              /\ (fst (position n) == xc - NODE_WIDTH / 2)%Q
              /\ (snd (position n) == y)%Q).
  { intros j n Hj.
    destruct (lookup_skel _ _ _ _ Hs Hj) as (n0 & Hj0 & Hsk).
    destruct (reaches_root _ HT n0) as [k Hk]; [by eapply list_elem_of_lookup_2|].
    destruct (tree_reach nds HT Ht k j n0 Hj0 Hk) as (i & m0 & Hi & Hm0 & HR).
    apply (Hreach i m0 j n Hi); [by rewrite Hm0|done|done]. }
  destruct (Hall p pr Hpr) as (pxc & py & HEp & Hpx & _).
  intros k c w nc Hk Hw Hc.
  destruct (Hall c nc Hc) as (xc & y & HEc & Hx & _).
  assert (HEc' : Expect nds (buildChildrenMap nds) c
                   (pxc - totalWidth ws / 2 + slotOffset ws k + w / 2)%Q
                   (py + VERTICAL_GAP)%Q).
  { eapply (expect_child nds _ p pn pxc py ws k c w); eauto; reflexivity. }
  destruct (Expect_unique _ _ _ _ _ _ Hnd HEc HEc') as [Ex _].
  unfold slotLeft. lra.
Qed.

Lemma SubtreeExtent_Qeq r cm i L R L' R' :
  SubtreeExtent r cm i L R -> (L == L')%Q -> (R == R')%Q ->
  SubtreeExtent r cm i L' R'.
Proof.
  intros (Hin & (jl & nl & Hl1 & Hl2 & Hl3) & (jr & nr & Hr1 & Hr2 & Hr3)) EL ER.
  split; [|split].
  - intros j nj Hj Hnj. destruct (Hin j nj Hj Hnj). split; lra.
  - exists jl, nl. repeat split; try done. lra.
  - exists jr, nr. repeat split; try done. lra.
Qed.

(** After a layout pass of a tree, the subtree of every node extends
    exactly over the slot allotted to it: from [slotLeft] over the
    subtree width. *)
Lemma subtree_extent f0 nds r :
  TreeInv nds -> IdsTruthy nds -> layoutTree f0 nds = Some r ->
  forall fuel i ni w,
    r !! i = Some ni ->
    getSubtreeWidth fuel nds (buildChildrenMap nds) i = Some w ->
    SubtreeExtent r (buildChildrenMap nds) i (slotLeft ni w) (slotLeft ni w + w).
Proof.
  intros HT Ht H. pose proof (layoutTree_skel _ _ _ H) as Hs.
  set (cm := buildChildrenMap nds).
  induction fuel as [|fuel IH]; intros i ni w Hi Hw; [done|].
  simpl in Hw.
  destruct (lookup_skel _ _ _ _ Hs Hi) as (n0 & Hi0 & Hsk).
  rewrite Hi0 in Hw.
  assert (Hreach : forall j, Reach r cm i j ->
            j = i \/ exists c, c ∈ childrenOf cm (id n0) /\ Reach r cm c j).
  { intros j Hj. rewrite (skel_id _ _ Hsk). by apply Reach_children. }
  destruct (length (childrenOf cm (id n0)) =? 0)%nat eqn:El.
  - injection Hw as <-. apply Nat.eqb_eq in El.
    assert (Honly : forall j, Reach r cm i j -> j = i).
    { intros j [->|(c & Hc & _)]%Hreach; [done|].
      destruct (childrenOf cm (id n0)); [by apply elem_of_nil in Hc|done]. }
    unfold slotLeft. split; [|split].
    + intros j nj ->%Honly Hnj. assert (nj = ni) as -> by congruence.
      split; qlra.
    + exists i, ni. split; [apply reach_here|]. split; [done|]. qlra.
    + exists i, ni. split; [apply reach_here|]. split; [done|]. qlra.
  - rewrite sumWidths_mapWidths in Hw.
    destruct (mapWidths _ _) as [ws|] eqn:Em; [|done]. injection Hw as <-.
    pose proof (mapWidths_length _ _ _ Em) as Hlen.
    apply Nat.eqb_neq in El.
    assert (HW : Forall2 (WidthIs nds cm) (childrenOf cm (id n0)) ws).
    { revert Em. apply mapWidths_Forall2. intros c w Hc. by exists fuel. }
    assert (Hpos : Forall (fun w => (NODE_WIDTH <= w)%Q) ws).
    { apply Forall_forall. intros w (k & Hk)%list_elem_of_lookup.
      destruct (lookup_lt_is_Some_2 (childrenOf cm (id n0)) k) as [c Hc].
      { rewrite <- Hlen. by eapply lookup_lt_Some. }
      pose proof (mapWidths_lookup _ _ _ _ _ _ Em Hc Hk) as Hf.
      by apply getSubtreeWidth_ge in Hf. }
    assert (Hpos0 : Forall (fun w => (0 <= w)%Q) ws).
    { eapply Forall_impl; [exact Hpos|]. intros w Hw. unfold NODE_WIDTH in Hw.
      simpl in Hw. lra. }
    destruct (lookup_lt_is_Some_2 ws 0) as [w0 Hw0]; [lia|].
    assert (HT180 : (NODE_WIDTH <= totalWidth ws)%Q).
    { pose proof (totalWidth_ge ws w0 Hpos0 Hw0).
      rewrite Forall_forall in Hpos.
      pose proof (Hpos w0 (list_elem_of_lookup_2 _ _ _ Hw0)). lra. }
    assert (Hchild : forall k c wk,
              childrenOf cm (id n0) !! k = Some c -> ws !! k = Some wk ->
              exists nc, r !! c = Some nc
                /\ (slotLeft nc wk == slotLeft ni (totalWidth ws)
                                      + slotOffset ws k)%Q
                /\ SubtreeExtent r cm c (slotLeft nc wk) (slotLeft nc wk + wk)).
    { intros k c wk Hc Hwk.
      pose proof (list_elem_of_lookup_2 _ _ _ Hc) as Hcin.
      apply elem_of_children in Hcin as (_ & m & Hm & _).
      destruct (lookup_skel _ _ _ _ (eq_sym Hs) Hm) as (nc & Hnc & _).
      exists nc. split; [done|]. split.
      - by apply (child_slots f0 nds r i n0 ni ws HT Ht H Hi0 Hi HW k c wk nc).
      - apply IH; [done|]. by eapply mapWidths_lookup. }
    assert (Ew : (Qmax NODE_WIDTH
                    (fold_left Qplus ws 0
                     + (num (length (childrenOf cm (id n0))) - 1)
                       * HORIZONTAL_GAP) == totalWidth ws)%Q).
    { rewrite <- Hlen. fold (sumQ ws). fold (totalWidth ws).
      by apply Q.max_r. }
    apply (SubtreeExtent_Qeq r cm i (slotLeft ni (totalWidth ws))
             (slotLeft ni (totalWidth ws) + totalWidth ws));
      [|unfold slotLeft; rewrite Ew; lra|unfold slotLeft; rewrite Ew; lra].
    split; [|split].
    + intros j nj [->|(c & (k & Hc)%list_elem_of_lookup & Hj)]%Hreach Hnj.
      * assert (nj = ni) as -> by congruence. unfold slotLeft. split; qlra.
      * destruct (lookup_lt_is_Some_2 ws k) as [wk Hwk].
        { rewrite Hlen. by eapply lookup_lt_Some. }
        destruct (Hchild k c wk Hc Hwk) as (nc & Hnc & Eslot & (Hin & _ & _)).
        destruct (Hin j nj Hj Hnj) as [HL HR].
        pose proof (slotOffset_nonneg ws k Hpos0
                      ltac:(by eapply lookup_lt_Some)) as Hoff.
        pose proof (slotOffset_le ws Hpos0 (length ws) k wk
                      ltac:(by eapply lookup_lt_Some) ltac:(lia) Hwk) as Hend.
        rewrite slotOffset_length in Hend. split; lra.
    + destruct (lookup_lt_is_Some_2 (childrenOf cm (id n0)) 0) as [c Hc];
        [lia|].
      destruct (Hchild 0 c w0 Hc Hw0)
        as (nc & Hnc & Eslot & (_ & (jl & nl & Hjl & Hnl & El') & _)).
      exists jl, nl. split.
      * rewrite (skel_id _ _ Hsk) in Hc. eapply reach_child; [exact Hi| |exact Hjl].
        by eapply list_elem_of_lookup_2.
      * split; [done|]. rewrite slotOffset_0 in Eslot. lra.
    + destruct (lookup_lt_is_Some_2 ws (length ws - 1)) as [wl Hwl]; [lia|].
      destruct (lookup_lt_is_Some_2 (childrenOf cm (id n0)) (length ws - 1))
        as [c Hc]; [lia|].
      destruct (Hchild _ c wl Hc Hwl)
        as (nc & Hnc & Eslot & (_ & _ & (jr & nr & Hjr & Hnr & Er'))).
      exists jr, nr. split.
      * rewrite (skel_id _ _ Hsk) in Hc. eapply reach_child; [exact Hi| |exact Hjr].
        by eapply list_elem_of_lookup_2.
      * split; [done|].
        pose proof (slotOffset_S ws (length ws - 1) wl Hwl) as HS.
        replace (S (length ws - 1)) with (length ws) in HS by lia.
        rewrite slotOffset_length in HS. lra.
Qed.

(** C5. After a layout pass of a tree, the subtree of every node extends
    horizontally exactly over its slot, which starts at [slotLeft] and is
    as wide as the subtree: no node of the subtree is drawn outside it
    and a node touches each of its two ends.  For every node and every
    two of its children, the extents of the two subtrees are disjoint,
    the earlier child lying to the left, and the extents of adjacent
    children are exactly [HORIZONTAL_GAP] apart. *)
Theorem layout_nonoverlap nds :
  TreeInv nds -> IdsTruthy nds ->
  exists r (W : nat -> Q),
    Returns (fun fuel => layoutTree fuel nds) r
    /\ (forall c, c < length r ->
          Returns (fun fuel => getSubtreeWidth fuel r (buildChildrenMap r) c)
                  (W c))
    /\ (forall c nc, r !! c = Some nc ->
          SubtreeExtent r (buildChildrenMap r) c
            (slotLeft nc (W c)) (slotLeft nc (W c) + W c))
    /\ forall p pn i j a b na nb,
         r !! p = Some pn ->
         childIndices 0 r (id pn) !! i = Some a ->
         childIndices 0 r (id pn) !! j = Some b ->
         r !! a = Some na -> r !! b = Some nb ->
         i < j ->
         (slotLeft na (W a) + W a < slotLeft nb (W b))%Q
         /\ (j = S i ->
             slotLeft nb (W b) - (slotLeft na (W a) + W a)
             == HORIZONTAL_GAP)%Q.
Proof.
  intros HT Ht.
  destruct (layoutTree_total_tree nds HT) as (r & HR & Hs).
  destruct (TreeInv_Ranked nds HT) as [rk Hrk].
  destruct (rank_bound rk nds) as [F HF].
  set (cm := buildChildrenMap nds).
  assert (Hcm : buildChildrenMap r = cm) by (by apply buildChildrenMap_skel).
  assert (HWF : forall c n, nds !! c = Some n ->
            is_Some (getSubtreeWidth F nds cm c)).
  { intros c n Hc.
    apply (getSubtreeWidth_total (fun _ => True) rk nds cm Hrk
             (ChildrenOK_build nds) F c n); [done|done|].
    apply HF. by eapply list_elem_of_lookup_2. }
  exists r, (fun c => default 0%Q (getSubtreeWidth F nds cm c)).
  split; [done|]. split.
  { intros c Hc. rewrite Hcm.
    destruct (lookup_lt_is_Some_2 nds c) as [n Hn].
    { by rewrite <- (skel_length _ _ Hs). }
    destruct (HWF c n Hn) as [w Hw]. rewrite Hw. simpl.
    apply (Returns_intro _ F).
    - intros. by eapply getSubtreeWidth_mono.
    - by rewrite (getSubtreeWidth_skel _ _ _ _ Hs). }
  destruct HR as [f1 H1]. specialize (H1 f1 (le_n _)).
  split.
  { intros c nc Hc. rewrite Hcm.
    destruct (lookup_skel _ _ _ _ Hs Hc) as (n & Hn & _).
    destruct (HWF c n Hn) as [w Hw]. rewrite Hw. simpl.
    by apply (subtree_extent f1 nds r HT Ht H1 F). }
  intros p pn i j a b na nb Hp Hi Hj Ha Hb Hij.
  destruct (lookup_skel _ _ _ _ Hs Hp) as (pn0 & Hp0 & Hskp).
  rewrite <- (skel_id _ _ Hskp), <- (childIndices_skel _ _ (eq_sym Hs)) in Hi, Hj.
  assert (Hch : childrenOf cm (id pn0) = childIndices 0 nds (id pn0)).
  { unfold cm. rewrite childrenOf_build, Ht; [done|].
    by eapply list_elem_of_lookup_2. }
  rewrite <- Hch in Hi, Hj.
  destruct (widths_exist (fun _ => True) rk nds cm (childrenOf cm (id pn0))
              Hrk (ChildrenOK_build nds)) as [ws HW].
  { intros c (_ & n & Hn & _)%elem_of_children. by exists n. }
  pose proof (child_slots _ _ _ _ _ _ _ HT Ht H1 Hp0 Hp HW) as Hslot.
  pose proof (Forall2_length _ _ _ HW) as Hlen.
  destruct (lookup_lt_is_Some_2 ws i) as [wi Hwi].
  { rewrite <- Hlen. by eapply lookup_lt_Some. }
  destruct (lookup_lt_is_Some_2 ws j) as [wj Hwj].
  { rewrite <- Hlen. by eapply lookup_lt_Some. }
  assert (HWa : forall k c w, childrenOf cm (id pn0) !! k = Some c ->
            ws !! k = Some w ->
            default 0%Q (getSubtreeWidth F nds cm c) = w).
  { intros k c w Hk Hw.
    pose proof (Forall2_lookup_lr _ _ _ _ _ _ HW Hk Hw) as Hcw.
    pose proof (list_elem_of_lookup_2 _ _ _ Hk) as Hc.
    apply elem_of_children in Hc as (_ & n & Hn & _).
    destruct (HWF c n Hn) as [w' Hw']. rewrite Hw'. simpl.
    eapply WidthIs_unique; [by exists F|done]. }
  rewrite (HWa i a wi Hi Hwi), (HWa j b wj Hj Hwj).
  pose proof (Hslot i a wi na Hi Hwi Ha) as Ea.
  pose proof (Hslot j b wj nb Hj Hwj Hb) as Eb.
  assert (Hpos : Forall (fun w => (0 <= w)%Q) ws).
  { apply Forall_forall. intros w (k & Hk)%list_elem_of_lookup.
    destruct (lookup_lt_is_Some_2 (childrenOf cm (id pn0)) k) as [c Hc].
    { rewrite Hlen. by eapply lookup_lt_Some. }
    destruct (Forall2_lookup_lr _ _ _ _ _ _ HW Hc Hk) as [fuel Hf].
    apply getSubtreeWidth_ge in Hf. unfold NODE_WIDTH in Hf. lra. }
  pose proof (slotOffset_le ws Hpos j i wi Hij
                ltac:(apply Nat.lt_le_incl; by eapply lookup_lt_Some) Hwi) as Hle.
  split.
  - unfold HORIZONTAL_GAP in Hle. lra.
  - intros ->. rewrite (slotOffset_S _ _ _ Hwi) in Eb. lra.
Qed.

(** ** The rule of the subtree width *)

Section WidthRule.
Variable nds : list Node.
Variable width : nat -> nat -> option Q.
Variable own : Node -> Q.
Variable gap : Q.
Hypothesis width_mono : forall fuel fuel' i w,
  fuel <= fuel' -> width fuel i = Some w -> width fuel' i = Some w.
Hypothesis width_total : forall i n,
  nds !! i = Some n -> exists fuel, is_Some (width fuel i).
Hypothesis width_step : forall fuel i,
  width (S fuel) i =
  match nds !! i with
  | None => None
  | Some node =>
      let children := childrenOf (buildChildrenMap nds) (id node) in
      if Nat.eqb (length children) 0 then Some (own node)
      else
        match sumWidths (width fuel) children 0 with
        | None => None
        | Some total =>
            Some (Qmax (own node)
                    (total + (num (length children) - 1) * gap))
        end
  end.
Hypothesis ids_truthy : IdsTruthy nds.

Lemma width_rule : WidthRule width own gap nds.
Proof.
  intros i n Hi. destruct (width_total i n Hi) as (F & w & Hw).
  exists w. split; [by apply (Returns_intro _ F); eauto|].
  assert (Hw' : width (S F) i = Some w) by (eapply width_mono; [|done]; lia).
  rewrite width_step, Hi in Hw'. simpl in Hw'.
  rewrite childrenOf_build, ids_truthy in Hw'
    by (by eapply list_elem_of_lookup_2).
  split.
  - intros E. rewrite E in Hw'. simpl in Hw'. congruence.
  - intros Hne.
    destruct (childIndices 0 nds (id n)) as [|c cs] eqn:E; [done|].
    change (length (c :: cs) =? 0)%nat with false in Hw'.
    rewrite sumWidths_mapWidths in Hw'.
    destruct (mapWidths (width F) (c :: cs)) as [ws|] eqn:Em; [|done].
    exists ws. split.
    + revert Em. apply mapWidths_Forall2. intros c' w' Hc'.
      apply (Returns_intro _ F); eauto.
    + rewrite (mapWidths_length _ _ _ Em). unfold sumQ. congruence.
Qed.
End WidthRule.

Lemma Measured_getSubtreeWidth_mono nds cm fuel : forall fuel' i w,
  fuel <= fuel' ->
  Measured.getSubtreeWidth fuel nds cm i = Some w ->
  Measured.getSubtreeWidth fuel' nds cm i = Some w.
Proof.
  induction fuel as [|fuel IH]; intros fuel' i w Hle; simpl; [done|].
  destruct fuel' as [|fuel']; [lia|]. simpl.
  destruct (nds !! i) as [node|]; [|done].
  destruct (length (childrenOf cm (id node)) =? 0)%nat; [done|].
  destruct (sumWidths _ _ _) as [total|] eqn:Hs; [|done].
  erewrite sumWidths_mono; [done| |exact Hs].
  intros c w' _. apply IH. lia.
Qed.

Lemma Measured_getSubtreeWidth_total S rk nds cm :
  Ranked S rk nds -> ChildrenOK cm nds ->
  forall fuel i n,
    nds !! i = Some n -> S (id n) -> rk (id n) < fuel ->
    is_Some (Measured.getSubtreeWidth fuel nds cm i).
Proof.
  intros HR HC. induction fuel as [|fuel IH]; intros i n Hi HS Hlt; [lia|].
  simpl. rewrite Hi.
  destruct (length (childrenOf cm (id n)) =? 0)%nat; [done|].
  destruct (sumWidths_total (Measured.getSubtreeWidth fuel nds cm)
              (childrenOf cm (id n))) with (t := 0%Q) as [t ->]; [|done].
  intros c Hc.
  destruct (child_ranked S rk nds cm HR HC n c) as (nc & Hnc & HSc & Hrk);
    [by eapply list_elem_of_lookup_2|done|done|].
  apply (IH c nc); [done|done|lia].
Qed.

(** C4, as the code has it.  On every tree the subtree width follows the
    width rule.  In the measuring editor the own width of a node is its
    measured width when one is present and is not zero, and the default
    width [Measured.NODE_WIDTH] otherwise; in the first editor, which reads
    no measurement, it is the default width [NODE_WIDTH]. *)
Theorem subtree_width_rule nds :
  TreeInv nds -> IdsTruthy nds ->
  WidthRule (fun fuel => Measured.getSubtreeWidth fuel nds (buildChildrenMap nds))
            Measured.currentWidth Measured.HORIZONTAL_GAP nds
  /\ WidthRule (fun fuel => getSubtreeWidth fuel nds (buildChildrenMap nds))
               (fun _ => NODE_WIDTH) HORIZONTAL_GAP nds.
Proof.
  intros HT Ht. destruct (TreeInv_Ranked nds HT) as [rk Hrk]. split.
  - apply width_rule; [| |done|done].
    + intros. by eapply Measured_getSubtreeWidth_mono.
    + intros i n Hi. exists (S (rk (id n))).
      apply (Measured_getSubtreeWidth_total (fun _ => True) rk nds _ Hrk
               (ChildrenOK_build nds) _ i n); [done|done|lia].
  - apply width_rule; [| |done|done].
    + intros. by eapply getSubtreeWidth_mono.
    + intros i n Hi. exists (S (rk (id n))).
      apply (getSubtreeWidth_total (fun _ => True) rk nds _ Hrk
               (ChildrenOK_build nds) _ i n); [done|done|lia].
Qed.

(** C4 as stated fails in the measuring editor: a childless node whose
    measured width is [0] gets the default width, not its measured
    width. *)
Lemma stated_width_fails :
  TreeInv [zeroWidthLeaf]
  /\ childIndices 0 [zeroWidthLeaf] (id zeroWidthLeaf) = []
  /\ Returns (fun fuel =>
                Measured.getSubtreeWidth fuel [zeroWidthLeaf]
                  (buildChildrenMap [zeroWidthLeaf]) 0)
             Measured.NODE_WIDTH
  /\ ~ (Measured.NODE_WIDTH == statedWidth zeroWidthLeaf)%Q.
Proof.
  split; [|split; [done|split]].
  - split.
    + by exists zeroWidthLeaf.
    + intros n p ->%list_elem_of_singleton. done.
    + intros n ->%list_elem_of_singleton. by exists 0.
    + simpl. apply NoDup_singleton.
  - exists 1. intros [|fuel] Hle; [lia|]. reflexivity.
  - vm_compute. done.
Qed.

(** ** Checking the invariants of a concrete node array *)

Lemma treeOk_sound nds : treeOk nds = true -> TreeInv nds.
Proof.
  unfold treeOk. rewrite !andb_true_iff.
  intros [[[H1 H2] H3] H4]. split.
  - apply Nat.eqb_eq in H1.
    destruct (List.filter _ nds) as [|r [|]]; try done. by exists r.
  - intros n p Hn Hp. rewrite forallb_forall in H2.
    specialize (H2 n ltac:(by apply list_elem_of_In)). rewrite Hp in H2.
    apply bool_decide_eq_true in H2 as [m Hm].
    apply findNode_Some in Hm as [Hm <-]. by exists m.
  - intros n Hn. rewrite forallb_forall in H3.
    exists (length nds). apply H3. by apply list_elem_of_In.
  - by apply bool_decide_eq_true in H4.
Qed.

Lemma idsTruthy_sound nds :
  forallb (fun n => truthy (id n)) nds = true -> IdsTruthy nds.
Proof.
  rewrite forallb_forall. intros H n Hn. apply H. by apply list_elem_of_In.
Qed.

Lemma layout_idempotent_witness :
  exists r1 r2,
    Returns (fun fuel => layoutTree fuel sampleTree) r1
    /\ Returns (fun fuel => layoutTree fuel r1) r2
    /\ Forall2 samePlace r1 r2.
Proof.
  apply (layout_idempotent sampleTree).
  apply treeOk_sound. vm_compute. reflexivity.
Defined.

Lemma layout_nonoverlap_witness :
  exists r (W : nat -> Q),
    Returns (fun fuel => layoutTree fuel sampleTree) r
    /\ (forall c, c < length r ->
          Returns (fun fuel => getSubtreeWidth fuel r (buildChildrenMap r) c)
                  (W c))
    /\ (forall c nc, r !! c = Some nc ->
          SubtreeExtent r (buildChildrenMap r) c
            (slotLeft nc (W c)) (slotLeft nc (W c) + W c))
    /\ forall p pn i j a b na nb,
         r !! p = Some pn ->
         childIndices 0 r (id pn) !! i = Some a ->
         childIndices 0 r (id pn) !! j = Some b ->
         r !! a = Some na -> r !! b = Some nb ->
         i < j ->
         (slotLeft na (W a) + W a < slotLeft nb (W b))%Q
         /\ (j = S i ->
             slotLeft nb (W b) - (slotLeft na (W a) + W a)
             == HORIZONTAL_GAP)%Q.
Proof.
  apply (layout_nonoverlap sampleTree).
  - apply treeOk_sound. vm_compute. reflexivity.
  - apply idsTruthy_sound. vm_compute. reflexivity.
Defined.

Lemma subtree_width_rule_witness :
  WidthRule (fun fuel =>
               Measured.getSubtreeWidth fuel sampleTree
                 (buildChildrenMap sampleTree))
            Measured.currentWidth Measured.HORIZONTAL_GAP sampleTree
  /\ WidthRule (fun fuel =>
                  getSubtreeWidth fuel sampleTree (buildChildrenMap sampleTree))
               (fun _ => NODE_WIDTH) HORIZONTAL_GAP sampleTree.
Proof.
  apply (subtree_width_rule sampleTree).
  - apply treeOk_sound. vm_compute. reflexivity.
  - apply idsTruthy_sound. vm_compute. reflexivity.
Defined.

(** ** Ancestors *)

Lemma ancestorOf_below nds k n x :
  n ∈ nds -> parentId n = Some k -> ancestorOf nds (id n) x ->
  ancestorOf nds k x.
Proof.
  intros Hn Hp H. induction H as [m Hm Hpm|m p Hm Hpm H IH].
  - eapply ancestor_step; [exact Hm|exact Hpm|]. by apply ancestor_parent.
  - eapply ancestor_step; [exact Hm|exact Hpm|exact IH].
Qed.

(** The descendants of [k] are its children and their descendants. *)
Lemma ancestorOf_down nds k x :
  ancestorOf nds k x
  <-> exists n, n ∈ nds /\ parentId n = Some k
                /\ (x = id n \/ ancestorOf nds (id n) x).
Proof.
  split.
  - induction 1 as [n Hn Hp|n p Hn Hp H IH].
    + exists n. by repeat split; [..|left].
    + destruct IH as (m & Hm & Hpm & [->|Hd]).
      * exists m. split; [done|]. split; [done|]. right.
        by apply ancestor_parent.
      * exists m. split; [done|]. split; [done|]. right.
        by eapply ancestor_step.
  - intros (n & Hn & Hp & [->|Hd]).
    + by apply ancestor_parent.
    + by eapply ancestorOf_below.
Qed.

Lemma ancestorOf_skel nds nds' a b :
  map skel nds = map skel nds' -> ancestorOf nds a b -> ancestorOf nds' a b.
Proof.
  intros Hs H. induction H as [n Hn Hp|n p Hn Hp H IH];
    destruct (elem_of_skel _ _ _ Hs Hn) as (n' & Hn' & Hsk);
    rewrite <- (skel_id _ _ Hsk), <- (skel_parentId _ _ Hsk) in *.
  - by apply ancestor_parent.
  - by eapply ancestor_step.
Qed.

(** ** The descendants the handlers collect *)

Lemma scanDescendants_spec nds
    (f : string -> gset string -> option (gset string)) :
  (forall s acc r, f s acc = Some r ->
     forall x, x ∈ r <-> x ∈ acc \/ ancestorOf nds s x) ->
  forall scan k acc r,
    scanDescendants f scan k acc = Some r ->
    forall x, x ∈ r
      <-> x ∈ acc
          \/ exists n, n ∈ scan /\ parentId n = Some k
                       /\ (x = id n \/ ancestorOf nds (id n) x).
Proof.
  intros Hf. induction scan as [|n scan IH]; intros k acc r; simpl.
  - intros [= <-] x. split; [by left|].
    intros [?|(n & ?%elem_of_nil & _)]; done.
  - destruct (decide (parentId n = Some k)) as [Hp|Hp].
    + destruct (f _ _) as [acc'|] eqn:Ef; [|done]. intros Hr x.
      rewrite (IH _ _ _ Hr x), (Hf _ _ _ Ef x), elem_of_union,
        elem_of_singleton.
      split.
      * intros [[[->|Hx]|Hx]|(m & Hm & Hpm & Hd)].
        -- right. exists n. split; [apply list_elem_of_here|]. by split; [|left].
        -- by left.
        -- right. exists n. split; [apply list_elem_of_here|]. by split; [|right].
        -- right. exists m. split; [by apply list_elem_of_further|done].
      * intros [Hx|(m & [->|Hm]%elem_of_cons & Hpm & [->|Hd])].
        -- left. left. by right.
        -- left. left. by left.
        -- left. by right.
        -- right. exists m. by repeat split; [..|left].
        -- right. exists m. by repeat split; [..|right].
    + intros Hr x. rewrite (IH _ _ _ Hr x). split.
      * intros [Hx|(m & Hm & Hpm & Hd)]; [by left|right].
        exists m. split; [by apply list_elem_of_further|done].
      * intros [Hx|(m & [->|Hm]%elem_of_cons & Hpm & Hd)]; [by left|done|].
        right. by exists m.
Qed.

Lemma findDescendants_spec nds fuel : forall k acc r,
  findDescendants fuel nds k acc = Some r ->
  forall x, x ∈ r <-> x ∈ acc \/ ancestorOf nds k x.
Proof.
  induction fuel as [|fuel IH]; intros k acc r; simpl; [done|].
  intros Hr x. rewrite (scanDescendants_spec nds _ IH _ _ _ _ Hr x).
  by rewrite <- ancestorOf_down.
Qed.

Lemma collectDescendants_spec nds (f : string -> option (list string)) :
  (forall s r, f s = Some r -> forall x, x ∈ r <-> ancestorOf nds s x) ->
  forall scan k acc r,
    collectDescendants f scan k acc = Some r ->
    forall x, x ∈ r
      <-> x ∈ acc
          \/ exists n, n ∈ scan /\ parentId n = Some k
                       /\ (x = id n \/ ancestorOf nds (id n) x).
Proof.
  intros Hf. induction scan as [|n scan IH]; intros k acc r; simpl.
  - intros [= <-] x. split; [by left|].
    intros [?|(n & ?%elem_of_nil & _)]; done.
  - destruct (decide (parentId n = Some k)) as [Hp|Hp].
    + destruct (f _) as [below|] eqn:Ef; [|done]. intros Hr x.
      rewrite (IH _ _ _ Hr x), !elem_of_app, (Hf _ _ Ef x),
        list_elem_of_singleton.
      split.
      * intros [[[Hx| ->]|Hx]|(m & Hm & Hpm & Hd)].
        -- by left.
        -- right. exists n. split; [apply list_elem_of_here|]. by split; [|left].
        -- right. exists n. split; [apply list_elem_of_here|]. by split; [|right].
        -- right. exists m. split; [by apply list_elem_of_further|done].
      * intros [Hx|(m & [->|Hm]%elem_of_cons & Hpm & [->|Hd])].
        -- left. left. by left.
        -- left. left. by right.
        -- left. by right.
        -- right. exists m. by repeat split; [..|left].
        -- right. exists m. by repeat split; [..|right].
    + intros Hr x. rewrite (IH _ _ _ Hr x). split.
      * intros [Hx|(m & Hm & Hpm & Hd)]; [by left|right].
        exists m. split; [by apply list_elem_of_further|done].
      * intros [Hx|(m & [->|Hm]%elem_of_cons & Hpm & Hd)]; [by left|done|].
        right. by exists m.
Qed.

(** [getDescendants] returns the identifiers of the nodes below [k]. *)
Lemma getDescendants_spec nds fuel : forall k r,
  getDescendants fuel nds k = Some r ->
  forall x, x ∈ r <-> ancestorOf nds k x.
Proof.
  induction fuel as [|fuel IH]; intros k r; simpl; [done|].
  intros Hr x. rewrite (collectDescendants_spec nds _ IH _ _ _ _ Hr x).
  rewrite ancestorOf_down. split; [|by right].
  intros [?%elem_of_nil|?]; done.
Qed.

(** ** Connectors *)

Lemma edges_connect nds (found : gset string) l :
  (forall x, x ∈ found <-> ancestorOf nds anchorId x) ->
  (forall n p, n ∈ l -> parentId n = Some p -> truthy p = true) ->
  Forall2 (connects nds) (flat_map (edgeOf found) l) (nonRoots l).
Proof.
  intros Hfound. induction l as [|n l IH]; intros Ht; simpl; [constructor|].
  assert (IH' : Forall2 (connects nds) (flat_map (edgeOf found) l) (nonRoots l)).
  { apply IH. intros m p Hm. apply Ht. by apply list_elem_of_further. }
  unfold nonRoots in *. simpl. unfold edgeOf at 1.
  destruct (parentId n) as [p|] eqn:Hp; simpl; [|done].
  rewrite (Ht n p (list_elem_of_here _ _) Hp). simpl. constructor; [|done].
  unfold connects. simpl. repeat split; try done.
  - intros [E%String.eqb_eq|E%bool_decide_eq_true]%orb_true_iff; [by left|].
    right. by apply Hfound.
  - intros [E|E]; apply orb_true_iff; [left; by apply String.eqb_eq|right].
    apply bool_decide_eq_true. by apply Hfound.
Qed.

(** C7. On every tree the connector derivation returns, with exactly one
    connector per node that has a parent, in array order, from the parent
    to the node; a connector is highlighted exactly when its target is the
    anchor ['10'] or a node below the anchor. *)
Theorem edges_rule nds :
  TreeInv nds -> IdsTruthy nds ->
  exists es,
    Returns (fun fuel => computeEdges fuel nds) es
    /\ Forall2 (connects nds) es (nonRoots nds).
Proof.
  intros HT Ht. destruct (TreeInv_Ranked nds HT) as [rk Hrk].
  destruct (computeEdges_total (fun _ => True) rk nds Hrk I) as [es Hes].
  exists es. split; [done|].
  destruct Hes as [f Hf]. specialize (Hf f (le_n _)).
  unfold computeEdges in Hf.
  destruct (findDescendants f nds anchorId ∅) as [found|] eqn:E; [|done].
  injection Hf as <-. apply edges_connect.
  - intros x. rewrite (findDescendants_spec _ _ _ _ _ E x).
    split; [intros [?%not_elem_of_empty|?]; done|by right].
  - intros n p Hn Hp.
    destruct (parents_exist _ HT n p Hn Hp) as (m & Hm & <-). by apply Ht.
Qed.

Lemma edges_rule_witness :
  exists es,
    Returns (fun fuel => computeEdges fuel sampleTree) es
    /\ Forall2 (connects sampleTree) es (nonRoots sampleTree).
Proof.
  apply (edges_rule sampleTree).
  - apply treeOk_sound. vm_compute. reflexivity.
  - apply idsTruthy_sound. vm_compute. reflexivity.
Defined.

(** ** What the layout leaves alone *)

Section Preserved.
Variable X : Type.
Variable g : Node -> X.
Hypothesis g_place : forall x y d v n, g (place x y d v n) = g n.
Hypothesis g_setDraggable : forall b n, g (setDraggable b n) = g n.

Lemma preserved_insert nds i n x y d v :
  nds !! i = Some n -> map g (<[i := place x y d v n]> nds) = map g nds.
Proof.
  intros Hn. change (g <$> <[i := place x y d v n]> nds = g <$> nds).
  rewrite list_fmap_insert, g_place.
  apply list_insert_id. by rewrite list_lookup_fmap, Hn.
Qed.

Lemma layoutChildren_preserved
    (f : list Node -> nat -> Q -> Q -> option (list Node)) :
  (forall nds c x y r, f nds c x y = Some r -> map g r = map g nds) ->
  forall cs ws nds x y r,
    layoutChildren f nds cs ws x y = Some r -> map g r = map g nds.
Proof.
  intros Hf. induction cs as [|c cs IH]; intros [|w ws] nds x y r; simpl;
    try (by intros [= ->]).
  destruct (f nds c _ _) as [nds'|] eqn:E; [|done].
  intros H. rewrite (IH _ _ _ _ _ H). eauto.
Qed.

Lemma layoutNode_preserved cm fuel : forall d v nds i x y r,
  layoutNode fuel cm d v nds i x y = Some r -> map g r = map g nds.
Proof.
  induction fuel as [|fuel IH]; intros d v nds i x y r; simpl; [done|].
  destruct (nds !! i) as [node|] eqn:Hi; [|done].
  pose proof (preserved_insert nds i node x y d v Hi) as Hs.
  destruct (length (childrenOf cm (id node)) =? 0)%nat; [by intros [= <-]|].
  destruct (mapWidths _ _) as [ws|]; [|done].
  intros H. rewrite <- Hs. revert H. apply layoutChildren_preserved. apply IH.
Qed.

Lemma layoutRoots_preserved cm fuel idxs : forall nds r,
  layoutRoots fuel cm nds idxs = Some r -> map g r = map g nds.
Proof.
  induction idxs as [|i idxs IH]; intros nds r; simpl; [by intros [= ->]|].
  destruct (nds !! i) as [node|]; [|done].
  destruct (truthyId (parentId node)); [apply IH|].
  destruct (layoutNode _ _ _ _ _ _ _ _) as [nds'|] eqn:E; [|done].
  intros H. rewrite (IH _ _ H). by eapply layoutNode_preserved.
Qed.

Lemma layoutTree_preserved fuel nds r :
  layoutTree fuel nds = Some r -> map g r = map g nds.
Proof.
  unfold layoutTree. intros H%layoutRoots_preserved.
  rewrite H, List.map_map. apply map_ext. intros n. apply g_setDraggable.
Qed.
End Preserved.

(** A layout pass changes the layout-owned fields only. *)
Lemma layoutTree_content fuel nds r :
  layoutTree fuel nds = Some r -> map content r = map content nds.
Proof. by apply layoutTree_preserved. Qed.

Lemma Ranked_filter rk (f : Node -> bool) nds :
  Ranked (fun _ => True) rk nds -> Ranked (fun _ => True) rk (List.filter f nds).
Proof.
  intros HR n p Hn Hp _. apply (HR n p); [|done|done].
  apply list_elem_of_In in Hn. apply filter_In in Hn as [Hn _].
  by apply list_elem_of_In.
Qed.

(** C6. On every tree, deleting the subtree of [N] returns; the
    identifiers it removes are exactly [N] and the identifiers of the
    nodes that have [N] among their ancestors ([ds] collects the latter);
    every other node stays, in array order, with its content unchanged
    (the layout pass that follows places the remaining nodes anew). *)
Theorem delete_removes_subtree s N :
  TreeInv (nodes s) ->
  exists s' (ds : list string),
    Returns (fun fuel => handleDelete fuel s N) s'
    /\ (forall x, x ∈ ds <-> ancestorOf (nodes s) N x)
    /\ map content (nodes s')
       = map content
           (List.filter (fun n => negb (String.eqb (id n) N)
                                  && negb (bool_decide (id n ∈ ds)))
                        (nodes s)).
Proof.
  intros HT. destruct (TreeInv_Ranked _ HT) as [rk Hrk].
  destruct (getDescendants_total (fun _ => True) rk (nodes s) Hrk
              (S (rk N)) N I ltac:(lia)) as [ds Hds].
  pose proof (Ranked_filter rk (keeps N ds) _ Hrk) as Hrk'.
  destruct (layoutTree_total (fun _ => True) rk _ Hrk') as (laid & Hl & Hsk);
    [done|].
  pose proof (Ranked_skel _ _ _ _ (eq_sym Hsk) Hrk') as Hrk''.
  destruct (computeEdges_total (fun _ => True) rk laid Hrk'' I) as [es Hes].
  exists (mkState laid es (nextId s) (isRelinkMode s) (selectedNodeForRelink s)), ds.
  split; [|split].
  - destruct Hl as [f1 H1]. destruct Hes as [f2 H2].
    exists (Nat.max (S (rk N)) (Nat.max f1 f2)). intros fuel Hle. unfold handleDelete.
    rewrite (getDescendants_mono (nodes s) (S (rk N)) fuel N ds ltac:(lia) Hds).
    rewrite (H1 fuel ltac:(lia)), (H2 fuel ltac:(lia)). done.
  - by apply (getDescendants_spec _ _ _ _ Hds).
  - destruct Hl as [f1 H1]. specialize (H1 f1 (le_n _)). simpl.
    by rewrite (layoutTree_content _ _ _ H1).
Qed.

Lemma delete_removes_subtree_witness :
  exists s' (ds : list string),
    Returns (fun fuel => handleDelete fuel (mkState sampleTree [] 6 false None) "2") s'
    /\ (forall x, x ∈ ds
        <-> ancestorOf (nodes (mkState sampleTree [] 6 false None)) "2" x)
    /\ map content (nodes s')
       = map content
           (List.filter (fun n => negb (String.eqb (id n) "2")
                                  && negb (bool_decide (id n ∈ ds)))
                        (nodes (mkState sampleTree [] 6 false None))).
Proof.
  apply (delete_removes_subtree (mkState sampleTree [] 6 false None) "2").
  apply treeOk_sound. vm_compute. reflexivity.
Defined.

(** ** The parent table *)

Lemma nodeParents_snoc nds n :
  nodeParents (nds ++ [n]) = recordParent (nodeParents nds) n.
Proof. unfold nodeParents. by rewrite fold_left_app. Qed.

Lemma nodeParents_Some nds : forall b p,
  nodeParents nds !! b = Some p ->
  truthy p = true /\ exists n, n ∈ nds /\ id n = b /\ parentId n = Some p.
Proof.
  induction nds as [|n nds IH] using rev_ind; intros b p.
  - unfold nodeParents. simpl. by rewrite lookup_empty.
  - rewrite nodeParents_snoc. unfold recordParent.
    assert (Hold : nodeParents nds !! b = Some p ->
              truthy p = true
              /\ exists m, m ∈ nds ++ [n] /\ id m = b /\ parentId m = Some p).
    { intros (Ht & m & Hm & Hid & Hp)%IH. split; [done|]. exists m.
      split; [|done]. apply elem_of_app. by left. }
    destruct (parentId n) as [q|] eqn:Hq; [|done].
    destruct (truthy q) eqn:Htq; [|done].
    destruct (decide (id n = b)) as [<-|Hne].
    + rewrite lookup_insert_eq. intros [= <-]. split; [done|]. exists n.
      split; [|done]. apply elem_of_app. right. apply list_elem_of_here.
    + by rewrite lookup_insert_ne.
Qed.

Lemma nodeParents_lookup nds : forall n,
  NoDup (map id nds) -> n ∈ nds ->
  nodeParents nds !! (id n)
  = if truthyId (parentId n) then parentId n else None.
Proof.
  induction nds as [|m nds IH] using rev_ind; intros n Hnd Hn.
  - by apply elem_of_nil in Hn.
  - rewrite List.map_app in Hnd. apply NoDup_app in Hnd as (Hnd & Hdis & _).
    rewrite nodeParents_snoc. unfold recordParent.
    apply elem_of_app in Hn as [Hn|Hn];
      [|apply list_elem_of_singleton in Hn as ->].
    + assert (Hne : id m <> id n).
      { intros E. apply (Hdis (id n)).
        - change (id n ∈ id <$> nds). by apply list_elem_of_fmap_2.
        - simpl. rewrite E. apply list_elem_of_here. }
      destruct (parentId m) as [q|]; [|by apply IH].
      destruct (truthy q); [|by apply IH].
      rewrite lookup_insert_ne by done. by apply IH.
    + destruct (parentId m) as [q|] eqn:Hq; simpl.
      * destruct (truthy q) eqn:Htq; [by rewrite lookup_insert_eq|].
        destruct (nodeParents nds !! id m) as [p|] eqn:E; [|done].
        apply nodeParents_Some in E as (_ & n & Hn & Hid & _).
        exfalso. apply (Hdis (id m)).
        -- rewrite <- Hid. change (id n ∈ id <$> nds).
           by apply list_elem_of_fmap_2.
        -- simpl. apply list_elem_of_here.
      * destruct (nodeParents nds !! id m) as [p|] eqn:E; [|done].
        apply nodeParents_Some in E as (_ & n & Hn & Hid & _).
        exfalso. apply (Hdis (id m)).
        -- rewrite <- Hid. change (id n ∈ id <$> nds).
           by apply list_elem_of_fmap_2.
        -- simpl. apply list_elem_of_here.
Qed.

(** ** The descendant check of the node component *)

Lemma isNodeDescendant_sound nds fuel : forall b a,
  isNodeDescendant fuel (nodeParents nds) b a = Some true ->
  b = a \/ ancestorOf nds a b.
Proof.
  induction fuel as [|fuel IH]; intros b a; simpl; [done|].
  destruct (String.eqb_spec b a) as [->|Hne]; [by left|].
  destruct (nodeParents nds !! b) as [p|] eqn:E; [|done].
  apply nodeParents_Some in E as (Ht & n & Hn & <- & Hp). rewrite Ht.
  intros [->|H]%IH; right.
  - by apply ancestor_parent.
  - by eapply ancestor_step.
Qed.

Lemma ancestorOf_inv nds a b :
  ancestorOf nds a b ->
  exists n p, n ∈ nds /\ id n = b /\ parentId n = Some p
              /\ (p = a \/ ancestorOf nds a p).
Proof.
  intros [n Hn Hp|n p Hn Hp H].
  - exists n, a. by repeat split; [..|left].
  - exists n, p. by repeat split; [..|right].
Qed.

Lemma isNodeDescendant_complete nds fuel :
  NoDup (map id nds) -> IdsTruthy nds ->
  (forall n p, n ∈ nds -> parentId n = Some p -> exists m, m ∈ nds /\ id m = p) ->
  forall b a r,
    isNodeDescendant fuel (nodeParents nds) b a = Some r ->
    b = a \/ ancestorOf nds a b -> r = true.
Proof.
  intros Hnd Ht Hpar. induction fuel as [|fuel IH]; intros b a r; simpl;
    [done|].
  destruct (String.eqb_spec b a) as [->|Hne]; [by intros [= <-]|].
  intros Hr [->|H]; [done|].
  apply ancestorOf_inv in H as (n & p & Hn & <- & Hp & Hanc).
  destruct (Hpar n p Hn Hp) as (m & Hm & <-).
  rewrite (nodeParents_lookup _ _ Hnd Hn), Hp in Hr. unfold truthyId in Hr.
  rewrite !(Ht m Hm) in Hr. by apply (IH _ _ _ Hr).
Qed.

Lemma isNodeDescendant_S fuel parents b a :
  isNodeDescendant (S fuel) parents b a
  = if String.eqb b a then Some true
    else match parents !! b with
         | Some p =>
             if truthy p then isNodeDescendant fuel parents p a
             else Some false
         | None => Some false
         end.
Proof. reflexivity. Qed.

Lemma climbs_S nds k s :
  climbs nds (S k) s
  = match findNode nds s with
    | None => false
    | Some n => match parentId n with
                | None => true
                | Some p => climbs nds k p
                end
    end.
Proof. reflexivity. Qed.

Lemma isNodeDescendant_total nds a :
  NoDup (map id nds) ->
  forall k b, climbs nds k b = true ->
    is_Some (isNodeDescendant (S k) (nodeParents nds) b a).
Proof.
  intros Hnd. induction k as [|k IH]; intros b Hk;
    rewrite isNodeDescendant_S; (destruct (String.eqb b a); [done|]).
  - simpl in Hk. destruct (findNode nds b) as [n|] eqn:E; [|done].
    apply findNode_Some in E as [Hn <-].
    rewrite (nodeParents_lookup _ _ Hnd Hn). by destruct (parentId n).
  - rewrite climbs_S in Hk. destruct (findNode nds b) as [n|] eqn:E; [|done].
    apply findNode_Some in E as [Hn <-].
    rewrite (nodeParents_lookup _ _ Hnd Hn).
    destruct (parentId n) as [p|]; [|done]. unfold truthyId.
    destruct (truthy p) eqn:Htp; [|done]. cbn beta iota. rewrite Htp.
    by apply IH.
Qed.

(** ** The invariants under the three edits *)

Lemma findNode_app_l nds l s n :
  findNode nds s = Some n -> findNode (nds ++ l) s = Some n.
Proof.
  unfold findNode. induction nds as [|m nds IH]; simpl; [done|].
  destruct (String.eqb (id m) s); [done|apply IH].
Qed.

Lemma findNode_app_r nds l s :
  findNode nds s = None -> findNode (nds ++ l) s = findNode l s.
Proof.
  unfold findNode. induction nds as [|m nds IH]; simpl; [done|].
  destruct (String.eqb (id m) s); [done|apply IH].
Qed.

Lemma findNode_fresh nds s : (forall n, n ∈ nds -> id n <> s) -> findNode nds s = None.
Proof.
  intros H. destruct (findNode nds s) as [n|] eqn:E; [|done].
  apply findNode_Some in E as [Hn Hid]. by destruct (H n Hn).
Qed.

Lemma climbs_app nds l k : forall s,
  climbs nds k s = true -> climbs (nds ++ l) k s = true.
Proof.
  induction k as [|k IH]; intros s; simpl;
    (destruct (findNode nds s) as [n|] eqn:E; [|done]);
    rewrite (findNode_app_l _ l _ _ E); (destruct (parentId n); [|done]);
    [done|apply IH].
Qed.

(** Adding a node with a fresh identifier under an existing node keeps
    the invariants. *)
Lemma TreeInv_add nds new p :
  TreeInv nds ->
  (forall n, n ∈ nds -> id n <> id new) ->
  parentId new = Some p ->
  (exists m, m ∈ nds /\ id m = p) ->
  TreeInv (nds ++ [new]).
Proof.
  intros [[r Hr] Hpar Hc Hu] Hfresh Hp (m & Hm & Hid). split.
  - exists r. rewrite List.filter_app, Hr. simpl. by rewrite Hp.
  - intros n q [Hn|Hn]%elem_of_app Hq.
    + destruct (Hpar n q Hn Hq) as (m' & Hm' & Hid'). exists m'.
      split; [|done]. apply elem_of_app. by left.
    + apply list_elem_of_singleton in Hn as ->. exists m.
      split; [apply elem_of_app; by left|congruence].
  - intros n [Hn|Hn]%elem_of_app.
    + destruct (Hc n Hn) as [k Hk]. exists k. by apply climbs_app.
    + apply list_elem_of_singleton in Hn as ->.
      destruct (Hc m Hm) as [k Hk]. exists (S k). rewrite climbs_S.
      rewrite (findNode_app_r nds) by (by apply findNode_fresh).
      unfold findNode. simpl. rewrite String.eqb_refl, Hp, <- Hid.
      by apply climbs_app.
  - rewrite List.map_app. apply NoDup_app. split; [done|]. split.
    + intros x Hx [->|?%elem_of_nil]%elem_of_cons; [|done].
      change (id new ∈ id <$> nds) in Hx.
      apply list_elem_of_fmap in Hx as (n & E & Hn). by destruct (Hfresh n Hn).
    + simpl. apply NoDup_singleton.
Qed.

Lemma filter_comm {A} (f g : A -> bool) l :
  List.filter f (List.filter g l) = List.filter g (List.filter f l).
Proof.
  induction l as [|a l IH]; simpl; [done|].
  destruct (g a) eqn:Hg, (f a) eqn:Hf; simpl; rewrite ?Hg, ?Hf, IH; done.
Qed.

Lemma elem_of_filter_list {A} (f : A -> bool) l x :
  x ∈ List.filter f l <-> x ∈ l /\ f x = true.
Proof. rewrite !list_elem_of_In. apply filter_In. Qed.

Lemma NoDup_map_filter (f : Node -> bool) nds :
  NoDup (map id nds) -> NoDup (map id (List.filter f nds)).
Proof.
  induction nds as [|n nds IH]; simpl; [done|].
  intros [Hn Hnd]%NoDup_cons. destruct (f n); simpl; [|by apply IH].
  apply NoDup_cons. split; [|by apply IH].
  intros Hx. apply Hn. change (id n ∈ id <$> List.filter f nds) in Hx.
  apply list_elem_of_fmap in Hx as (m & -> & Hm).
  apply elem_of_filter_list in Hm as [Hm _].
  change (id m ∈ id <$> nds). by apply list_elem_of_fmap_2.
Qed.

Lemma findNode_filter (f : Node -> bool) nds s n :
  findNode nds s = Some n -> f n = true ->
  findNode (List.filter f nds) s = Some n.
Proof.
  unfold findNode. induction nds as [|m nds IH]; simpl; [done|].
  destruct (String.eqb (id m) s) eqn:E.
  - intros [= ->] Hf. rewrite Hf. simpl. by rewrite E.
  - intros H Hf. destruct (f m); simpl; [rewrite E|]; by apply IH.
Qed.

Lemma keeps_true N (ds : list string) n :
  keeps N ds n = true <-> id n <> N /\ id n ∉ ds.
Proof.
  unfold keeps. rewrite andb_true_iff, !negb_true_iff, bool_decide_eq_false.
  by rewrite String.eqb_neq.
Qed.

(** Deleting the subtree of a node that has a parent keeps the
    invariants. *)
Lemma TreeInv_delete nds N (ds : list string) n0 q :
  TreeInv nds ->
  n0 ∈ nds -> id n0 = N -> parentId n0 = Some q ->
  (forall x, x ∈ ds <-> ancestorOf nds N x) ->
  TreeInv (List.filter (keeps N ds) nds).
Proof.
  intros [[r Hr] Hpar Hc Hu] Hn0 HN Hq Hds.
  assert (Hup : forall n p, n ∈ nds -> parentId n = Some p ->
            keeps N ds n = true ->
            forall m, m ∈ nds -> id m = p -> keeps N ds m = true).
  { intros n p Hn Hp [Hne Hnd]%keeps_true m Hm Hid. apply keeps_true. split.
    - intros E. apply Hnd, Hds. rewrite <- E, Hid in *. by apply ancestor_parent.
    - intros E%Hds. apply Hnd, Hds. eapply ancestor_step; [exact Hn|exact Hp|].
      by rewrite <- Hid. }
  split.
  - exists r. rewrite filter_comm, Hr. simpl.
    assert (Hrin : r ∈ nds /\ parentId r = None).
    { assert (Hin : r ∈ List.filter
                (fun n => negb (bool_decide (is_Some (parentId n)))) nds)
        by (rewrite Hr; apply list_elem_of_here).
      apply elem_of_filter_list in Hin as [Hin Hf]. split; [done|].
      apply negb_true_iff, bool_decide_eq_false in Hf.
      destruct (parentId r); [|done]. by destruct Hf. }
    destruct Hrin as [Hrin Hrp].
    assert (Hk : keeps N ds r = true); [|by rewrite Hk].
    apply keeps_true. split.
    + intros E. rewrite <- HN in E.
      assert (r = n0); [|congruence].
      pose proof (findNode_unique _ _ Hu Hrin) as E1.
      pose proof (findNode_unique _ _ Hu Hn0) as E2. congruence.
    + intros (n & p & Hn & Hid & Hp & _)%Hds%ancestorOf_inv.
      assert (r = n); [|congruence].
      pose proof (findNode_unique _ _ Hu Hrin) as E1.
      pose proof (findNode_unique _ _ Hu Hn) as E2. congruence.
  - intros n p [Hn Hk]%elem_of_filter_list Hp.
    destruct (Hpar n p Hn Hp) as (m & Hm & Hid). exists m.
    split; [|done]. apply elem_of_filter_list. split; [done|].
    exact (Hup n p Hn Hp Hk m Hm Hid).
  - assert (Hcl : forall k n, n ∈ nds -> keeps N ds n = true ->
              climbs nds k (id n) = true ->
              climbs (List.filter (keeps N ds) nds) k (id n) = true).
    { induction k as [|k IH]; intros n Hn Hk; simpl;
        rewrite (findNode_unique _ _ Hu Hn),
          (findNode_filter _ _ _ _ (findNode_unique _ _ Hu Hn) Hk);
        (destruct (parentId n) as [p|] eqn:Hp; [|done]); [done|].
      intros Hcp.
      destruct (Hpar n p Hn Hp) as (m & Hm & <-).
      apply IH; [done| |done]. exact (Hup n (id m) Hn Hp Hk m Hm eq_refl). }
    intros n [Hn Hk]%elem_of_filter_list.
    destruct (Hc n Hn) as [k Hck]. exists k. by apply Hcl.
  - by apply NoDup_map_filter.
Qed.

Lemma id_reparent A B n : id (reparent A B n) = id n.
Proof. unfold reparent. by destruct (String.eqb (id n) A). Qed.

Lemma parentId_reparent A B n :
  parentId (reparent A B n) = if String.eqb (id n) A then Some B else parentId n.
Proof. unfold reparent. by destruct (String.eqb (id n) A). Qed.

Lemma findNode_reparent A B nds s :
  findNode (map (reparent A B) nds) s = option_map (reparent A B) (findNode nds s).
Proof.
  unfold findNode. induction nds as [|n nds IH]; simpl; [done|].
  rewrite id_reparent. by destruct (String.eqb (id n) s).
Qed.

Lemma filter_map_same {A} (g : A -> bool) (f : A -> A) l :
  (forall a, a ∈ l -> g (f a) = g a) ->
  List.filter g (map f l) = map f (List.filter g l).
Proof.
  induction l as [|a l IH]; intros H; simpl; [done|].
  rewrite (H a (list_elem_of_here _ _)), IH.
  - by destruct (g a).
  - intros b Hb. apply H. by apply list_elem_of_further.
Qed.

Lemma root_unique nds r n :
  TreeInv nds -> r ∈ nds -> parentId r = None -> n ∈ nds -> parentId n = None ->
  n = r.
Proof.
  intros [[x Hx] _ _ _] Hr Hrp Hn Hnp.
  assert (H : forall m, m ∈ nds -> parentId m = None -> m = x).
  { intros m Hm Hmp.
    assert (Hin : m ∈ List.filter
              (fun n => negb (bool_decide (is_Some (parentId n)))) nds).
    { apply elem_of_filter_list. split; [done|]. by rewrite Hmp. }
    rewrite Hx in Hin. by apply list_elem_of_singleton in Hin. }
  rewrite (H n Hn Hnp). symmetry. by apply H.
Qed.

(** In a tree the root is an ancestor of every other node. *)
Lemma root_ancestor nds r :
  TreeInv nds -> r ∈ nds -> parentId r = None ->
  forall k s, climbs nds k s = true -> s = id r \/ ancestorOf nds (id r) s.
Proof.
  intros HT Hr Hrp. induction k as [|k IH]; intros s Hk.
  - simpl in Hk. destruct (findNode nds s) as [n|] eqn:E; [|done].
    apply findNode_Some in E as [Hn <-].
    destruct (parentId n) eqn:Hp; [done|]. left.
    by rewrite (root_unique nds r n HT).
  - rewrite climbs_S in Hk. destruct (findNode nds s) as [n|] eqn:E; [|done].
    apply findNode_Some in E as [Hn <-].
    destruct (parentId n) as [p|] eqn:Hp.
    + right. destruct (IH p Hk) as [->|H].
      * by apply ancestor_parent.
      * by eapply ancestor_step.
    + left. by rewrite (root_unique nds r n HT).
Qed.

(** Moving a node under a node that is neither the node itself nor below
    it keeps the invariants. *)
Lemma TreeInv_relink nds A B :
  TreeInv nds ->
  (exists b, b ∈ nds /\ id b = B) ->
  B <> A -> ~ ancestorOf nds A B ->
  TreeInv (map (reparent A B) nds).
Proof.
  intros HT (b & Hb & HB) Hne Hnot.
  pose proof HT as [[r Hr] Hpar Hc Hu].
  assert (HA : forall a, a ∈ nds -> id a = A -> is_Some (parentId a)).
  { intros a Ha HidA. destruct (parentId a) eqn:Hp; [done|]. exfalso.
    destruct (Hc b Hb) as [k Hk].
    destruct (root_ancestor nds a HT Ha Hp k (id b) Hk) as [E|E];
      [congruence|]. apply Hnot. by rewrite <- HidA, <- HB. }
  assert (Hids : map id (map (reparent A B) nds) = map id nds).
  { rewrite List.map_map. apply map_ext. intros n. apply id_reparent. }
  assert (Havoid : forall k s, climbs nds k s = true ->
            s <> A -> ~ ancestorOf nds A s ->
            climbs (map (reparent A B) nds) k s = true).
  { induction k as [|k IH]; intros s Hk HsA HsN;
      [simpl in Hk; simpl|rewrite climbs_S in Hk; rewrite climbs_S];
      rewrite findNode_reparent;
      (destruct (findNode nds s) as [n|] eqn:E; [|done]);
      apply findNode_Some in E as [Hn <-]; simpl;
      rewrite parentId_reparent;
      (destruct (String.eqb_spec (id n) A) as [?|_]; [done|]);
      (destruct (parentId n) as [p|] eqn:Hp; [|done]); [done|].
    apply IH; [done| |].
    - intros ->. apply HsN. by apply ancestor_parent.
    - intros H. apply HsN. by eapply ancestor_step. }
  assert (HBc : exists k, climbs (map (reparent A B) nds) k B = true).
  { destruct (Hc b Hb) as [k Hk]. exists k. rewrite <- HB in *.
    by apply Havoid. }
  destruct HBc as [kB HkB].
  split.
  - exists (reparent A B r). rewrite filter_map_same, Hr; [done|].
    intros n Hn. rewrite parentId_reparent.
    destruct (String.eqb_spec (id n) A) as [E|_]; [|done].
    destruct (HA n Hn E) as [q ->]. done.
  - intros n' p Hn' Hp. change (n' ∈ reparent A B <$> nds) in Hn'.
    apply list_elem_of_fmap in Hn' as (n & -> & Hn).
    rewrite parentId_reparent in Hp.
    destruct (String.eqb (id n) A).
    + injection Hp as <-. exists (reparent A B b).
      split; [|by rewrite id_reparent].
      change (reparent A B b ∈ reparent A B <$> nds).
      by apply list_elem_of_fmap_2.
    + destruct (Hpar n p Hn Hp) as (m & Hm & Hid). exists (reparent A B m).
      split; [|by rewrite id_reparent].
      change (reparent A B m ∈ reparent A B <$> nds).
      by apply list_elem_of_fmap_2.
  - assert (Hall : forall k s, climbs nds k s = true ->
              exists k', climbs (map (reparent A B) nds) k' s = true).
    { induction k as [|k IH]; intros s Hk.
      - simpl in Hk. destruct (findNode nds s) as [n|] eqn:E; [|done].
        destruct (parentId n) eqn:Hp; [done|].
        pose proof E as [Hn <-]%findNode_Some.
        exists 0. simpl. rewrite findNode_reparent, E. simpl.
        rewrite parentId_reparent.
        destruct (String.eqb_spec (id n) A) as [EA|_]; [|by rewrite Hp].
        destruct (HA n Hn EA) as [q Hq]. congruence.
      - rewrite climbs_S in Hk.
        destruct (findNode nds s) as [n|] eqn:E; [|done].
        pose proof E as [Hn <-]%findNode_Some.
        destruct (String.eqb_spec (id n) A) as [EA|NA].
        + exists (S kB). rewrite climbs_S, findNode_reparent, E. simpl.
          rewrite parentId_reparent.
          destruct (String.eqb_spec (id n) A); [done|done].
        + destruct (parentId n) as [p|] eqn:Hp.
          * destruct (IH p Hk) as [k' Hk']. exists (S k').
            rewrite climbs_S, findNode_reparent, E. simpl.
            rewrite parentId_reparent.
            destruct (String.eqb_spec (id n) A); [done|]. by rewrite Hp.
          * exists 0. simpl. rewrite findNode_reparent, E. simpl.
            rewrite parentId_reparent.
            destruct (String.eqb_spec (id n) A); [done|]. by rewrite Hp. }
    intros n' Hn'. change (n' ∈ reparent A B <$> nds) in Hn'.
    apply list_elem_of_fmap in Hn' as (n & -> & Hn).
    rewrite id_reparent. destruct (Hc n Hn) as [k Hk]. by eapply Hall.
  - by rewrite Hids.
Qed.

(** ** The editor keeps its invariant *)

Lemma Returns_bind {A B} (f : nat -> option A) (h : nat -> A -> option B) a b :
  Returns f a -> Returns (fun fuel => h fuel a) b ->
  Returns (fun fuel => match f fuel with
                       | Some x => h fuel x
                       | None => None
                       end) b.
Proof.
  intros [f1 H1] [f2 H2]. exists (Nat.max f1 f2). intros fuel Hle.
  rewrite (H1 fuel) by lia. apply H2. lia.
Qed.

Lemma Returns_const {A} (a : A) : Returns (fun _ => Some a) a.
Proof. by exists 0. Qed.

Lemma Numbered_truthy next nds : Numbered next nds -> IdsTruthy nds.
Proof. intros H n Hn. destruct (H n Hn) as (k & -> & _). apply toString_truthy. Qed.

Lemma Numbered_fresh next nds n : Numbered next nds -> n ∈ nds -> id n <> toString next.
Proof.
  intros H Hn E. destruct (H n Hn) as (k & Hk & Hlt).
  rewrite Hk in E. apply toString_inj in E. lia.
Qed.

Lemma Numbered_skel next nds nds' :
  map skel nds = map skel nds' -> Numbered next nds -> Numbered next nds'.
Proof.
  intros Hs H n' Hn'. destruct (elem_of_skel _ _ _ (eq_sym Hs) Hn') as (n & Hn & Hsk).
  rewrite <- (skel_id _ _ Hsk). by apply H.
Qed.

Lemma Numbered_mono next next' nds :
  next <= next' -> Numbered next nds -> Numbered next' nds.
Proof.
  intros Hle H n Hn. destruct (H n Hn) as (k & Hk & Hlt). exists k.
  split; [done|lia].
Qed.

(** Laying out a tree and deriving its connectors returns. *)
Lemma relayout nds (k : list Node -> list Edge -> State) :
  TreeInv nds ->
  exists laid es,
    Returns (fun fuel => match layoutTree fuel nds with
                         | None => None
                         | Some laidOutNodes =>
                             match computeEdges fuel laidOutNodes with
                             | None => None
                             | Some es => Some (k laidOutNodes es)
                             end
                         end) (k laid es)
    /\ map skel laid = map skel nds
    /\ map content laid = map content nds.
Proof.
  intros HT. destruct (layoutTree_total_tree nds HT) as (laid & Hl & Hs).
  pose proof (TreeInv_skel _ _ (eq_sym Hs) HT) as HT'.
  destruct (TreeInv_Ranked _ HT') as [rk Hrk].
  destruct (computeEdges_total (fun _ => True) rk laid Hrk I) as [es Hes].
  exists laid, es. split; [|split; [done|]].
  - apply (Returns_bind _ (fun fuel l => match computeEdges fuel l with
                                         | None => None
                                         | Some es => Some (k l es)
                                         end) laid); [done|].
    apply (Returns_bind _ (fun _ es => Some (k laid es)) es); [done|].
    apply Returns_const.
  - destruct Hl as [f Hf]. by apply (layoutTree_content f), Hf.
Qed.

Lemma handleAddChild_good s parent :
  Good s -> (exists m, m ∈ nodes s /\ id m = parent) ->
  exists s', Returns (fun fuel => handleAddChild fuel s parent) s' /\ Good s'
             /\ isRelinkMode s' = isRelinkMode s
             /\ selectedNodeForRelink s' = selectedNodeForRelink s.
Proof.
  intros [HT HN] Hm.
  assert (HT' : TreeInv (nodes s ++ [newNode (nextId s) parent])).
  { apply (TreeInv_add _ _ parent); [done| |done|done].
    intros n Hn. by apply (Numbered_fresh _ _ _ HN). }
  destruct (relayout _ (fun l es => mkState l es (S (nextId s)) (isRelinkMode s)
                                      (selectedNodeForRelink s)) HT')
    as (laid & es & HR & Hs & _).
  exists (mkState laid es (S (nextId s)) (isRelinkMode s)
                  (selectedNodeForRelink s)).
  split; [exact HR|]. split; [|done]. split; simpl.
  - by apply (TreeInv_skel _ _ (eq_sym Hs)).
  - apply (Numbered_skel _ _ _ (eq_sym Hs)).
    intros n [Hn|Hn]%elem_of_app.
    + destruct (HN n Hn) as (k & Hk & Hlt). exists k. split; [done|lia].
    + apply list_elem_of_singleton in Hn as ->. exists (nextId s).
      split; [done|lia].
Qed.

Lemma handleDelete_good s n0 q :
  Good s -> n0 ∈ nodes s -> parentId n0 = Some q ->
  exists s', Returns (fun fuel => handleDelete fuel s (id n0)) s' /\ Good s'
             /\ isRelinkMode s' = isRelinkMode s
             /\ selectedNodeForRelink s' = selectedNodeForRelink s.
Proof.
  intros [HT HN] Hn0 Hq. destruct (TreeInv_Ranked _ HT) as [rk Hrk].
  destruct (getDescendants_total (fun _ => True) rk (nodes s) Hrk
              (S (rk (id n0))) (id n0) I ltac:(lia)) as [ds Hds].
  assert (HT' : TreeInv (List.filter (keeps (id n0) ds) (nodes s))).
  { apply (TreeInv_delete _ _ _ n0 q); try done.
    by apply (getDescendants_spec _ _ _ _ Hds). }
  destruct (relayout _ (fun l es => mkState l es (nextId s) (isRelinkMode s)
                                      (selectedNodeForRelink s)) HT')
    as (laid & es & HR & Hs & _).
  exists (mkState laid es (nextId s) (isRelinkMode s)
                  (selectedNodeForRelink s)).
  split; [|split; [|done]].
  - unfold handleDelete.
    apply (Returns_bind _ (fun fuel ds =>
             match layoutTree fuel (List.filter (keeps (id n0) ds) (nodes s)) with
             | None => None
             | Some l => match computeEdges fuel l with
                         | None => None
                         | Some es => Some (mkState l es (nextId s)
                                              (isRelinkMode s)
                                              (selectedNodeForRelink s))
                         end
             end) ds); [|exact HR].
    apply (Returns_intro _ (S (rk (id n0)))); [|done].
    intros. by eapply getDescendants_mono.
  - split; simpl.
    + by apply (TreeInv_skel _ _ (eq_sym Hs)).
    + apply (Numbered_skel _ _ _ (eq_sym Hs)).
      intros n [Hn _]%elem_of_filter_list. by apply HN.
Qed.

Lemma handleRelink_good s A b :
  Good s -> b ∈ nodes s -> id b <> A -> ~ ancestorOf (nodes s) A (id b) ->
  exists s', Returns (fun fuel => handleRelink fuel s A (id b)) s' /\ Good s'.
Proof.
  intros [HT HN] Hb Hne Hnot.
  assert (HT' : TreeInv (map (reparent A (id b)) (nodes s))).
  { apply TreeInv_relink; try done. by exists b. }
  destruct (relayout _ (fun l es => mkState l es (nextId s) false None) HT')
    as (laid & es & HR & Hs & _).
  exists (mkState laid es (nextId s) false None).
  split; [exact HR|]. split; simpl.
  - by apply (TreeInv_skel _ _ (eq_sym Hs)).
  - apply (Numbered_skel _ _ _ (eq_sym Hs)).
    intros n' Hn'. change (n' ∈ reparent A (id b) <$> nodes s) in Hn'.
    apply list_elem_of_fmap in Hn' as (n & -> & Hn). rewrite id_reparent.
    by apply HN.
Qed.

Lemma Good_climbs s n : Good s -> n ∈ nodes s -> exists k, climbs (nodes s) k (id n) = true.
Proof. intros [HT _] Hn. by apply (reaches_root _ HT). Qed.

(** The check behind [canBeRelinkTarget] returns, and it passes only for
    a target that is neither the selected node nor below it. *)
Lemma canBeRelinkTarget_returns s node :
  Good s -> node ∈ nodes s ->
  exists r,
    Returns (fun fuel => canBeRelinkTarget fuel (nodeParents (nodes s)) node) r
    /\ (r = true ->
        exists sel, dataSelectedNodeForRelink node = Some sel
                    /\ id node <> sel
                    /\ ~ ancestorOf (nodes s) sel (id node)).
Proof.
  intros HG Hn. pose proof HG as [HT HN]. unfold canBeRelinkTarget.
  destruct (dataSelectedNodeForRelink node) as [sel|];
    [|exists false; split; [apply Returns_const|done]].
  destruct (dataIsRelinkMode node && truthy sel
            && negb (String.eqb sel (id node))) eqn:Hc;
    [|exists false; split; [apply Returns_const|done]].
  apply andb_true_iff in Hc as [_ Hne]. apply negb_true_iff in Hne.
  apply String.eqb_neq in Hne.
  destruct (Good_climbs s node HG Hn) as [k Hk].
  destruct (isNodeDescendant_total (nodes s) sel (ids_unique _ HT) k _ Hk)
    as [d Hd].
  exists (negb d && negb (bool_decide (nodeParents (nodes s) !! sel
                                       = Some (id node)))).
  split.
  - apply (Returns_bind _ (fun _ d => Some (negb d && negb (bool_decide
             (nodeParents (nodes s) !! sel = Some (id node))))) d);
      [|apply Returns_const].
    apply (Returns_intro _ (S k)); [|done].
    intros. by eapply isNodeDescendant_mono.
  - intros [Hd' _]%andb_true_iff. apply negb_true_iff in Hd'. subst d.
    exists sel. split; [done|]. split; [congruence|]. intros Hanc.
    assert (false = true); [|done].
    eapply (isNodeDescendant_complete (nodes s)); [..|exact Hd|by right].
    + apply (ids_unique _ HT).
    + by eapply Numbered_truthy.
    + apply (parents_exist _ HT).
Qed.

Lemma handleNodeClick_good s node :
  Good s -> node ∈ nodes s ->
  exists s', Returns (fun fuel => handleNodeClick fuel s node) s' /\ Good s'.
Proof.
  intros HG Hn. unfold handleNodeClick.
  destruct (dataIsRelinkMode node); simpl;
    [|exists s; split; [apply Returns_const|done]].
  destruct (truthyId (dataSelectedNodeForRelink node)).
  - destruct (canBeRelinkTarget_returns s node HG Hn) as (r & Hr & Hsafe).
    destruct r.
    + destruct (Hsafe eq_refl) as (sel & Hsel & Hne & Hnot).
      rewrite Hsel in *. simpl.
      destruct (handleRelink_good s sel node HG Hn Hne Hnot) as (s' & Hs' & HG').
      exists s'. split; [|done].
      by apply (Returns_bind _ (fun fuel (r : bool) =>
                  if r then handleRelink fuel s sel (id node) else Some s) true).
    + exists s. split; [|done].
      apply (Returns_bind _ (fun fuel (r : bool) =>
               if r then handleRelink fuel s
                           (default "" (dataSelectedNodeForRelink node))
                           (id node)
               else Some s) false); [done|apply Returns_const].
  - destruct (parentId node).
    + exists (handleSelectForRelink s (id node)).
      split; [apply Returns_const|done].
    + exists s. split; [apply Returns_const|done].
Qed.

Lemma skel_setRelinkData m sel nds :
  map skel (map (setRelinkData m sel) nds) = map skel nds.
Proof. rewrite List.map_map. done. Qed.

Lemma Good_afterRender s s' : Good s' -> Good (afterRender s s').
Proof.
  intros [HT HN]. unfold afterRender. case_bool_decide; [done|].
  unfold syncRelinkData. destruct (0 <? length (nodes s'))%nat; [|done].
  split; simpl.
  - apply (TreeInv_skel (nodes s')); [|done]. symmetry. apply skel_setRelinkData.
  - apply (Numbered_skel _ (nodes s')); [|done]. symmetry.
    apply skel_setRelinkData.
Qed.

Lemma handleEvent_good s e :
  Good s ->
  exists s', Returns (fun fuel => handleEvent fuel s e) s' /\ Good s'.
Proof.
  intros HG. destruct e as [i|i|i| |]; simpl.
  - destruct (nodes s !! i) as [node|] eqn:Hi;
      [|exists s; split; [apply Returns_const|done]].
    destruct (handleAddChild_good s (id node) HG) as (s' & Hs' & HG' & _).
    { exists node. split; [by eapply list_elem_of_lookup_2|done]. }
    by exists s'.
  - destruct (nodes s !! i) as [node|] eqn:Hi;
      [|exists s; split; [apply Returns_const|done]].
    unfold trashRendered. destruct (parentId node) as [q|] eqn:Hq;
      [|exists s; split; [apply Returns_const|done]].
    destruct (handleDelete_good s node q HG) as (s' & Hs' & HG' & _);
      [by eapply list_elem_of_lookup_2|done|]. by exists s'.
  - destruct (nodes s !! i) as [node|] eqn:Hi;
      [|exists s; split; [apply Returns_const|done]].
    apply handleNodeClick_good; [done|]. by eapply list_elem_of_lookup_2.
  - exists (toggleRelinkMode s). split; [apply Returns_const|done].
  - destruct (cancelRendered s).
    + exists (cancelRelink s). split; [apply Returns_const|done].
    + exists s. split; [apply Returns_const|done].
Qed.

Lemma step_good s e :
  Good s -> exists s', Returns (fun fuel => step fuel s e) s' /\ Good s'.
Proof.
  intros HG. destruct (handleEvent_good s e HG) as (s' & Hs' & HG').
  exists (afterRender s s'). split; [|by apply Good_afterRender].
  apply (Returns_bind _ (fun _ s' => Some (afterRender s s')) s'); [done|].
  apply Returns_const.
Qed.

Lemma run_good es : forall s,
  Good s -> exists s', Returns (fun fuel => run fuel s es) s' /\ Good s'.
Proof.
  induction es as [|e es IH]; intros s HG; simpl.
  - exists s. split; [apply Returns_const|done].
  - destruct (step_good s e HG) as (s1 & Hs1 & HG1).
    destruct (IH s1 HG1) as (s' & Hs' & HG'). exists s'. split; [|done].
    by apply (Returns_bind _ (fun fuel s1 => run fuel s1 es) s1).
Qed.

Lemma initialState_good :
  exists s, Returns initialState s /\ Good s.
Proof.
  assert (HT : TreeInv [initialNode]).
  { apply treeOk_sound. vm_compute. reflexivity. }
  destruct (relayout _ (fun l es => mkState l es 2 false None) HT)
    as (laid & es & HR & Hs & _).
  exists (mkState laid es 2 false None). split; [exact HR|]. split; simpl.
  - by apply (TreeInv_skel _ _ (eq_sym Hs)).
  - apply (Numbered_skel _ _ _ (eq_sym Hs)).
    intros n ->%list_elem_of_singleton. exists 1. split; [done|lia].
Qed.

(** C1. Every sequence of clicks on the controls of the editor (adding a
    child, deleting a subtree, the clicks of the relink protocol), from
    the state the editor starts in, runs to a state whose node array
    satisfies the four tree invariants: exactly one node without parent,
    every parent in the array, every node linked to the root, identifiers
    unique.  As the sequence is arbitrary, this holds after each click. *)
Theorem session_keeps_tree (es : list Event) :
  exists s, Returns (fun fuel => session fuel es) s /\ TreeInv (nodes s).
Proof.
  destruct initialState_good as (s0 & Hs0 & HG0).
  destruct (run_good es s0 HG0) as (s & Hs & [HT _]).
  exists s. split; [|done].
  by apply (Returns_bind _ (fun fuel s0 => run fuel s0 es) s0).
Qed.

(** ** Relinking into one's own subtree *)

(** C2. In a tree, while the node [A] is selected for relinking (the
    clicked node carries the selection [A] in its data), a click on a
    node [B] that is [A] itself or has [A] among its ancestors is
    rejected: the click returns and leaves the whole state, hence the
    node array and every [parentId], as it was. *)
Theorem relink_into_subtree_rejected s i nodeB A :
  TreeInv (nodes s) -> IdsTruthy (nodes s) ->
  nodes s !! i = Some nodeB ->
  dataSelectedNodeForRelink nodeB = Some A ->
  id nodeB = A \/ ancestorOf (nodes s) A (id nodeB) ->
  Returns (fun fuel => step fuel s (NodeClick i)) s.
Proof.
  intros HT Ht Hi Hsel Hdesc.
  assert (Hn : nodeB ∈ nodes s) by (by eapply list_elem_of_lookup_2).
  assert (Hsame : afterRender s s = s).
  { unfold afterRender. by rewrite bool_decide_true. }
  assert (HtA : truthy A = true).
  { destruct Hdesc as [<-|H]; [by apply Ht|].
    apply ancestorOf_inv in H as (n & p & Hn' & _ & Hp & Hanc).
    assert (Hex : forall n p, n ∈ nodes s -> parentId n = Some p ->
              truthy p = true).
    { intros n' p' Hn'' Hp'.
      destruct (parents_exist _ HT n' p' Hn'' Hp') as (m & Hm & <-).
      by apply Ht. }
    destruct Hanc as [<-|H]; [exact (Hex n p Hn' Hp)|].
    apply ancestorOf_down in H as (m & Hm & Hpm & _). exact (Hex m A Hm Hpm). }
  destruct (reaches_root _ HT nodeB Hn) as [k Hk].
  destruct (isNodeDescendant_total (nodes s) A (ids_unique _ HT) k _ Hk)
    as [d Hd].
  assert (d = true) as ->.
  { eapply (isNodeDescendant_complete (nodes s)); [..|exact Hd|exact Hdesc].
    - apply (ids_unique _ HT).
    - done.
    - apply (parents_exist _ HT). }
  exists (S k). intros fuel Hle.
  unfold step, handleEvent. rewrite Hi. unfold handleNodeClick.
  destruct (dataIsRelinkMode nodeB) eqn:Hm; simpl; [|by rewrite Hsame].
  rewrite Hsel. simpl. rewrite HtA. unfold canBeRelinkTarget.
  rewrite Hsel, Hm, HtA. simpl.
  destruct (String.eqb A (id nodeB)); simpl; [by rewrite Hsame|].
  rewrite (isNodeDescendant_mono _ _ fuel _ _ _ Hle Hd). simpl.
  by rewrite Hsame.
Qed.

Lemma relink_into_subtree_rejected_witness :
  Returns (fun fuel => step fuel sampleSelecting (NodeClick 3)) sampleSelecting.
Proof.
  apply (relink_into_subtree_rejected sampleSelecting 3
           (setRelinkData true (Some "2") (plainNode "4" (Some "2") 0 0)) "2").
  - apply treeOk_sound. vm_compute. reflexivity.
  - apply idsTruthy_sound. vm_compute. reflexivity.
  - reflexivity.
  - reflexivity.
  - right. apply (ancestor_parent _ _
             (setRelinkData true (Some "2") (plainNode "4" (Some "2") 0 0))).
    + apply list_elem_of_lookup. by exists 3.
    + reflexivity.
Defined.

(** ** Deleting the root *)

(** C3. The delete control is not rendered on the root (the node whose
    [parentId] is null), so the delete command for the root is not
    accepted: it leaves the whole state, hence the node array, as it
    was. *)
Theorem root_delete_rejected fuel s i root :
  nodes s !! i = Some root -> parentId root = None ->
  trashRendered root = false /\ step fuel s (TrashClick i) = Some s.
Proof.
  intros Hi Hp. unfold step, handleEvent, trashRendered.
  rewrite Hi, Hp. split; [done|].
  unfold afterRender. by rewrite bool_decide_true.
Qed.

Lemma root_delete_rejected_witness :
  trashRendered (plainNode "1" None 300 50) = false
  /\ step 0 (mkState sampleTree [] 6 false None) (TrashClick 0)
     = Some (mkState sampleTree [] 6 false None).
Proof.
  apply (root_delete_rejected 0 (mkState sampleTree [] 6 false None) 0
           (plainNode "1" None 300 50)); reflexivity.
Defined.

(** The handler behind the control checks nothing: called with the
    identifier of the root it removes every node. *)
Lemma handleDelete_unguarded :
  option_map nodes (handleDelete 3 (mkState sampleTree [] 6 false None) "1")
  = Some [].
Proof. vm_compute. reflexivity. Qed.

(** ** Cancelling a relink *)

(** C8 as stated fails: with a node selected for relinking, Cancel leaves
    relink mode on; the editor awaits a source again, it is not idle. *)
Lemma cancel_not_idle :
  exists s, session 5 cancelSession = Some s
            /\ AwaitingSource s /\ ~ Idle s.
Proof.
  assert (H1 : option_map isRelinkMode (session 5 cancelSession) = Some true)
    by (vm_compute; reflexivity).
  assert (H2 : option_map selectedNodeForRelink (session 5 cancelSession)
               = Some None) by (vm_compute; reflexivity).
  destruct (session 5 cancelSession) as [s|]; [|done].
  simpl in H1, H2. injection H1 as H1. injection H2 as H2.
  exists s. split; [done|]. split; [done|]. intros [Hi _]. congruence.
Qed.

(** A node is the node it was but for the relink data. *)
Lemma relinkDataOnly_refl n : relinkDataOnly n n.
Proof. by destruct n. Qed.

Lemma relinkDataOnly_sync t :
  Forall2 relinkDataOnly (nodes (syncRelinkData t)) (nodes t).
Proof.
  unfold syncRelinkData. destruct (0 <? length (nodes t))%nat; simpl.
  - change (Forall2 relinkDataOnly
              (setRelinkData (isRelinkMode t) (selectedNodeForRelink t)
                 <$> nodes t) (nodes t)).
    apply Forall2_fmap_l, Forall_Forall2_diag, Forall_forall.
    intros n _. reflexivity.
  - apply Forall_Forall2_diag, Forall_forall. intros n _.
    apply relinkDataOnly_refl.
Qed.

Lemma relinkData_sync t n :
  n ∈ nodes (syncRelinkData t) ->
  (0 < length (nodes t))%nat
  /\ dataIsRelinkMode n = isRelinkMode t
  /\ dataSelectedNodeForRelink n = selectedNodeForRelink t.
Proof.
  unfold syncRelinkData. destruct (0 <? length (nodes t))%nat eqn:E; simpl.
  - intros Hn. apply list_elem_of_In, in_map_iff in Hn as (m & <- & _).
    apply Nat.ltb_lt in E. done.
  - apply Nat.ltb_ge in E. destruct (nodes t); [|simpl in E; lia].
    by intros ?%elem_of_nil.
Qed.

(** C8, as the code has it.  From every state the cancel command returns;
    where it is offered (a node is selected) it clears the selected node;
    it leaves relink mode as it is (from AwaitingTarget the editor goes
    back to AwaitingSource, an idle editor stays idle) and changes no node
    but for the relink data mirrored into it: every node keeps its
    identifier, parent, label, type, position, measured width,
    background, visibility, display and draggable flag, the connectors
    and the id counter are the same, and after the render every node
    carries the relink state the editor is in.  The command that leaves
    relink mode, from AwaitingSource and from AwaitingTarget, is the
    relink-mode toggle, which changes no node either but for the relink
    data. *)
Theorem cancel_clears_selection fuel s :
  (exists s', step fuel s CancelClick = Some s'
     /\ (cancelRendered s = true -> selectedNodeForRelink s' = None)
     /\ (cancelRendered s = false ->
         selectedNodeForRelink s' = selectedNodeForRelink s)
     /\ isRelinkMode s' = isRelinkMode s
     /\ (AwaitingTarget s -> cancelRendered s = true -> AwaitingSource s')
     /\ map skel (nodes s') = map skel (nodes s)
     /\ map position (nodes s') = map position (nodes s)
     /\ edges s' = edges s
     /\ nextId s' = nextId s
     /\ Forall2 relinkDataOnly (nodes s') (nodes s)
     /\ (cancelRendered s = true ->
         forall n, n ∈ nodes s' ->
           dataIsRelinkMode n = isRelinkMode s
           /\ dataSelectedNodeForRelink n = None)
     /\ (cancelRendered s = false -> nodes s' = nodes s))
  /\ (isRelinkMode s = true ->
      exists s', step fuel s RelinkModeClick = Some s' /\ Idle s'
        /\ map skel (nodes s') = map skel (nodes s)
        /\ map position (nodes s') = map position (nodes s)
        /\ edges s' = edges s
        /\ nextId s' = nextId s
        /\ Forall2 relinkDataOnly (nodes s') (nodes s)
        /\ forall n, n ∈ nodes s' ->
             dataIsRelinkMode n = false
             /\ dataSelectedNodeForRelink n = None).
Proof.
  assert (Hsync : forall t,
            map skel (nodes (syncRelinkData t)) = map skel (nodes t)
            /\ map position (nodes (syncRelinkData t)) = map position (nodes t)
            /\ edges (syncRelinkData t) = edges t
            /\ isRelinkMode (syncRelinkData t) = isRelinkMode t
            /\ selectedNodeForRelink (syncRelinkData t)
               = selectedNodeForRelink t
            /\ nextId (syncRelinkData t) = nextId t).
  { intros t. unfold syncRelinkData.
    destruct (0 <? length (nodes t))%nat; [|done]. simpl.
    rewrite !List.map_map. done. }
  assert (Hafter : forall t,
            map skel (nodes (afterRender s t)) = map skel (nodes t)
            /\ map position (nodes (afterRender s t)) = map position (nodes t)
            /\ edges (afterRender s t) = edges t
            /\ isRelinkMode (afterRender s t) = isRelinkMode t
            /\ selectedNodeForRelink (afterRender s t)
               = selectedNodeForRelink t
            /\ nextId (afterRender s t) = nextId t
            /\ Forall2 relinkDataOnly (nodes (afterRender s t)) (nodes t)).
  { intros t. unfold afterRender. case_bool_decide.
    - repeat (split; [done|]).
      apply Forall_Forall2_diag, Forall_forall. intros n _.
      apply relinkDataOnly_refl.
    - destruct (Hsync t) as (H1 & H2 & H3 & H4 & H5 & H6).
      repeat (split; [done|]). apply relinkDataOnly_sync. }
  split.
  - unfold step, handleEvent.
    destruct (cancelRendered s) eqn:Hsel.
    + exists (afterRender s (cancelRelink s)). split; [done|].
      destruct (Hafter (cancelRelink s)) as (H1 & H2 & H3 & H4 & H5 & H6 & H7).
      unfold AwaitingSource, AwaitingTarget.
      rewrite H1, H2, H3, H4, H5, H6. simpl.
      split; [done|]. split; [done|]. split; [done|].
      split; [by intros [Hm _] _|]. split; [done|]. split; [done|].
      split; [done|]. split; [done|]. split; [exact H7|]. split; [|done].
      intros _ n Hn. unfold afterRender in Hn.
      rewrite bool_decide_eq_false_2 in Hn.
      * by destruct (relinkData_sync _ _ Hn) as (_ & Hm & Hs).
      * simpl. intros [_ E]. unfold cancelRendered in Hsel.
        rewrite <- E in Hsel. done.
    + exists (afterRender s s). split; [done|].
      destruct (Hafter s) as (H1 & H2 & H3 & H4 & H5 & H6 & H7).
      rewrite H1, H2, H3, H4, H5, H6.
      split; [done|]. split; [done|]. split; [done|]. split; [done|].
      split; [done|]. split; [done|]. split; [done|]. split; [done|].
      split; [exact H7|]. split; [done|].
      intros _. unfold afterRender. by rewrite bool_decide_eq_true_2.
  - intros Hm. exists (afterRender s (toggleRelinkMode s)). split; [done|].
    destruct (Hafter (toggleRelinkMode s))
      as (H1 & H2 & H3 & H4 & H5 & H6 & H7).
    unfold Idle. rewrite H1, H2, H3, H4, H5, H6. simpl. rewrite Hm.
    split; [done|]. split; [done|]. split; [done|]. split; [done|].
    split; [done|]. split; [exact H7|].
    intros n Hn. unfold afterRender in Hn.
    rewrite bool_decide_eq_false_2 in Hn.
    + destruct (relinkData_sync _ _ Hn) as (_ & Hd & Hs). simpl in Hd, Hs.
      rewrite Hm in Hd. done.
    + simpl. rewrite Hm. intros [E _]. done.
Qed.

Lemma cancel_clears_selection_witness :
  exists s', step 0 sampleSelecting CancelClick = Some s'
             /\ selectedNodeForRelink s' = None /\ AwaitingSource s'
             /\ Forall2 relinkDataOnly (nodes s') (nodes sampleSelecting).
Proof.
  destruct (cancel_clears_selection 0 sampleSelecting)
    as [(s' & H & Hc & _ & _ & Ha & _ & _ & _ & _ & Hn & _) _].
  exists s'. split; [exact H|]. split; [|split; [|exact Hn]].
  - apply Hc. reflexivity.
  - apply Ha; [split; [reflexivity|exists "2"; reflexivity]|reflexivity].
Defined.

(** ** Adding a child under an unknown parent *)

Lemma relayout_ranked S rk nds (k : list Node -> list Edge -> State) :
  Ranked S rk nds ->
  (forall n, n ∈ nds -> truthyId (parentId n) = false -> S (id n)) ->
  S anchorId ->
  exists laid es,
    Returns (fun fuel => match layoutTree fuel nds with
                         | None => None
                         | Some laidOutNodes =>
                             match computeEdges fuel laidOutNodes with
                             | None => None
                             | Some es => Some (k laidOutNodes es)
                             end
                         end) (k laid es)
    /\ map skel laid = map skel nds
    /\ Returns (fun fuel => layoutTree fuel nds) laid.
Proof.
  intros HR Hroots HS.
  destruct (layoutTree_total S rk nds HR Hroots) as (laid & Hl & Hs).
  pose proof (Ranked_skel _ _ _ _ (eq_sym Hs) HR) as HR'.
  destruct (computeEdges_total S rk laid HR' HS) as [es Hes].
  exists laid, es. split; [|split; [done|done]].
  apply (Returns_bind _ (fun fuel l => match computeEdges fuel l with
                                       | None => None
                                       | Some es => Some (k l es)
                                       end) laid); [done|].
  apply (Returns_bind _ (fun _ es => Some (k laid es)) es); [done|].
  apply Returns_const.
Qed.

(** A node that is its own parent sends the descendant walk of the
    connectors round in circles. *)
Lemma scanDescendants_selfloop
    (f : string -> gset string -> option (gset string)) k n :
  (forall acc, f k acc = None) -> id n = k -> parentId n = Some k ->
  forall scan acc, n ∈ scan -> scanDescendants f scan k acc = None.
Proof.
  intros Hf Hid Hp. induction scan as [|m scan IH]; intros acc Hn.
  - by apply elem_of_nil in Hn.
  - simpl. apply elem_of_cons in Hn as [<-|Hn].
    + rewrite decide_True by done. by rewrite Hid, Hf.
    + destruct (decide (parentId m = Some k)); [|by apply IH].
      destruct (f (id m) _); [by apply IH|done].
Qed.

Lemma findDescendants_selfloop nds k n :
  n ∈ nds -> id n = k -> parentId n = Some k ->
  forall fuel acc, findDescendants fuel nds k acc = None.
Proof.
  intros Hn Hid Hp. induction fuel as [|fuel IH]; intros acc; simpl; [done|].
  by apply (scanDescendants_selfloop _ k n).
Qed.

(** The layout intends no place for a node that is no root and whose
    parent no node of the array is. *)
Lemma Expect_not_orphan nds j nj :
  nds !! j = Some nj -> truthyId (parentId nj) = true ->
  (forall i n, nds !! i = Some n -> parentId nj = Some (id n) -> i = j) ->
  forall c xc y, Expect nds (buildChildrenMap nds) c xc y -> c <> j.
Proof.
  intros Hj Ht Hno c xc y H. induction H as
    [i n xc y Hi Hti Hx Hy
    |p pn pxc py ws k c w xc y HE IH Hp HW Hk Hw Hx Hy].
  - intros ->. congruence.
  - intros ->. apply IH.
    apply list_elem_of_lookup_2 in Hk.
    apply elem_of_children in Hk as (_ & m & Hm & Hpar).
    assert (m = nj) as -> by congruence. by apply (Hno p pn).
Qed.

Lemma climbs_selfloop nds n :
  findNode nds (id n) = Some n -> parentId n = Some (id n) ->
  forall k, climbs nds k (id n) = false.
Proof.
  intros Hf Hp. induction k as [|k IH].
  - simpl. by rewrite Hf, Hp.
  - rewrite climbs_S, Hf, Hp. exact IH.
Qed.

(** C10, as the code has it.  In a state of the editor (a tree whose
    identifiers the id counter is ahead of), adding a child under a
    non-empty [parent] that names no node and no property inherited from
    [Object.prototype] returns, unless the new node would be the anchor
    ['10'] and its own parent; it advances the id counter and appends
    the new node with that [parentId]; the layout pass does not visit
    the new node, which stays exactly as it was created (at its initial
    position), and the node array is no longer a tree. *)
Theorem add_child_unknown_parent s parent :
  Good s ->
  truthy parent = true ->
  parent ∉ inheritedKeys ->
  (forall n, n ∈ nodes s -> id n <> parent) ->
  ~ (parent = anchorId /\ toString (nextId s) = anchorId) ->
  exists s',
    Returns (fun fuel => handleAddChild fuel s parent) s'
    /\ nextId s' = S (nextId s)
    /\ map content (nodes s')
       = map content (nodes s ++ [newNode (nextId s) parent])
    /\ nodes s' !! length (nodes s) = Some (newNode (nextId s) parent)
    /\ ~ TreeInv (nodes s').
Proof.
  intros [HT HN] Htp _ Hno Hanchor.
  set (new := newNode (nextId s) parent).
  assert (Hfresh : forall n, n ∈ nodes s -> id n <> id new).
  { intros n Hn. by apply (Numbered_fresh _ _ _ HN). }
  destruct (TreeInv_Ranked _ HT) as [rk Hrk].
  assert (Hold : forall n q, n ∈ nodes s -> parentId n = Some q -> q <> parent).
  { intros n q Hn Hq E. destruct (parents_exist _ HT n q Hn Hq) as (m & Hm & Hid).
    apply (Hno m Hm). congruence. }
  assert (Hrel : exists laid es,
            Returns (fun fuel => handleAddChild fuel s parent)
                    (mkState laid es (S (nextId s)) (isRelinkMode s)
                             (selectedNodeForRelink s))
            /\ map skel laid = map skel (nodes s ++ [new])
            /\ Returns (fun fuel => layoutTree fuel (nodes s ++ [new])) laid).
  { destruct (decide (parent = id new)) as [Eself|Nself].
    - apply (relayout_ranked (fun x => x <> parent) rk).
      + intros n q [Hn|Hn]%elem_of_app Hq Hne.
        * split; [by apply Hno|]. by apply (Hrk n q).
        * apply list_elem_of_singleton in Hn as ->. simpl in Hq. congruence.
      + intros n [Hn|Hn]%elem_of_app Hroot; [by apply Hno|].
        apply list_elem_of_singleton in Hn as ->. simpl in Hroot. congruence.
      + intros E. apply Hanchor. split; [done|]. by rewrite E, Eself.
    - apply (relayout_ranked (fun _ => True)
               (fun x => if decide (x = parent) then S (rk (id new)) else rk x)).
      + intros n q [Hn|Hn]%elem_of_app Hq _; (split; [done|]).
        * rewrite decide_False by (by apply Hno).
          rewrite decide_False by (by apply (Hold n q)). by apply (Hrk n q).
        * apply list_elem_of_singleton in Hn as ->. simpl in Hq.
          injection Hq as <-. rewrite decide_False by done.
          rewrite decide_True by done. lia.
      + done.
      + done. }
  destruct Hrel as (laid & es & HR & Hs & Hl).
  exists (mkState laid es (S (nextId s)) (isRelinkMode s)
                  (selectedNodeForRelink s)).
  split; [done|]. split; [done|]. simpl.
  destruct Hl as [f Hf]. specialize (Hf f (le_n _)).
  assert (Hnew : (nodes s ++ [new]) !! length (nodes s) = Some new).
  { rewrite lookup_app_r by done. by rewrite Nat.sub_diag. }
  split; [by apply (layoutTree_content f)|]. split.
  - destruct (layoutTree_outcome _ _ _ Hf) as (_ & Hpr & _).
    destruct (lookup_skel _ _ _ _ (eq_sym Hs) Hnew) as (n & Hn & _).
    destruct (Hpr _ n new Hn Hnew) as [->|(xc & y & HE & _)]; [done|].
    exfalso. eapply (Expect_not_orphan (nodes s ++ [new])
                       (length (nodes s)) new); [exact Hnew| | |exact HE|done].
    + simpl. exact Htp.
    + intros i m Hi [= E].
      destruct (decide (i < length (nodes s))) as [Hlt|Hge].
      * rewrite lookup_app_l in Hi by done.
        destruct (Hno m); [by eapply list_elem_of_lookup_2|done].
      * apply lookup_lt_Some in Hi. rewrite length_app in Hi. simpl in Hi. lia.
  - intros HT'. apply (TreeInv_skel _ _ Hs) in HT'.
    destruct (parents_exist _ HT' new parent) as (m & Hm & Hid);
      [apply elem_of_app; right; apply list_elem_of_here|done|].
    apply elem_of_app in Hm as [Hm|Hm]; [by destruct (Hno m Hm)|].
    apply list_elem_of_singleton in Hm as ->.
    destruct (reaches_root _ HT' new) as [k Hk];
      [apply elem_of_app; right; apply list_elem_of_here|].
    rewrite (climbs_selfloop (nodes s ++ [new]) new) in Hk; [done| |].
    + rewrite findNode_app_r by (by apply findNode_fresh).
      unfold findNode. simpl. by rewrite String.eqb_refl.
    + unfold new in *. simpl in *. congruence.
Qed.

Lemma numbered_sound next nds :
  forallb (fun n => existsb (fun k => String.eqb (id n) (toString k))
                            (seq 0 next)) nds = true ->
  Numbered next nds.
Proof.
  rewrite forallb_forall. intros H n Hn%list_elem_of_In.
  apply H, existsb_exists in Hn as (k & Hk%in_seq & E%String.eqb_eq).
  exists k. split; [done|lia].
Qed.

Lemma unnamed_sound p nds :
  forallb (fun n => negb (String.eqb (id n) p)) nds = true ->
  forall n, n ∈ nds -> id n <> p.
Proof.
  rewrite forallb_forall. intros H n Hn%list_elem_of_In.
  apply H, negb_true_iff in Hn. by apply String.eqb_neq.
Qed.

Lemma add_child_unknown_parent_witness :
  exists s',
    Returns (fun fuel =>
               handleAddChild fuel (mkState sampleTree [] 6 false None) "99") s'
    /\ nextId s' = 7
    /\ map content (nodes s') = map content (sampleTree ++ [newNode 6 "99"])
    /\ nodes s' !! 5 = Some (newNode 6 "99")
    /\ ~ TreeInv (nodes s').
Proof.
  apply (add_child_unknown_parent (mkState sampleTree [] 6 false None) "99").
  - split.
    + apply treeOk_sound. vm_compute. reflexivity.
    + apply numbered_sound. vm_compute. reflexivity.
  - reflexivity.
  - apply (bool_decide_unpack _). vm_compute. exact I.
  - apply unnamed_sound. vm_compute. reflexivity.
  - intros [E _]. discriminate E.
Defined.

(** C10 as stated fails for a parent argument that names no node: the
    empty string is falsy, so the new node counts as a root and the
    layout pass visits it (it is made visible and displayed). *)
Lemma add_child_unknown_parent_fails :
  exists s s' n,
    initialState 5 = Some s
    /\ findNode (nodes s) "" = None
    /\ handleAddChild 5 s "" = Some s'
    /\ nodes s' !! 1 = Some n
    /\ id n = "2" /\ parentId n = Some ""
    /\ visible (newNode 2 "") = false /\ display (newNode 2 "") = None
    /\ visible n = true /\ display n = Some "block"
    /\ background n = Some "#172A2E".
Proof.
  eexists. eexists. eexists.
  split; [vm_compute; reflexivity|].
  split; [vm_compute; reflexivity|].
  split; [vm_compute; reflexivity|].
  split; [vm_compute; reflexivity|].
  repeat split; vm_compute; reflexivity.
Qed.

(** The case the theorem leaves out.  With the id counter at the anchor
    ['10'], a run of the updater with the argument ['10'] makes the new
    node the anchor and its own parent: the descendant walk of the
    connectors has no end, and the run does not complete. *)
Lemma add_child_anchor_run :
  exists s,
    session 12 eightAdds = Some s
    /\ findNode (nodes s) "10" = None
    /\ forall fuel, handleAddChild fuel s "10" = None.
Proof.
  assert (H1 : option_map nextId (session 12 eightAdds) = Some 10)
    by (vm_compute; reflexivity).
  assert (H2 : option_map (fun s => findNode (nodes s) "10")
                 (session 12 eightAdds) = Some None)
    by (vm_compute; reflexivity).
  destruct (session 12 eightAdds) as [s|]; [|done].
  simpl in H1, H2. injection H1 as H1. injection H2 as H2.
  exists s. split; [done|]. split; [done|].
  intros fuel. unfold handleAddChild. rewrite H1.
  destruct (layoutTree fuel _) as [laid|] eqn:El; [|done].
  apply layoutTree_skel in El.
  destruct (elem_of_skel _ laid (newNode 10 "10") (eq_sym El))
    as (n & Hn & Hsk).
  { apply elem_of_app. right. apply list_elem_of_here. }
  unfold computeEdges.
  rewrite (findDescendants_selfloop laid anchorId n Hn); [done| |].
  + by rewrite (skel_id _ _ Hsk).
  + by rewrite (skel_parentId _ _ Hsk).
Qed.

(** ** More on where the layout puts the nodes *)

(** After a layout pass of a tree every node sits where the layout
    intends it. *)
Lemma layoutTree_all_placed fuel nds r :
  TreeInv nds -> IdsTruthy nds -> layoutTree fuel nds = Some r ->
  forall j n, r !! j = Some n ->
    exists xc y, Expect nds (buildChildrenMap nds) j xc y
      /\ (fst (position n) == xc - NODE_WIDTH / 2)%Q
      /\ (snd (position n) == y)%Q.
Proof.
  intros HT Ht H j n Hj.
  destruct (layoutTree_outcome _ _ _ H) as (Hs & _ & Hreach).
  destruct (lookup_skel _ _ _ _ Hs Hj) as (n0 & Hj0 & Hsk).
  destruct (reaches_root _ HT n0) as [k Hk]; [by eapply list_elem_of_lookup_2|].
  destruct (tree_reach nds HT Ht k j n0 Hj0 Hk) as (i & m0 & Hi & Hm0 & HR).
  apply (Hreach i m0 j n Hi); [by rewrite Hm0|done|done].
Qed.

Lemma tree_widths nds p pn :
  TreeInv nds -> nds !! p = Some pn ->
  exists ws, Forall2 (WidthIs nds (buildChildrenMap nds))
               (childrenOf (buildChildrenMap nds) (id pn)) ws.
Proof.
  intros HT Hp. destruct (TreeInv_Ranked nds HT) as [rk Hrk].
  apply (widths_exist (fun _ => True) rk nds _ _ Hrk (ChildrenOK_build nds)).
  intros c (_ & n & Hn & _)%elem_of_children. by exists n.
Qed.

(** The row of a child is one [VERTICAL_GAP] below the row of its
    parent. *)
Lemma child_row fuel nds r p np c nc :
  TreeInv nds -> IdsTruthy nds -> layoutTree fuel nds = Some r ->
  r !! p = Some np -> r !! c = Some nc -> parentId nc = Some (id np) ->
  (snd (position nc) == snd (position np) + VERTICAL_GAP)%Q.
Proof.
  intros HT Ht H Hp Hc Hpar.
  pose proof (layoutTree_skel _ _ _ H) as Hs.
  destruct (lookup_skel _ _ _ _ Hs Hp) as (pn0 & Hp0 & Hskp).
  destruct (lookup_skel _ _ _ _ Hs Hc) as (cn0 & Hc0 & Hskc).
  destruct (layoutTree_all_placed _ _ _ HT Ht H p np Hp) as (pxc & py & HEp & _ & Hpy).
  destruct (layoutTree_all_placed _ _ _ HT Ht H c nc Hc) as (xc & y & HEc & _ & Hy).
  destruct (tree_widths nds p pn0 HT Hp0) as [ws HW].
  assert (Hin : c ∈ childrenOf (buildChildrenMap nds) (id pn0)).
  { apply elem_of_children. split.
    - apply Ht. by eapply list_elem_of_lookup_2.
    - exists cn0. split; [done|].
      rewrite (skel_parentId _ _ Hskc), Hpar. f_equal. symmetry.
      by apply skel_id. }
  apply list_elem_of_lookup in Hin as [k Hk].
  destruct (lookup_lt_is_Some_2 ws k) as [w Hw].
  { rewrite <- (Forall2_length _ _ _ HW). by eapply lookup_lt_Some. }
  assert (HEc' : Expect nds (buildChildrenMap nds) c
                   (pxc - totalWidth ws / 2 + slotOffset ws k + w / 2)%Q
                   (py + VERTICAL_GAP)%Q).
  { eapply (expect_child nds _ p pn0 pxc py ws k c w); eauto; reflexivity. }
  destruct (Expect_unique _ _ _ _ _ _ (ids_unique _ HT) HEc HEc') as [_ Ey].
  lra.
Qed.

(** X1. After a layout pass of a tree every child is exactly one
    [VERTICAL_GAP] below its parent. *)
Theorem layout_rows nds :
  TreeInv nds -> IdsTruthy nds ->
  exists r,
    Returns (fun fuel => layoutTree fuel nds) r
    /\ forall p np c nc,
         r !! p = Some np -> r !! c = Some nc ->
         parentId nc = Some (id np) ->
         (snd (position nc) == snd (position np) + VERTICAL_GAP)%Q.
Proof.
  intros HT Ht. destruct (layoutTree_total_tree nds HT) as (r & HR & _).
  exists r. split; [done|]. destruct HR as [f H]. specialize (H f (le_n _)).
  intros p np c nc. by apply (child_row f nds r).
Qed.

(** X2. The layout pass of a tree anchors the drawing at its root: the
    root keeps its [y], which is handed on as it is, and it keeps its
    [x] when that is a whole number, where the [x + NODE_WIDTH / 2 -
    NODE_WIDTH / 2] of the pass is exact in the arithmetic of the host. *)
Theorem layout_root_fixed nds :
  TreeInv nds ->
  exists r,
    Returns (fun fuel => layoutTree fuel nds) r
    /\ forall i n0 n,
         nds !! i = Some n0 -> r !! i = Some n -> parentId n0 = None ->
         id n = id n0
         /\ (snd (position n) == snd (position n0))%Q
         /\ (Whole (fst (position n0)) ->
             (fst (position n) == fst (position n0))%Q).
Proof.
  intros HT. destruct (layoutTree_total_tree nds HT) as (r & HR & Hs).
  exists r. split; [done|]. destruct HR as [f H]. specialize (H f (le_n _)).
  destruct (SameRoots_layoutTree _ _ _ (ids_unique _ HT) H) as [_ Hpos].
  intros i n0 n Hi0 Hi Hp.
  destruct (Hpos i n0 n Hi0 Hi) as [Hx Hy]; [by rewrite Hp|].
  destruct (lookup_skel _ _ _ _ Hs Hi) as (n0' & Hi0' & Hsk).
  assert (n0' = n0) as -> by congruence.
  split; [symmetry; by apply skel_id|]. split; [lra|]. intros _. lra.
Qed.

(** X3. After a layout pass of a tree a node that is the only child of
    its parent sits straight below it, at the same x. *)
Theorem layout_only_child nds :
  TreeInv nds -> IdsTruthy nds ->
  exists r,
    Returns (fun fuel => layoutTree fuel nds) r
    /\ forall p np c nc,
         r !! p = Some np -> r !! c = Some nc ->
         childIndices 0 r (id np) = [c] ->
         (fst (position nc) == fst (position np))%Q.
Proof.
  intros HT Ht. destruct (layoutTree_total_tree nds HT) as (r & HR & Hs).
  exists r. split; [done|]. destruct HR as [f H]. specialize (H f (le_n _)).
  intros p np c nc Hp Hc Hch.
  destruct (lookup_skel _ _ _ _ Hs Hp) as (pn0 & Hp0 & Hskp).
  rewrite <- (skel_id _ _ Hskp), <- (childIndices_skel _ _ (eq_sym Hs)) in Hch.
  assert (Hch' : childrenOf (buildChildrenMap nds) (id pn0) = [c]).
  { rewrite childrenOf_build, Ht; [done|]. by eapply list_elem_of_lookup_2. }
  destruct (tree_widths nds p pn0 HT Hp0) as [ws HW].
  pose proof (Forall2_length _ _ _ HW) as Hlen. rewrite Hch' in Hlen.
  destruct ws as [|w [|]]; try done.
  pose proof (child_slots f nds r p pn0 np [w] HT Ht H Hp0 Hp HW 0 c w nc) as E.
  rewrite Hch' in E. specialize (E eq_refl eq_refl Hc).
  rewrite slotOffset_0 in E. unfold slotLeft, totalWidth, sumQ in E.
  simpl in E. change (num 1) with 1%Q in E. qlra.
Qed.

Lemma reach_rows fuel nds r :
  TreeInv nds -> IdsTruthy nds -> layoutTree fuel nds = Some r ->
  forall p j, Reach r (buildChildrenMap nds) p j ->
  forall np nj, r !! p = Some np -> r !! j = Some nj ->
    j = p \/ (snd (position np) + VERTICAL_GAP <= snd (position nj))%Q.
Proof.
  intros HT Ht H. pose proof (layoutTree_skel _ _ _ H) as Hs.
  induction 1 as [i|i n c j Hi Hc Hj IH]; intros np nj Hp Hnj; [by left|right].
  assert (n = np) as -> by congruence.
  apply elem_of_children in Hc as (_ & c0 & Hc0 & Hpar).
  destruct (lookup_skel _ _ _ _ (eq_sym Hs) Hc0) as (nc & Hnc & Hskc).
  pose proof (child_row fuel nds r i np c nc HT Ht H Hp Hnc) as Hrow.
  assert (Hpar' : parentId nc = Some (id np))
    by (unfold skel in Hskc; congruence).
  specialize (Hrow Hpar').
  destruct (IH nc nj Hnc Hnj) as [->|Hle].
  - assert (nj = nc) as -> by congruence. lra.
  - unfold VERTICAL_GAP in *. lra.
Qed.

Lemma Apart_sym a b : Apart a b -> Apart b a.
Proof. unfold Apart. tauto. Qed.

(** After a layout pass of a tree, two different nodes of a subtree are
    in different rows or side by side with a gap between them. *)
Lemma subtree_apart f0 nds r :
  TreeInv nds -> IdsTruthy nds -> layoutTree f0 nds = Some r ->
  forall fuel p np w,
    r !! p = Some np ->
    getSubtreeWidth fuel nds (buildChildrenMap nds) p = Some w ->
    forall a b na nb,
      Reach r (buildChildrenMap nds) p a -> Reach r (buildChildrenMap nds) p b ->
      a <> b -> r !! a = Some na -> r !! b = Some nb -> Apart na nb.
Proof.
  intros HT Ht H. pose proof (layoutTree_skel _ _ _ H) as Hs.
  set (cm := buildChildrenMap nds).
  induction fuel as [|fuel IH]; intros p np w Hp Hw; [done|].
  simpl in Hw.
  destruct (lookup_skel _ _ _ _ Hs Hp) as (n0 & Hp0 & Hsk).
  rewrite Hp0 in Hw.
  assert (Hreach : forall j, Reach r cm p j ->
            j = p \/ exists c, c ∈ childrenOf cm (id n0) /\ Reach r cm c j).
  { intros j Hj. rewrite (skel_id _ _ Hsk). by apply Reach_children. }
  assert (Hbelow : forall j nj, Reach r cm p j -> j <> p -> r !! j = Some nj ->
            (snd (position np) + VERTICAL_GAP <= snd (position nj))%Q).
  { intros j nj Hj Hne Hnj.
    by destruct (reach_rows f0 nds r HT Ht H p j Hj np nj Hp Hnj). }
  destruct (length (childrenOf cm (id n0)) =? 0)%nat eqn:El.
  { apply Nat.eqb_eq in El.
    assert (Honly : forall j, Reach r cm p j -> j = p).
    { intros j [->|(c & Hc & _)]%Hreach; [done|].
      destruct (childrenOf cm (id n0)); [by apply elem_of_nil in Hc|done]. }
    intros a b na nb ->%Honly ->%Honly Hne. done. }
  rewrite sumWidths_mapWidths in Hw.
  destruct (mapWidths _ _) as [ws|] eqn:Em; [|done]. clear Hw.
  pose proof (mapWidths_length _ _ _ Em) as Hlen.
  assert (HW : Forall2 (WidthIs nds cm) (childrenOf cm (id n0)) ws).
  { revert Em. apply mapWidths_Forall2. intros c w' Hc. by exists fuel. }
  assert (Hpos0 : Forall (fun w => (0 <= w)%Q) ws).
  { apply Forall_forall. intros w' (k & Hk)%list_elem_of_lookup.
    destruct (lookup_lt_is_Some_2 (childrenOf cm (id n0)) k) as [c Hc].
    { rewrite <- Hlen. by eapply lookup_lt_Some. }
    pose proof (mapWidths_lookup _ _ _ _ _ _ Em Hc Hk) as Hf.
    apply getSubtreeWidth_ge in Hf. unfold NODE_WIDTH in Hf. lra. }
  assert (Hside : forall k l ck cl a b na nb,
            k < l ->
            childrenOf cm (id n0) !! k = Some ck ->
            childrenOf cm (id n0) !! l = Some cl ->
            Reach r cm ck a -> Reach r cm cl b ->
            r !! a = Some na -> r !! b = Some nb ->
            (fst (position na) + NODE_WIDTH + HORIZONTAL_GAP
             <= fst (position nb))%Q).
  { intros k l ck cl a b na nb Hkl Hk Hl Ha Hb Hna Hnb.
    destruct (lookup_lt_is_Some_2 ws k) as [wk Hwk].
    { rewrite Hlen. by eapply lookup_lt_Some. }
    destruct (lookup_lt_is_Some_2 ws l) as [wl Hwl].
    { rewrite Hlen. by eapply lookup_lt_Some. }
    assert (Hnode : forall c, c ∈ childrenOf cm (id n0) ->
              exists nc, r !! c = Some nc).
    { intros c (_ & m & Hm & _)%elem_of_children.
      destruct (lookup_skel _ _ _ _ (eq_sym Hs) Hm) as (nc & Hnc & _).
      by exists nc. }
    destruct (Hnode ck (list_elem_of_lookup_2 _ _ _ Hk)) as [nk Hnk].
    destruct (Hnode cl (list_elem_of_lookup_2 _ _ _ Hl)) as [nl Hnl].
    pose proof (child_slots f0 nds r p n0 np ws HT Ht H Hp0 Hp HW
                  k ck wk nk Hk Hwk Hnk) as Ek.
    pose proof (child_slots f0 nds r p n0 np ws HT Ht H Hp0 Hp HW
                  l cl wl nl Hl Hwl Hnl) as El'.
    destruct (subtree_extent f0 nds r HT Ht H fuel ck nk wk Hnk
                (mapWidths_lookup _ _ _ _ _ _ Em Hk Hwk)) as (Hin1 & _ & _).
    destruct (subtree_extent f0 nds r HT Ht H fuel cl nl wl Hnl
                (mapWidths_lookup _ _ _ _ _ _ Em Hl Hwl)) as (Hin2 & _ & _).
    destruct (Hin1 a na Ha Hna) as [_ HR1].
    destruct (Hin2 b nb Hb Hnb) as [HL2 _].
    pose proof (slotOffset_le ws Hpos0 l k wk Hkl
                  ltac:(apply Nat.lt_le_incl; by eapply lookup_lt_Some) Hwk).
    unfold HORIZONTAL_GAP in *. lra. }
  intros a b na nb Ha Hb Hne Hna Hnb.
  destruct (Hreach a Ha) as [->|(ca & (k & Hk)%list_elem_of_lookup & Hca)];
    destruct (Hreach b Hb) as [->|(cb & (l & Hl)%list_elem_of_lookup & Hcb)].
  - done.
  - left. assert (na = np) as -> by congruence.
    apply (Hbelow b nb Hb); [congruence|done].
  - right. left. assert (nb = np) as -> by congruence.
    apply (Hbelow a na Ha); [congruence|done].
  - destruct (lt_eq_lt_dec k l) as [[Hlt|<-]|Hlt].
    + right. right. left. by eapply (Hside k l ca cb a b).
    + assert (cb = ca) as -> by congruence.
      destruct (lookup_lt_is_Some_2 ws k) as [wk Hwk].
      { rewrite Hlen. by eapply lookup_lt_Some. }
      pose proof (list_elem_of_lookup_2 _ _ _ Hk) as Hcin.
      apply elem_of_children in Hcin as (_ & m & Hm & _).
      destruct (lookup_skel _ _ _ _ (eq_sym Hs) Hm) as (nc & Hnc & _).
      apply (IH ca nc wk Hnc (mapWidths_lookup _ _ _ _ _ _ Em Hk Hwk)
               a b na nb Hca Hcb Hne Hna Hnb).
    + right. right. right. by eapply (Hside l k cb ca b a).
Qed.

(** After a layout pass of a tree, two different nodes are in different
    rows or side by side with a gap between them. *)
Lemma layoutTree_apart f nds r :
  TreeInv nds -> IdsTruthy nds -> layoutTree f nds = Some r ->
  forall a b na nb,
    r !! a = Some na -> r !! b = Some nb -> a <> b -> Apart na nb.
Proof.
  intros HT Ht H a b na nb Ha Hb Hne.
  pose proof (layoutTree_skel _ _ _ H) as Hs.
  destruct (TreeInv_Ranked nds HT) as [rk Hrk].
  destruct (rank_bound rk nds) as [F HF].
  assert (Hroot : forall j nj, r !! j = Some nj ->
            exists i n0, nds !! i = Some n0 /\ parentId n0 = None
              /\ Reach r (buildChildrenMap nds) i j).
  { intros j nj Hj.
    destruct (lookup_skel _ _ _ _ Hs Hj) as (n0 & Hj0 & _).
    destruct (reaches_root _ HT n0) as [k Hk]; [by eapply list_elem_of_lookup_2|].
    destruct (tree_reach nds HT Ht k j n0 Hj0 Hk) as (i & m0 & Hi & Hm0 & HR).
    exists i, m0. split; [done|]. split; [done|].
    eapply Reach_skel; [|exact HR]. done. }
  destruct (Hroot a na Ha) as (i & n0 & Hi & Hn0 & HRa).
  destruct (Hroot b nb Hb) as (i' & n0' & Hi' & Hn0' & HRb).
  assert (n0' = n0) as ->.
  { eapply (root_unique nds); eauto; by eapply list_elem_of_lookup_2. }
  assert (i' = i) as ->.
  { by eapply (lookup_same_id nds _ _ n0 n0 (ids_unique _ HT)). }
  destruct (lookup_skel _ _ _ _ (eq_sym Hs) Hi) as (ni & Hni & _).
  destruct (getSubtreeWidth_total (fun _ => True) rk nds _ Hrk
              (ChildrenOK_build nds) F i n0 Hi I) as [w Hw].
  { apply HF. by eapply list_elem_of_lookup_2. }
  by apply (subtree_apart f nds r HT Ht H F i ni w Hni Hw a b na nb).
Qed.

(** X4. After a layout pass of a tree no two node boxes overlap: two
    different nodes are in different rows, at least [VERTICAL_GAP] apart,
    or side by side with at least [HORIZONTAL_GAP] between the boxes
    ([NODE_WIDTH] wide). *)
Theorem layout_boxes_apart nds :
  TreeInv nds -> IdsTruthy nds ->
  exists r,
    Returns (fun fuel => layoutTree fuel nds) r
    /\ forall a b na nb,
         r !! a = Some na -> r !! b = Some nb -> a <> b -> Apart na nb.
Proof.
  intros HT Ht. destruct (layoutTree_total_tree nds HT) as (r & HR & Hs).
  exists r. split; [done|]. destruct HR as [f H]. specialize (H f (le_n _)).
  by apply (layoutTree_apart f nds r).
Qed.

(** ** What the layout writes besides the position *)

Section Styling.
Variable nds0 : list Node.
Variable K : nat.
Hypothesis HT : TreeInv nds0.
Hypothesis HK : forall n, n ∈ nds0 -> climbs nds0 K (id n) = true.

Lemma depth_child p pn c cn :
  nds0 !! p = Some pn -> nds0 !! c = Some cn -> parentId cn = Some (id pn) ->
  depthOf nds0 K (id cn) = S (depthOf nds0 K (id pn)).
Proof.
  intros Hp Hc Hpar.
  assert (Hcn : cn ∈ nds0) by (by eapply list_elem_of_lookup_2).
  pose proof (HK cn Hcn) as Hk.
  destruct K as [|K']; simpl in *;
    rewrite (findNode_unique _ _ (ids_unique _ HT) Hcn), Hpar in *; [done|].
  f_equal. symmetry.
  pose proof (depthOf_stable nds0 K' (S K') (id pn) ltac:(lia) Hk) as E.
  exact E.
Qed.

Lemma Styled_insert_other cur i j m :
  i <> j -> Styled nds0 K cur j -> Styled nds0 K (<[i := m]> cur) j.
Proof.
  intros Hne (n & n0 & Hn & Hn0 & Hst). exists n, n0.
  by rewrite list_lookup_insert_ne.
Qed.

Lemma Styled_insert_here cur i n n0 x y :
  cur !! i = Some n -> nds0 !! i = Some n0 ->
  Styled nds0 K (<[i := place x y (depthOf nds0 K (id n0)) true n]> cur) i.
Proof.
  intros Hn Hn0. exists (place x y (depthOf nds0 K (id n0)) true n), n0.
  rewrite list_lookup_insert_eq by (by eapply lookup_lt_Some).
  split; [done|]. split; [done|]. repeat split.
Qed.

Lemma layoutChildren_styled
    (f : list Node -> nat -> Q -> Q -> option (list Node)) :
  (forall cur c x y r,
      map skel cur = map skel nds0 -> f cur c x y = Some r ->
      map skel r = map skel nds0) ->
  forall cs,
    (forall cur c x y r,
        c ∈ cs -> map skel cur = map skel nds0 -> f cur c x y = Some r ->
        (forall j, Styled nds0 K cur j -> Styled nds0 K r j)
        /\ (forall j, Reach nds0 (buildChildrenMap nds0) c j ->
                      Styled nds0 K r j)) ->
    forall ws cur x y r,
      length ws = length cs ->
      map skel cur = map skel nds0 ->
      layoutChildren f cur cs ws x y = Some r ->
      (forall j, Styled nds0 K cur j -> Styled nds0 K r j)
      /\ (forall c j, c ∈ cs -> Reach nds0 (buildChildrenMap nds0) c j ->
                      Styled nds0 K r j).
Proof.
  intros Hskel. induction cs as [|c cs IH]; intros Hf [|w ws] cur x y r Hlen Hs;
    simpl in *; try done.
  - intros [= <-]. split; [done|]. by intros c j ?%elem_of_nil.
  - destruct (f cur c _ _) as [cur'|] eqn:Ef; [|done]. intros Hr.
    destruct (Hf cur c _ _ cur' (list_elem_of_here _ _) Hs Ef) as [Hm1 Hr1].
    destruct (IH (fun cur c x y r Hc =>
                    Hf cur c x y r (list_elem_of_further _ _ _ Hc))
                ws cur' _ _ r ltac:(lia) (Hskel _ _ _ _ _ Hs Ef) Hr)
      as [Hm2 Hr2].
    split; [by auto|].
    intros c' j [->|Hc']%elem_of_cons Hj; [by auto|by eauto].
Qed.

Lemma layoutNode_styled fuel : forall cur i n0 x y r,
  map skel cur = map skel nds0 -> nds0 !! i = Some n0 ->
  layoutNode fuel (buildChildrenMap nds0) (depthOf nds0 K (id n0)) true
             cur i x y = Some r ->
  (forall j, Styled nds0 K cur j -> Styled nds0 K r j)
  /\ (forall j, Reach nds0 (buildChildrenMap nds0) i j -> Styled nds0 K r j).
Proof.
  induction fuel as [|fuel IH]; intros cur i n0 x y r Hs Hi0; simpl; [done|].
  destruct (lookup_skel _ _ _ _ (eq_sym Hs) Hi0) as (n & Hi & Hsk).
  rewrite Hi, (skel_id _ _ Hsk).
  set (d := depthOf nds0 K (id n0)).
  set (cur1 := <[i := place x y d true n]> cur).
  assert (Hs1 : map skel cur1 = map skel nds0).
  { rewrite <- Hs. by eapply skel_insert. }
  assert (Hhere : Styled nds0 K cur1 i) by (by apply Styled_insert_here).
  assert (Hmono1 : forall j, Styled nds0 K cur j -> Styled nds0 K cur1 j).
  { intros j Hj. destruct (decide (i = j)) as [<-|Hne]; [done|].
    by apply Styled_insert_other. }
  destruct (length (childrenOf _ (id n0)) =? 0)%nat eqn:El.
  - intros [= <-]. split; [done|]. intros j Hj.
    destruct (Reach_children _ _ _ _ _ Hi0 Hj) as [->|(c & Hc & _)]; [done|].
    apply Nat.eqb_eq in El.
    destruct (childrenOf _ (id n0)); [by apply elem_of_nil in Hc|done].
  - destruct (mapWidths _ _) as [ws|] eqn:Ew; [|done]. intros Hr.
    pose proof (mapWidths_length _ _ _ Ew) as Hlen.
    destruct (layoutChildren_styled
                (layoutNode fuel (buildChildrenMap nds0) (S d) true))
      with (cs := childrenOf (buildChildrenMap nds0) (id n0)) (ws := ws)
           (cur := cur1) (x := (x - (sumQ ws + (num (length (childrenOf (buildChildrenMap nds0) (id n0))) - 1) * HORIZONTAL_GAP) / 2)%Q)
           (y := (y + VERTICAL_GAP)%Q) (r := r) as [Hm2 Hr2]; try done.
    + intros cur' c x' y' r' Hs' H'. rewrite <- Hs'.
      by eapply layoutNode_skel.
    + intros cur' c x' y' r' Hc Hs' H'.
      apply elem_of_children in Hc as (_ & c0 & Hc0 & Hpar).
      apply (IH cur' c c0 x' y' r' Hs' Hc0).
      by rewrite (depth_child i n0 c c0 Hi0 Hc0 Hpar).
    + split; [by auto|]. intros j Hj.
      destruct (Reach_children _ _ _ _ _ Hi0 Hj) as [->|(c & Hc & Hcj)];
        [by auto|]. by eapply Hr2.
Qed.

Lemma layoutRoots_styled fuel idxs : forall cur r,
  IdsTruthy nds0 ->
  map skel cur = map skel nds0 ->
  layoutRoots fuel (buildChildrenMap nds0) cur idxs = Some r ->
  (forall j, Styled nds0 K cur j -> Styled nds0 K r j)
  /\ (forall i n0 j, i ∈ idxs -> nds0 !! i = Some n0 -> parentId n0 = None ->
        Reach nds0 (buildChildrenMap nds0) i j -> Styled nds0 K r j).
Proof.
  intros cur r Ht. revert cur r.
  induction idxs as [|i idxs IH]; intros cur r Hs; simpl.
  - intros [= <-]. split; [done|]. by intros i n0 j ?%elem_of_nil.
  - destruct (cur !! i) as [n|] eqn:Hi; [|done].
    destruct (lookup_skel _ _ _ _ Hs Hi) as (n0 & Hi0 & Hsk).
    rewrite <- (skel_parentId _ _ Hsk).
    destruct (truthyId (parentId n0)) eqn:Etr.
    + intros Hr. destruct (IH _ _ Hs Hr) as [Hm Hre]. split; [done|].
      intros i' n0' j [->|Hi']%elem_of_cons Hn0' Hp' Hj; [|by eauto].
      assert (n0' = n0) as -> by congruence. by rewrite Hp' in Etr.
    + destruct (layoutNode _ _ _ _ _ _ _ _) as [cur'|] eqn:El; [|done].
      intros Hr.
      assert (Hroot : parentId n0 = None).
      { destruct (parentId n0) as [p|] eqn:Ep; [|done]. exfalso.
        assert (Hn0 : n0 ∈ nds0) by (by eapply list_elem_of_lookup_2).
        destruct (parents_exist _ HT n0 p Hn0 Ep) as (m & Hm & <-).
        simpl in Etr. by rewrite (Ht m Hm) in Etr. }
      assert (Hd : depthOf nds0 K (id n0) = 0).
      { assert (Hn0 : n0 ∈ nds0) by (by eapply list_elem_of_lookup_2).
        destruct K; simpl;
          by rewrite (findNode_unique _ _ (ids_unique _ HT) Hn0), Hroot. }
      rewrite <- Hd in El.
      destruct (layoutNode_styled fuel cur i n0 _ _ cur' Hs Hi0 El)
        as [Hm1 Hr1].
      assert (Hs' : map skel cur' = map skel nds0).
      { rewrite <- Hs. by eapply layoutNode_skel. }
      destruct (IH _ _ Hs' Hr) as [Hm2 Hr2]. split; [by auto|].
      intros i' n0' j [->|Hi']%elem_of_cons Hn0' Hp' Hj; [by auto|by eauto].
Qed.
End Styling.

Lemma depthOf_skel nds nds' :
  map skel nds = map skel nds' -> forall k s, depthOf nds k s = depthOf nds' k s.
Proof.
  intros H k. induction k as [|k IH]; intros s; simpl.
  - destruct (findNode nds s) as [n|] eqn:E.
    + destruct (findNode_skel _ _ _ _ H E) as (n' & -> & Hs).
      by rewrite (skel_parentId _ _ Hs).
    + by rewrite (findNode_skel_None _ _ _ H E).
  - destruct (findNode nds s) as [n|] eqn:E.
    + destruct (findNode_skel _ _ _ _ H E) as (n' & -> & Hs).
      rewrite (skel_parentId _ _ Hs). destruct (parentId n); [|done].
      f_equal. apply IH.
    + by rewrite (findNode_skel_None _ _ _ H E).
Qed.

Lemma IdsTruthy_skel nds nds' :
  map skel nds = map skel nds' -> IdsTruthy nds -> IdsTruthy nds'.
Proof.
  intros H Ht n' (j & Hj)%list_elem_of_lookup.
  destruct (lookup_skel _ _ _ _ (eq_sym H) Hj) as (n & Hn & Hsk).
  rewrite <- (skel_id _ _ Hsk). apply Ht. by eapply list_elem_of_lookup_2.
Qed.

(** After a layout pass of a tree every node carries the style of its
    depth. *)
Lemma layoutTree_styled fuel nds r K :
  TreeInv nds -> IdsTruthy nds ->
  (forall n, n ∈ nds -> climbs nds K (id n) = true) ->
  layoutTree fuel nds = Some r ->
  forall j n, r !! j = Some n ->
    draggable n = false /\ styledAt (depthOf nds K (id n)) n.
Proof.
  intros HT Ht HK H j n Hj. pose proof (layoutTree_skel _ _ _ H) as Hs.
  unfold layoutTree in H.
  set (nds0 := map (setDraggable false) nds) in *.
  assert (Hs0 : map skel nds0 = map skel nds) by apply skel_setDraggable.
  rewrite <- (buildChildrenMap_skel _ _ Hs0) in H.
  pose proof (TreeInv_skel _ _ (eq_sym Hs0) HT) as HT0.
  pose proof (IdsTruthy_skel _ _ (eq_sym Hs0) Ht) as Ht0.
  assert (HK0 : forall n, n ∈ nds0 -> climbs nds0 K (id n) = true).
  { intros m (i & Hi)%list_elem_of_lookup.
    destruct (lookup_skel _ _ _ _ Hs0 Hi) as (m' & Hm' & Hsk).
    rewrite (climbs_skel _ _ Hs0), <- (skel_id _ _ Hsk).
    apply HK. by eapply list_elem_of_lookup_2. }
  split.
  - pose proof (layoutRoots_preserved bool draggable
                  (fun _ _ _ _ _ => eq_refl) _ _ _ _ _ H) as Hd.
    change (draggable <$> r = draggable <$> nds0) in Hd.
    assert (Hdj : (draggable <$> r) !! j = Some (draggable n))
      by (by rewrite list_lookup_fmap, Hj).
    rewrite Hd in Hdj. unfold nds0 in Hdj.
    change (map (setDraggable false) nds) with (setDraggable false <$> nds) in Hdj.
    rewrite <- list_fmap_compose, list_lookup_fmap in Hdj.
    destruct (nds !! j); simpl in Hdj; congruence.
  - destruct (layoutRoots_styled nds0 K HT0 HK0 fuel _ nds0 r Ht0 eq_refl H)
      as [_ Hre].
    destruct (lookup_skel _ _ _ _ Hs Hj) as (m & Hm & Hskm).
    destruct (lookup_skel _ _ _ _ (eq_sym Hs0) Hm) as (m0 & Hm0 & Hskm0).
    destruct (reaches_root _ HT0 m0) as [k Hk];
      [by eapply list_elem_of_lookup_2|].
    destruct (tree_reach nds0 HT0 Ht0 k j m0 Hm0 Hk)
      as (i & n0 & Hi & Hn0 & HR).
    destruct (Hre i n0 j) as (n' & n0' & Hn' & Hn0' & Hst); try done.
    { apply elem_of_seq_0. by eapply lookup_lt_Some. }
    assert (n' = n) as -> by congruence.
    assert (n0' = m0) as -> by congruence.
    rewrite (depthOf_skel _ _ Hs0) in Hst.
    assert (id m0 = id n) as <-; [|done].
    unfold skel in *. congruence.
Qed.

(** X5. What the layout pass of a tree writes besides the positions:
    every node keeps its content (identifier, parent, label, type,
    measured width, relink data), and comes out not draggable, visible,
    displayed as a block and with the background of its depth, the
    palette staying at its last colour from depth 2 on. *)
Theorem layout_styles nds :
  TreeInv nds -> IdsTruthy nds ->
  exists r,
    Returns (fun fuel => layoutTree fuel nds) r
    /\ map content r = map content nds
    /\ forall j n k,
         r !! j = Some n -> climbs nds k (id n) = true ->
         draggable n = false /\ visible n = true
         /\ display n = Some "block"
         /\ background n
            = backgrounds !! Nat.min (depthOf nds k (id n))
                                     (length backgrounds - 1).
Proof.
  intros HT Ht. destruct (layoutTree_total_tree nds HT) as (r & HR & Hs).
  exists r. split; [done|]. destruct HR as [f H]. specialize (H f (le_n _)).
  split; [by eapply layoutTree_content|].
  destruct (climbs_bound nds nds (reaches_root _ HT)) as [K HK].
  intros j n k Hj Hk.
  destruct (layoutTree_styled f nds r K HT Ht HK H j n Hj) as (Hd & Hst).
  assert (E : depthOf nds K (id n) = depthOf nds k (id n)).
  { destruct (lookup_skel _ _ _ _ Hs Hj) as (m & Hm & Hsk).
    assert (HKn : climbs nds K (id n) = true).
    { rewrite <- (skel_id _ _ Hsk). apply HK. by eapply list_elem_of_lookup_2. }
    rewrite <- (depthOf_stable nds k (Nat.max k K) (id n) ltac:(lia) Hk).
    by rewrite <- (depthOf_stable nds K (Nat.max k K) (id n) ltac:(lia) HKn). }
  rewrite E in Hst. destruct Hst as (Hv & Hdi & Hb). done.
Qed.

(** ** The drawing the editor shows *)

Section Relabel.
Variable g : Node -> Node.
Hypothesis g_id : forall n, id (g n) = id n.
Hypothesis g_parentId : forall n, parentId (g n) = parentId n.
Hypothesis g_position : forall n, position (g n) = position n.
Hypothesis g_draggable : forall n, draggable (g n) = draggable n.
Hypothesis g_visible : forall n, visible (g n) = visible n.
Hypothesis g_display : forall n, display (g n) = display n.
Hypothesis g_background : forall n, background (g n) = background n.

Lemma skel_relabel nds : map skel (map g nds) = map skel nds.
Proof.
  rewrite List.map_map. apply map_ext. intros n. unfold skel.
  by rewrite g_id, g_parentId.
Qed.

Lemma lookup_relabel nds j n' :
  map g nds !! j = Some n' -> exists n, nds !! j = Some n /\ n' = g n.
Proof.
  change ((g <$> nds) !! j = Some n' -> exists n, nds !! j = Some n /\ n' = g n).
  rewrite list_lookup_fmap. destruct (nds !! j) as [n|]; [|done].
  intros [= <-]. by exists n.
Qed.

Lemma RootAt_relabel nds : RootAt nds -> RootAt (map g nds).
Proof.
  intros (r & rest & -> & Hid & Hp & Hx & Hy). exists (g r), (map g rest).
  by rewrite g_id, g_parentId, g_position.
Qed.

Lemma AllStyled_relabel nds : AllStyled nds -> AllStyled (map g nds).
Proof.
  intros H n' k Hn' Hk. change (n' ∈ g <$> nds) in Hn'.
  apply list_elem_of_fmap in Hn' as (n & -> & Hn).
  rewrite (climbs_skel _ _ (skel_relabel nds)), g_id in Hk.
  rewrite (depthOf_skel _ _ (skel_relabel nds)), g_id.
  destruct (H n k Hn Hk) as (Hd & Hv & Hdi & Hb). unfold styledAt.
  by rewrite g_draggable, g_visible, g_display, g_background.
Qed.

Lemma BoxesApart_relabel nds : BoxesApart nds -> BoxesApart (map g nds).
Proof.
  intros H a b na nb (na0 & Ha & ->)%lookup_relabel
    (nb0 & Hb & ->)%lookup_relabel Hne.
  unfold Apart. rewrite !g_position. by apply (H a b).
Qed.

Lemma Rows_relabel nds : Rows nds -> Rows (map g nds).
Proof.
  intros H p np c nc (np0 & Hp & ->)%lookup_relabel
    (nc0 & Hc & ->)%lookup_relabel.
  rewrite g_parentId, g_id, !g_position. by apply (H p np0 c nc0).
Qed.

Lemma SameRoots_relabel nds : SameRoots nds (map g nds).
Proof.
  split; [symmetry; apply skel_relabel|].
  intros i n n' Hi (n0 & Hn0 & ->)%lookup_relabel _.
  assert (n0 = n) as -> by congruence. rewrite g_position. split; reflexivity.
Qed.

Lemma SelfPlaced_relabel nds : SelfPlaced nds -> SelfPlaced (map g nds).
Proof.
  intros H j n' (n & Hn & ->)%lookup_relabel.
  destruct (H j n Hn) as (xc & y & HE & Hx & Hy). exists xc, y.
  rewrite g_position. split; [|done].
  rewrite (buildChildrenMap_skel _ _ (skel_relabel nds)).
  eapply Expect_ext; [apply SameRoots_relabel|done].
Qed.

Lemma scanDescendants_relabel
    (rec rec' : string -> gset string -> option (gset string)) :
  (forall s acc, rec s acc = rec' s acc) ->
  forall scan k acc,
    scanDescendants rec (map g scan) k acc = scanDescendants rec' scan k acc.
Proof.
  intros Hrec. induction scan as [|n scan IH]; intros k acc; simpl; [done|].
  rewrite g_parentId, g_id, Hrec.
  destruct (decide (parentId n = Some k)); [|apply IH].
  destruct (rec' (id n) _); [apply IH|done].
Qed.

Lemma findDescendants_relabel nds fuel : forall k acc,
  findDescendants fuel (map g nds) k acc = findDescendants fuel nds k acc.
Proof.
  induction fuel as [|fuel IH]; intros k acc; simpl; [done|].
  by apply scanDescendants_relabel.
Qed.

Lemma computeEdges_relabel nds fuel :
  computeEdges fuel (map g nds) = computeEdges fuel nds.
Proof.
  unfold computeEdges. rewrite findDescendants_relabel.
  destruct (findDescendants fuel nds anchorId ∅) as [found|]; [|done].
  f_equal. induction nds as [|n nds IH]; simpl; [done|].
  rewrite IH. f_equal. unfold edgeOf.
  by rewrite g_parentId, g_id, g_visible.
Qed.
End Relabel.

Lemma layoutTree_AllStyled fuel nds r :
  TreeInv nds -> IdsTruthy nds -> layoutTree fuel nds = Some r -> AllStyled r.
Proof.
  intros HT Ht H n k (j & Hj)%list_elem_of_lookup Hk.
  pose proof (layoutTree_skel _ _ _ H) as Hs.
  destruct (climbs_bound nds nds (reaches_root _ HT)) as [K HK].
  destruct (layoutTree_styled fuel nds r K HT Ht HK H j n Hj) as [Hd Hst].
  split; [done|].
  rewrite (climbs_skel _ _ Hs) in Hk. rewrite (depthOf_skel _ _ Hs).
  assert (HKn : climbs nds K (id n) = true).
  { destruct (lookup_skel _ _ _ _ Hs Hj) as (m & Hm & Hsk).
    rewrite <- (skel_id _ _ Hsk). apply HK. by eapply list_elem_of_lookup_2. }
  rewrite <- (depthOf_stable nds k (Nat.max k K) (id n) ltac:(lia) Hk).
  by rewrite (depthOf_stable nds K (Nat.max k K) (id n) ltac:(lia) HKn).
Qed.

Lemma layoutTree_RootAt fuel nds r :
  TreeInv nds -> RootAt nds -> layoutTree fuel nds = Some r -> RootAt r.
Proof.
  intros HT (r0 & rest & -> & Hid & Hp & Hx & Hy) H.
  pose proof (layoutTree_skel _ _ _ H) as Hs.
  destruct (SameRoots_layoutTree _ _ _ (ids_unique _ HT) H) as [_ Hpos].
  destruct r as [|r1 rest1]; [done|].
  destruct (Hpos 0 r0 r1 eq_refl eq_refl) as [Ex Ey]; [by rewrite Hp|].
  exists r1, rest1. split; [done|].
  assert (Hsk : skel r1 = skel r0).
  { simpl in Hs. injection Hs as Hid1 Hp1 _. unfold skel. congruence. }
  rewrite (skel_id _ _ Hsk), (skel_parentId _ _ Hsk).
  repeat split; try done; lra.
Qed.

Lemma layoutTree_SelfPlaced fuel nds r :
  TreeInv nds -> IdsTruthy nds -> layoutTree fuel nds = Some r -> SelfPlaced r.
Proof.
  intros HT Ht H j n Hj.
  destruct (layoutTree_all_placed _ _ _ HT Ht H j n Hj) as (xc & y & HE & Hx & Hy).
  exists xc, y. split; [|done].
  rewrite (buildChildrenMap_skel _ _ (layoutTree_skel _ _ _ H)).
  eapply Expect_ext; [|exact HE].
  exact (SameRoots_layoutTree fuel nds r (ids_unique _ HT) H).
Qed.

Lemma relaid_shown X fuel laid es :
  TreeInv X -> IdsTruthy X -> RootAt X -> KindsValid X ->
  layoutTree fuel X = Some laid -> computeEdges fuel laid = Some es ->
  Shown laid es.
Proof.
  intros HT Ht HR HK Hl He. split; [by eapply layoutTree_RootAt|].
  split.
  { intros n (j & Hj)%list_elem_of_lookup.
    pose proof (layoutTree_preserved _ kind (fun _ _ _ _ _ => eq_refl)
                  (fun _ _ => eq_refl) _ _ _ Hl) as Hk.
    change (kind <$> laid = kind <$> X) in Hk.
    assert (Hkj : (kind <$> laid) !! j = Some (kind n))
      by (by rewrite list_lookup_fmap, Hj).
    rewrite Hk, list_lookup_fmap in Hkj.
    destruct (X !! j) as [m|] eqn:Hm; [|done]. injection Hkj as <-.
    apply HK. by eapply list_elem_of_lookup_2. }
  split; [by eapply layoutTree_AllStyled|].
  split; [exact (layoutTree_apart fuel X laid HT Ht Hl)|].
  split; [intros p np c nc; by apply (child_row fuel X laid)|].
  split; [by eapply layoutTree_SelfPlaced|by exists fuel].
Qed.

Lemma Shown_setRelinkData nds es m sel :
  Shown nds es -> Shown (map (setRelinkData m sel) nds) es.
Proof.
  intros (HR & HK & HA & HB & HRo & HP & fuel & He). split.
  { by apply RootAt_relabel. }
  split.
  { intros n' Hn'. change (n' ∈ setRelinkData m sel <$> nds) in Hn'.
    apply list_elem_of_fmap in Hn' as (n & -> & Hn). exact (HK n Hn). }
  split; [by apply AllStyled_relabel|].
  split; [by apply BoxesApart_relabel|].
  split; [by apply Rows_relabel|].
  split; [by apply SelfPlaced_relabel|].
  exists fuel. by rewrite computeEdges_relabel.
Qed.

(** ** The invariant of the editor *)

Lemma same_id_eq nds n m :
  NoDup (map id nds) -> n ∈ nds -> m ∈ nds -> id n = id m -> n = m.
Proof.
  intros Hnd Hn Hm E.
  pose proof (findNode_unique _ _ Hnd Hn) as H1.
  pose proof (findNode_unique _ _ Hnd Hm) as H2.
  rewrite E in H1. congruence.
Qed.

Lemma RootAt_root nds n :
  NoDup (map id nds) -> RootAt nds -> n ∈ nds -> id n = "1" ->
  parentId n = None.
Proof.
  intros Hnd (r & rest & -> & Hid & Hp & _) Hn E.
  assert (n = r) as ->; [|done].
  apply (same_id_eq (r :: rest)); [done|done|apply list_elem_of_here|congruence].
Qed.

Lemma Inherits_content old new new' :
  map content new' = map content new -> Inherits old new -> Inherits old new'.
Proof.
  intros Hc H n' (j & Hj)%list_elem_of_lookup.
  change (content <$> new' = content <$> new) in Hc.
  assert (Hcj : (content <$> new') !! j = Some (content n'))
    by (by rewrite list_lookup_fmap, Hj).
  rewrite Hc, list_lookup_fmap in Hcj.
  destruct (new !! j) as [n|] eqn:Hn; [|done]. injection Hcj as Hcj.
  assert (E : relinkData n' = relinkData n).
  { unfold relinkData, content in *. congruence. }
  rewrite E. apply H. by eapply list_elem_of_lookup_2.
Qed.

Lemma Inherits_refl nds : Inherits nds nds.
Proof. intros n Hn. left. by exists n. Qed.

Lemma KindsValid_content nds nds' :
  map content nds' = map content nds -> KindsValid nds -> KindsValid nds'.
Proof.
  intros Hc H n' (j & Hj)%list_elem_of_lookup.
  change (content <$> nds' = content <$> nds) in Hc.
  assert (Hcj : (content <$> nds') !! j = Some (content n'))
    by (by rewrite list_lookup_fmap, Hj).
  rewrite Hc, list_lookup_fmap in Hcj.
  destruct (nds !! j) as [n|] eqn:Hn; [|done]. injection Hcj as Hcj.
  assert (E : kind n' = kind n) by (unfold content in *; congruence).
  rewrite E. apply H. by eapply list_elem_of_lookup_2.
Qed.

(** The three edits hand a tree to the layout whose first node is the
    root of the editor. *)
Lemma add_input s node :
  Good s -> RootAt (nodes s) -> KindsValid (nodes s) -> node ∈ nodes s ->
  let X := nodes s ++ [newNode (nextId s) (id node)] in
  TreeInv X /\ IdsTruthy X /\ RootAt X /\ KindsValid X
  /\ Inherits (nodes s) X.
Proof.
  intros [HT HN] HR HK Hn X. split.
  { apply (TreeInv_add _ _ (id node)); [done| |done|by exists node].
    intros n Hn'. by apply (Numbered_fresh _ _ _ HN). }
  split.
  { intros n [Hn'|Hn']%elem_of_app.
    - by apply (Numbered_truthy _ _ HN).
    - apply list_elem_of_singleton in Hn' as ->. apply toString_truthy. }
  split.
  { destruct HR as (r & rest & E & H). exists r, (rest ++ [newNode (nextId s) (id node)]).
    split; [|done]. unfold X. by rewrite E. }
  split.
  { intros n [Hn'|Hn']%elem_of_app; [by apply HK|].
    apply list_elem_of_singleton in Hn' as ->.
    simpl. unfold NODE_TYPES. set_solver. }
  intros n [Hn'|Hn']%elem_of_app; [left; by exists n|].
  apply list_elem_of_singleton in Hn' as ->. by right.
Qed.

Lemma delete_input s node q (ds : list string) :
  Good s -> RootAt (nodes s) -> KindsValid (nodes s) ->
  node ∈ nodes s -> parentId node = Some q ->
  (forall x, x ∈ ds <-> ancestorOf (nodes s) (id node) x) ->
  let X := List.filter (keeps (id node) ds) (nodes s) in
  TreeInv X /\ IdsTruthy X /\ RootAt X /\ KindsValid X
  /\ Inherits (nodes s) X.
Proof.
  intros [HT HN] HR HK Hn Hq Hds X. split.
  { by apply (TreeInv_delete _ _ _ node q). }
  split.
  { intros n [Hn' _]%elem_of_filter_list. by apply (Numbered_truthy _ _ HN). }
  split.
  { pose proof HR as (r & rest & E & Hid & Hp & Hx & Hy).
    exists r, (List.filter (keeps (id node) ds) rest). split; [|done].
    unfold X. rewrite E. simpl.
    assert (Hr : r ∈ nodes s) by (rewrite E; apply list_elem_of_here).
    assert (Hk : keeps (id node) ds r = true); [|by rewrite Hk].
    apply keeps_true. split.
    - intros E'. assert (r = node) as -> by
        (by apply (same_id_eq (nodes s) _ _ (ids_unique _ HT))). congruence.
    - intros Hin%Hds. apply ancestorOf_inv in Hin as (n & p & Hn' & Hid' & Hp' & _).
      assert (n = r) as -> by
        (by apply (same_id_eq (nodes s) _ _ (ids_unique _ HT))). congruence. }
  split.
  { intros n [Hn' _]%elem_of_filter_list. by apply HK. }
  intros n [Hn' _]%elem_of_filter_list. left. by exists n.
Qed.

Lemma relink_input s A b :
  Good s -> RootAt (nodes s) -> KindsValid (nodes s) ->
  b ∈ nodes s -> id b <> A -> ~ ancestorOf (nodes s) A (id b) -> A <> "1" ->
  let X := map (reparent A (id b)) (nodes s) in
  TreeInv X /\ IdsTruthy X /\ RootAt X /\ KindsValid X
  /\ Inherits (nodes s) X.
Proof.
  intros [HT HN] HR HK Hb Hne Hnot HA X.
  assert (Hel : forall n', n' ∈ X -> exists n, n ∈ nodes s /\ n' = reparent A (id b) n).
  { intros n' Hn'. change (n' ∈ reparent A (id b) <$> nodes s) in Hn'.
    apply list_elem_of_fmap in Hn' as (n & -> & Hn). by exists n. }
  split.
  { apply TreeInv_relink; try done. by exists b. }
  split.
  { intros n' (n & Hn & ->)%Hel. rewrite id_reparent.
    by apply (Numbered_truthy _ _ HN). }
  split.
  { destruct HR as (r & rest & E & Hid & Hp & Hx & Hy).
    exists r, (map (reparent A (id b)) rest). split; [|done].
    unfold X. rewrite E. simpl. f_equal. unfold reparent.
    destruct (String.eqb_spec (id r) A); [congruence|done]. }
  split.
  { intros n' (n & Hn & ->)%Hel. unfold reparent.
    destruct (String.eqb (id n) A); simpl; by apply HK. }
  intros n' (n & Hn & ->)%Hel. left. exists n. split; [done|].
  unfold reparent. by destruct (String.eqb (id n) A).
Qed.

Lemma Mirrored_sync s : Mirrored (syncRelinkData s).
Proof.
  unfold syncRelinkData. destruct (0 <? length (nodes s))%nat eqn:E.
  - intros n' Hn'. simpl in *. change (n' ∈ setRelinkData (isRelinkMode s) (selectedNodeForRelink s) <$> nodes s) in Hn'.
    apply list_elem_of_fmap in Hn' as (n & -> & Hn). by left.
  - apply Nat.ltb_ge in E. intros n Hn.
    destruct (nodes s); [by apply elem_of_nil in Hn|simpl in E; lia].
Qed.

Lemma Shown_afterRender s s' :
  Shown (nodes s') (edges s') ->
  Shown (nodes (afterRender s s')) (edges (afterRender s s')).
Proof.
  intros H. unfold afterRender. case_bool_decide; [done|].
  unfold syncRelinkData. destruct (0 <? length (nodes s'))%nat; [|done].
  simpl. by apply Shown_setRelinkData.
Qed.

Lemma SelectionOk_afterRender s s' :
  SelectionOk s' -> SelectionOk (afterRender s s').
Proof.
  intros H. unfold afterRender. case_bool_decide; [done|].
  unfold syncRelinkData. by destruct (0 <? length (nodes s'))%nat.
Qed.

Lemma Mirrored_afterRender s s' :
  Mirrored s -> Inherits (nodes s) (nodes s') -> Mirrored (afterRender s s').
Proof.
  intros HM HI. unfold afterRender. case_bool_decide as Hc; [|apply Mirrored_sync].
  destruct Hc as [Hm Hsel]. intros n Hn. rewrite Hm, Hsel.
  destruct (HI n Hn) as [(n0 & Hn0 & ->) | ->]; [by apply HM|by right].
Qed.

(** What a click leaves behind, before the render that follows it. *)
Lemma handleEvent_inv fuel s e s1 :
  Inv s -> handleEvent fuel s e = Some s1 ->
  Shown (nodes s1) (edges s1) /\ SelectionOk s1
  /\ Inherits (nodes s) (nodes s1).
Proof.
  intros (HG & HM & HS & HSh) H.
  pose proof HSh as (HR & HK & _).
  pose proof HG as [HT HN].
  assert (Hsame : Shown (nodes s) (edges s) /\ SelectionOk s
                  /\ Inherits (nodes s) (nodes s))
    by (split; [done|split; [done|apply Inherits_refl]]).
  destruct e as [i|i|i| |]; simpl in H.
  - destruct (nodes s !! i) as [node|] eqn:Hi; [|by injection H as <-].
    apply list_elem_of_lookup_2 in Hi.
    destruct (add_input s node HG HR HK Hi) as (HTX & HtX & HRX & HKX & HIX).
    unfold handleAddChild in H.
    destruct (layoutTree fuel _) as [laid|] eqn:El; [|done].
    destruct (computeEdges fuel laid) as [es|] eqn:Ee; [|done].
    injection H as <-. simpl.
    split; [by eapply relaid_shown|]. split; [done|].
    eapply Inherits_content; [|exact HIX]. by eapply layoutTree_content.
  - destruct (nodes s !! i) as [node|] eqn:Hi; [|by injection H as <-].
    apply list_elem_of_lookup_2 in Hi. unfold trashRendered in H.
    destruct (parentId node) as [q|] eqn:Hq; [|by injection H as <-].
    unfold handleDelete in H.
    destruct (getDescendants fuel (nodes s) (id node)) as [ds|] eqn:Ed; [|done].
    destruct (delete_input s node q ds HG HR HK Hi Hq
                (getDescendants_spec _ _ _ _ Ed))
      as (HTX & HtX & HRX & HKX & HIX).
    destruct (layoutTree fuel _) as [laid|] eqn:El; [|done].
    destruct (computeEdges fuel laid) as [es|] eqn:Ee; [|done].
    injection H as <-. simpl.
    split; [by eapply relaid_shown|]. split; [done|].
    eapply Inherits_content; [|exact HIX]. by eapply layoutTree_content.
  - destruct (nodes s !! i) as [node|] eqn:Hi; [|by injection H as <-].
    apply list_elem_of_lookup_2 in Hi. unfold handleNodeClick in H.
    destruct (dataIsRelinkMode node) eqn:Hm; simpl in H;
      [|by injection H as <-].
    assert (Hdata : isRelinkMode s = true
                    /\ dataSelectedNodeForRelink node = selectedNodeForRelink s).
    { destruct (HM node Hi) as [E|E]; unfold relinkData in E;
        rewrite Hm in E; by injection E. }
    destruct Hdata as [Hmode Hsel].
    destruct (truthyId (dataSelectedNodeForRelink node)) eqn:Htr.
    + destruct (canBeRelinkTarget fuel _ node) as [[|]|] eqn:Ec;
        [|by injection H as <-|done].
      destruct (dataSelectedNodeForRelink node) as [A|] eqn:EA; [|done].
      simpl in H.
      destruct (HS A (eq_sym Hsel)) as (_ & HtA & HA1).
      unfold canBeRelinkTarget in Ec. rewrite EA, Hm, HtA in Ec. simpl in Ec.
      destruct (String.eqb_spec A (id node)) as [|HneA]; [done|]. simpl in Ec.
      destruct (isNodeDescendant fuel _ (id node) A) as [d|] eqn:Ed; [|done].
      injection Ec as Ec. apply andb_true_iff in Ec as [Hd _].
      apply negb_true_iff in Hd. subst d.
      assert (Hnot : ~ ancestorOf (nodes s) A (id node)).
      { intros Hanc. assert (false = true); [|done].
        eapply (isNodeDescendant_complete (nodes s)); [..|exact Ed|by right].
        - apply (ids_unique _ HT).
        - by eapply Numbered_truthy.
        - apply (parents_exist _ HT). }
      destruct (relink_input s A node HG HR HK Hi ltac:(congruence) Hnot HA1)
        as (HTX & HtX & HRX & HKX & HIX).
      unfold handleRelink in H.
      destruct (layoutTree fuel _) as [laid|] eqn:El; [|done].
      destruct (computeEdges fuel laid) as [es|] eqn:Ee; [|done].
      injection H as <-. simpl.
      split; [by eapply relaid_shown|]. split; [by intros a|].
      eapply Inherits_content; [|exact HIX]. by eapply layoutTree_content.
    + destruct (parentId node) as [q|] eqn:Hq; [|by injection H as <-].
      injection H as <-. simpl. split; [done|]. split; [|apply Inherits_refl].
      intros a [= <-]. split; [done|]. split.
      * by apply (Numbered_truthy _ _ HN).
      * intros E. pose proof (RootAt_root _ _ (ids_unique _ HT) HR Hi E).
        congruence.
  - injection H as <-. simpl. split; [done|]. split; [by intros a|].
    apply Inherits_refl.
  - destruct (cancelRendered s); injection H as <-; [|done].
    simpl. split; [done|]. split; [by intros a|]. apply Inherits_refl.
Qed.

Lemma step_inv fuel s e s' :
  Inv s -> Good s' -> step fuel s e = Some s' -> Inv s'.
Proof.
  intros HI HG' H. unfold step in H.
  destruct (handleEvent fuel s e) as [s1|] eqn:E; [|done]. injection H as <-.
  destruct (handleEvent_inv fuel s e s1 HI E) as (HSh & HS & HIn).
  destruct HI as (_ & HM & _ & _).
  split; [done|]. split; [by apply Mirrored_afterRender|].
  split; [by apply SelectionOk_afterRender|by apply Shown_afterRender].
Qed.

Lemma run_inv es : forall s,
  Inv s -> exists s', Returns (fun fuel => run fuel s es) s' /\ Inv s'.
Proof.
  induction es as [|e es IH]; intros s HI; simpl.
  - exists s. split; [apply Returns_const|done].
  - destruct (step_good s e (proj1 HI)) as (s1 & Hs1 & HG1).
    assert (HI1 : Inv s1).
    { destruct Hs1 as [f Hf]. by apply (step_inv f s e s1 HI HG1), Hf. }
    destruct (IH s1 HI1) as (s' & Hs' & HI'). exists s'. split; [|done].
    by apply (Returns_bind _ (fun fuel s1 => run fuel s1 es) s1).
Qed.

Lemma initialState_inv : exists s, Returns initialState s /\ Inv s.
Proof.
  destruct initialState_good as (s & HR & HG). exists s. split; [done|].
  destruct HR as [f Hf]. specialize (Hf f (le_n _)). unfold initialState in Hf.
  destruct (layoutTree f [initialNode]) as [laid|] eqn:El; [|done].
  destruct (computeEdges f laid) as [es|] eqn:Ee; [|done].
  injection Hf as <-.
  assert (HT : TreeInv [initialNode]).
  { apply treeOk_sound. vm_compute. reflexivity. }
  split; [done|]. split.
  { intros n Hn. right.
    pose proof (layoutTree_content _ _ _ El) as Hc. simpl in *.
    destruct laid as [|n1 [|]]; try done.
    apply list_elem_of_singleton in Hn as ->. simpl in Hc.
    injection Hc as Hc. unfold content in Hc. unfold relinkData.
    simpl in Hc. congruence. }
  split; [by intros a|]. simpl.
  apply (relaid_shown [initialNode] f); try done.
  - intros n ->%list_elem_of_singleton. done.
  - exists initialNode, []. repeat split; reflexivity.
  - intros n ->%list_elem_of_singleton. simpl. unfold NODE_TYPES. set_solver.
Qed.

(** Every session of the editor ends in a state that satisfies the
    invariant. *)
Lemma session_inv es :
  exists s, Returns (fun fuel => session fuel es) s /\ Inv s.
Proof.
  destruct initialState_inv as (s0 & H0 & HI0).
  destruct (run_inv es s0 HI0) as (s & Hs & HI). exists s. split; [|done].
  by apply (Returns_bind _ (fun fuel s0 => run fuel s0 es) s0).
Qed.

(** ** What holds in every state of a session *)

(** X7. In every state a session of the editor reaches the relink
    protocol is in one of its three states (a node is selected only in
    relink mode), the Cancel button is rendered exactly in
    AwaitingTarget, and the selected node is never the root. *)
Theorem session_relink_protocol (es : list Event) :
  exists s,
    Returns (fun fuel => session fuel es) s
    /\ (Idle s \/ AwaitingSource s \/ AwaitingTarget s)
    /\ (cancelRendered s = true <-> AwaitingTarget s)
    /\ selectedNodeForRelink s <> Some "1".
Proof.
  destruct (session_inv es) as (s & HR & _ & _ & HS & _).
  exists s. split; [done|].
  unfold Idle, AwaitingSource, AwaitingTarget, cancelRendered.
  destruct (selectedNodeForRelink s) as [a|] eqn:Ea.
  - destruct (HS a Ea) as (Hm & Ht & Hne). simpl. rewrite Ht.
    split; [right; right; split; [done|by exists a]|].
    split; [|congruence]. split; [intros _; split; [done|by exists a]|done].
  - simpl. split; [destruct (isRelinkMode s); auto|].
    split; [|done]. split; [done|]. by intros [_ [a Ha]].
Qed.

(** X8. In every state a session reaches the first node of the array is
    the root the editor started with: node [1], without parent, still at
    (300, 50).  No click deletes, reparents or moves it. *)
Theorem session_root_fixed (es : list Event) :
  exists s r rest,
    Returns (fun fuel => session fuel es) s
    /\ nodes s = r :: rest
    /\ id r = "1" /\ parentId r = None
    /\ (fst (position r) == 300)%Q /\ (snd (position r) == 50)%Q.
Proof.
  destruct (session_inv es) as (s & HR & _ & _ & _ & HRt & _).
  destruct HRt as (r & rest & H). by exists s, r, rest.
Qed.

(** X9. In every state a session reaches every node is visible,
    displayed, not draggable and coloured by its depth. *)
Theorem session_styles (es : list Event) :
  exists s,
    Returns (fun fuel => session fuel es) s
    /\ forall n, n ∈ nodes s ->
         draggable n = false /\ visible n = true
         /\ display n = Some "block"
         /\ exists k, climbs (nodes s) k (id n) = true
              /\ background n
                 = backgrounds !! Nat.min (depthOf (nodes s) k (id n))
                                          (length backgrounds - 1).
Proof.
  destruct (session_inv es) as (s & HR & HG & _ & _ & _ & _ & HA & _).
  exists s. split; [done|]. intros n Hn.
  destruct (Good_climbs s n HG Hn) as [k Hk].
  destruct (HA n k Hn Hk) as (Hd & Hv & Hdi & Hb).
  split; [done|]. split; [done|]. split; [done|]. by exists k.
Qed.

(** X10. In every state a session reaches no two node boxes overlap and
    every child is one [VERTICAL_GAP] below its parent. *)
Theorem session_boxes_apart (es : list Event) :
  exists s,
    Returns (fun fuel => session fuel es) s
    /\ (forall a b na nb,
          nodes s !! a = Some na -> nodes s !! b = Some nb -> a <> b ->
          Apart na nb)
    /\ (forall p np c nc,
          nodes s !! p = Some np -> nodes s !! c = Some nc ->
          parentId nc = Some (id np) ->
          (snd (position nc) == snd (position np) + VERTICAL_GAP)%Q).
Proof.
  destruct (session_inv es) as (s & HR & _ & _ & _ & _ & _ & _ & HB & HRo & _).
  by exists s.
Qed.

(** X11. The editor never shows a stale layout: in every state a session
    reaches, a layout pass over the node array returns and moves no
    node. *)
Theorem session_laid_out (es : list Event) :
  exists s r,
    Returns (fun fuel => session fuel es) s
    /\ Returns (fun fuel => layoutTree fuel (nodes s)) r
    /\ Forall2 samePlace (nodes s) r.
Proof.
  destruct (session_inv es)
    as (s & HR & [HT HN] & _ & _ & _ & _ & _ & _ & _ & HP & _).
  destruct (layoutTree_total_tree _ HT) as (r & Hr & Hs).
  exists s, r. split; [done|]. split; [done|].
  destruct Hr as [f Hf]. specialize (Hf f (le_n _)).
  pose proof (Numbered_truthy _ _ HN) as Ht.
  apply Forall2_same_length_lookup_2; [by rewrite (skel_length _ _ Hs)|].
  intros j n n' Hn Hn'.
  destruct (lookup_skel _ _ _ _ Hs Hn') as (m & Hm & Hsk).
  assert (m = n) as -> by congruence.
  split; [by rewrite (skel_id _ _ Hsk)|].
  destruct (HP j n Hn) as (xc & y & HE & Hx & Hy).
  destruct (layoutTree_all_placed _ _ _ HT Ht Hf j n' Hn')
    as (xc' & y' & HE' & Hx' & Hy').
  destruct (Expect_unique _ _ _ _ _ _ (ids_unique _ HT) HE HE') as [Ex Ey].
  split; lra.
Qed.

(** ** The connectors of a session *)

Lemma length_filter_negb {A} (f : A -> bool) l :
  length (List.filter f l) + length (List.filter (fun x => negb (f x)) l)
  = length l.
Proof.
  induction l as [|x l IH]; simpl; [done|].
  destruct (f x); simpl; lia.
Qed.

(** The connectors of a tree with non-empty identifiers. *)
Lemma computeEdges_tree fuel nds es :
  TreeInv nds -> IdsTruthy nds -> computeEdges fuel nds = Some es ->
  exists found,
    es = flat_map (edgeOf found) nds
    /\ (forall x, x ∈ found <-> ancestorOf nds anchorId x)
    /\ Forall2 (connects nds) es (nonRoots nds).
Proof.
  intros HT Ht H. unfold computeEdges in H.
  destruct (findDescendants fuel nds anchorId ∅) as [found|] eqn:Hf; [|done].
  injection H as <-. exists found. split; [done|].
  assert (Hsp : forall x, x ∈ found <-> ancestorOf nds anchorId x).
  { intros x. rewrite (findDescendants_spec _ _ _ _ _ Hf x).
    split; [intros [H0|H0]; [by apply elem_of_empty in H0|done]|by right]. }
  split; [done|]. apply edges_connect; [done|].
  intros n p Hn Hp. destruct (parents_exist _ HT n p Hn Hp) as (m & Hm & <-).
  by apply Ht.
Qed.

(** X12. In every state a session reaches the connectors are the ones
    [computeEdges] derives from the current nodes, there is one connector
    less than there are nodes, and every connector is displayed. *)
Theorem session_edges (es : list Event) :
  exists s,
    Returns (fun fuel => session fuel es) s
    /\ Returns (fun fuel => computeEdges fuel (nodes s)) (edges s)
    /\ length (edges s) + 1 = length (nodes s)
    /\ Forall (fun e => edgeDisplay e = "block") (edges s).
Proof.
  destruct (session_inv es)
    as (s & HR & [HT HN] & _ & _ & _ & _ & HA & _ & _ & _ & f & He).
  exists s. split; [done|]. split.
  { apply (Returns_intro _ f); [|done]. intros. by eapply computeEdges_mono. }
  pose proof (Numbered_truthy _ _ HN) as Ht.
  destruct (computeEdges_tree f _ _ HT Ht He) as (found & E & _ & HF).
  split.
  - rewrite (Forall2_length _ _ _ HF). unfold nonRoots.
    destruct (one_root _ HT) as [r Hr].
    pose proof (length_filter_negb
                  (fun n => bool_decide (is_Some (parentId n))) (nodes s)) as HL.
    cbv beta in HL. rewrite Hr in HL. simpl in HL. lia.
  - rewrite E. apply Forall_forall. intros e He'.
    apply list_elem_of_In, in_flat_map in He' as (n & Hn%list_elem_of_In & He').
    destruct (reaches_root _ HT n Hn) as [k Hk].
    destruct (HA n k Hn Hk) as (_ & Hv & _).
    unfold edgeOf in He'. destruct (parentId n) as [p|]; [|done].
    destruct (truthy p); [|done]. destruct He' as [<-|[]]. simpl.
    by rewrite Hv.
Qed.

Lemma uint_dash_split d1 : forall d2 a b,
  (NilEmpty.string_of_uint d1 ++ "-" ++ a
   = NilEmpty.string_of_uint d2 ++ "-" ++ b)%string ->
  d1 = d2 /\ a = b.
Proof.
  induction d1 as [|d1 IH|d1 IH|d1 IH|d1 IH|d1 IH|d1 IH|d1 IH|d1 IH|d1 IH|d1 IH];
    intros [|d2|d2|d2|d2|d2|d2|d2|d2|d2|d2] a b; simpl; intros H;
    try discriminate H;
    try (injection H as H; by split);
    injection H as H; destruct (IH _ _ _ H) as [-> ->]; by split.
Qed.

Lemma NoDup_map_via {A B C} (f : A -> B) (g : A -> C) l :
  (forall x y, x ∈ l -> y ∈ l -> f x = f y -> g x = g y) ->
  NoDup (map g l) -> NoDup (map f l).
Proof.
  induction l as [|x l IH]; intros Hfg Hnd; simpl in *; [constructor|].
  apply NoDup_cons in Hnd as [Hx Hnd]. apply NoDup_cons. split.
  - intros Hin. apply Hx. change (f x ∈ f <$> l) in Hin.
    apply list_elem_of_fmap in Hin as (y & E & Hy).
    change (g x ∈ g <$> l). apply list_elem_of_fmap. exists y.
    split; [|done]. apply Hfg; [apply list_elem_of_here| |done].
    by apply list_elem_of_further.
  - apply IH; [|done]. intros y z Hy Hz.
    apply Hfg; by apply list_elem_of_further.
Qed.

(** X13. In every state a session reaches the connectors have pairwise
    different ids and pairwise different targets. *)
Theorem session_edge_ids_unique (es : list Event) :
  exists s,
    Returns (fun fuel => session fuel es) s
    /\ NoDup (map edgeId (edges s))
    /\ NoDup (map target (edges s)).
Proof.
  destruct (session_inv es)
    as (s & HR & [HT HN] & _ & _ & _ & _ & _ & _ & _ & _ & f & He).
  exists s. split; [done|].
  pose proof (Numbered_truthy _ _ HN) as Ht.
  destruct (computeEdges_tree f _ _ HT Ht He) as (found & _ & _ & HF).
  assert (Htgt : map target (edges s) = map id (nonRoots (nodes s))).
  { clear -HF. induction HF as [|e n l l' (_ & H & _) _ IH]; simpl; [done|].
    by rewrite H, IH. }
  assert (Hnd : NoDup (map target (edges s))).
  { rewrite Htgt. apply NoDup_map_filter, (ids_unique _ HT). }
  split; [|done]. apply (NoDup_map_via edgeId target); [|done].
  assert (Hsrc : forall e, e ∈ edges s ->
            edgeId e = ("e-" ++ source e ++ "-" ++ target e)%string
            /\ exists k, source e = toString k).
  { intros e (j & Hj)%list_elem_of_lookup.
    destruct (Forall2_lookup_l _ _ _ _ _ HF Hj) as (n & Hn & Hp & _ & Hid & _).
    split; [done|].
    assert (Hin : n ∈ nodes s).
    { apply list_elem_of_lookup_2, elem_of_filter_list in Hn as [Hn _]. done. }
    destruct (parents_exist _ HT n _ Hin Hp) as (m & Hm & Em).
    destruct (HN m Hm) as (k & Hk & _). exists k. congruence. }
  intros e1 e2 H1 H2 E.
  destruct (Hsrc e1 H1) as (E1 & k1 & K1).
  destruct (Hsrc e2 H2) as (E2 & k2 & K2).
  rewrite E1, E2, K1, K2 in E. injection E as E.
  unfold toString in E. by apply uint_dash_split in E as [_ E].
Qed.

(** X14. As long as the id counter has not passed 10, no connector of a
    session state is animated: the highlight needs node [10]. *)
Theorem session_no_highlight_before_ten (es : list Event) :
  exists s,
    Returns (fun fuel => session fuel es) s
    /\ (nextId s <= 10 -> Forall (fun e => animated e = false) (edges s)).
Proof.
  destruct (session_inv es)
    as (s & HR & [HT HN] & _ & _ & _ & _ & _ & _ & _ & _ & f & He).
  exists s. split; [done|]. intros Hle.
  pose proof (Numbered_truthy _ _ HN) as Ht.
  destruct (computeEdges_tree f _ _ HT Ht He) as (found & _ & _ & HF).
  assert (Hno : forall n, n ∈ nodes s -> id n <> anchorId).
  { intros n Hn E. destruct (HN n Hn) as (k & Hk & Hlt).
    rewrite Hk in E. change anchorId with (toString 10) in E.
    apply toString_inj in E. lia. }
  apply Forall_forall. intros e (j & Hj)%list_elem_of_lookup.
  destruct (Forall2_lookup_l _ _ _ _ _ HF Hj) as (n & Hn & _ & _ & _ & Han).
  assert (Hin : n ∈ nodes s).
  { apply list_elem_of_lookup_2, elem_of_filter_list in Hn as [Hn _]. done. }
  destruct (animated e) eqn:Ea; [|done]. exfalso.
  destruct (proj1 Han eq_refl) as [E|Hanc]; [by apply (Hno n Hin)|].
  apply ancestorOf_down in Hanc as (c & Hc & Hp & _).
  destruct (parents_exist _ HT c _ Hc Hp) as (m & Hm & Em).
  by apply (Hno m Hm).
Qed.

(** ** Adding a child *)

Lemma childIndices_app nds : forall i l k,
  childIndices i (nds ++ l) k
  = childIndices i nds k ++ childIndices (i + length nds) l k.
Proof.
  induction nds as [|n nds IH]; intros i l k; simpl.
  - by rewrite Nat.add_0_r.
  - rewrite IH, <- app_assoc. do 3 f_equal. lia.
Qed.

Lemma afterRender_same s s1 :
  isRelinkMode s1 = isRelinkMode s ->
  selectedNodeForRelink s1 = selectedNodeForRelink s ->
  afterRender s s1 = s1.
Proof. intros Hm Hs. unfold afterRender. by rewrite bool_decide_true. Qed.

(** A click on the add control of a node of the tree. *)
Lemma add_step s i node :
  Good s -> nodes s !! i = Some node ->
  exists laid es f,
    Returns (fun fuel => step fuel s (AddClick i))
            (mkState laid es (S (nextId s)) (isRelinkMode s)
                     (selectedNodeForRelink s))
    /\ layoutTree f (nodes s ++ [newNode (nextId s) (id node)]) = Some laid
    /\ computeEdges f laid = Some es
    /\ TreeInv (nodes s ++ [newNode (nextId s) (id node)]).
Proof.
  intros [HT HN] Hi.
  assert (HT' : TreeInv (nodes s ++ [newNode (nextId s) (id node)])).
  { apply (TreeInv_add _ _ (id node)); [done| |done|].
    - intros n Hn. by apply (Numbered_fresh _ _ _ HN).
    - exists node. split; [by eapply list_elem_of_lookup_2|done]. }
  destruct (relayout _ (fun l es => mkState l es (S (nextId s)) (isRelinkMode s)
                                      (selectedNodeForRelink s)) HT')
    as (laid & es & HR & _).
  pose proof HR as [f Hf]. specialize (Hf f (le_n _)).
  destruct (layoutTree f _) as [laid'|] eqn:El; [|done].
  destruct (computeEdges f laid') as [es'|] eqn:Ee; [|done].
  injection Hf as -> ->.
  exists laid, es, f. split; [|done].
  unfold step. simpl. rewrite Hi.
  apply (Returns_bind _ (fun _ s1 => Some (afterRender s s1))
           (mkState laid es (S (nextId s)) (isRelinkMode s)
                    (selectedNodeForRelink s))); [exact HR|].
  rewrite afterRender_same by done. apply Returns_const.
Qed.

(** X15. A click on the add control of a node of a tree returns; the id
    counter advances by one, its old value is the identifier of the new
    node and of no other node, the new node is appended and becomes the
    last child of the clicked node, the other nodes keep their content,
    the array stays a tree and the relink state is untouched. *)
Theorem add_child_appends s i node :
  Good s -> nodes s !! i = Some node ->
  exists s',
    Returns (fun fuel => step fuel s (AddClick i)) s'
    /\ nextId s' = S (nextId s)
    /\ (forall n, n ∈ nodes s -> id n <> toString (nextId s))
    /\ map content (nodes s')
       = map content (nodes s ++ [newNode (nextId s) (id node)])
    /\ childIndices 0 (nodes s') (id node)
       = childIndices 0 (nodes s) (id node) ++ [length (nodes s)]
    /\ TreeInv (nodes s')
    /\ isRelinkMode s' = isRelinkMode s
    /\ selectedNodeForRelink s' = selectedNodeForRelink s.
Proof.
  intros HG Hi.
  destruct (add_step s i node HG Hi) as (laid & es & f & HR & Hl & He & HT').
  eexists. split; [exact HR|]. simpl. split; [done|].
  pose proof (layoutTree_skel _ _ _ Hl) as Hs.
  split; [intros n Hn; by apply (Numbered_fresh _ _ _ (proj2 HG))|].
  split; [by eapply layoutTree_content|].
  split.
  { rewrite (childIndices_skel _ _ Hs), childIndices_app. simpl.
    destruct (decide _) as [_|Hne]; [|done]. by rewrite app_nil_r. }
  split; [|done]. by apply (TreeInv_skel _ _ (eq_sym Hs)).
Qed.

(** X16. A node added through the interface carries [isRelinkMode =
    false] in its data, whatever the relink state of the editor: every
    node holds the [handleAddChild] of the first render.  Until the
    relink state changes, a click on the new node does nothing, also in
    relink mode. *)
Theorem added_node_ignores_clicks s i node :
  Good s -> nodes s !! i = Some node ->
  exists s' new,
    Returns (fun fuel => step fuel s (AddClick i)) s'
    /\ isRelinkMode s' = isRelinkMode s
    /\ selectedNodeForRelink s' = selectedNodeForRelink s
    /\ nodes s' !! length (nodes s) = Some new
    /\ id new = toString (nextId s)
    /\ dataIsRelinkMode new = false
    /\ forall fuel, step fuel s' (NodeClick (length (nodes s))) = Some s'.
Proof.
  intros HG Hi.
  destruct (add_step s i node HG Hi) as (laid & es & f & HR & Hl & He & HT').
  pose proof (layoutTree_content _ _ _ Hl) as Hc.
  change (content <$> laid
          = content <$> nodes s ++ [newNode (nextId s) (id node)]) in Hc.
  assert (Hlast : (content <$> laid) !! length (nodes s)
                  = Some (content (newNode (nextId s) (id node)))).
  { rewrite Hc, list_lookup_fmap, lookup_app_r, Nat.sub_diag by lia. done. }
  rewrite list_lookup_fmap in Hlast.
  destruct (laid !! length (nodes s)) as [new|] eqn:Hnew; [|done].
  injection Hlast as Hlast.
  assert (Hd : dataIsRelinkMode new = false)
    by (unfold content in Hlast; simpl in Hlast; congruence).
  assert (Hid : id new = toString (nextId s))
    by (unfold content in Hlast; simpl in Hlast; congruence).
  eexists. exists new. split; [exact HR|]. simpl.
  split; [done|]. split; [done|]. split; [done|]. split; [done|].
  split; [done|]. intros fuel. unfold step. simpl. rewrite Hnew.
  unfold handleNodeClick. rewrite Hd. simpl.
  by rewrite afterRender_same.
Qed.

(** ** Relinking *)

Lemma afterRender_changed s s1 :
  isRelinkMode s1 <> isRelinkMode s ->
  afterRender s s1 = syncRelinkData s1.
Proof.
  intros Hm. unfold afterRender. rewrite bool_decide_false; [done|].
  by intros [? _].
Qed.

(** X17. With [A] selected in relink mode, a click on a node [B] that is
    not [A], not below [A] and not the current parent of [A] relinks:
    the click returns, [A] gets the parent [B] and no other parent
    changes, no node is added or removed, the array is still a tree, the
    editor is idle and every node carries the idle relink state. *)
Theorem relink_accepted s i nodeB A :
  Good s -> isRelinkMode s = true ->
  nodes s !! i = Some nodeB ->
  dataIsRelinkMode nodeB = true ->
  dataSelectedNodeForRelink nodeB = Some A -> truthy A = true ->
  id nodeB <> A ->
  ~ ancestorOf (nodes s) A (id nodeB) ->
  (forall a, a ∈ nodes s -> id a = A -> parentId a <> Some (id nodeB)) ->
  exists s',
    Returns (fun fuel => step fuel s (NodeClick i)) s'
    /\ Idle s'
    /\ TreeInv (nodes s')
    /\ map id (nodes s') = map id (nodes s)
    /\ map parentId (nodes s')
       = map (fun n => if String.eqb (id n) A then Some (id nodeB)
                       else parentId n) (nodes s)
    /\ (forall n, n ∈ nodes s' ->
          dataIsRelinkMode n = false /\ dataSelectedNodeForRelink n = None)
    /\ nextId s' = nextId s.
Proof.
  intros HG Hmode Hi Hm Hsel HtA Hne Hnot Hpar. pose proof HG as [HT HN].
  assert (Hin : nodeB ∈ nodes s) by (by eapply list_elem_of_lookup_2).
  destruct (Good_climbs s nodeB HG Hin) as [k Hk].
  destruct (isNodeDescendant_total (nodes s) A (ids_unique _ HT) k _ Hk)
    as [d Hd].
  assert (d = false) as ->.
  { destruct d; [|done].
    apply isNodeDescendant_sound in Hd as [E|Hanc]; done. }
  assert (Hp : nodeParents (nodes s) !! A <> Some (id nodeB)).
  { intros (_ & a & Ha & Hid & Hpa)%nodeParents_Some. by apply (Hpar a). }
  assert (HT' : TreeInv (map (reparent A (id nodeB)) (nodes s))).
  { apply TreeInv_relink; try done. by exists nodeB. }
  destruct (relayout _ (fun l es => mkState l es (nextId s) false None) HT')
    as (laid & es & HR & Hs & Hc).
  exists (syncRelinkData (mkState laid es (nextId s) false None)).
  split.
  { destruct HR as [f0 Hf0]. exists (Nat.max (S k) f0). intros fuel Hle.
    unfold step. simpl. rewrite Hi. unfold handleNodeClick.
    rewrite Hm, Hsel. simpl. rewrite HtA. unfold canBeRelinkTarget.
    rewrite Hsel, Hm, HtA. simpl.
    destruct (String.eqb_spec A (id nodeB)) as [|_]; [congruence|]. simpl.
    rewrite (isNodeDescendant_mono _ (S k) fuel _ _ _ ltac:(lia) Hd).
    rewrite bool_decide_false by done. simpl.
    unfold handleRelink. pose proof (Hf0 fuel ltac:(lia)) as E.
    destruct (layoutTree fuel _) as [l|]; [|done].
    destruct (computeEdges fuel l) as [e|]; [|done].
    injection E as -> ->.
    by rewrite afterRender_changed by (simpl; congruence). }
  assert (Hnodes : nodes (syncRelinkData (mkState laid es (nextId s) false None))
                   = map (setRelinkData false None) laid).
  { unfold syncRelinkData. simpl. destruct laid; [done|]. done. }
  split; [by unfold syncRelinkData; simpl; destruct (0 <? length laid)%nat|].
  rewrite Hnodes.
  assert (Hs2 : map skel (map (setRelinkData false None) laid)
                = map skel (map (reparent A (id nodeB)) (nodes s))).
  { by rewrite skel_setRelinkData. }
  split; [by apply (TreeInv_skel _ _ (eq_sym Hs2))|].
  split.
  { rewrite (map_id_skel _ _ Hs2), List.map_map.
    apply map_ext. intros n. apply id_reparent. }
  split.
  { transitivity (map snd (map skel (map (setRelinkData false None) laid))).
    { rewrite !List.map_map. done. }
    rewrite Hs2, !List.map_map. apply map_ext. intros n. simpl.
    apply parentId_reparent. }
  split; [|by unfold syncRelinkData; simpl; destruct (0 <? length laid)%nat].
  intros n' Hn'. change (n' ∈ setRelinkData false None <$> laid) in Hn'.
  by apply list_elem_of_fmap in Hn' as (n & -> & Hn).
Qed.

(** X18. A click on the current parent of the selected node is ignored:
    the state is unchanged. *)
Theorem relink_to_current_parent_ignored s i nodeB a :
  Good s -> nodes s !! i = Some nodeB -> a ∈ nodes s ->
  dataSelectedNodeForRelink nodeB = Some (id a) ->
  parentId a = Some (id nodeB) ->
  Returns (fun fuel => step fuel s (NodeClick i)) s.
Proof.
  intros HG Hi Ha Hsel Hpar. pose proof HG as [HT HN].
  assert (Hin : nodeB ∈ nodes s) by (by eapply list_elem_of_lookup_2).
  pose proof (Numbered_truthy _ _ HN) as Ht.
  destruct (Good_climbs s nodeB HG Hin) as [k Hk].
  destruct (isNodeDescendant_total (nodes s) (id a) (ids_unique _ HT) k _ Hk)
    as [d Hd].
  exists (S k). intros fuel Hle.
  unfold step. simpl. rewrite Hi. unfold handleNodeClick.
  destruct (dataIsRelinkMode nodeB) eqn:Hm; simpl;
    [|by rewrite afterRender_same].
  rewrite Hsel. simpl. rewrite (Ht a Ha). unfold canBeRelinkTarget.
  rewrite Hsel, Hm, (Ht a Ha). simpl.
  destruct (String.eqb (id a) (id nodeB)); simpl;
    [by rewrite afterRender_same|].
  rewrite (isNodeDescendant_mono _ (S k) fuel _ _ _ Hle Hd).
  rewrite (nodeParents_lookup _ a (ids_unique _ HT) Ha), Hpar. simpl.
  rewrite (Ht nodeB Hin), bool_decide_true by done.
  rewrite andb_false_r. by rewrite afterRender_same.
Qed.

(** ** Adding a child and deleting it again *)

Lemma content_skel nds nds' :
  map content nds = map content nds' -> map skel nds = map skel nds'.
Proof.
  intros H.
  assert (E : map (fun c : string * option string * string * string
                             * option Q * bool * option string =>
                     (c.1.1.1.1.1.1, c.1.1.1.1.1.2)) (map content nds)
              = map (fun c : string * option string * string * string
                             * option Q * bool * option string =>
                       (c.1.1.1.1.1.1, c.1.1.1.1.1.2)) (map content nds'))
    by (by rewrite H).
  rewrite !List.map_map in E. exact E.
Qed.

(** The connectors depend on the identifiers, the parents and the
    visibility flags only. *)
Lemma computeEdges_bare fuel nds :
  computeEdges fuel (map bare nds) = computeEdges fuel nds.
Proof. by apply computeEdges_relabel. Qed.

(** A click on the delete control of a node of the tree that has a
    parent. *)
Lemma delete_step s i node q :
  Good s -> nodes s !! i = Some node -> parentId node = Some q ->
  exists ds laid es f,
    Returns (fun fuel => step fuel s (TrashClick i))
            (mkState laid es (nextId s) (isRelinkMode s)
                     (selectedNodeForRelink s))
    /\ (forall x, x ∈ ds <-> ancestorOf (nodes s) (id node) x)
    /\ layoutTree f (List.filter (keeps (id node) ds) (nodes s)) = Some laid
    /\ computeEdges f laid = Some es
    /\ TreeInv (List.filter (keeps (id node) ds) (nodes s)).
Proof.
  intros [HT HN] Hi Hq. destruct (TreeInv_Ranked _ HT) as [rk Hrk].
  assert (Hin : node ∈ nodes s) by (by eapply list_elem_of_lookup_2).
  destruct (getDescendants_total (fun _ => True) rk (nodes s) Hrk
              (S (rk (id node))) (id node) I ltac:(lia)) as [ds Hds].
  pose proof (getDescendants_spec _ _ _ _ Hds) as Hsp.
  assert (HT' : TreeInv (List.filter (keeps (id node) ds) (nodes s))).
  { by apply (TreeInv_delete _ _ _ node q). }
  destruct (relayout _ (fun l es => mkState l es (nextId s) (isRelinkMode s)
                                      (selectedNodeForRelink s)) HT')
    as (laid & es & [f0 Hf0] & _).
  pose proof (Hf0 f0 (le_n _)) as Hf.
  destruct (layoutTree f0 _) as [laid'|] eqn:El; [|done].
  destruct (computeEdges f0 laid') as [es'|] eqn:Ee; [|done].
  injection Hf as -> ->.
  exists ds, laid, es, f0. split; [|done].
  exists (Nat.max (S (rk (id node))) f0). intros fuel Hle.
  unfold step. simpl. rewrite Hi. unfold trashRendered. rewrite Hq.
  unfold handleDelete.
  rewrite (getDescendants_mono (nodes s) (S (rk (id node))) fuel _ _
             ltac:(lia) Hds).
  pose proof (Hf0 fuel ltac:(lia)) as E.
  destruct (layoutTree fuel _) as [l|]; [|done].
  destruct (computeEdges fuel l) as [e|]; [|done].
  injection E as -> ->. by rewrite afterRender_same.
Qed.

(** X19. Adding a child and deleting it again restores the drawing: from
    every state a session reaches, the two clicks return a state with
    the same nodes (every field, places compared as numbers), the same
    connectors and the same relink state; only the id counter has
    advanced. *)
Theorem add_then_delete (es : list Event) (i : nat) :
  exists s,
    Returns (fun fuel => session fuel es) s
    /\ (i < length (nodes s) ->
        exists s2,
          Returns (fun fuel =>
                     run fuel s [AddClick i; TrashClick (length (nodes s))]) s2
          /\ nextId s2 = S (nextId s)
          /\ Forall2 sameNode (nodes s) (nodes s2)
          /\ edges s2 = edges s
          /\ isRelinkMode s2 = isRelinkMode s
          /\ selectedNodeForRelink s2 = selectedNodeForRelink s).
Proof.
  destruct (session_inv es) as (s & HR & HI). exists s. split; [done|].
  intros Hlt. pose proof HI as (HG & _ & _ & HSh). pose proof HG as [HT HN].
  destruct HSh as (_ & _ & HA & _ & _ & HP & fe & Hfe).
  destruct (lookup_lt_is_Some_2 (nodes s) i Hlt) as [node Hi].
  assert (Hnode : node ∈ nodes s) by (by eapply list_elem_of_lookup_2).
  pose proof (Numbered_truthy _ _ HN) as Ht.
  (* the child is added *)
  destruct (add_step s i node HG Hi)
    as (laid1 & es1 & f1 & HR1 & Hl1 & He1 & HT1).
  assert (HG1 : Good (mkState laid1 es1 (S (nextId s)) (isRelinkMode s)
                              (selectedNodeForRelink s))).
  { destruct (step_good s (AddClick i) HG) as (s1' & Hs1' & HG1').
    by rewrite (Returns_unique _ _ _ HR1 Hs1'). }
  pose proof (layoutTree_content _ _ _ Hl1) as Hc1.
  pose proof (SameRoots_layoutTree _ _ _ (ids_unique _ HT1) Hl1) as [_ Hroots1].
  destruct (@exists_last _ laid1) as (Y & z & ->).
  { intros ->. rewrite map_app in Hc1. simpl in Hc1.
    by destruct (map content (nodes s)). }
  rewrite !map_app in Hc1. simpl in Hc1.
  apply app_inj_tail in Hc1 as [HcY Hcz].
  pose proof (content_skel _ _ HcY) as HsY.
  assert (HlenY : length Y = length (nodes s)) by (by apply skel_length).
  assert (Hidz : id z = toString (nextId s))
    by (unfold content in Hcz; simpl in Hcz; congruence).
  assert (Hpz : parentId z = Some (id node))
    by (unfold content in Hcz; simpl in Hcz; congruence).
  assert (Hz : (Y ++ [z]) !! length (nodes s) = Some z).
  { by rewrite lookup_app_r, <- HlenY, Nat.sub_diag by lia. }
  (* and deleted again *)
  destruct (delete_step _ (length (nodes s)) z (id node) HG1 Hz Hpz)
    as (ds & laid2 & es2 & f2 & HR2 & Hds & Hl2 & He2 & HT2).
  simpl in *.
  assert (Hfresh : forall n, n ∈ nodes s -> id n <> id z).
  { intros n Hn. rewrite Hidz. by apply (Numbered_fresh _ _ _ HN). }
  assert (Hnone : forall x, x ∉ ds).
  { intros x Hx%Hds. apply ancestorOf_down in Hx as (n & Hn & Hp & _).
    apply elem_of_app in Hn as [Hn|Hn].
    - apply list_elem_of_lookup in Hn as [j Hj].
      destruct (lookup_skel _ _ _ _ HsY Hj) as (n0 & Hj0 & Hsk).
      assert (Hn0 : n0 ∈ nodes s) by (by eapply list_elem_of_lookup_2).
      destruct (parents_exist _ HT n0 (id z) Hn0) as (m & Hm & Em).
      { rewrite (skel_parentId _ _ Hsk). done. }
      by apply (Hfresh m).
    - apply list_elem_of_singleton in Hn as ->.
      apply (Hfresh node Hnode). congruence. }
  assert (Hfilter : List.filter (keeps (id z) ds) (Y ++ [z]) = Y).
  { rewrite List.filter_app. simpl.
    assert (Hkz : keeps (id z) ds z = false).
    { unfold keeps. by rewrite String.eqb_refl. }
    rewrite Hkz, app_nil_r.
    apply forallb_filter_id, forallb_forall. intros y Hy%list_elem_of_In.
    apply keeps_true. split; [|apply Hnone].
    apply list_elem_of_lookup in Hy as [j Hj].
    destruct (lookup_skel _ _ _ _ HsY Hj) as (n0 & Hj0 & Hsk).
    rewrite <- (skel_id _ _ Hsk). apply Hfresh.
    by eapply list_elem_of_lookup_2. }
  rewrite Hfilter in Hl2, HT2.
  pose proof (IdsTruthy_skel _ _ (eq_sym HsY) Ht) as HtY.
  pose proof (layoutTree_skel _ _ _ Hl2) as Hs2.
  pose proof (layoutTree_content _ _ _ Hl2) as Hc2.
  exists (mkState laid2 es2 (S (nextId s)) (isRelinkMode s)
                  (selectedNodeForRelink s)).
  split.
  { destruct HR1 as [a Ha]. destruct HR2 as [b Hb].
    exists (Nat.max a b). intros fuel Hle. simpl.
    rewrite (Ha fuel ltac:(lia)). by rewrite (Hb fuel ltac:(lia)). }
  simpl. split; [done|].
  assert (Hsame : Forall2 sameNode (nodes s) laid2).
  { apply Forall2_same_length_lookup_2.
    { by rewrite (skel_length _ _ Hs2), HlenY. }
    intros j n n2 Hn Hn2.
    assert (Hcn : content n = content n2).
    { change (content <$> laid2 = content <$> Y) in Hc2.
      change (content <$> Y = content <$> nodes s) in HcY.
      assert (E : (content <$> laid2) !! j = Some (content n2))
        by (by rewrite list_lookup_fmap, Hn2).
      rewrite Hc2, HcY, list_lookup_fmap, Hn in E. simpl in E. congruence. }
    assert (Hid : id n = id n2) by (unfold content in Hcn; congruence).
    split; [done|].
    (* the place *)
    destruct (HP j n Hn) as (xc & y & HE & Hx & Hy).
    destruct (layoutTree_all_placed _ _ _ HT2 HtY Hl2 j n2 Hn2)
      as (xc' & y' & HE' & Hx' & Hy').
    rewrite (buildChildrenMap_skel _ _ HsY) in HE'.
    assert (HSR : SameRoots Y (nodes s)).
    { split; [done|]. intros r a b Ha Hb Hroot.
      assert (Hb' : (nodes s ++ [newNode (nextId s) (id node)]) !! r = Some b).
      { rewrite lookup_app_l; [done|]. by eapply lookup_lt_Some. }
      assert (Ha' : (Y ++ [z]) !! r = Some a).
      { rewrite lookup_app_l; [done|]. by eapply lookup_lt_Some. }
      destruct (lookup_skel _ _ _ _ HsY Ha) as (b' & Hb'' & Hsk).
      assert (b' = b) as -> by congruence.
      destruct (Hroots1 r b a Hb' Ha') as [Ex Ey].
      { by rewrite (skel_parentId _ _ Hsk). }
      split; lra. }
    apply (Expect_ext _ _ _ _ _ _ HSR) in HE'.
    destruct (Expect_unique _ _ _ _ _ _ (ids_unique _ HT) HE HE') as [Ex Ey].
    split; [lra|]. split; [lra|].
    (* the style *)
    destruct (reaches_root _ HT n (list_elem_of_lookup_2 _ _ _ Hn)) as [k Hk].
    destruct (HA n k (list_elem_of_lookup_2 _ _ _ Hn) Hk)
      as (Hd & Hv & Hdi & Hb).
    assert (Hs2' : map skel laid2 = map skel (nodes s)) by congruence.
    destruct (layoutTree_AllStyled _ _ _ HT2 HtY Hl2 n2 k
                (list_elem_of_lookup_2 _ _ _ Hn2))
      as (Hd2 & Hv2 & Hdi2 & Hb2).
    { by rewrite (climbs_skel _ _ Hs2'), <- Hid. }
    rewrite (depthOf_skel _ _ Hs2'), <- Hid in Hb2.
    repeat split; congruence. }
  split; [done|]. split; [|done].
  (* the connectors *)
  assert (Hbare : map bare laid2 = map bare (nodes s)).
  { clear -Hsame. induction Hsame as [|a b l l' (Hc & _ & _ & _ & Hv & _) _ IH];
      simpl; [done|]. rewrite IH. f_equal. unfold bare, content in *.
    injection Hc as -> -> _ _ _ _ _. by rewrite Hv. }
  pose proof (computeEdges_mono fe (Nat.max fe f2) _ _ ltac:(lia) Hfe) as E1.
  pose proof (computeEdges_mono f2 (Nat.max fe f2) _ _ ltac:(lia) He2) as E2.
  rewrite <- computeEdges_bare in E1, E2. rewrite Hbare in E2. congruence.
Qed.

(** ** The editor with its dialog *)

Lemma orElse_same s : orElse s "" = s.
Proof.
  unfold orElse, truthy. destruct (String.eqb_spec s ""); simpl; congruence.
Qed.

Lemma skel_saveEdit i l t nds : map skel (map (saveEdit i l t) nds) = map skel nds.
Proof.
  rewrite List.map_map. apply map_ext. intros n. unfold saveEdit.
  by destruct (String.eqb (id n) i).
Qed.

Lemma Shown_saveEdit nds es i l t :
  t ∈ NODE_TYPES -> Shown nds es -> Shown (map (saveEdit i l t) nds) es.
Proof.
  intros Ht (HR & HK & HA & HB & HRo & HP & fuel & He).
  assert (G : forall (X : Type) (f : Node -> X),
            (forall a b n, f (setLabelType a b n) = f n) ->
            forall n, f (saveEdit i l t n) = f n).
  { intros X f Hf n. unfold saveEdit. by destruct (String.eqb (id n) i). }
  split; [apply RootAt_relabel; (by apply G) || done|].
  split.
  { intros n' Hn'. change (n' ∈ saveEdit i l t <$> nds) in Hn'.
    apply list_elem_of_fmap in Hn' as (n & -> & Hn). unfold saveEdit.
    destruct (String.eqb (id n) i); [done|by apply HK]. }
  split; [apply AllStyled_relabel; (by apply G) || done|].
  split; [apply BoxesApart_relabel; (by apply G) || done|].
  split; [apply Rows_relabel; (by apply G) || done|].
  split; [apply SelfPlaced_relabel; (by apply G) || done|].
  exists fuel. rewrite computeEdges_relabel; (by apply G) || done.
Qed.

Lemma Inv_saveEdit s i l t :
  t ∈ NODE_TYPES -> Inv s ->
  Inv (mkState (map (saveEdit i l t) (nodes s)) (edges s) (nextId s)
               (isRelinkMode s) (selectedNodeForRelink s)).
Proof.
  intros Ht ([HT HN] & HM & HS & HSh). split.
  { split; simpl.
    - apply (TreeInv_skel (nodes s)); [|done]. symmetry. apply skel_saveEdit.
    - apply (Numbered_skel _ (nodes s)); [|done]. symmetry. apply skel_saveEdit. }
  split.
  { intros n' Hn'. simpl in *. change (n' ∈ saveEdit i l t <$> nodes s) in Hn'.
    apply list_elem_of_fmap in Hn' as (n & -> & Hn).
    assert (E : relinkData (saveEdit i l t n) = relinkData n).
    { unfold saveEdit. by destruct (String.eqb (id n) i). }
    rewrite E. by apply HM. }
  split; [done|]. simpl. by apply Shown_saveEdit.
Qed.

Lemma uiStep_inv ed ev :
  UiInv ed ->
  exists ed', Returns (fun fuel => uiStep fuel ed ev) ed' /\ UiInv ed'.
Proof.
  intros HU. pose proof HU as [HI Hty]. destruct ev as [e|i| |v|k|]; simpl.
  - destruct (step_good (app ed) e (proj1 HI)) as (s' & Hs' & HG').
    exists (mkEditor s' (modalOpen ed) (selectedNodeForEdit ed) (name ed)
                     (type ed)).
    split.
    + destruct Hs' as [f Hf]. exists f. intros fuel Hle. by rewrite (Hf fuel Hle).
    + split; [|done]. simpl. destruct Hs' as [f Hf].
      apply (step_inv f (app ed) e s' HI HG'). by apply Hf.
  - destruct (nodes (app ed) !! i) as [node|] eqn:Hi;
      [|exists ed; split; [apply Returns_const|done]].
    eexists. split; [apply Returns_const|]. split; [done|]. intros _.
    unfold fillForm. simpl. rewrite orElse_same.
    destruct HI as (_ & _ & _ & _ & HK & _). apply HK.
    by eapply list_elem_of_lookup_2.
  - destruct (modalRendered ed) eqn:Hm;
      (eexists; split; [apply Returns_const|]); [|done].
    split; [done|]. done.
  - destruct (modalRendered ed) eqn:Hm;
      (eexists; split; [apply Returns_const|]); [|done].
    split; [done|]. intros _. by apply Hty.
  - destruct (modalRendered ed) eqn:Hm;
      [|exists ed; split; [apply Returns_const|done]].
    destruct (NODE_TYPES !! k) as [t|] eqn:Hk;
      (eexists; split; [apply Returns_const|]); [|done].
    split; [done|]. intros _. simpl. by eapply list_elem_of_lookup_2.
  - destruct (modalRendered ed) eqn:Hm;
      [|exists ed; split; [apply Returns_const|done]].
    eexists. split; [apply Returns_const|]. unfold handleSubmit.
    destruct (selectedNodeForEdit ed) as [node|]; [|done].
    split; [|done]. simpl. apply Inv_saveEdit; [by apply Hty|done].
Qed.

Lemma uiRun_inv evs : forall ed,
  UiInv ed -> exists ed', Returns (fun fuel => uiRun fuel ed evs) ed' /\ UiInv ed'.
Proof.
  induction evs as [|ev evs IH]; intros ed HI; simpl.
  - exists ed. split; [apply Returns_const|done].
  - destruct (uiStep_inv ed ev HI) as (ed1 & H1 & HI1).
    destruct (IH ed1 HI1) as (ed' & H' & HI'). exists ed'. split; [|done].
    by apply (Returns_bind _ (fun fuel ed1 => uiRun fuel ed1 evs) ed1).
Qed.

(** Every session of the editor with its dialog ends in a state that
    satisfies the invariant. *)
Lemma uiSession_inv evs :
  exists ed, Returns (fun fuel => uiSession fuel evs) ed /\ UiInv ed.
Proof.
  destruct initialState_inv as (s0 & H0 & HI0).
  destruct (uiRun_inv evs (mkEditor s0 false None "" "")) as (ed & Hed & HI);
    [by split|].
  exists ed. split; [|done].
  by apply (Returns_bind _ (fun fuel s0 =>
              uiRun fuel (mkEditor s0 false None "" "") evs) s0).
Qed.

(** X21. Every session of the editor with its edit dialog (the clicks on
    the tree, opening, filling, closing and submitting the dialog, in
    any order) ends in a state whose nodes form a tree, with no two
    boxes overlapping and with the connectors derived from the current
    nodes: saving an edit relabels a node and disturbs nothing else. *)
Theorem ui_session_keeps_drawing (evs : list UiEvent) :
  exists ed,
    Returns (fun fuel => uiSession fuel evs) ed
    /\ TreeInv (nodes (app ed))
    /\ (forall a b na nb,
          nodes (app ed) !! a = Some na -> nodes (app ed) !! b = Some nb ->
          a <> b -> Apart na nb)
    /\ Returns (fun fuel => computeEdges fuel (nodes (app ed)))
               (edges (app ed)).
Proof.
  destruct (uiSession_inv evs) as (ed & HR & HI & _).
  destruct HI as ([HT _] & _ & _ & _ & _ & _ & HB & _ & _ & f & He).
  exists ed. split; [done|]. split; [done|]. split; [done|].
  apply (Returns_intro _ f); [|done]. intros. by eapply computeEdges_mono.
Qed.

(** X22. In every state a session with the dialog reaches every node has
    one of the four node types, and so has the form of a rendered
    dialog. *)
Theorem ui_session_types (evs : list UiEvent) :
  exists ed,
    Returns (fun fuel => uiSession fuel evs) ed
    /\ (forall n, n ∈ nodes (app ed) -> kind n ∈ NODE_TYPES)
    /\ (modalRendered ed = true -> type ed ∈ NODE_TYPES).
Proof.
  destruct (uiSession_inv evs) as (ed & HR & HI & Hty).
  destruct HI as (_ & _ & _ & _ & HK & _). by exists ed.
Qed.

Lemma saveEdit_insert nds i node l t :
  NoDup (map id nds) -> nds !! i = Some node ->
  map (saveEdit (id node) l t) nds = <[i := setLabelType l t node]> nds.
Proof.
  intros Hnd Hi. apply list_eq. intros j.
  change (map (saveEdit (id node) l t) nds) with (saveEdit (id node) l t <$> nds).
  rewrite list_lookup_fmap. destruct (decide (i = j)) as [<-|Hne].
  - rewrite list_lookup_insert_eq by (by eapply lookup_lt_Some).
    rewrite Hi. simpl. unfold saveEdit. by rewrite String.eqb_refl.
  - rewrite list_lookup_insert_ne by done.
    destruct (nds !! j) as [n|] eqn:Hj; [|done]. simpl. unfold saveEdit.
    destruct (String.eqb_spec (id n) (id node)) as [E|_]; [|done].
    exfalso. apply Hne. symmetry. by eapply (lookup_same_id nds).
Qed.

(** X23. Editing a node through the dialog: opening it on the node
    rendered for [nodes[i]], typing the name [v], choosing the type
    [NODE_TYPES[k]] and submitting sets the label and the type of that
    node, changes nothing else in the state and closes the dialog. *)
Theorem edit_sets_label_and_type (evs : list UiEvent) (i k : nat)
    (v : string) :
  exists ed,
    Returns (fun fuel => uiSession fuel evs) ed
    /\ forall node t fuel,
         nodes (app ed) !! i = Some node -> NODE_TYPES !! k = Some t ->
         exists ed',
           uiRun fuel ed [EditIconClick i; NameInput v; TypeSelect k;
                          SubmitClick] = Some ed'
           /\ nodes (app ed') = <[i := setLabelType v t node]> (nodes (app ed))
           /\ edges (app ed') = edges (app ed)
           /\ nextId (app ed') = nextId (app ed)
           /\ isRelinkMode (app ed') = isRelinkMode (app ed)
           /\ selectedNodeForRelink (app ed')
              = selectedNodeForRelink (app ed)
           /\ modalRendered ed' = false.
Proof.
  destruct (uiSession_inv evs) as (ed & HR & HI & _).
  exists ed. split; [done|]. intros node t fuel Hi Hk.
  destruct HI as ([HT _] & _). simpl. rewrite Hi. simpl.
  unfold modalRendered. simpl. rewrite Hk. simpl.
  eexists. split; [reflexivity|]. simpl.
  split; [exact (saveEdit_insert _ i node v t (ids_unique _ HT) Hi)|done].
Qed.

(** X24. Opening the dialog on a node and submitting it untouched
    changes nothing: the form is filled from the node, so the save writes
    back what was there. *)
Theorem edit_unchanged_round_trip (evs : list UiEvent) (i : nat) :
  exists ed,
    Returns (fun fuel => uiSession fuel evs) ed
    /\ (i < length (nodes (app ed)) ->
        forall fuel,
          exists ed',
            uiRun fuel ed [EditIconClick i; SubmitClick] = Some ed'
            /\ app ed' = app ed /\ modalRendered ed' = false).
Proof.
  destruct (uiSession_inv evs) as (ed & HR & HI & _).
  exists ed. split; [done|]. intros Hlt fuel.
  destruct (lookup_lt_is_Some_2 _ _ Hlt) as [node Hi].
  destruct HI as ([HT _] & _). simpl. rewrite Hi. simpl.
  unfold modalRendered. simpl.
  eexists. split; [reflexivity|]. simpl. split; [|done].
  rewrite !orElse_same,
    (saveEdit_insert _ i node _ _ (ids_unique _ HT) Hi).
  assert (E : setLabelType (label node) (kind node) node = node)
    by (by destruct node).
  rewrite E, list_insert_id by done. by destruct (app ed).
Qed.

(** ** Examples *)

Lemma sampleState_good : Good sampleState.
Proof.
  split; [apply treeOk_sound|apply numbered_sound]; vm_compute; reflexivity.
Qed.

Lemma sampleSelecting_good : Good sampleSelecting.
Proof.
  split; [apply treeOk_sound|apply numbered_sound]; vm_compute; reflexivity.
Qed.

Lemma layout_rows_witness :
  exists r,
    Returns (fun fuel => layoutTree fuel sampleTree) r
    /\ forall p np c nc,
         r !! p = Some np -> r !! c = Some nc ->
         parentId nc = Some (id np) ->
         (snd (position nc) == snd (position np) + VERTICAL_GAP)%Q.
Proof.
  apply (layout_rows sampleTree).
  - apply treeOk_sound. vm_compute. reflexivity.
  - apply idsTruthy_sound. vm_compute. reflexivity.
Defined.

Lemma layout_root_fixed_witness :
  exists r,
    Returns (fun fuel => layoutTree fuel sampleTree) r
    /\ forall i n0 n,
         sampleTree !! i = Some n0 -> r !! i = Some n -> parentId n0 = None ->
         id n = id n0
         /\ (snd (position n) == snd (position n0))%Q
         /\ (Whole (fst (position n0)) ->
             (fst (position n) == fst (position n0))%Q).
Proof.
  apply (layout_root_fixed sampleTree).
  apply treeOk_sound. vm_compute. reflexivity.
Defined.

Lemma layout_only_child_witness :
  exists r,
    Returns (fun fuel => layoutTree fuel chainTree) r
    /\ forall p np c nc,
         r !! p = Some np -> r !! c = Some nc ->
         childIndices 0 r (id np) = [c] ->
         (fst (position nc) == fst (position np))%Q.
Proof.
  apply (layout_only_child chainTree).
  - apply treeOk_sound. vm_compute. reflexivity.
  - apply idsTruthy_sound. vm_compute. reflexivity.
Defined.

Lemma layout_boxes_apart_witness :
  exists r,
    Returns (fun fuel => layoutTree fuel sampleTree) r
    /\ forall a b na nb,
         r !! a = Some na -> r !! b = Some nb -> a <> b -> Apart na nb.
Proof.
  apply (layout_boxes_apart sampleTree).
  - apply treeOk_sound. vm_compute. reflexivity.
  - apply idsTruthy_sound. vm_compute. reflexivity.
Defined.

Lemma layout_styles_witness :
  exists r,
    Returns (fun fuel => layoutTree fuel sampleTree) r
    /\ map content r = map content sampleTree
    /\ forall j n k,
         r !! j = Some n -> climbs sampleTree k (id n) = true ->
         draggable n = false /\ visible n = true
         /\ display n = Some "block"
         /\ background n
            = backgrounds !! Nat.min (depthOf sampleTree k (id n))
                                     (length backgrounds - 1).
Proof.
  apply (layout_styles sampleTree).
  - apply treeOk_sound. vm_compute. reflexivity.
  - apply idsTruthy_sound. vm_compute. reflexivity.
Defined.

Lemma add_child_appends_witness :
  exists s',
    Returns (fun fuel => step fuel sampleState (AddClick 0)) s'
    /\ nextId s' = 7
    /\ (forall n, n ∈ sampleTree -> id n <> "6")
    /\ map content (nodes s')
       = map content (sampleTree ++ [newNode 6 "1"])
    /\ childIndices 0 (nodes s') "1" = [1; 2; 5]
    /\ TreeInv (nodes s')
    /\ isRelinkMode s' = false
    /\ selectedNodeForRelink s' = None.
Proof.
  apply (add_child_appends sampleState 0 (plainNode "1" None 300 50)).
  - exact sampleState_good.
  - reflexivity.
Defined.

Lemma added_node_ignores_clicks_witness :
  exists s' new,
    Returns (fun fuel => step fuel sampleSelecting (AddClick 0)) s'
    /\ isRelinkMode s' = true
    /\ selectedNodeForRelink s' = Some "2"
    /\ nodes s' !! 5 = Some new
    /\ id new = "6"
    /\ dataIsRelinkMode new = false
    /\ forall fuel, step fuel s' (NodeClick 5) = Some s'.
Proof.
  apply (added_node_ignores_clicks sampleSelecting 0
           (setRelinkData true (Some "2") (plainNode "1" None 300 50))).
  - exact sampleSelecting_good.
  - reflexivity.
Defined.

Lemma relink_accepted_witness :
  exists s',
    Returns (fun fuel => step fuel sampleSelecting (NodeClick 2)) s'
    /\ Idle s'
    /\ TreeInv (nodes s')
    /\ map id (nodes s') = ["1"; "2"; "3"; "4"; "5"]
    /\ map parentId (nodes s')
       = [None; Some "3"; Some "1"; Some "2"; Some "2"]
    /\ (forall n, n ∈ nodes s' ->
          dataIsRelinkMode n = false /\ dataSelectedNodeForRelink n = None)
    /\ nextId s' = 6.
Proof.
  apply (relink_accepted sampleSelecting 2
           (setRelinkData true (Some "2") (plainNode "3" (Some "1") 0 0)) "2").
  - exact sampleSelecting_good.
  - reflexivity.
  - reflexivity.
  - reflexivity.
  - reflexivity.
  - reflexivity.
  - simpl. discriminate.
  - intros H. apply ancestorOf_inv in H as (n & p & Hn & Hid & Hp & H).
    assert (E : p = "1").
    { apply list_elem_of_In in Hn. simpl in Hn.
      repeat destruct Hn as [<-|Hn]; simpl in *; try discriminate; try done.
      congruence. }
    subst p. destruct H as [H|H]; [discriminate|].
    apply ancestorOf_inv in H as (m & q & Hm & Hidm & Hq & _).
    apply list_elem_of_In in Hm. simpl in Hm.
    repeat destruct Hm as [<-|Hm]; simpl in *; try discriminate; done.
  - intros a Ha Hid Hp. apply list_elem_of_In in Ha. simpl in Ha.
    repeat destruct Ha as [<-|Ha]; simpl in *; try discriminate; done.
Defined.

Lemma relink_to_current_parent_ignored_witness :
  Returns (fun fuel => step fuel sampleSelecting (NodeClick 0)) sampleSelecting.
Proof.
  apply (relink_to_current_parent_ignored sampleSelecting 0
           (setRelinkData true (Some "2") (plainNode "1" None 300 50))
           (setRelinkData true (Some "2") (plainNode "2" (Some "1") 0 0))).
  - exact sampleSelecting_good.
  - reflexivity.
  - apply list_elem_of_lookup. by exists 1.
  - reflexivity.
  - reflexivity.
Defined.

(** ** Entering and leaving relink mode *)

Lemma setRelinkData_same n :
  setRelinkData (dataIsRelinkMode n) (dataSelectedNodeForRelink n) n = n.
Proof. by destruct n. Qed.

(** X20. Entering relink mode from the idle editor and leaving it again
    restores the state exactly. *)
Theorem relink_mode_round_trip (es : list Event) :
  exists s,
    Returns (fun fuel => session fuel es) s
    /\ (Idle s ->
        forall fuel,
          exists s1,
            step fuel s RelinkModeClick = Some s1
            /\ AwaitingSource s1
            /\ step fuel s1 RelinkModeClick = Some s).
Proof.
  destruct (session_inv es) as (s & HR & _ & HM & _ & HSh).
  exists s. split; [done|]. intros [Hm Hsel] fuel.
  destruct HSh as ((r & rest & Hnodes & _) & _).
  unfold step. simpl.
  rewrite afterRender_changed by (simpl; by destruct (isRelinkMode s)).
  eexists. split; [reflexivity|].
  unfold syncRelinkData. simpl. rewrite Hnodes. simpl.
  split; [split; simpl; by rewrite ?Hm|].
  rewrite afterRender_changed by (simpl; by destruct (isRelinkMode s)).
  unfold syncRelinkData, toggleRelinkMode. simpl.
  rewrite Hm. simpl.
  assert (E : forall n, n ∈ nodes s -> setRelinkData false None n = n).
  { intros n Hn. destruct (HM n Hn) as [H|H]; unfold relinkData in H;
      rewrite ?Hm, ?Hsel in H; injection H as H1 H2;
      rewrite <- H1, <- H2 at 1; apply setRelinkData_same. }
  rewrite Hnodes in E.
  assert (E' : setRelinkData false None (setRelinkData true None r)
               :: map (setRelinkData false None)
                      (map (setRelinkData true None) rest)
               = r :: rest).
  { f_equal.
    - transitivity (setRelinkData false None r); [done|].
      apply E, list_elem_of_here.
    - rewrite List.map_map. rewrite <- (map_id rest) at 2. apply map_ext_in.
      intros n Hn%list_elem_of_In.
      transitivity (setRelinkData false None n); [done|].
      by apply E, list_elem_of_further. }
  rewrite E'. f_equal. destruct s; simpl in *. congruence.
Qed.

(** ** Nodes out of reach of the roots *)

Lemma Reach_last nds cm i j :
  Reach nds cm i j ->
  j = i \/ exists p np, nds !! p = Some np /\ j ∈ childrenOf cm (id np).
Proof.
  induction 1 as [i|i n c j Hi Hc Hj IH]; [by left|right].
  destruct IH as [->|H]; [by exists i, n|done].
Qed.

(** X6. A layout pass that returns has left every node that no root
    reaches through the children index as it was, but for [draggable]:
    such a node is not moved and not styled. *)
Theorem layout_leaves_unreached fuel nds r j n0 :
  layoutTree fuel nds = Some r -> nds !! j = Some n0 ->
  (forall i ni, nds !! i = Some ni -> truthyId (parentId ni) = false ->
                ~ Reach nds (buildChildrenMap nds) i j) ->
  r !! j = Some (setDraggable false n0).
Proof.
  intros H Hj Hno.
  destruct (layoutTree_outcome _ _ _ H) as (Hs & Hpr & _).
  destruct (lookup_skel _ _ _ _ (eq_sym Hs) Hj) as (n & Hn & _).
  destruct (Hpr j n n0 Hn Hj) as [->|(xc & y & HE & _)]; [done|].
  destruct (Expect_Reach _ _ _ _ _ HE) as (i & ni & Hi & Ht & HR).
  by destruct (Hno i ni Hi Ht).
Qed.

Lemma layout_leaves_unreached_witness :
  exists r,
    layoutTree 5 orphanTree = Some r
    /\ r !! 5 = Some (setDraggable false (plainNode "8" (Some "99") 7 7)).
Proof.
  destruct (layoutTree 5 orphanTree) as [r|] eqn:E;
    [|vm_compute in E; discriminate].
  exists r. split; [done|].
  apply (layout_leaves_unreached 5 orphanTree r 5 _ E eq_refl).
  intros i ni Hi Ht HR.
  apply Reach_last in HR as [E5|(p & np & Hp & Hc)].
  - subst i. change (Some (plainNode "8" (Some "99") 7 7) = Some ni) in Hi.
    by injection Hi as <-.
  - apply elem_of_children in Hc as (_ & n & Hn & Hpar).
    change (Some (plainNode "8" (Some "99") 7 7) = Some n) in Hn.
    injection Hn as <-. simpl in Hpar. apply list_elem_of_lookup_2, list_elem_of_In in Hp.
    simpl in Hp. repeat destruct Hp as [<-|Hp]; simpl in Hpar;
      try discriminate; done.
Defined.

(** ** The layout of the measuring editor *)

Lemma Measuring_layoutChildren_eq : Measuring.layoutChildren = layoutChildren.
Proof. reflexivity. Qed.

Lemma mskel_skel nds nds' :
  map mskel nds = map mskel nds' -> map skel nds = map skel nds'.
Proof.
  intros H.
  assert (E : map (fun c : string * option string * option Q => c.1)
                  (map mskel nds)
              = map (fun c : string * option string * option Q => c.1)
                    (map mskel nds')) by (by rewrite H).
  rewrite !List.map_map in E. exact E.
Qed.

Lemma lookup_mskel nds nds' i n :
  map mskel nds = map mskel nds' -> nds !! i = Some n ->
  exists n', nds' !! i = Some n' /\ mskel n' = mskel n.
Proof.
  intros H Hn. change (mskel <$> nds = mskel <$> nds') in H.
  assert (Hs : (mskel <$> nds') !! i = Some (mskel n)).
  { rewrite <- H, list_lookup_fmap, Hn. done. }
  rewrite list_lookup_fmap in Hs. destruct (nds' !! i) as [n'|]; [|done].
  exists n'. split; [done|]. simpl in Hs. congruence.
Qed.

Lemma mskel_currentWidth n n' :
  mskel n = mskel n' -> Measured.currentWidth n = Measured.currentWidth n'.
Proof. unfold mskel, Measured.currentWidth. intros H. by injection H as _ _ ->. Qed.

Lemma mskel_to_skel n n' : mskel n = mskel n' -> skel n = skel n'.
Proof. unfold mskel, skel. congruence. Qed.

Lemma Measuring_layoutNode_mono cm fuel : forall fuel' d v nds i x y r,
  fuel <= fuel' ->
  Measuring.layoutNode fuel cm d v nds i x y = Some r ->
  Measuring.layoutNode fuel' cm d v nds i x y = Some r.
Proof.
  induction fuel as [|fuel IH]; intros fuel' d v nds i x y r Hle; simpl;
    [done|].
  destruct fuel' as [|fuel']; [lia|]. simpl.
  destruct (nds !! i) as [node|]; [|done].
  destruct (length (childrenOf cm (id node)) =? 0)%nat; [done|].
  destruct (mapWidths _ _) as [ws|] eqn:Hm; [|done].
  erewrite mapWidths_mono; [| |exact Hm].
  - apply layoutChildren_mono. intros. eapply IH; [lia|done].
  - intros c w' _. apply Measured_getSubtreeWidth_mono. lia.
Qed.

Lemma Measuring_layoutRoots_mono cm fuel fuel' idxs : forall nds r,
  fuel <= fuel' ->
  Measuring.layoutRoots fuel cm nds idxs = Some r ->
  Measuring.layoutRoots fuel' cm nds idxs = Some r.
Proof.
  induction idxs as [|i idxs IH]; intros nds r Hle; simpl; [done|].
  destruct (nds !! i) as [node|]; [|done].
  destruct (truthyId (parentId node)); [by apply IH|].
  destruct (Measuring.layoutNode fuel _ _ _ _ _ _ _) as [nds'|] eqn:Hl; [|done].
  rewrite (Measuring_layoutNode_mono _ _ _ _ _ _ _ _ _ _ Hle Hl). by apply IH.
Qed.

Lemma Measuring_layoutTree_mono fuel fuel' nds r :
  fuel <= fuel' -> Measuring.layoutTree fuel nds = Some r ->
  Measuring.layoutTree fuel' nds = Some r.
Proof. unfold Measuring.layoutTree. apply Measuring_layoutRoots_mono. Qed.

Section MeasuringPreserved.
Variable X : Type.
Variable g : Node -> X.
Hypothesis g_place : forall x y d v n, g (Measuring.place x y d v n) = g n.
Hypothesis g_setDraggable : forall b n, g (setDraggable b n) = g n.

Lemma Measuring_preserved_insert nds i n x y d v :
  nds !! i = Some n ->
  map g (<[i := Measuring.place x y d v n]> nds) = map g nds.
Proof.
  intros Hn. change (g <$> <[i := Measuring.place x y d v n]> nds = g <$> nds).
  rewrite list_fmap_insert, g_place.
  apply list_insert_id. by rewrite list_lookup_fmap, Hn.
Qed.

Lemma Measuring_layoutNode_preserved cm fuel : forall d v nds i x y r,
  Measuring.layoutNode fuel cm d v nds i x y = Some r -> map g r = map g nds.
Proof.
  induction fuel as [|fuel IH]; intros d v nds i x y r; simpl; [done|].
  destruct (nds !! i) as [node|] eqn:Hi; [|done].
  pose proof (Measuring_preserved_insert nds i node x y d v Hi) as Hs.
  destruct (length (childrenOf cm (id node)) =? 0)%nat; [by intros [= <-]|].
  destruct (mapWidths _ _) as [ws|]; [|done].
  intros H. rewrite <- Hs. revert H.
  apply (layoutChildren_preserved X g). apply IH.
Qed.

Lemma Measuring_layoutRoots_preserved cm fuel idxs : forall nds r,
  Measuring.layoutRoots fuel cm nds idxs = Some r -> map g r = map g nds.
Proof.
  induction idxs as [|i idxs IH]; intros nds r; simpl; [by intros [= ->]|].
  destruct (nds !! i) as [node|]; [|done].
  destruct (truthyId (parentId node)); [apply IH|].
  destruct (Measuring.layoutNode _ _ _ _ _ _ _ _) as [nds'|] eqn:E; [|done].
  intros H. rewrite (IH _ _ H). by eapply Measuring_layoutNode_preserved.
Qed.

Lemma Measuring_layoutTree_preserved fuel nds r :
  Measuring.layoutTree fuel nds = Some r -> map g r = map g nds.
Proof.
  unfold Measuring.layoutTree. intros H%Measuring_layoutRoots_preserved.
  rewrite H, List.map_map. apply map_ext. intros n. apply g_setDraggable.
Qed.
End MeasuringPreserved.

Lemma Measuring_layoutTree_mskel fuel nds r :
  Measuring.layoutTree fuel nds = Some r -> map mskel r = map mskel nds.
Proof. by apply Measuring_layoutTree_preserved. Qed.

Lemma Measuring_layoutTree_content fuel nds r :
  Measuring.layoutTree fuel nds = Some r -> map content r = map content nds.
Proof. by apply Measuring_layoutTree_preserved. Qed.

(** The measured subtree width reads identifiers, parents and measured
    widths only. *)
Lemma Measured_getSubtreeWidth_mskel fuel nds nds' cm :
  map mskel nds = map mskel nds' ->
  forall i, Measured.getSubtreeWidth fuel nds cm i
            = Measured.getSubtreeWidth fuel nds' cm i.
Proof.
  intros Hs. induction fuel as [|fuel IH]; intros i; simpl; [done|].
  destruct (nds !! i) as [n|] eqn:Hi.
  - destruct (lookup_mskel _ _ _ _ Hs Hi) as (n' & -> & Hsk).
    rewrite (skel_id _ _ (mskel_to_skel _ _ Hsk)),
      (mskel_currentWidth _ _ Hsk).
    destruct (length _ =? 0)%nat; [done|].
    by rewrite (sumWidths_ext _ _ _ IH).
  - destruct (nds' !! i) as [n'|] eqn:Hi'; [|done].
    destruct (lookup_mskel _ _ _ _ (eq_sym Hs) Hi') as (n & Hn & _). congruence.
Qed.

Lemma mskel_insert nds i n n' :
  nds !! i = Some n -> mskel n' = mskel n ->
  map mskel (<[i := n']> nds) = map mskel nds.
Proof.
  intros Hn Hs. change (mskel <$> <[i := n']> nds = mskel <$> nds).
  rewrite list_fmap_insert, Hs.
  apply list_insert_id. by rewrite list_lookup_fmap, Hn.
Qed.

Section MeasuringTermination.
Variable S : string -> Prop.
Variable rk : string -> nat.
Variable nds0 : list Node.
Variable cm : gmap string (list nat).
Hypothesis HR : Ranked S rk nds0.
Hypothesis HC : ChildrenOK cm nds0.

Lemma Measuring_layoutNode_total fuel : forall d v nds i n x y,
  map skel nds = map skel nds0 ->
  nds !! i = Some n -> S (id n) -> rk (id n) < fuel ->
  exists r, Measuring.layoutNode fuel cm d v nds i x y = Some r
            /\ map skel r = map skel nds0.
Proof.
  induction fuel as [|fuel IH]; intros d v nds i n x y Hs Hi HS Hlt; [lia|].
  simpl. rewrite Hi.
  assert (Hs1 : map skel (<[i := Measuring.place x y d v n]> nds)
                = map skel nds0).
  { rewrite <- Hs. by eapply skel_insert. }
  destruct (length (childrenOf cm (id n)) =? 0)%nat; [eauto|].
  destruct (lookup_skel _ _ _ _ Hs Hi) as (n0 & Hi0 & Hsk).
  assert (Hn0 : n0 ∈ nds0) by (apply list_elem_of_lookup; eauto).
  rewrite <- (skel_id _ _ Hsk) in *.
  destruct (mapWidths_total
              (Measured.getSubtreeWidth fuel
                 (<[i := Measuring.place x y d v n]> nds) cm)
              (childrenOf cm (id n0))) as [ws ->].
  { intros c Hc.
    destruct (child_ranked S rk nds0 cm HR HC n0 c) as (nc & Hnc & HSc & Hrk);
      [done..|].
    destruct (lookup_skel _ _ _ _ (eq_sym Hs1) Hnc) as (nc' & Hnc' & Hsk').
    apply (Measured_getSubtreeWidth_total S rk _ cm
             (Ranked_skel _ _ _ _ (eq_sym Hs1) HR)
             (ChildrenOK_skel _ _ _ (eq_sym Hs1) HC) fuel c nc'); [done| |].
    - by rewrite (skel_id _ _ Hsk').
    - rewrite (skel_id _ _ Hsk'). lia. }
  apply layoutChildren_total; [|done].
  intros nds' c x' y' Hc Hs'.
  destruct (child_ranked S rk nds0 cm HR HC n0 c) as (nc & Hnc & HSc & Hrk);
    [done..|].
  destruct (lookup_skel _ _ _ _ (eq_sym Hs') Hnc) as (nc' & Hnc' & Hsk').
  apply (IH _ _ nds' c nc'); [done|done| |].
  - by rewrite (skel_id _ _ Hsk').
  - rewrite (skel_id _ _ Hsk'). lia.
Qed.

Lemma Measuring_layoutRoots_total fuel idxs : forall nds,
  map skel nds = map skel nds0 ->
  (forall i n, i ∈ idxs -> nds0 !! i = Some n ->
               truthyId (parentId n) = false ->
               S (id n) /\ rk (id n) < fuel) ->
  (forall i, i ∈ idxs -> i < length nds0) ->
  exists r, Measuring.layoutRoots fuel cm nds idxs = Some r
            /\ map skel r = map skel nds0.
Proof.
  induction idxs as [|i idxs IH]; intros nds Hs Hroot Hlen; simpl; [eauto|].
  destruct (lookup_lt_is_Some_2 nds i) as [n Hi].
  { rewrite (skel_length _ _ Hs). apply Hlen, list_elem_of_here. }
  rewrite Hi.
  assert (Hrest : forall nds', map skel nds' = map skel nds0 ->
            exists r, Measuring.layoutRoots fuel cm nds' idxs = Some r
                      /\ map skel r = map skel nds0).
  { intros nds' Hs'. apply IH; [done| |].
    - intros j m Hj. apply Hroot. by apply list_elem_of_further.
    - intros j Hj. apply Hlen. by apply list_elem_of_further. }
  destruct (truthyId (parentId n)) eqn:Ht; [by apply Hrest|].
  destruct (lookup_skel _ _ _ _ Hs Hi) as (n0 & Hi0 & Hsk).
  destruct (Hroot i n0 (list_elem_of_here _ _) Hi0) as [HS Hlt].
  { by rewrite (skel_parentId _ _ Hsk). }
  destruct (Measuring_layoutNode_total fuel 0 true nds i n
              (fst (position n) + Measured.currentWidth n / 2)%Q
              (snd (position n)))
    as (nds' & -> & Hs'); [done|done| | |by apply Hrest].
  - by rewrite <- (skel_id _ _ Hsk).
  - by rewrite <- (skel_id _ _ Hsk).
Qed.
End MeasuringTermination.

(** On a tree the measuring layout pass returns. *)
Lemma Measuring_layoutTree_total nds :
  TreeInv nds ->
  exists r, Returns (fun fuel => Measuring.layoutTree fuel nds) r.
Proof.
  intros HT. destruct (TreeInv_Ranked nds HT) as [rk HR].
  destruct (rank_bound rk nds) as [F HF].
  pose proof (skel_setDraggable nds false) as Hs0.
  destruct (Measuring_layoutRoots_total (fun _ => True) rk nds
              (buildChildrenMap nds) HR (ChildrenOK_build nds) F
              (seq 0 (length (map (setDraggable false) nds)))
              (map (setDraggable false) nds) Hs0) as (r & Hr & _).
  - intros i n _ Hi _. split; [done|]. apply HF. by eapply list_elem_of_lookup_2.
  - intros i Hi%elem_of_seq_0. by rewrite length_map in Hi.
  - exists r. apply (Returns_intro _ F); [|done].
    intros. by eapply Measuring_layoutTree_mono.
Qed.

Lemma MExpect_Qeq nds cm i xc y xc' y' :
  MExpect nds cm i xc y -> (xc == xc')%Q -> (y == y')%Q ->
  MExpect nds cm i xc' y'.
Proof.
  intros H Hx Hy. destruct H.
  - eapply mexpect_root; eauto; lra.
  - eapply mexpect_child; eauto; lra.
Qed.

Lemma MWidthIs_unique nds cm c w w' :
  MWidthIs nds cm c w -> MWidthIs nds cm c w' -> w = w'.
Proof.
  intros [f1 H1] [f2 H2].
  pose proof (Measured_getSubtreeWidth_mono nds cm f1 (Nat.max f1 f2) c w
                ltac:(lia) H1).
  pose proof (Measured_getSubtreeWidth_mono nds cm f2 (Nat.max f1 f2) c w'
                ltac:(lia) H2).
  congruence.
Qed.

Lemma Forall2_MWidthIs_unique nds cm cs ws ws' :
  Forall2 (MWidthIs nds cm) cs ws -> Forall2 (MWidthIs nds cm) cs ws' ->
  ws = ws'.
Proof.
  intros H. revert ws'. induction H as [|c w cs ws Hw H IH]; intros ws' H'.
  - by inversion H'.
  - inversion H' as [|? w' ? ws'' Hw' H'']; subst.
    f_equal; [by eapply MWidthIs_unique|by apply IH].
Qed.

Section MeasuringPlacement.
Variable nds0 : list Node.
Variable cm : gmap string (list nat).

Lemma MPlaced_insert_other cur i j m :
  i <> j -> MPlaced nds0 cm cur j -> MPlaced nds0 cm (<[i := m]> cur) j.
Proof.
  intros Hne (n & xc & y & Hn & HE & Hx & Hy). exists n, xc, y.
  by rewrite list_lookup_insert_ne.
Qed.

Lemma MPlaced_insert_here cur i n xc y d v :
  cur !! i = Some n -> MExpect nds0 cm i xc y ->
  MPlaced nds0 cm (<[i := Measuring.place xc y d v n]> cur) i.
Proof.
  intros Hn HE. exists (Measuring.place xc y d v n), xc, y.
  rewrite list_lookup_insert_eq by (by eapply lookup_lt_Some).
  simpl. repeat split; done || reflexivity.
Qed.

Lemma MPlaced_insert cur i n xc y d v j :
  cur !! i = Some n -> MExpect nds0 cm i xc y ->
  MPlaced nds0 cm cur j ->
  MPlaced nds0 cm (<[i := Measuring.place xc y d v n]> cur) j.
Proof.
  intros Hn HE HP. destruct (decide (i = j)) as [<-|Hne].
  - by apply MPlaced_insert_here.
  - by apply MPlaced_insert_other.
Qed.

Lemma MProgress_insert cur i n xc y d v :
  MProgress nds0 cm cur -> cur !! i = Some n -> MExpect nds0 cm i xc y ->
  MProgress nds0 cm (<[i := Measuring.place xc y d v n]> cur).
Proof.
  intros [Hs Hpr] Hn HE. split.
  - rewrite <- Hs. by eapply mskel_insert.
  - intros j m m0 Hm Hm0. destruct (decide (i = j)) as [<-|Hne].
    + right. by apply MPlaced_insert_here.
    + rewrite list_lookup_insert_ne in Hm by done.
      destruct (Hpr j m m0 Hm Hm0) as [->|HP]; [by left|right].
      by apply MPlaced_insert_other.
Qed.

Lemma Measuring_layoutChildren_placed
    (f : list Node -> nat -> Q -> Q -> option (list Node))
    (cs : list nat) (ws : list Q) (start childY : Q) :
  MLaysOut nds0 cm f ->
  length ws = length cs ->
  (forall k c w x, cs !! k = Some c -> ws !! k = Some w ->
      (x == start + slotOffset ws k + w / 2)%Q ->
      MExpect nds0 cm c x childY) ->
  forall rest restW k cur currentX r,
    drop k cs = rest -> drop k ws = restW ->
    (currentX == start + slotOffset ws k)%Q ->
    MProgress nds0 cm cur ->
    Measuring.layoutChildren f cur rest restW currentX childY = Some r ->
    MProgress nds0 cm r
    /\ (forall j, MPlaced nds0 cm cur j -> MPlaced nds0 cm r j)
    /\ (forall c j, c ∈ rest -> Reach nds0 cm c j -> MPlaced nds0 cm r j).
Proof.
  intros Hf Hlen HE. induction rest as [|c rest IH];
    intros restW k cur currentX r Hcs Hws Hx Hpr; simpl.
  - intros [= <-]. split; [done|]. split; [done|].
    by intros c j ?%elem_of_nil.
  - assert (Hk : cs !! k = Some c).
    { rewrite <- (Nat.add_0_r k), <- lookup_drop, Hcs. done. }
    destruct (lookup_lt_is_Some_2 ws k) as [w Hw].
    { rewrite Hlen. by eapply lookup_lt_Some. }
    rewrite (drop_S _ _ _ Hw) in Hws. subst restW.
    rewrite (drop_S _ _ _ Hk) in Hcs. injection Hcs as Hcs.
    destruct (f cur c _ _) as [cur'|] eqn:Ef; [|done]. intros Hr.
    destruct (Hf _ _ _ _ _ Hpr
                (HE k c w (currentX + w / 2)%Q Hk Hw ltac:(lra)) Ef)
      as (Hpr' & Hmono' & Hreach').
    destruct (IH (drop (S k) ws) (S k) cur'
                (currentX + w + Measured.HORIZONTAL_GAP)%Q r Hcs eq_refl)
      as (Hpr'' & Hmono'' & Hreach''); [|done|done|].
    { rewrite (slotOffset_S _ _ _ Hw).
      change Measured.HORIZONTAL_GAP with HORIZONTAL_GAP. lra. }
    split; [done|]. split; [by auto|].
    intros c' j [->|Hc']%elem_of_cons Hj; [by auto|by eauto].
Qed.

Lemma Measuring_layoutNode_placed fuel : forall d v,
  MLaysOut nds0 cm (Measuring.layoutNode fuel cm d v).
Proof.
  induction fuel as [|fuel IH]; intros d v cur i x y r Hpr HE; simpl;
    [done|].
  destruct (cur !! i) as [n|] eqn:Hi; [|done].
  pose proof (MProgress_insert cur i n x y d v Hpr Hi HE) as Hpr1.
  pose proof (fun j => MPlaced_insert cur i n x y d v j Hi HE) as Hmono1.
  pose proof (MPlaced_insert_here cur i n x y d v Hi HE) as Hhere.
  destruct Hpr as [Hs _].
  destruct (lookup_mskel _ _ _ _ Hs Hi) as (n0 & Hi0 & Hsk).
  rewrite <- (skel_id _ _ (mskel_to_skel _ _ Hsk)).
  destruct (length (childrenOf cm (id n0)) =? 0)%nat eqn:El.
  - intros [= <-]. split; [done|]. split; [done|].
    intros j Hj.
    destruct (Reach_children _ _ _ _ _ Hi0 Hj) as [->|(c & Hc & _)]; [done|].
    apply Nat.eqb_eq in El.
    destruct (childrenOf cm (id n0)); [by apply elem_of_nil in Hc|done].
  - destruct (mapWidths _ _) as [ws|] eqn:Ew; [|done]. intros Hr.
    pose proof (mapWidths_length _ _ _ Ew) as Hlen.
    assert (HW : Forall2 (MWidthIs nds0 cm) (childrenOf cm (id n0)) ws).
    { revert Ew. apply mapWidths_Forall2. intros c w Hc. exists fuel.
      rewrite <- Hc. symmetry. apply Measured_getSubtreeWidth_mskel.
      by destruct Hpr1. }
    destruct (Measuring_layoutChildren_placed
                (Measuring.layoutNode fuel cm (S d) v)
                (childrenOf cm (id n0)) ws
                (x - totalWidth ws / 2)%Q (y + Measuring.VERTICAL_GAP)%Q
                (IH (S d) v) Hlen) with
      (rest := childrenOf cm (id n0)) (restW := ws) (k := 0)
      (cur := <[i := Measuring.place x y d v n]> cur)
      (currentX := (x - (sumQ ws
                         + (num (length (childrenOf cm (id n0))) - 1)
                           * Measured.HORIZONTAL_GAP) / 2)%Q) (r := r)
      as (Hpr' & Hmono' & Hreach'); try done.
    + intros k c w xc Hk Hw Hxc.
      eapply (mexpect_child nds0 cm i n0 x y ws k c w); eauto; lra.
    + rewrite slotOffset_0. unfold totalWidth. rewrite Hlen.
      change Measured.HORIZONTAL_GAP with HORIZONTAL_GAP. lra.
    + split; [done|]. split; [by auto|].
      intros j Hj.
      destruct (Reach_children _ _ _ _ _ Hi0 Hj) as [->|(c & Hc & Hcj)];
        [by auto|]. by eapply Hreach'.
Qed.

Lemma MExpect_at_root cur i n n0 :
  MProgress nds0 cm cur -> cur !! i = Some n -> nds0 !! i = Some n0 ->
  truthyId (parentId n0) = false ->
  MExpect nds0 cm i (fst (position n) + Measured.currentWidth n / 2)%Q
          (snd (position n)).
Proof.
  intros [Hs Hpr] Hi Hi0 Ht.
  destruct (Hpr i n n0 Hi Hi0) as [->|(n' & xc & y & Hn' & HE & Hx & Hy)].
  - eapply mexpect_root; eauto; reflexivity.
  - assert (n' = n) as -> by congruence.
    eapply MExpect_Qeq; [exact HE| |]; lra.
Qed.

Lemma Measuring_layoutRoots_placed fuel idxs : forall cur r,
  MProgress nds0 cm cur ->
  Measuring.layoutRoots fuel cm cur idxs = Some r ->
  MProgress nds0 cm r
  /\ (forall j, MPlaced nds0 cm cur j -> MPlaced nds0 cm r j)
  /\ (forall i n0 j, i ∈ idxs -> nds0 !! i = Some n0 ->
        truthyId (parentId n0) = false ->
        Reach nds0 cm i j -> MPlaced nds0 cm r j).
Proof.
  induction idxs as [|i idxs IH]; intros cur r Hpr; simpl.
  - intros [= <-]. split; [done|]. split; [done|].
    by intros i n0 j ?%elem_of_nil.
  - destruct (cur !! i) as [n|] eqn:Hi; [|done].
    pose proof Hpr as [Hs _].
    destruct (lookup_mskel _ _ _ _ Hs Hi) as (n0 & Hi0 & Hsk).
    rewrite <- (skel_parentId _ _ (mskel_to_skel _ _ Hsk)).
    destruct (truthyId (parentId n0)) eqn:Ht.
    + intros Hr. destruct (IH _ _ Hpr Hr) as (Hpr' & Hmono' & Hreach').
      split; [done|]. split; [done|].
      intros i' n0' j [->|Hi']%elem_of_cons Hn0' Ht' Hj; [|by eauto].
      congruence.
    + destruct (Measuring.layoutNode _ _ _ _ _ _ _ _) as [cur'|] eqn:El;
        [|done].
      intros Hr.
      destruct (Measuring_layoutNode_placed fuel 0 true cur i _ _ cur' Hpr
                  (MExpect_at_root cur i n n0 Hpr Hi Hi0 Ht) El)
        as (Hpr1 & Hmono1 & Hreach1).
      destruct (IH _ _ Hpr1 Hr) as (Hpr' & Hmono' & Hreach').
      split; [done|]. split; [by auto|].
      intros i' n0' j [->|Hi']%elem_of_cons Hn0' Ht' Hj; [by auto|by eauto].
Qed.
End MeasuringPlacement.

Lemma MProgress_start nds cm : MProgress nds cm nds.
Proof. split; [done|]. intros j n n0 ??. left. congruence. Qed.

Lemma Measuring_layoutTree_placed fuel nds r :
  Measuring.layoutTree fuel nds = Some r ->
  MProgress (map (setDraggable false) nds) (buildChildrenMap nds) r
  /\ (forall i n0 j,
        map (setDraggable false) nds !! i = Some n0 ->
        truthyId (parentId n0) = false ->
        Reach (map (setDraggable false) nds) (buildChildrenMap nds) i j ->
        MPlaced (map (setDraggable false) nds) (buildChildrenMap nds) r j).
Proof.
  unfold Measuring.layoutTree. intros H.
  set (nds0 := map (setDraggable false) nds) in *.
  set (cm := buildChildrenMap nds) in *.
  destruct (Measuring_layoutRoots_placed nds0 cm fuel _ _ _
              (MProgress_start nds0 cm) H) as (Hpr & _ & Hreach).
  split; [done|]. intros i n0 j Hi. apply (Hreach i n0 j); [|done].
  apply elem_of_seq_0. by eapply lookup_lt_Some.
Qed.

Lemma MWidthIs_mskel nds nds' cm c w :
  map mskel nds = map mskel nds' -> MWidthIs nds cm c w -> MWidthIs nds' cm c w.
Proof.
  intros Hs [fuel H]. exists fuel.
  by rewrite <- (Measured_getSubtreeWidth_mskel _ _ _ _ Hs).
Qed.

Lemma MExpect_ext nds nds' cm i xc y :
  MSameRoots nds nds' -> MExpect nds cm i xc y -> MExpect nds' cm i xc y.
Proof.
  intros [Hs Hpos] H. induction H as
    [i n xc y Hi Ht Hx Hy
    |p pn pxc py ws k c w xc y HE IH Hp HW Hk Hw Hx Hy].
  - destruct (lookup_mskel _ _ _ _ Hs Hi) as (n' & Hi' & Hsk).
    destruct (Hpos i n n' Hi Hi' Ht) as [Hx' Hy'].
    eapply mexpect_root; [exact Hi'| | |].
    + by rewrite (skel_parentId _ _ (mskel_to_skel _ _ Hsk)).
    + rewrite (mskel_currentWidth _ _ Hsk). lra.
    + lra.
  - destruct (lookup_mskel _ _ _ _ Hs Hp) as (pn' & Hp' & Hsk).
    pose proof (skel_id _ _ (mskel_to_skel _ _ Hsk)) as Eid.
    eapply (mexpect_child nds' cm p pn' pxc py ws k c w); try done.
    + rewrite Eid. eapply Forall2_impl; [exact HW|].
      intros c' w'. by apply MWidthIs_mskel.
    + by rewrite Eid.
Qed.

Lemma MExpect_unique nds i xc y xc' y' :
  NoDup (map id nds) ->
  MExpect nds (buildChildrenMap nds) i xc y ->
  MExpect nds (buildChildrenMap nds) i xc' y' ->
  (xc == xc')%Q /\ (y == y')%Q.
Proof.
  intros Hnd H. revert xc' y'. induction H as
    [i n xc y Hi Ht Hx Hy
    |p pn pxc py ws k c w xc y HE IH Hp HW Hk Hw Hx Hy]; intros xc' y' H'.
  - destruct H' as
      [i n' xc' y' Hi' Ht' Hx' Hy'
      |p' pn' pxc' py' ws' k' c w' xc' y' HE' Hp' HW' Hk' Hw' Hx' Hy'].
    + assert (n' = n) as -> by congruence. split; lra.
    + exfalso. apply list_elem_of_lookup_2 in Hk'.
      apply elem_of_children in Hk' as (Htk & m & Hm & Hpar).
      assert (m = n) as -> by congruence.
      rewrite Hpar in Ht. simpl in Ht. congruence.
  - destruct H' as
      [i n' xc' y' Hi' Ht' Hx' Hy'
      |p' pn' pxc' py' ws' k' c w' xc' y' HE' Hp' HW' Hk' Hw' Hx' Hy'].
    + exfalso. apply list_elem_of_lookup_2 in Hk.
      apply elem_of_children in Hk as (Htk & m & Hm & Hpar).
      assert (m = n') as -> by congruence.
      rewrite Hpar in Ht'. simpl in Ht'. congruence.
    + assert (Eid : id pn = id pn').
      { pose proof (list_elem_of_lookup_2 _ _ _ Hk) as H1.
        pose proof (list_elem_of_lookup_2 _ _ _ Hk') as H2.
        apply elem_of_children in H1 as (_ & m & Hm & Hpar).
        apply elem_of_children in H2 as (_ & m' & Hm' & Hpar').
        congruence. }
      assert (p = p') as <- by (by eapply lookup_same_id).
      assert (pn' = pn) as -> by congruence.
      assert (ws' = ws) as -> by (by eapply Forall2_MWidthIs_unique).
      assert (k = k') as <-.
      { eapply NoDup_lookup; [apply (NoDup_children nds (id pn))|done|done]. }
      assert (w' = w) as -> by congruence.
      destruct (IH _ _ HE') as [Ex Ey]. split; lra.
Qed.

Lemma MExpect_Reach nds cm j xc y :
  MExpect nds cm j xc y ->
  exists i n0, nds !! i = Some n0 /\ truthyId (parentId n0) = false
               /\ Reach nds cm i j.
Proof.
  induction 1 as
    [i n xc y Hi Ht Hx Hy
    |p pn pxc py ws k c w xc y HE IH Hp HW Hk Hw Hx Hy].
  - exists i, n. split; [done|]. split; [done|]. apply reach_here.
  - destruct IH as (i & n0 & Hi & Ht & HR). exists i, n0.
    split; [done|]. split; [done|].
    eapply Reach_snoc; [exact HR|exact Hp|]. by eapply list_elem_of_lookup_2.
Qed.

Lemma MSameRoots_setDraggable nds b :
  MSameRoots (map (setDraggable b) nds) nds.
Proof.
  split; [by rewrite List.map_map|].
  intros i n n' Hi Hi' _. change ((setDraggable b <$> nds) !! i = Some n) in Hi.
  rewrite list_lookup_fmap, Hi' in Hi. injection Hi as <-. simpl.
  split; reflexivity.
Qed.

(** The outcome of a measuring layout pass, stated on its input. *)
Lemma Measuring_layoutTree_outcome fuel nds r :
  Measuring.layoutTree fuel nds = Some r ->
  map mskel r = map mskel nds
  /\ (forall i n0 j n, nds !! i = Some n0 -> truthyId (parentId n0) = false ->
        Reach nds (buildChildrenMap nds) i j -> r !! j = Some n ->
        exists xc y, MExpect nds (buildChildrenMap nds) j xc y
             /\ (fst (position n) == xc - Measured.currentWidth n / 2)%Q
             /\ (snd (position n) == y)%Q).
Proof.
  intros H. pose proof (Measuring_layoutTree_mskel _ _ _ H) as Hs.
  destruct (Measuring_layoutTree_placed _ _ _ H) as [[_ Hpr] Hreach].
  pose proof (MSameRoots_setDraggable nds false) as HSR.
  split; [done|].
  intros i n0 j n Hi Ht HR Hj.
  destruct (Hreach i (setDraggable false n0) j) as
    (n' & xc & y & Hn' & HE & Hx & Hy).
  + change ((setDraggable false <$> nds) !! i = Some (setDraggable false n0)).
    by rewrite list_lookup_fmap, Hi.
  + done.
  + eapply Reach_skel; [|exact HR]. symmetry. apply skel_setDraggable.
  + assert (n' = n) as -> by congruence. exists xc, y.
    split; [|done]. by eapply MExpect_ext.
Qed.

(** After a measuring layout pass of a tree every node sits where the
    layout intends it. *)
Lemma Measuring_all_placed fuel nds r :
  TreeInv nds -> IdsTruthy nds -> Measuring.layoutTree fuel nds = Some r ->
  forall j n, r !! j = Some n ->
    exists xc y, MExpect nds (buildChildrenMap nds) j xc y
      /\ (fst (position n) == xc - Measured.currentWidth n / 2)%Q
      /\ (snd (position n) == y)%Q.
Proof.
  intros HT Ht H j n Hj.
  destruct (Measuring_layoutTree_outcome _ _ _ H) as (Hs & Hreach).
  destruct (lookup_mskel _ _ _ _ Hs Hj) as (n0 & Hj0 & Hsk).
  destruct (reaches_root _ HT n0) as [k Hk]; [by eapply list_elem_of_lookup_2|].
  destruct (tree_reach nds HT Ht k j n0 Hj0 Hk) as (i & m0 & Hi & Hm0 & HR).
  apply (Hreach i m0 j n Hi); [by rewrite Hm0|done|done].
Qed.

Lemma currentWidth_pos n :
  (forall w, measuredWidth n = Some w -> (0 <= w)%Q) ->
  (0 < Measured.currentWidth n)%Q.
Proof.
  intros H. unfold Measured.currentWidth.
  destruct (measuredWidth n) as [w|]; [|reflexivity].
  specialize (H w eq_refl).
  destruct (Qeq_bool w 0) eqn:E; [reflexivity|].
  apply Qeq_bool_neq in E. lra.
Qed.

Lemma Measured_getSubtreeWidth_ge fuel nds cm i n w :
  nds !! i = Some n ->
  Measured.getSubtreeWidth fuel nds cm i = Some w ->
  (Measured.currentWidth n <= w)%Q.
Proof.
  intros Hi. destruct fuel as [|fuel]; simpl; [done|]. rewrite Hi.
  destruct (length _ =? 0)%nat; [intros [= <-]; lra|].
  destruct (sumWidths _ _ _) as [t|]; [|done].
  intros [= <-]. apply Q.le_max_l.
Qed.

Lemma tree_mwidths nds p pn :
  TreeInv nds -> nds !! p = Some pn ->
  exists ws, Forall2 (MWidthIs nds (buildChildrenMap nds))
               (childrenOf (buildChildrenMap nds) (id pn)) ws.
Proof.
  intros HT Hp. destruct (TreeInv_Ranked nds HT) as [rk Hrk].
  destruct (rank_bound rk nds) as [F HF].
  destruct (mapWidths_total
              (Measured.getSubtreeWidth F nds (buildChildrenMap nds))
              (childrenOf (buildChildrenMap nds) (id pn))) as [ws Hws].
  - intros c (_ & n & Hn & _)%elem_of_children.
    apply (Measured_getSubtreeWidth_total (fun _ => True) rk nds _ Hrk
             (ChildrenOK_build nds) F c n); [done|done|].
    apply HF. by eapply list_elem_of_lookup_2.
  - exists ws. revert Hws. apply mapWidths_Forall2. intros c w Hw. by exists F.
Qed.

Lemma Measuring_child_place fuel nds r p pn pr ws k c w nc :
  TreeInv nds -> IdsTruthy nds ->
  Measuring.layoutTree fuel nds = Some r ->
  nds !! p = Some pn -> r !! p = Some pr ->
  Forall2 (MWidthIs nds (buildChildrenMap nds))
          (childrenOf (buildChildrenMap nds) (id pn)) ws ->
  childrenOf (buildChildrenMap nds) (id pn) !! k = Some c ->
  ws !! k = Some w -> r !! c = Some nc ->
  (mslotLeft nc w == mslotLeft pr (totalWidth ws) + slotOffset ws k)%Q
  /\ (snd (position nc) == snd (position pr) + Measuring.VERTICAL_GAP)%Q.
Proof.
  intros HT Ht H Hp Hpr HW Hk Hw Hc.
  pose proof (ids_unique _ HT) as Hnd.
  destruct (Measuring_all_placed _ _ _ HT Ht H p pr Hpr)
    as (pxc & py & HEp & Hpx & Hpy).
  destruct (Measuring_all_placed _ _ _ HT Ht H c nc Hc)
    as (xc & y & HEc & Hx & Hy).
  assert (HEc' : MExpect nds (buildChildrenMap nds) c
                   (pxc - totalWidth ws / 2 + slotOffset ws k + w / 2)%Q
                   (py + Measuring.VERTICAL_GAP)%Q).
  { eapply (mexpect_child nds _ p pn pxc py ws k c w); eauto; reflexivity. }
  destruct (MExpect_unique _ _ _ _ _ _ Hnd HEc HEc') as [Ex Ey].
  unfold mslotLeft, Measuring.VERTICAL_GAP in *. split; qlra.
Qed.

Lemma Measuring_child_row fuel nds r p np c nc :
  TreeInv nds -> IdsTruthy nds -> Measuring.layoutTree fuel nds = Some r ->
  r !! p = Some np -> r !! c = Some nc -> parentId nc = Some (id np) ->
  (snd (position nc) == snd (position np) + Measuring.VERTICAL_GAP)%Q.
Proof.
  intros HT Ht H Hp Hc Hpar.
  pose proof (Measuring_layoutTree_mskel _ _ _ H) as Hs.
  destruct (lookup_mskel _ _ _ _ Hs Hp) as (pn0 & Hp0 & Hskp).
  destruct (lookup_mskel _ _ _ _ Hs Hc) as (cn0 & Hc0 & Hskc).
  destruct (tree_mwidths nds p pn0 HT Hp0) as [ws HW].
  assert (Hin : c ∈ childrenOf (buildChildrenMap nds) (id pn0)).
  { apply elem_of_children. split.
    - apply Ht. by eapply list_elem_of_lookup_2.
    - exists cn0. split; [done|]. unfold mskel in *. congruence. }
  apply list_elem_of_lookup in Hin as [k Hk].
  destruct (lookup_lt_is_Some_2 ws k) as [w Hw].
  { rewrite <- (Forall2_length _ _ _ HW). by eapply lookup_lt_Some. }
  by destruct (Measuring_child_place fuel nds r p pn0 np ws k c w nc
                 HT Ht H Hp0 Hp HW Hk Hw Hc).
Qed.

Lemma Measuring_reach_rows fuel nds r :
  TreeInv nds -> IdsTruthy nds -> Measuring.layoutTree fuel nds = Some r ->
  forall p j, Reach r (buildChildrenMap nds) p j ->
  forall np nj, r !! p = Some np -> r !! j = Some nj ->
    j = p
    \/ (snd (position np) + Measuring.VERTICAL_GAP <= snd (position nj))%Q.
Proof.
  intros HT Ht H. pose proof (Measuring_layoutTree_mskel _ _ _ H) as Hs.
  induction 1 as [i|i n c j Hi Hc Hj IH]; intros np nj Hp Hnj; [by left|right].
  assert (n = np) as -> by congruence.
  apply elem_of_children in Hc as (_ & c0 & Hc0 & Hpar).
  destruct (lookup_mskel _ _ _ _ (eq_sym Hs) Hc0) as (nc & Hnc & Hskc).
  pose proof (Measuring_child_row fuel nds r i np c nc HT Ht H Hp Hnc) as Hrow.
  assert (Hpar' : parentId nc = Some (id np))
    by (unfold mskel in Hskc; congruence).
  specialize (Hrow Hpar').
  destruct (IH nc nj Hnc Hnj) as [->|Hle].
  - assert (nj = nc) as -> by congruence. lra.
  - unfold Measuring.VERTICAL_GAP in *. lra.
Qed.

Section MeasuringApart.
Variable f0 : nat.
Variable nds r : list Node.
Hypothesis HT : TreeInv nds.
Hypothesis Ht : IdsTruthy nds.
Hypothesis HWok : WidthsOk nds.
Hypothesis H : Measuring.layoutTree f0 nds = Some r.

Lemma Measuring_width_pos fuel c w :
  Measured.getSubtreeWidth fuel nds (buildChildrenMap nds) c = Some w ->
  (0 <= w)%Q.
Proof.
  intros Hw. destruct (nds !! c) as [n|] eqn:Hc.
  - pose proof (Measured_getSubtreeWidth_ge _ _ _ _ _ _ Hc Hw).
    pose proof (currentWidth_pos n
                  (fun w Hm => HWok n w (list_elem_of_lookup_2 _ _ _ Hc) Hm)).
    lra.
  - destruct fuel; simpl in Hw; [done|]. by rewrite Hc in Hw.
Qed.

(** The boxes of a subtree lie within the slot of its root. *)
Lemma Measuring_subtree_within : forall fuel i ni w,
  r !! i = Some ni ->
  Measured.getSubtreeWidth fuel nds (buildChildrenMap nds) i = Some w ->
  forall j nj, Reach r (buildChildrenMap nds) i j -> r !! j = Some nj ->
    (mslotLeft ni w <= fst (position nj))%Q
    /\ (fst (position nj) + Measured.currentWidth nj
        <= mslotLeft ni w + w)%Q.
Proof.
  pose proof (Measuring_layoutTree_mskel _ _ _ H) as Hs.
  set (cm := buildChildrenMap nds).
  induction fuel as [|fuel IH]; intros i ni w Hi Hw; [done|].
  pose proof Hw as Hw'. simpl in Hw.
  destruct (lookup_mskel _ _ _ _ Hs Hi) as (n0 & Hi0 & Hsk).
  rewrite Hi0 in Hw.
  pose proof (Measured_getSubtreeWidth_ge _ _ _ _ _ _ Hi0 Hw') as Hge.
  rewrite (mskel_currentWidth _ _ Hsk) in Hge.
  pose proof (skel_id _ _ (mskel_to_skel _ _ Hsk)) as Eid.
  assert (Hreach : forall j, Reach r cm i j ->
            j = i \/ exists c, c ∈ childrenOf cm (id n0) /\ Reach r cm c j).
  { intros j Hj. rewrite Eid. by apply Reach_children. }
  assert (Hself : (mslotLeft ni w <= fst (position ni))%Q
                  /\ (fst (position ni) + Measured.currentWidth ni
                      <= mslotLeft ni w + w)%Q).
  { unfold mslotLeft. split; qlra. }
  destruct (length (childrenOf cm (id n0)) =? 0)%nat eqn:El.
  { apply Nat.eqb_eq in El. intros j nj [->|(c & Hc & _)]%Hreach Hnj.
    - by assert (nj = ni) as -> by congruence.
    - destruct (childrenOf cm (id n0)); [by apply elem_of_nil in Hc|done]. }
  rewrite sumWidths_mapWidths in Hw.
  destruct (mapWidths _ _) as [ws|] eqn:Em; [|done]. injection Hw as Hw.
  pose proof (mapWidths_length _ _ _ Em) as Hlen.
  assert (HW : Forall2 (MWidthIs nds cm) (childrenOf cm (id n0)) ws).
  { revert Em. apply mapWidths_Forall2. intros c w0 Hc. by exists fuel. }
  assert (Hpos0 : Forall (fun w => (0 <= w)%Q) ws).
  { apply Forall_forall. intros wk (k & Hk)%list_elem_of_lookup.
    destruct (lookup_lt_is_Some_2 (childrenOf cm (id n0)) k) as [c Hc].
    { rewrite <- Hlen. by eapply lookup_lt_Some. }
    eapply Measuring_width_pos. by eapply mapWidths_lookup. }
  assert (HTw : (totalWidth ws <= w)%Q).
  { rewrite <- Hw, <- Hlen. fold (sumQ ws).
    change Measured.HORIZONTAL_GAP with HORIZONTAL_GAP.
    fold (totalWidth ws). apply Q.le_max_r. }
  intros j nj [->|(c & (k & Hc)%list_elem_of_lookup & Hj)]%Hreach Hnj.
  { by assert (nj = ni) as -> by congruence. }
  destruct (lookup_lt_is_Some_2 ws k) as [wk Hwk].
  { rewrite Hlen. by eapply lookup_lt_Some. }
  pose proof (list_elem_of_lookup_2 _ _ _ Hc) as Hcin.
  apply elem_of_children in Hcin as (_ & m & Hm & _).
  destruct (lookup_mskel _ _ _ _ (eq_sym Hs) Hm) as (nc & Hnc & _).
  destruct (Measuring_child_place f0 nds r i n0 ni ws k c wk nc
              HT Ht H Hi0 Hi HW Hc Hwk Hnc) as [Eslot _].
  destruct (IH c nc wk Hnc (mapWidths_lookup _ _ _ _ _ _ Em Hc Hwk)
              j nj Hj Hnj) as [HL HR].
  pose proof (slotOffset_nonneg ws k Hpos0
                ltac:(by eapply lookup_lt_Some)) as Hoff.
  pose proof (slotOffset_le ws Hpos0 (length ws) k wk
                ltac:(by eapply lookup_lt_Some) ltac:(lia) Hwk) as Hend.
  rewrite slotOffset_length in Hend.
  unfold mslotLeft in *. split; qlra.
Qed.

Lemma Measuring_subtree_apart : forall fuel p np w,
  r !! p = Some np ->
  Measured.getSubtreeWidth fuel nds (buildChildrenMap nds) p = Some w ->
  forall a b na nb,
    Reach r (buildChildrenMap nds) p a -> Reach r (buildChildrenMap nds) p b ->
    a <> b -> r !! a = Some na -> r !! b = Some nb -> MApart na nb.
Proof.
  pose proof (Measuring_layoutTree_mskel _ _ _ H) as Hs.
  set (cm := buildChildrenMap nds).
  induction fuel as [|fuel IH]; intros p np w Hp Hw; [done|].
  simpl in Hw.
  destruct (lookup_mskel _ _ _ _ Hs Hp) as (n0 & Hp0 & Hsk).
  rewrite Hp0 in Hw.
  pose proof (skel_id _ _ (mskel_to_skel _ _ Hsk)) as Eid.
  assert (Hreach : forall j, Reach r cm p j ->
            j = p \/ exists c, c ∈ childrenOf cm (id n0) /\ Reach r cm c j).
  { intros j Hj. rewrite Eid. by apply Reach_children. }
  assert (Hbelow : forall j nj, Reach r cm p j -> j <> p -> r !! j = Some nj ->
            (snd (position np) + Measuring.VERTICAL_GAP
             <= snd (position nj))%Q).
  { intros j nj Hj Hne Hnj.
    by destruct (Measuring_reach_rows f0 nds r HT Ht H p j Hj np nj Hp Hnj). }
  destruct (length (childrenOf cm (id n0)) =? 0)%nat eqn:El.
  { apply Nat.eqb_eq in El.
    assert (Honly : forall j, Reach r cm p j -> j = p).
    { intros j [->|(c & Hc & _)]%Hreach; [done|].
      destruct (childrenOf cm (id n0)); [by apply elem_of_nil in Hc|done]. }
    intros a b na nb ->%Honly ->%Honly Hne. done. }
  rewrite sumWidths_mapWidths in Hw.
  destruct (mapWidths _ _) as [ws|] eqn:Em; [|done]. clear Hw.
  pose proof (mapWidths_length _ _ _ Em) as Hlen.
  assert (HW : Forall2 (MWidthIs nds cm) (childrenOf cm (id n0)) ws).
  { revert Em. apply mapWidths_Forall2. intros c w' Hc. by exists fuel. }
  assert (Hpos0 : Forall (fun w => (0 <= w)%Q) ws).
  { apply Forall_forall. intros wk (k & Hk)%list_elem_of_lookup.
    destruct (lookup_lt_is_Some_2 (childrenOf cm (id n0)) k) as [c Hc].
    { rewrite <- Hlen. by eapply lookup_lt_Some. }
    eapply Measuring_width_pos. by eapply mapWidths_lookup. }
  assert (Hside : forall k l ck cl a b na nb,
            k < l ->
            childrenOf cm (id n0) !! k = Some ck ->
            childrenOf cm (id n0) !! l = Some cl ->
            Reach r cm ck a -> Reach r cm cl b ->
            r !! a = Some na -> r !! b = Some nb ->
            (fst (position na) + Measured.currentWidth na
             + Measured.HORIZONTAL_GAP <= fst (position nb))%Q).
  { intros k l ck cl a b na nb Hkl Hk Hl Ha Hb Hna Hnb.
    destruct (lookup_lt_is_Some_2 ws k) as [wk Hwk].
    { rewrite Hlen. by eapply lookup_lt_Some. }
    destruct (lookup_lt_is_Some_2 ws l) as [wl Hwl].
    { rewrite Hlen. by eapply lookup_lt_Some. }
    assert (Hnode : forall c, c ∈ childrenOf cm (id n0) ->
              exists nc, r !! c = Some nc).
    { intros c (_ & m & Hm & _)%elem_of_children.
      destruct (lookup_mskel _ _ _ _ (eq_sym Hs) Hm) as (nc & Hnc & _).
      by exists nc. }
    destruct (Hnode ck (list_elem_of_lookup_2 _ _ _ Hk)) as [nk Hnk].
    destruct (Hnode cl (list_elem_of_lookup_2 _ _ _ Hl)) as [nl Hnl].
    destruct (Measuring_child_place f0 nds r p n0 np ws k ck wk nk
                HT Ht H Hp0 Hp HW Hk Hwk Hnk) as [Ek _].
    destruct (Measuring_child_place f0 nds r p n0 np ws l cl wl nl
                HT Ht H Hp0 Hp HW Hl Hwl Hnl) as [El' _].
    destruct (Measuring_subtree_within fuel ck nk wk Hnk
                (mapWidths_lookup _ _ _ _ _ _ Em Hk Hwk) a na Ha Hna)
      as [_ HR1].
    destruct (Measuring_subtree_within fuel cl nl wl Hnl
                (mapWidths_lookup _ _ _ _ _ _ Em Hl Hwl) b nb Hb Hnb)
      as [HL2 _].
    pose proof (slotOffset_le ws Hpos0 l k wk Hkl
                  ltac:(apply Nat.lt_le_incl; by eapply lookup_lt_Some) Hwk).
    unfold mslotLeft, Measured.HORIZONTAL_GAP in *. qlra. }
  intros a b na nb Ha Hb Hne Hna Hnb.
  destruct (Hreach a Ha) as [->|(ca & (k & Hk)%list_elem_of_lookup & Hca)];
    destruct (Hreach b Hb) as [->|(cb & (l & Hl)%list_elem_of_lookup & Hcb)].
  - done.
  - left. assert (na = np) as -> by congruence.
    apply (Hbelow b nb Hb); [congruence|done].
  - right. left. assert (nb = np) as -> by congruence.
    apply (Hbelow a na Ha); [congruence|done].
  - destruct (lt_eq_lt_dec k l) as [[Hlt|<-]|Hlt].
    + right. right. left. by eapply (Hside k l ca cb a b).
    + assert (cb = ca) as -> by congruence.
      destruct (lookup_lt_is_Some_2 ws k) as [wk Hwk].
      { rewrite Hlen. by eapply lookup_lt_Some. }
      pose proof (list_elem_of_lookup_2 _ _ _ Hk) as Hcin.
      apply elem_of_children in Hcin as (_ & m & Hm & _).
      destruct (lookup_mskel _ _ _ _ (eq_sym Hs) Hm) as (nc & Hnc & _).
      apply (IH ca nc wk Hnc (mapWidths_lookup _ _ _ _ _ _ Em Hk Hwk)
               a b na nb Hca Hcb Hne Hna Hnb).
    + right. right. right. by eapply (Hside l k cb ca b a).
Qed.
End MeasuringApart.

Lemma WholeInput_WidthsOk nds : WholeInput nds -> WidthsOk nds.
Proof. intros (_ & _ & H) n w Hn Hw. by destruct (H n w Hn Hw). Qed.

(** X25. The layout of the measuring editor on a tree with whole-number
    input (the root at whole coordinates, every measured width whole
    and not negative, at most a thousand nodes), on which the arithmetic
    of the host is exact: the pass returns, keeps the content of every
    node, and no two boxes overlap, each box as wide as the effective
    width of its node (the measured width, or the default when it is
    missing or zero): two different nodes are in different rows or side
    by side with at least [HORIZONTAL_GAP] between them. *)
Theorem measuring_layout_boxes_apart nds :
  TreeInv nds -> IdsTruthy nds -> WholeInput nds ->
  exists r,
    Returns (fun fuel => Measuring.layoutTree fuel nds) r
    /\ map content r = map content nds
    /\ (forall a b na nb,
          r !! a = Some na -> r !! b = Some nb -> a <> b -> MApart na nb).
Proof.
  intros HT Ht HWh. pose proof (WholeInput_WidthsOk _ HWh) as HW.
  destruct (Measuring_layoutTree_total nds HT) as [r HR].
  exists r. split; [done|]. destruct HR as [f H]. specialize (H f (le_n _)).
  split; [by eapply Measuring_layoutTree_content|].
  intros a b na nb Ha Hb Hne.
  pose proof (Measuring_layoutTree_mskel _ _ _ H) as Hs.
  pose proof (mskel_skel _ _ Hs) as Hsk.
  destruct (TreeInv_Ranked nds HT) as [rk Hrk].
  destruct (rank_bound rk nds) as [F HF].
  assert (Hroot : forall j nj, r !! j = Some nj ->
            exists i n0, nds !! i = Some n0 /\ parentId n0 = None
              /\ Reach r (buildChildrenMap nds) i j).
  { intros j nj Hj.
    destruct (lookup_skel _ _ _ _ Hsk Hj) as (n0 & Hj0 & _).
    destruct (reaches_root _ HT n0) as [k Hk]; [by eapply list_elem_of_lookup_2|].
    destruct (tree_reach nds HT Ht k j n0 Hj0 Hk) as (i & m0 & Hi & Hm0 & HR).
    exists i, m0. split; [done|]. split; [done|].
    eapply Reach_skel; [|exact HR]. done. }
  destruct (Hroot a na Ha) as (i & n0 & Hi & Hn0 & HRa).
  destruct (Hroot b nb Hb) as (i' & n0' & Hi' & Hn0' & HRb).
  assert (n0' = n0) as ->.
  { eapply (root_unique nds); eauto; by eapply list_elem_of_lookup_2. }
  assert (i' = i) as ->.
  { by eapply (lookup_same_id nds _ _ n0 n0 (ids_unique _ HT)). }
  destruct (lookup_skel _ _ _ _ (eq_sym Hsk) Hi) as (ni & Hni & _).
  destruct (Measured_getSubtreeWidth_total (fun _ => True) rk nds _ Hrk
              (ChildrenOK_build nds) F i n0 Hi I) as [w Hw].
  { apply HF. by eapply list_elem_of_lookup_2. }
  by apply (Measuring_subtree_apart f nds r HT Ht HW H F i ni w Hni Hw
              a b na nb).
Qed.

Lemma whole_sound q : whole q = true -> Whole q.
Proof.
  unfold whole. intros [Hd Hn]%andb_true_iff.
  apply Pos.eqb_eq in Hd. apply Z.leb_le in Hn.
  exists (Qnum q). split; [|done].
  destruct q as [a b]. simpl in *. subst b. reflexivity.
Qed.

Lemma wholeInput_sound nds : wholeInput nds = true -> WholeInput nds.
Proof.
  unfold wholeInput. rewrite !andb_true_iff, !forallb_forall.
  intros [[Hl Hr] Hw]. apply Nat.leb_le in Hl. split; [done|]. split.
  - intros n Hn Hp. specialize (Hr n ltac:(by apply list_elem_of_In)).
    rewrite Hp in Hr. apply andb_true_iff in Hr as [Hx Hy].
    split; by apply whole_sound.
  - intros n w Hn Hm. specialize (Hw n ltac:(by apply list_elem_of_In)).
    rewrite Hm in Hw. apply andb_true_iff in Hw as [H0 H1].
    split; [by apply Qle_bool_iff|by apply whole_sound].
Qed.

Lemma measuring_layout_boxes_apart_witness :
  exists r,
    Returns (fun fuel => Measuring.layoutTree fuel measuredTree) r
    /\ map content r = map content measuredTree
    /\ (forall a b na nb,
          r !! a = Some na -> r !! b = Some nb -> a <> b -> MApart na nb).
Proof.
  apply (measuring_layout_boxes_apart measuredTree).
  - apply treeOk_sound. vm_compute. reflexivity.
  - apply idsTruthy_sound. vm_compute. reflexivity.
  - apply wholeInput_sound. vm_compute. reflexivity.
Defined.

Lemma Measuring_root_kept fuel nds r i n0 n :
  TreeInv nds -> IdsTruthy nds -> Measuring.layoutTree fuel nds = Some r ->
  nds !! i = Some n0 -> r !! i = Some n -> truthyId (parentId n0) = false ->
  (fst (position n) == fst (position n0))%Q
  /\ (snd (position n) == snd (position n0))%Q.
Proof.
  intros HT Ht H Hi Hr Hroot.
  pose proof (Measuring_layoutTree_mskel _ _ _ H) as Hs.
  destruct (lookup_mskel _ _ _ _ Hs Hr) as (n0' & Hi' & Hsk).
  assert (n0' = n0) as -> by congruence.
  destruct (Measuring_all_placed _ _ _ HT Ht H i n Hr)
    as (xc & y & HE & Hx & Hy).
  assert (HE' : MExpect nds (buildChildrenMap nds) i
                  (fst (position n0) + Measured.currentWidth n0 / 2)%Q
                  (snd (position n0))).
  { eapply mexpect_root; [exact Hi|done|reflexivity|reflexivity]. }
  destruct (MExpect_unique _ _ _ _ _ _ (ids_unique _ HT) HE HE') as [Ex Ey].
  rewrite <- (mskel_currentWidth _ _ Hsk) in Hx. split; qlra.
Qed.

(** X26. The rows of the measuring layout on a tree: the root keeps its
    [y], every child is exactly one [VERTICAL_GAP] below its parent, and
    the root keeps its [x] when that and its effective width are whole
    numbers (the pass computes [x + w / 2 - w / 2], which the host need
    not round back to [x] for a fractional width). *)
Theorem measuring_layout_rows nds :
  TreeInv nds -> IdsTruthy nds ->
  exists r,
    Returns (fun fuel => Measuring.layoutTree fuel nds) r
    /\ (forall i n0 n,
          nds !! i = Some n0 -> r !! i = Some n -> parentId n0 = None ->
          (snd (position n) == snd (position n0))%Q
          /\ (Whole (fst (position n0)) ->
              Whole (Measured.currentWidth n0) ->
              (fst (position n) == fst (position n0))%Q))
    /\ (forall p np c nc,
          r !! p = Some np -> r !! c = Some nc ->
          parentId nc = Some (id np) ->
          (snd (position nc)
           == snd (position np) + Measuring.VERTICAL_GAP)%Q).
Proof.
  intros HT Ht. destruct (Measuring_layoutTree_total nds HT) as [r HR].
  exists r. split; [done|]. destruct HR as [f H]. specialize (H f (le_n _)).
  split.
  - intros i n0 n Hi Hr Hp.
    destruct (Measuring_root_kept f nds r i n0 n HT Ht H Hi Hr) as [Hx Hy];
      [by rewrite Hp|].
    split; [done|]. intros _ _. exact Hx.
  - intros p np c nc. by apply (Measuring_child_row f nds r).
Qed.

Lemma measuring_layout_rows_witness :
  exists r,
    Returns (fun fuel => Measuring.layoutTree fuel measuredTree) r
    /\ (forall i n0 n,
          measuredTree !! i = Some n0 -> r !! i = Some n ->
          parentId n0 = None ->
          (snd (position n) == snd (position n0))%Q
          /\ (Whole (fst (position n0)) ->
              Whole (Measured.currentWidth n0) ->
              (fst (position n) == fst (position n0))%Q))
    /\ (forall p np c nc,
          r !! p = Some np -> r !! c = Some nc ->
          parentId nc = Some (id np) ->
          (snd (position nc)
           == snd (position np) + Measuring.VERTICAL_GAP)%Q).
Proof.
  apply (measuring_layout_rows measuredTree).
  - apply treeOk_sound. vm_compute. reflexivity.
  - apply idsTruthy_sound. vm_compute. reflexivity.
Defined.

(** X27. Laying out the result of a layout pass of the measuring editor
    again moves nothing: with unchanged measured widths the second pass
    returns every node at the place (as numbers) the first pass gave it,
    with the same content. *)
Theorem measuring_layout_stable nds :
  TreeInv nds -> IdsTruthy nds ->
  exists r,
    Returns (fun fuel => Measuring.layoutTree fuel nds) r
    /\ exists r',
         Returns (fun fuel => Measuring.layoutTree fuel r) r'
         /\ map content r' = map content r
         /\ forall j n n',
              r !! j = Some n -> r' !! j = Some n' ->
              (fst (position n') == fst (position n))%Q
              /\ (snd (position n') == snd (position n))%Q.
Proof.
  intros HT Ht. destruct (Measuring_layoutTree_total nds HT) as [r HR].
  exists r. split; [done|]. destruct HR as [f H]. specialize (H f (le_n _)).
  pose proof (Measuring_layoutTree_mskel _ _ _ H) as Hs.
  pose proof (mskel_skel _ _ Hs) as Hsk.
  assert (HT' : TreeInv r) by (by eapply TreeInv_skel).
  assert (Ht' : IdsTruthy r) by (by eapply IdsTruthy_skel).
  destruct (Measuring_layoutTree_total r HT') as [r' HR'].
  exists r'. split; [done|].
  destruct HR' as [f' H']. specialize (H' f' (le_n _)).
  split; [by eapply Measuring_layoutTree_content|].
  intros j n n' Hj Hj'.
  pose proof (Measuring_layoutTree_mskel _ _ _ H') as Hs'.
  destruct (lookup_mskel _ _ _ _ Hs' Hj') as (m & Hm & Hskn).
  assert (m = n) as -> by congruence.
  destruct (Measuring_all_placed _ _ _ HT Ht H j n Hj)
    as (xc & y & HE & Hx & Hy).
  destruct (Measuring_all_placed _ _ _ HT' Ht' H' j n' Hj')
    as (xc' & y' & HE' & Hx' & Hy').
  assert (HSR : MSameRoots nds r).
  { split; [done|]. intros i m m' Hi Hi' Hroot.
    destruct (Measuring_root_kept f nds r i m m' HT Ht H Hi Hi' Hroot).
    split; lra. }
  pose proof (MExpect_ext nds r _ j xc y HSR HE) as HE2.
  rewrite <- (buildChildrenMap_skel _ _ Hsk) in HE2.
  destruct (MExpect_unique _ _ _ _ _ _ (ids_unique _ HT') HE' HE2) as [Ex Ey].
  rewrite (mskel_currentWidth _ _ Hskn) in Hx. split; qlra.
Qed.

Lemma measuring_layout_stable_witness :
  exists r,
    Returns (fun fuel => Measuring.layoutTree fuel measuredTree) r
    /\ exists r',
         Returns (fun fuel => Measuring.layoutTree fuel r) r'
         /\ map content r' = map content r
         /\ forall j n n',
              r !! j = Some n -> r' !! j = Some n' ->
              (fst (position n') == fst (position n))%Q
              /\ (snd (position n') == snd (position n))%Q.
Proof.
  apply (measuring_layout_stable measuredTree).
  - apply treeOk_sound. vm_compute. reflexivity.
  - apply idsTruthy_sound. vm_compute. reflexivity.
Defined.
